(** * Multimap: a shallow embedding of the list / shard / table core

    The development follows the C++ sources of the Multimap library:
    - [UintVector] (delta-compressed block-id sequence),
    - [List] ([List::Add], [List::Flush], the mutable iterator),
    - [Shard] ([put], [remove], [replace], [contains]),
    - [Table] ([close], [open], [forEachKey], the functions that flush
      every list),
    - [Map::getPartition] and [Version::checkCompatibility],
    - the predicates of callables.hpp.

    Machine integers are modelled as [Z] with the wrap-around written out,
    byte buffers as [list Z] (one element per byte, 0..255), C++ assertions
    as an explicit outcome ([AssertionFailed]) that carries the state in
    which the assertion fired. *)

From Stdlib Require Import String ZArith List Lia Bool Arith.
Import ListNotations.
Open Scope Z_scope.

(* ================================================================== *)
(** * Part I: definitions                                              *)
(* ================================================================== *)

(** ** Machine words and results *)

Definition byte := Z.
Definition Bytes := list byte.

Definition u32 (x : Z) : Z := x mod 2 ^ 32.
Definition u16 (x : Z) : Z := x mod 2 ^ 16.

(** [Bytes::size()]. *)
Definition Bytes_size (b : Bytes) : Z := Z.of_nat (length b).

(** [Bytes::operator==]. *)
Fixpoint Bytes_eqb (a b : Bytes) : bool :=
  match a, b with
  | [], [] => true
  | x :: a', y :: b' => (x =? y) && Bytes_eqb a' b'
  | _, _ => false
  end.

(** Outcome of a call: normal return; an exception thrown by [check]
    ([std::runtime_error]); an [assert] / [MT_ASSERT_*] that fired; or a run
    that C++ leaves undefined (a read past a buffer).  The last three carry
    the state reached at that point. *)
Inductive result (A : Type) : Type :=
| Ok (a : A)
| Thrown (a : A)
| AssertionFailed (a : A)
| Undefined (a : A).
Arguments Ok {A} a.
Arguments Thrown {A} a.
Arguments AssertionFailed {A} a.
Arguments Undefined {A} a.

Definition is_Ok {A} (r : result A) : bool :=
  match r with Ok _ => true | _ => false end.

Definition state_of {A} (r : result A) : A :=
  match r with
  | Ok a => a | Thrown a => a | AssertionFailed a => a | Undefined a => a
  end.

(** Sequencing: the continuation runs after a normal return only; [stop]
    says what the state of the caller is when the callee did not return. *)
Definition bind {A B} (r : result A) (stop : A -> B) (k : A -> result B)
  : result B :=
  match r with
  | Ok a => k a
  | Thrown a => Thrown (stop a)
  | AssertionFailed a => AssertionFailed (stop a)
  | Undefined a => Undefined (stop a)
  end.

Definition map_result {A B} (f : A -> B) (r : result A) : result B :=
  bind r f (fun a => Ok (f a)).

(** [update_nth n f l] applies [f] to the element at index [n], if any. *)
Fixpoint update_nth {A} (n : nat) (f : A -> A) (l : list A) : list A :=
  match l, n with
  | [], _ => []
  | x :: l', O => f x :: l'
  | x :: l', S n' => x :: update_nth n' f l'
  end.

(** Little-endian 32-bit fields ([readUint32] / [writeUint32] are [memcpy]
    of a [std::uint32_t] on the little-endian targets the library supports). *)
Definition writeUint32 (source : Z) : list byte :=
  [ source mod 256; (source / 256) mod 256;
    (source / 65536) mod 256; (source / 16777216) mod 256 ].

Definition readUint32 (source : list byte) : Z :=
  match source with
  | b0 :: b1 :: b2 :: b3 :: _ => b0 + 256 * b1 + 65536 * b2 + 16777216 * b3
  | _ => 0
  end.

(** Overwrites [buf] from position [pos] on with [bs] ([memcpy] into a
    buffer that is large enough). *)
Definition write_at (pos : Z) (bs : list byte) (buf : list byte) : list byte :=
  firstn (Z.to_nat pos) buf ++ bs
    ++ skipn (Z.to_nat pos + length bs) buf.

(** ** Varint *)

Module Varint.

(** Modelled from the spec: Varint.hpp is not part of the sources.  The spec
    (4.2) gives the format: a 32-bit unsigned value in 1..5 bytes,
    little-endian groups of 7 bits, high bit = continuation; and the limit
    [varint_max = 2^28 - 1], the largest value that takes four bytes, which
    is [Varint::Limits::N4_MAX_UINT] in [UintVector::add]. *)
Definition N4_MAX_UINT : Z := 2 ^ 28 - 1.

Fixpoint encode (fuel : nat) (v : Z) : list byte :=
  match fuel with
  | O => []
  | S f => if v <? 128 then [v] else (v mod 128 + 128) :: encode f (v / 128)
  end.

Definition bytes_of (v : Z) : list byte := encode 5 v.

(** [Varint::writeUint(value, target, size)]: the bytes written at
    [target]; nothing is written when they do not fit into [size]. *)
Definition writeUint (value : Z) (room : Z) : list byte :=
  let bs := bytes_of value in
  if Z.of_nat (length bs) <=? room then bs else [].

Fixpoint decode (fuel : nat) (source : list byte) : nat * Z :=
  match fuel, source with
  | S f, b :: rest =>
      if b <? 128 then (1%nat, b)
      else let '(n, v) := decode f rest in (S n, (b - 128) + 128 * v)
  | _, _ => (0%nat, 0)
  end.

(** [Varint::readUint(source, size, &target)]: number of bytes read and
    the value; at most [size] bytes of [source] are looked at. *)
Definition readUint (source : list byte) (room : Z) : Z * Z :=
  let '(n, v) := decode 5 (firstn (Z.to_nat room) source) in
  (Z.of_nat n, v).

(** Length of the encoding of [v]. *)
Definition size_of (v : Z) : Z := Z.of_nat (length (bytes_of v)).

End Varint.

(** ** UintVector (UintVector.cpp) *)

Module UintVector.

(** [data_] is the heap buffer of [size_] bytes, [offset_] the put offset
    ([std::uint32_t]). *)
Record t : Type := mk {
  data_ : list byte;
  offset_ : Z;
  size_ : Z
}.

(** The default-constructed vector. *)
Definition init : t := {| data_ := []; offset_ := 0; size_ := 0 |}.

Definition empty (v : t) : bool := offset_ v =? 0.

Definition remaining (v : t) : Z := size_ v - offset_ v.

(** [current()] is [data_.get() + offset_]; reading starts there. *)
Definition current (v : t) : list byte := skipn (Z.to_nat (offset_ v)) (data_ v).

(** Writes [bs] at [current()]; the offset is advanced by the caller. *)
Definition put (bs : list byte) (v : t) : t :=
  {| data_ := write_at (offset_ v) bs (data_ v);
     offset_ := offset_ v;
     size_ := size_ v |}.

Definition advance (n : Z) (v : t) : t :=
  {| data_ := data_ v; offset_ := u32 (offset_ v + n); size_ := size_ v |}.

(** [UintVector::allocateMoreIfFull]: [size_ * 1.5] is truncated to
    [std::size_t]; the bytes of the new buffer past [offset_] are
    indeterminate in C++ and are zero here. *)
Definition allocateMoreIfFull (v : t) : t :=
  let required_size := 8 in
  if size_ v - offset_ v <? required_size then
    let new_end_offset := size_ v + size_ v / 2 in
    let new_size := Z.max new_end_offset required_size in
    {| data_ := firstn (Z.to_nat (offset_ v)) (data_ v)
                 ++ repeat 0 (Z.to_nat (new_size - offset_ v));
       offset_ := offset_ v;
       size_ := new_size |}
  else v.

(** A [memcpy] of [n] bytes to [current()] stays inside the buffer. *)
Definition has_room (n : Z) (v : t) : bool := offset_ v + n <=? size_ v.

(** [offset_ += Varint::writeUint(value, current(), room);
     offset_ += writeUint32(value, current());]
    Neither write checks the buffer: a write past its end is undefined. *)
Definition write_value (varint_arg room value : Z) (v : t) : result (bool * t) :=
  let bs := Varint.writeUint varint_arg room in
  let v1 := advance (Z.of_nat (length bs)) (put bs v) in
  if has_room (Z.of_nat (length bs)) v && has_room 4 v1 then
    Ok (true, advance 4 (put (writeUint32 value) v1))
  else Undefined (false, v).

(** [UintVector::add].  [MT_ASSERT_LT(prev_value, value)] yields
    [AssertionFailed]; the Boolean is the function's return value. *)
Definition add (value : Z) (v : t) : result (bool * t) :=
  let v := allocateMoreIfFull v in
  if empty v then
    if value <=? Varint.N4_MAX_UINT then write_value value (size_ v) value v
    else Ok (false, v)
  else
    let v := advance (- 4) v in
    let prev_value := readUint32 (current v) in
    if prev_value <? value then
      let delta := u32 (value - prev_value) in
      if delta <=? Varint.N4_MAX_UINT then write_value delta (remaining v) value v
      else Ok (false, v)
    else AssertionFailed (false, v).

(** The loop of [UintVector::unpack].  Every round consumes at least one
    byte of [data_], so [S (length data_)] rounds are enough; [None] stands
    for a run that reads past the buffer or makes no progress (undefined in
    C++). *)
Fixpoint unpack_loop (fuel : nat) (data : list byte)
    (offset remaining value : Z) : option (list Z) :=
  if remaining <=? 0 then Some []
  else
    match fuel with
    | O => None
    | S f =>
        let '(nbytes, delta) :=
          Varint.readUint (skipn (Z.to_nat offset) data) remaining in
        if nbytes =? 0 then None
        else
          let value' := u32 (value + delta) in
          match unpack_loop f data (u32 (offset + nbytes))
                  (u32 (remaining - nbytes)) value' with
          | Some values => Some (value' :: values)
          | None => None
          end
    end.

(** [UintVector::unpack]. *)
Definition unpack (v : t) : option (list Z) :=
  if empty v then Some []
  else
    let remaining := u32 (offset_ v - 4) in
    unpack_loop (S (length (data_ v))) (data_ v) 0 remaining 0.

(** The bytes [UintVector::writeToStream] puts on the stream after the
    [offset_] field. *)
Definition contents (v : t) : list byte := firstn (Z.to_nat (offset_ v)) (data_ v).

End UintVector.

(** ** Block *)

Module Block.

(** Modelled from the spec: Block.hpp is not part of the sources.  The spec
    (3, 4.3) describes a block as a fixed-size buffer whose logical content
    is a tightly packed sequence of
    [varint(len * 2 | tombstone), value bytes]; [try_add] appends a value if
    header and bytes fit behind [next_offset]. *)
Record Entry : Type := mkEntry {
  value : Bytes;
  deleted : bool
}.

Record t : Type := mk {
  has_data : bool;       (* the block owns a buffer *)
  size : Z;              (* size of that buffer: the block size *)
  entries : list Entry   (* the values packed into it, in order *)
}.

(** [Block()]: no buffer. *)
Definition init : t := {| has_data := false; size := 0; entries := [] |}.

(** A zero-filled buffer of [block_size] bytes holds no value. *)
Definition zeroed (block_size : Z) : t :=
  {| has_data := true; size := block_size; entries := [] |}.

Definition header_size (len : Z) : Z := Varint.size_of (2 * len).

Definition entry_size (e : Entry) : Z :=
  header_size (Bytes_size (value e)) + Bytes_size (value e).

Definition next_offset (b : t) : Z :=
  fold_right (fun e acc => entry_size e + acc) 0 (entries b).

Definition fits (v : Bytes) (b : t) : bool :=
  has_data b &&
  (next_offset b + header_size (Bytes_size v) + Bytes_size v <=? size b).

(** [Block::TryAdd]: [Some] is the block after a successful add, [None]
    stands for the return value [false] (the block is unchanged). *)
Definition TryAdd (v : Bytes) (b : t) : option t :=
  if fits v b then
    Some {| has_data := has_data b; size := size b;
            entries := entries b ++ [ {| value := v; deleted := false |} ] |}
  else None.

Definition set_deleted_entry (e : Entry) : Entry :=
  {| value := value e; deleted := true |}.

(** [Block::Iter::set_deleted] at position [pos]. *)
Definition set_deleted (pos : nat) (b : t) : t :=
  {| has_data := has_data b; size := size b;
     entries := update_nth pos set_deleted_entry (entries b) |}.

(** Modelled from the spec: [Block::max_value_size(block_size)], "the net
    block capacity": the largest value size whose header and bytes fit into
    an empty block.  A header takes 1..5 bytes, so the answer is one of
    [block_size - 1 .. block_size - 5]. *)
Definition fits_empty (len block_size : Z) : bool :=
  header_size len + len <=? block_size.

Definition max_value_size (block_size : Z) : Z :=
  if fits_empty (block_size - 1) block_size then block_size - 1
  else if fits_empty (block_size - 2) block_size then block_size - 2
  else if fits_empty (block_size - 3) block_size then block_size - 3
  else if fits_empty (block_size - 4) block_size then block_size - 4
  else block_size - 5.

End Block.

(** ** Store *)

Module Store.

(** Modelled from the spec: Store.hpp / Store.cpp are not part of the
    sources.  The spec (4.4) describes an append-only sequence of
    block-sized slots; [append] returns the id of the new slot (the number
    of blocks before the call), [read] and [write] address a slot by id.
    The write buffer does not change what [read] returns and is left out. *)
Record t : Type := mk {
  block_size : Z;
  blocks : list Block.t
}.

Definition num_blocks (st : t) : Z := Z.of_nat (length (blocks st)).

Definition append (b : Block.t) (st : t) : t * Z :=
  ({| block_size := block_size st; blocks := blocks st ++ [b] |},
   u32 (num_blocks st)).

Definition read (id : Z) (st : t) : Block.t :=
  nth (Z.to_nat id) (blocks st) Block.init.

Definition write (id : Z) (b : Block.t) (st : t) : t :=
  {| block_size := block_size st;
     blocks := update_nth (Z.to_nat id) (fun _ => b) (blocks st) |}.

End Store.

(** ** List (List.cpp) *)

Module List.

Record Head : Type := mkHead {
  num_values_total : Z;      (* std::uint32_t *)
  num_values_deleted : Z;    (* std::uint32_t *)
  block_ids : UintVector.t
}.

Record t : Type := mk {
  head_ : Head;
  block_ : Block.t
}.

(** [List()]. *)
Definition init : t :=
  {| head_ := {| num_values_total := 0; num_values_deleted := 0;
                 block_ids := UintVector.init |};
     block_ := Block.init |}.

(** [List::List(const Head& head)]. *)
Definition of_head (head : Head) : t :=
  {| head_ := head; block_ := Block.init |}.

Definition set_block_ids (ids : UintVector.t) (h : Head) : Head :=
  {| num_values_total := num_values_total h;
     num_values_deleted := num_values_deleted h;
     block_ids := ids |}.

Definition incr_num_values_total (h : Head) : Head :=
  {| num_values_total := u32 (num_values_total h + 1);
     num_values_deleted := num_values_deleted h;
     block_ids := block_ids h |}.

Definition incr_num_values_deleted (h : Head) : Head :=
  {| num_values_total := num_values_total h;
     num_values_deleted := u32 (num_values_deleted h + 1);
     block_ids := block_ids h |}.

(** The callbacks the shard installs ([Shard::initCallbacks]):
    [new_block] allocates [block_size] bytes from the arena,
    [commit_block] is [store_.append]. *)
Definition allocate_block (st : Store.t) : Block.t :=
  {| Block.has_data := true; Block.size := Store.block_size st;
     Block.entries := [] |}.

Definition commit_block (b : Block.t) (st : Store.t) : Store.t * Z :=
  Store.append b st.

(** [std::memset(block_.data(), 0, block_.size())]. *)
Definition memset_zero (b : Block.t) : Block.t := Block.zeroed (Block.size b).

(** [head_.block_ids.Add(commit_block(std::move(block_)))]: the block goes
    to the store, its id to the head.  The Boolean [UintVector::add]
    returns is discarded by the caller; only the assertion inside it can
    stop the run.  [block_] is moved from. *)
Definition commit (st : Store.t) (l : t) : result (Store.t * t) :=
  let '(st, id) := commit_block (block_ l) st in
  map_result
    (fun '(_, ids) =>
       (st, {| head_ := set_block_ids ids (head_ l); block_ := Block.init |}))
    (UintVector.add id (block_ids (head_ l))).

(** [List::Add]. *)
Definition Add (value : Bytes) (w : Store.t * t) : result (Store.t * t) :=
  let '(st, l) := w in
  let l :=
    if negb (Block.has_data (block_ l)) then
      {| head_ := head_ l; block_ := memset_zero (allocate_block st) |}
    else l in
  match Block.TryAdd value (block_ l) with
  | Some b =>
      Ok (st, {| head_ := incr_num_values_total (head_ l); block_ := b |})
  | None =>
      bind (commit st l) (fun w => w) (fun '(st, l) =>
        let l := {| head_ := head_ l; block_ := memset_zero (allocate_block st) |} in
        match Block.TryAdd value (block_ l) with
        | Some b =>
            Ok (st, {| head_ := incr_num_values_total (head_ l); block_ := b |})
        | None => AssertionFailed (st, l)      (* assert(ok) *)
        end)
  end.

(** [List::Flush]. *)
Definition Flush (w : Store.t * t) : result (Store.t * t) :=
  let '(st, l) := w in
  if Block.has_data (block_ l) then commit st l else Ok (st, l).

(** Modelled from the spec: List.hpp is not part of the sources.
    [size()] is the number of valid values, [num_values_total -
    num_values_deleted] (spec 3), and a list is empty when no valid value is
    left ("may become empty (all values tombstoned)", and [Shard::contains]
    reads [!empty()] as "at least one value"). *)
Definition size (l : t) : Z :=
  u32 (num_values_total (head_ l) - num_values_deleted (head_ l)).

Definition empty (l : t) : bool := size l =? 0.

(** *** The mutable iterator [List::Iter<false>] *)

Module Iter.

(** [block_ids_] is the snapshot the constructor takes with
    [head_->block_ids.Unpack()]; [block_id_index] and [block_has_changed]
    are the fields of [stats_]; [block_iter_] is the position inside the
    current block, which is [requested_block_] while [block_id_index]
    names a committed block and the list's own [block_] after the last one. *)
Record t : Type := mk {
  block_ids_ : list Z;
  block_id_index : nat;
  block_has_changed : bool;
  requested_block_ : Block.t;
  block_iter_ : nat
}.

(** The iterator holds pointers to the head and to the tail block of its
    list and calls back into the store: its operations run on all three. *)
Record world : Type := mkWorld {
  w_store : Store.t;
  w_list : List.t;
  w_iter : t
}.

(** [List::Iter<false>::Iter(Head*, Block*, const Callbacks&)].  Nothing is
    loaded before [SeekToFirst]: the index is past the end, so that there
    is no current value. *)
Definition make (ids : list Z) : t :=
  {| block_ids_ := ids;
     block_id_index := S (length ids);
     block_has_changed := false;
     requested_block_ := Block.init;
     block_iter_ := O |}.

Definition NewIterator (st : Store.t) (l : List.t) : option world :=
  match UintVector.unpack (block_ids (head_ l)) with
  | Some ids => Some {| w_store := st; w_list := l; w_iter := make ids |}
  | None => None
  end.

(** The block [block_iter_] walks over. *)
Definition current_block (w : world) : Block.t :=
  let it := w_iter w in
  if (block_id_index it <? length (block_ids_ it))%nat then requested_block_ it
  else if (block_id_index it =? length (block_ids_ it))%nat then block_ (w_list w)
  else Block.init.

Definition set_current_block (b : Block.t) (w : world) : world :=
  let it := w_iter w in
  if (block_id_index it <? length (block_ids_ it))%nat then
    {| w_store := w_store w; w_list := w_list w;
       w_iter := {| block_ids_ := block_ids_ it;
                  block_id_index := block_id_index it;
                  block_has_changed := block_has_changed it;
                  requested_block_ := b;
                  block_iter_ := block_iter_ it |} |}
  else if (block_id_index it =? length (block_ids_ it))%nat then
    {| w_store := w_store w;
       w_list := {| head_ := head_ (w_list w); block_ := b |};
       w_iter := it |}
  else w.

(** [block_iter_.has_value()], [block_iter_.deleted()],
    [block_iter_.value()]. *)
Definition has_value (w : world) : bool :=
  (block_iter_ (w_iter w) <? length (Block.entries (current_block w)))%nat.

Definition current_entry (w : world) : Block.Entry :=
  nth (block_iter_ (w_iter w)) (Block.entries (current_block w))
      {| Block.value := []; Block.deleted := false |}.

Definition deleted (w : world) : bool := Block.deleted (current_entry w).

Definition Value (w : world) : Bytes := Block.value (current_entry w).

(** Modelled from the spec: [Valid()] ([HasValue()] in the documentation)
    holds on a value that is not marked as deleted. *)
Definition Valid (w : world) : bool := has_value w && negb (deleted w).

Definition set_iter (it : t) (w : world) : world :=
  {| w_store := w_store w; w_list := w_list w; w_iter := it |}.

(** Modelled from the spec: [RequestNextBlockAndInitIter] is declared in
    List.hpp.  It moves to the block at [index]: a committed block is read
    from the store into [requested_block_], after the last id the
    in-memory block of the list is iterated in place. *)
Definition load (index : nat) (w : world) : world :=
  let it := w_iter w in
  let requested :=
    match nth_error (block_ids_ it) index with
    | Some id => Store.read id (w_store w)
    | None => requested_block_ it
    end in
  set_iter {| block_ids_ := block_ids_ it;
              block_id_index := index;
              block_has_changed := false;
              requested_block_ := requested;
              block_iter_ := O |} w.

Definition RequestNextBlockAndInitIter (w : world) : world :=
  load (S (block_id_index (w_iter w))) w.

(** [List::Iter<false>::UpdateCurrentBlock]. *)
Definition UpdateCurrentBlock (w : world) : world :=
  let it := w_iter w in
  match nth_error (block_ids_ it) (block_id_index it) with
  | Some block_id =>
      {| w_store := Store.write block_id (requested_block_ it) (w_store w);
         w_list := w_list w; w_iter := it |}
  | None => w   (* block_ is in-memory and therefore updated in-place. *)
  end.

(** [List::Iter<false>::Advance]. *)
Definition Advance (w : world) : world :=
  let it := w_iter w in
  let w := set_iter {| block_ids_ := block_ids_ it;
                       block_id_index := block_id_index it;
                       block_has_changed := block_has_changed it;
                       requested_block_ := requested_block_ it;
                       block_iter_ := S (block_iter_ it) |} w in
  if negb (has_value w) then
    let w := if block_has_changed (w_iter w) then UpdateCurrentBlock w else w in
    RequestNextBlockAndInitIter w
  else w.

(** [List::Iter<false>::Delete].  [assert(Valid())] guards the call. *)
Definition Delete (w : world) : result world :=
  if Valid w then
    let changed := block_has_changed (w_iter w) || negb (deleted w) in
    let w := set_current_block
               (Block.set_deleted (block_iter_ (w_iter w)) (current_block w)) w in
    let it := w_iter w in
    Ok {| w_store := w_store w;
          w_list := {| head_ := incr_num_values_deleted (head_ (w_list w));
                     block_ := block_ (w_list w) |};
          w_iter := {| block_ids_ := block_ids_ it;
                     block_id_index := block_id_index it;
                     block_has_changed := changed;
                     requested_block_ := requested_block_ it;
                     block_iter_ := block_iter_ it |} |}
  else AssertionFailed w.

(** The blocks of the list as the iterator sees them: block [k] is a
    committed block, read from the store unless it is the one held in
    [requested_block_], and the in-memory block of the list comes last. *)
Definition block_at (w : world) (k : nat) : Block.t :=
  let it := w_iter w in
  if (k <? length (block_ids_ it))%nat then
    if (k =? block_id_index it)%nat then requested_block_ it
    else Store.read (nth k (block_ids_ it) 0) (w_store w)
  else if (k =? length (block_ids_ it))%nat then block_ (w_list w)
  else Block.init.

Definition blocks (w : world) : list Block.t :=
  map (block_at w) (seq 0 (S (length (block_ids_ (w_iter w))))).

(** More [Advance] calls than the list has value positions: a loop that
    advances on every round has run off the end by then. *)
Definition steps_bound (w : world) : nat :=
  S (length (flat_map Block.entries (blocks w))).

(** Modelled from the spec: the iterator skips values marked as deleted.
    [skip_deleted] is the loop [while (has_value && deleted) Advance()]. *)
Fixpoint skip_deleted (fuel : nat) (w : world) : world :=
  if has_value w && deleted w then
    match fuel with
    | O => w
    | S f => skip_deleted f (Advance w)
    end
  else w.

(** Modelled from the spec: [SeekToFirst] loads the first block and stops
    on the first valid value. *)
Definition SeekToFirst (w : world) : world :=
  let w := load O w in
  skip_deleted (steps_bound w) w.

(** Modelled from the spec: [Next] advances to the next valid value. *)
Definition Next (w : world) : world :=
  let w := Advance w in
  skip_deleted (steps_bound w) w.

(** Modelled from the spec: releasing the iterator writes a changed
    committed block back ("writes back each modified committed block via
    store.replace"); what is left is the store and the list. *)
Definition release (w : world) : Store.t * List.t :=
  let w := if block_has_changed (w_iter w) then UpdateCurrentBlock w else w in
  (w_store w, w_list w).

(** The loop [for (it.SeekToFirst(); it.Valid(); it.Next())
    out.push_back(it.Value())]. *)
Fixpoint collect_loop (fuel : nat) (w : world) : list Bytes :=
  match fuel with
  | O => []
  | S f => if Valid w then Value w :: collect_loop f (Next w) else []
  end.

End Iter.

(** Modelled from the spec: [iterate] (spec 4.5) yields the values of the
    committed blocks, then of the in-memory block, skipping the deleted
    ones: the values a full run of the iterator visits.  [None] when
    [Unpack] of the block ids has no defined result. *)
Definition iterate (st : Store.t) (l : t) : option (list Bytes) :=
  match Iter.NewIterator st l with
  | Some w =>
      let w := Iter.SeekToFirst w in
      Some (Iter.collect_loop (Iter.steps_bound w) w)
  | None => None
  end.

End List.

(** ** Files *)

(** A stream written with [System::write] / [stream.write] is the sequence
    of the fields written: 16-bit and 32-bit integers and raw byte runs.
    [System::read] reads the fields back in the order they were written. *)
Inductive Field : Type :=
| U16 (n : Z)
| U32 (n : Z)
| Raw (bs : Bytes).

Definition File := list Field.

(** The part of the file system the table touches: a content per path. *)
Definition FS := string -> option File.

Definition fs_set (path : string) (f : option File) (fs : FS) : FS :=
  fun p => if String.eqb p path then f else fs p.

(** [std::rename(from, to)]: returns non-zero when [from] does not exist. *)
Definition fs_rename (from to : string) (fs : FS) : option FS :=
  match fs from with
  | Some f => Some (fs_set to (Some f) (fs_set from None fs))
  | None => None
  end.

(** [std::remove(path)]: returns non-zero when [path] does not exist. *)
Definition fs_remove (path : string) (fs : FS) : option FS :=
  match fs path with
  | Some _ => Some (fs_set path None fs)
  | None => None
  end.

(** [std::fopen(path, "w")]: creates the file or truncates it. *)
Definition fs_create (path : string) (fs : FS) : FS := fs_set path (Some []) fs.

(** Writing at the end of the stream opened on [path]. *)
Definition fs_append (path : string) (fields : list Field) (fs : FS) : FS :=
  match fs path with
  | Some f => fs_set path (Some (f ++ fields)) fs
  | None => fs
  end.

(** [std::rewind] followed by one write: the first field is overwritten. *)
Definition fs_rewrite_first (path : string) (field : Field) (fs : FS) : FS :=
  match fs path with
  | Some (_ :: rest) => fs_set path (Some (field :: rest)) fs
  | _ => fs
  end.

(** ** Table (Table.cpp) *)

Module Table.

(** State of the readers-writer mutex of a list as other threads left it. *)
Inductive Mutex : Type :=
| Unlocked
| LockedShared (readers : positive)
| LockedUnique.

(** [List::tryLockUnique]. *)
Definition tryLockUnique (m : Mutex) : bool :=
  match m with Unlocked => true | _ => false end.

(** [List::tryLockShared]. *)
Definition tryLockShared (m : Mutex) : bool :=
  match m with LockedUnique => false | _ => true end.

Record Slot : Type := mkSlot {
  slot_list : List.t;
  slot_mutex : Mutex
}.

Record t : Type := mk {
  map_ : list (Bytes * Slot);   (* in the order the loops visit the entries *)
  path_ : string                (* empty when the table is closed *)
}.

(** Modelled from the spec: [Table::max_key_size()] (Table.hpp) is the
    largest size the 16-bit key size field can hold. *)
Definition max_key_size : Z := 65535.

Fixpoint find (key : Bytes) (m : list (Bytes * Slot)) : option Slot :=
  match m with
  | [] => None
  | (k, s) :: m' => if Bytes_eqb k key then Some s else find key m'
  end.

Fixpoint set_list (key : Bytes) (l : List.t) (m : list (Bytes * Slot))
  : list (Bytes * Slot) :=
  match m with
  | [] => []
  | (k, s) :: m' =>
      if Bytes_eqb k key
      then (k, {| slot_list := l; slot_mutex := slot_mutex s |}) :: m'
      else (k, s) :: set_list key l m'
  end.

(** [map_.emplace(key, list)]: no effect when the key is present. *)
Definition emplace (key : Bytes) (l : List.t) (m : list (Bytes * Slot))
  : list (Bytes * Slot) :=
  match find key m with
  | Some _ => m
  | None => m ++ [(key, {| slot_list := l; slot_mutex := Unlocked |})]
  end.

(** [Table::getShared] / [Table::getUnique]: the list of [key], if any. *)
Definition getUnique (key : Bytes) (tbl : t) : option List.t :=
  match find key (map_ tbl) with
  | Some s => Some (slot_list s)
  | None => None
  end.

(** [Table::getUniqueOrCreate]: [check] throws when the key is too large;
    otherwise the table after [emplace] and the list of [key]. *)
Definition getUniqueOrCreate (key : Bytes) (tbl : t) : result (t * List.t) :=
  if Bytes_size key <=? max_key_size then
    let tbl := {| map_ := emplace key List.init (map_ tbl); path_ := path_ tbl |} in
    Ok (tbl, match find key (map_ tbl) with
             | Some s => slot_list s
             | None => List.init
             end)
  else Thrown (tbl, List.init).

(** [List::Head::WriteToStream] with [UintVector::writeToStream]:
    [assert(!empty())] guards the latter. *)
Definition Head_WriteToStream (h : List.Head) : option (list Field) :=
  if UintVector.empty (List.block_ids h) then None
  else
    Some [ U32 (List.num_values_total h);
           U32 (List.num_values_deleted h);
           U32 (UintVector.offset_ (List.block_ids h));
           Raw (UintVector.contents (List.block_ids h)) ].

(** [writeEntryToFile]: [assert(entry.first.size() <= 65535)]. *)
Definition writeEntryToFile (key : Bytes) (h : List.Head) : option (list Field) :=
  if Bytes_size key <=? 65535 then
    match Head_WriteToStream h with
    | Some fields =>
        let key_size := u16 (Bytes_size key) in
        Some (U16 key_size :: Raw (firstn (Z.to_nat key_size) key) :: fields)
    | None => None
    end
  else None.

(** [readEntryFromFile] with [List::Head::ReadFromStream] and
    [UintVector::readFromStream]: the rest of the stream is returned too;
    [None] when the stream does not hold an entry. *)
Definition readEntryFromFile (f : File) : option ((Bytes * List.Head) * File) :=
  match f with
  | U16 key_size :: Raw key_data :: U32 total :: U32 deleted
      :: U32 offset :: Raw data :: rest =>
      Some ((firstn (Z.to_nat key_size) key_data,
             {| List.num_values_total := total;
                List.num_values_deleted := deleted;
                List.block_ids :=
                  {| UintVector.data_ := firstn (Z.to_nat offset) data;
                     UintVector.offset_ := offset;
                     UintVector.size_ := offset |} |}),
            rest)
  | _ => None
  end.

Fixpoint read_entries (n : nat) (f : File) (m : list (Bytes * Slot))
  : option (list (Bytes * Slot)) :=
  match n with
  | O => Some m
  | S n' =>
      match readEntryFromFile f with
      | Some ((key, head), rest) =>
          read_entries n' rest (emplace key (List.of_head head) m)
      | None => None
      end
  end.

(** [Table::open(file, create_if_missing)] on a closed table. *)
Definition open (file : string) (create_if_missing : bool) (fs : FS)
  : result (FS * t) :=
  match fs file with
  | Some (U32 num_keys :: rest) =>
      match read_entries (Z.to_nat num_keys) rest [] with
      | Some m => Ok (fs, {| map_ := m; path_ := file |})
      | None => Thrown (fs, {| map_ := []; path_ := EmptyString |})
      end
  | Some _ => Thrown (fs, {| map_ := []; path_ := EmptyString |})
  | None =>
      if create_if_missing then
        Ok (fs_append file [U32 0] (fs_create file fs),
            {| map_ := []; path_ := file |})
      else Thrown (fs, {| map_ := []; path_ := EmptyString |})
  end.

(** [Table::forEachKey]: the keys [procedure] is called with, in the order
    of the loop.  The [SharedListLock] taken on every list waits while
    another thread holds the list with a unique lock: [None] stands for a
    run that does not get past such a list. *)
Fixpoint forEachKey_loop (entries : list (Bytes * Slot)) : option (list Bytes) :=
  match entries with
  | [] => Some []
  | (key, slot) :: rest =>
      if tryLockShared (slot_mutex slot) then
        match forEachKey_loop rest with
        | Some keys =>
            Some (if negb (List.empty (slot_list slot)) then key :: keys else keys)
        | None => None
        end
      else None
  end.

Definition forEachKey (tbl : t) : option (list Bytes) :=
  forEachKey_loop (map_ tbl).

(** [list->flush(commit_block_)] on the list of an entry of [map_]; the
    store is the one [commit_block_] appends to. *)
Definition flush_entry (st : Store.t) (entry : Bytes * Slot)
  : result (Store.t * (Bytes * Slot)) :=
  map_result
    (fun '(st', l') =>
       (st', (fst entry, {| slot_list := l';
                            slot_mutex := slot_mutex (snd entry) |})))
    (List.Flush (st, slot_list (snd entry))).

(** The loop of [Table::flushAllListsOrThrowIfLocked]: the result is the
    store and the entries of [map_] after the loop, or at the point where
    the function threw. *)
Fixpoint flushAllListsOrThrowIfLocked_loop (entries : list (Bytes * Slot))
    (st : Store.t) : result (Store.t * list (Bytes * Slot)) :=
  match entries with
  | [] => Ok (st, [])
  | entry :: rest =>
      if tryLockUnique (slot_mutex (snd entry)) then
        bind (flush_entry st entry) (fun '(st', entry') => (st', entry' :: rest))
          (fun '(st', entry') =>
             map_result (fun '(st'', rest') => (st'', entry' :: rest'))
               (flushAllListsOrThrowIfLocked_loop rest st'))
      else Thrown (st, entry :: rest)      (* throw("Some list is locked") *)
  end.

(** The loop of [Table::flushAllUnlockedLists]. *)
Fixpoint flushAllUnlockedLists_loop (entries : list (Bytes * Slot))
    (st : Store.t) : result (Store.t * list (Bytes * Slot)) :=
  match entries with
  | [] => Ok (st, [])
  | entry :: rest =>
      if tryLockUnique (slot_mutex (snd entry)) then
        bind (flush_entry st entry) (fun '(st', entry') => (st', entry' :: rest))
          (fun '(st', entry') =>
             map_result (fun '(st'', rest') => (st'', entry' :: rest'))
               (flushAllUnlockedLists_loop rest st'))
      else
        map_result (fun '(st'', rest') => (st'', entry :: rest'))
          (flushAllUnlockedLists_loop rest st)
  end.

Definition with_map (tbl : t) (w : Store.t * list (Bytes * Slot)) : Store.t * t :=
  (fst w, {| map_ := snd w; path_ := path_ tbl |}).

(** [Table::flushAllListsOrThrowIfLocked]. *)
Definition flushAllListsOrThrowIfLocked (tbl : t) (st : Store.t)
  : result (Store.t * t) :=
  map_result (with_map tbl) (flushAllListsOrThrowIfLocked_loop (map_ tbl) st).

(** [Table::flushAllUnlockedLists]. *)
Definition flushAllUnlockedLists (tbl : t) (st : Store.t)
  : result (Store.t * t) :=
  map_result (with_map tbl) (flushAllUnlockedLists_loop (map_ tbl) st).

(** State threaded through [Table::close]: the file system, the store the
    lists are flushed to, and [num_keys_written]. *)
Record closing : Type := mkClosing {
  c_fs : FS;
  c_store : Store.t;
  c_written : Z       (* std::uint32_t num_keys_written *)
}.

Definition backup_path (path : string) : string := (path ++ ".old")%string.

(** The statements of [Table::close] up to the loop: rename to the backup
    path, open the new file, write [map_.size()]. *)
Definition close_begin (tbl : t) (fs : FS) (st : Store.t) : result closing :=
  match fs_rename (path_ tbl) (backup_path (path_ tbl)) fs with
  | None => AssertionFailed {| c_fs := fs; c_store := st; c_written := 0 |}
  | Some fs =>
      let fs := fs_create (path_ tbl) fs in
      let num_keys := u32 (Z.of_nat (length (map_ tbl))) in
      Ok {| c_fs := fs_append (path_ tbl) [U32 num_keys] fs;
            c_store := st; c_written := 0 |}
  end.

(** The body of the loop over [map_]. *)
Definition close_entry (path : string) (c : closing) (entry : Bytes * Slot)
  : result closing :=
  let '(key, slot) := entry in
  if tryLockUnique (slot_mutex slot) then
    if negb (List.empty (slot_list slot)) then
      match List.Flush (c_store c, slot_list slot) with
      | Ok (st, l) =>
          match writeEntryToFile key (List.head_ l) with
          | Some fields =>
              Ok {| c_fs := fs_append path fields (c_fs c);
                    c_store := st;
                    c_written := u32 (c_written c + 1) |}
          | None =>
              AssertionFailed
                {| c_fs := c_fs c; c_store := st; c_written := c_written c |}
          end
      | Thrown (st, _) =>
          Thrown {| c_fs := c_fs c; c_store := st; c_written := c_written c |}
      | AssertionFailed (st, _) =>
          AssertionFailed
            {| c_fs := c_fs c; c_store := st; c_written := c_written c |}
      | Undefined (st, _) =>
          Undefined {| c_fs := c_fs c; c_store := st; c_written := c_written c |}
      end
    else Ok c
  else Ok c.   (* "List is still locked and could not be flushed." *)

Fixpoint close_loop (path : string) (entries : list (Bytes * Slot))
    (c : closing) : result closing :=
  match entries with
  | [] => Ok c
  | e :: rest => bind (close_entry path c e) (fun c => c) (close_loop path rest)
  end.

(** The statements after the loop: the count is rewritten when it differs
    from [map_.size()], the backup is removed. *)
Definition close_end (tbl : t) (c : closing) : result closing :=
  let fs :=
    if c_written c =? Z.of_nat (length (map_ tbl)) then c_fs c
    else fs_rewrite_first (path_ tbl) (U32 (c_written c)) (c_fs c) in
  match fs_remove (backup_path (path_ tbl)) fs with
  | Some fs =>
      Ok {| c_fs := fs; c_store := c_store c; c_written := c_written c |}
  | None =>
      AssertionFailed
        {| c_fs := fs; c_store := c_store c; c_written := c_written c |}
  end.

(** [Table::close].  The table itself ends up closed ([arena_.reset()],
    [path_.clear()], [map_.clear()]); what remains is the file system and
    the store. *)
Definition close (tbl : t) (fs : FS) (st : Store.t) : result closing :=
  if String.eqb (path_ tbl) EmptyString then
    Ok {| c_fs := fs; c_store := st; c_written := 0 |}
  else
    bind (close_begin tbl fs st) (fun c => c) (fun c =>
    bind (close_loop (path_ tbl) (map_ tbl) c) (fun c => c) (close_end tbl)).

(** A run of [Table::close] that stops (a failed write, a killed process)
    after [k] rounds of the loop, before the statements after the loop. *)
Definition close_interrupted (k : nat) (tbl : t) (fs : FS) (st : Store.t)
  : result closing :=
  bind (close_begin tbl fs st) (fun c => c)
       (close_loop (path_ tbl) (firstn k (map_ tbl))).

End Table.

(** ** Shard (Shard.cpp) *)

Module Shard.

Record t : Type := mk {
  store_ : Store.t;
  table_ : Table.t
}.

(** The shard after an operation left the store as [st] and the list of
    [key] as [l]. *)
Definition with_list (key : Bytes) (tbl : Table.t) (w : Store.t * List.t) : t :=
  let '(st, l) := w in
  {| store_ := st;
     table_ := {| Table.map_ := Table.set_list key l (Table.map_ tbl);
                  Table.path_ := Table.path_ tbl |} |}.

(** [Shard::put]. *)
Definition put (key value : Bytes) (sh : t) : result t :=
  bind (Table.getUniqueOrCreate key (table_ sh)) (fun _ => sh)
    (fun '(tbl, l) =>
       map_result (with_list key tbl) (List.Add value (store_ sh, l))).

(** [Shard::get] followed by a full run of the iterator:
    [ListIterator(table_.getShared(key), ...)] yields nothing for a key
    that has no list. *)
Definition get (key : Bytes) (sh : t) : option (list Bytes) :=
  match Table.getUnique key (table_ sh) with
  | Some l => List.iterate (store_ sh) l
  | None => Some []
  end.

Module Iter := List.Iter.

(** The first loop of [Shard::remove]:
    [for (iter.seekToFirst(); iter.hasValue(); iter.next())] with its
    [break] after the first match. *)
Fixpoint remove_first (fuel : nat) (predicate : Bytes -> bool) (w : Iter.world)
  : result (Iter.world * Z) :=
  match fuel with
  | O => Ok (w, 0)
  | S f =>
      if Iter.Valid w then
        if predicate (Iter.Value w) then
          bind (Iter.Delete w) (fun w => (w, 0)) (fun w => Ok (Iter.Next w, 1))
        else remove_first f predicate (Iter.Next w)
      else Ok (w, 0)
  end.

(** The second loop: [for (; iter.hasValue(); iter.next())]. *)
Fixpoint remove_rest (fuel : nat) (predicate : Bytes -> bool) (w : Iter.world)
    (num_deleted : Z) : result (Iter.world * Z) :=
  match fuel with
  | O => Ok (w, num_deleted)
  | S f =>
      if Iter.Valid w then
        if predicate (Iter.Value w) then
          bind (Iter.Delete w) (fun w => (w, num_deleted))
               (fun w => remove_rest f predicate (Iter.Next w) (num_deleted + 1))
        else remove_rest f predicate (Iter.Next w) num_deleted
      else Ok (w, num_deleted)
  end.

(** [Shard::remove(key, predicate, apply_to_all)]; the result is the shard
    and [num_deleted]. *)
Definition remove (key : Bytes) (predicate : Bytes -> bool)
    (apply_to_all : bool) (sh : t) : result (t * Z) :=
  match Table.getUnique key (table_ sh) with
  | None => Ok (sh, 0)
  | Some l =>
      match Iter.NewIterator (store_ sh) l with
      | None => Undefined (sh, 0)
      | Some w =>
          let w := Iter.SeekToFirst w in
          let fuel := Iter.steps_bound w in
          let finish := fun '(w, n) => (with_list key (table_ sh) (Iter.release w), n) in
          bind (remove_first fuel predicate w) finish (fun '(w, num_deleted) =>
            if apply_to_all then
              map_result finish (remove_rest fuel predicate w num_deleted)
            else Ok (finish (w, num_deleted)))
      end
  end.

(** [Shard::removeAll], [Shard::removeFirst] and the [Equal] variants. *)
Definition removeAll (key : Bytes) (predicate : Bytes -> bool) (sh : t) :=
  remove key predicate true sh.

Definition removeFirst (key : Bytes) (predicate : Bytes -> bool) (sh : t) :=
  remove key predicate false sh.

Definition removeAllEqual (key value : Bytes) (sh : t) :=
  removeAll key (fun current_value => Bytes_eqb current_value value) sh.

Definition removeFirstEqual (key value : Bytes) (sh : t) :=
  removeFirst key (fun current_value => Bytes_eqb current_value value) sh.

(** [updated_value.empty()]. *)
Definition is_empty (b : Bytes) : bool :=
  match b with [] => true | _ => false end.

(** The two loops of [Shard::replace]; [updated_values] is threaded. *)
Fixpoint replace_first (fuel : nat) (function : Bytes -> Bytes) (w : Iter.world)
  : result (Iter.world * list Bytes) :=
  match fuel with
  | O => Ok (w, [])
  | S f =>
      if Iter.Valid w then
        let updated_value := function (Iter.Value w) in
        if negb (is_empty updated_value) then
          bind (Iter.Delete w) (fun w => (w, [updated_value]))
               (fun w => Ok (Iter.Next w, [updated_value]))
        else replace_first f function (Iter.Next w)
      else Ok (w, [])
  end.

Fixpoint replace_rest (fuel : nat) (function : Bytes -> Bytes) (w : Iter.world)
    (updated_values : list Bytes) : result (Iter.world * list Bytes) :=
  match fuel with
  | O => Ok (w, updated_values)
  | S f =>
      if Iter.Valid w then
        let updated_value := function (Iter.Value w) in
        if negb (is_empty updated_value) then
          bind (Iter.Delete w) (fun w => (w, updated_values ++ [updated_value]))
               (fun w => replace_rest f function (Iter.Next w)
                           (updated_values ++ [updated_value]))
        else replace_rest f function (Iter.Next w) updated_values
      else Ok (w, updated_values)
  end.

(** The loop [for (const auto& value : updated_values) list->add(value, ...)]. *)
Fixpoint add_all (values : list Bytes) (w : Store.t * List.t)
  : result (Store.t * List.t) :=
  match values with
  | [] => Ok w
  | value :: rest => bind (List.Add value w) (fun w => w) (add_all rest)
  end.

(** [Shard::replace(key, function, apply_to_all)]; the result is the shard
    and [updated_values.size()]. *)
Definition replace (key : Bytes) (function : Bytes -> Bytes)
    (apply_to_all : bool) (sh : t) : result (t * Z) :=
  match Table.getUnique key (table_ sh) with
  | None => Ok (sh, 0)
  | Some l =>
      match Iter.NewIterator (store_ sh) l with
      | None => Undefined (sh, 0)
      | Some w =>
          let w := Iter.SeekToFirst w in
          let fuel := Iter.steps_bound w in
          let stop := fun '(w, vs) =>
            (with_list key (table_ sh) (Iter.release w), Z.of_nat (length vs)) in
          let append := fun '(w, updated_values) =>
            map_result
              (fun w' => (with_list key (table_ sh) w',
                          Z.of_nat (length updated_values)))
              (add_all updated_values (Iter.release w)) in
          bind (replace_first fuel function w) stop (fun '(w, updated_values) =>
            if apply_to_all then
              bind (replace_rest fuel function w updated_values) stop append
            else append (w, updated_values))
      end
  end.

Definition replaceAll (key : Bytes) (function : Bytes -> Bytes) (sh : t) :=
  replace key function true sh.

Definition replaceFirst (key : Bytes) (function : Bytes -> Bytes) (sh : t) :=
  replace key function false sh.

Definition replaceAllEqual (key old_value new_value : Bytes) (sh : t) :=
  replaceAll key (fun current_value =>
    if Bytes_eqb current_value old_value then new_value else []) sh.

Definition replaceFirstEqual (key old_value new_value : Bytes) (sh : t) :=
  replaceFirst key (fun current_value =>
    if Bytes_eqb current_value old_value then new_value else []) sh.

(** [Shard::max_value_size]. *)
Definition max_value_size (sh : t) : Z :=
  Block.max_value_size (Store.block_size (store_ sh)).

(** [Shard::contains]: [list_lock.hasList() && !list_lock.clist()->empty()]. *)
Definition contains (key : Bytes) (sh : t) : bool :=
  match Table.getUnique key (table_ sh) with
  | Some l => negb (List.empty l)
  | None => false
  end.

End Shard.

(** ** Map (Map.hpp) and Version (Version.cpp) *)

Module Map.

(** Modelled from the spec: [mt::fnv1aHash] belongs to the bundled mt
    library, which is not part of the sources; the spec (4.7) names it
    [fnv1a_hash_32]: the 32-bit FNV-1a hash (offset basis 2166136261, prime
    16777619, one xor and one multiplication per byte). *)
Definition fnv1aHash (key : Bytes) : Z :=
  fold_left (fun h b => u32 (Z.lxor h b * 16777619)) key 2166136261.

Record t : Type := mk {
  partitions_ : list Shard.t
}.

(** The index expression of [Map::getPartition]:
    [hash % partitions_.size()]. *)
Definition partition_index (key : Bytes) (num_partitions : Z) : Z :=
  fnv1aHash key mod num_partitions.

(** [Map::getPartition]: [None] stands for the undefined result of an
    access to an empty vector. *)
Definition getPartition (key : Bytes) (m : t) : option Shard.t :=
  let hash := fnv1aHash key in
  nth_error (partitions_ m)
    (Z.to_nat (hash mod Z.of_nat (length (partitions_ m)))).

(** The single-key operations of [Map]: each calls [getPartition(key)] and
    forwards to that partition.  [in_partition] is that pattern: the
    partition picked for [key] is replaced by what [op] leaves. *)
Definition in_partition {R} (key : Bytes) (op : Shard.t -> result (Shard.t * R))
    (default : R) (m : t) : result (t * R) :=
  match getPartition key m with
  | Some sh =>
      let i := Z.to_nat (partition_index key (Z.of_nat (length (partitions_ m)))) in
      map_result
        (fun '(sh', r) =>
           ({| partitions_ := update_nth i (fun _ => sh') (partitions_ m) |}, r))
        (op sh)
  | None => Undefined (m, default)
  end.

Definition removeValue (key : Bytes) (predicate : Bytes -> bool) (m : t) :=
  in_partition key (Shard.removeFirst key predicate) 0 m.

Definition removeValues (key : Bytes) (predicate : Bytes -> bool) (m : t) :=
  in_partition key (Shard.removeAll key predicate) 0 m.

Definition replaceValue (key : Bytes) (map : Bytes -> Bytes) (m : t) :=
  in_partition key (Shard.replaceFirst key map) 0 m.

Definition replaceValues (key : Bytes) (map : Bytes -> Bytes) (m : t) :=
  in_partition key (Shard.replaceAll key map) 0 m.

End Map.

Module Version.

(** The value an [int] parameter takes when the argument is a wider
    unsigned number, as the [uint64_t] fields [major_version] and
    [minor_version] of [Map::Id] are: the low 32 bits, read in two's
    complement. *)
Definition to_int (x : Z) : Z :=
  let low := x mod 2 ^ 32 in
  if low <? 2 ^ 31 then low else low - 2 ^ 32.

Section Linked.

(** [Version::MAJOR] and [Version::MINOR] of the linked library
    (Version.hpp is not part of the sources). *)
Variables MAJOR MINOR : Z.

(** [Version::checkCompatibility(int major, int minor)], called with the
    version fields of the id file: the parameters are [int]s, so the
    comparison sees the converted arguments; [mt::check] throws when its
    condition is false. *)
Definition checkCompatibility (major minor : Z) : result unit :=
  let major := to_int major in
  let minor := to_int minor in
  if (major =? MAJOR) && (minor <=? MINOR) then Ok tt else Thrown tt.

End Linked.

End Version.

(** ** Concrete inputs used by the examples *)

Module Examples.

(** A value of [n] bytes, all equal to [b]. *)
Definition raw (n : nat) (b : byte) : Bytes := repeat b n.

(** The vector after [add(1) .. add(5)]. *)
Definition add_all_ids (ids : list Z) (v : UintVector.t) : UintVector.t :=
  fold_left (fun v id => snd (state_of (UintVector.add id v))) ids v.

Definition uv5 : UintVector.t := add_all_ids [1; 2; 3; 4; 5] UintVector.init.

(** An empty shard with blocks of 512 bytes and one with blocks of 16. *)
Definition shard512 : Shard.t :=
  {| Shard.store_ := {| Store.block_size := 512; Store.blocks := [] |};
     Shard.table_ := {| Table.map_ := []; Table.path_ := "multimap.0.keys" |} |}.

Definition shard16 : Shard.t :=
  {| Shard.store_ := {| Store.block_size := 16; Store.blocks := [] |};
     Shard.table_ := {| Table.map_ := []; Table.path_ := "multimap.0.keys" |} |}.

Definition store16 : Store.t := {| Store.block_size := 16; Store.blocks := [] |}.

Definition key_a : Bytes := [97].
Definition key_b : Bytes := [98].
Definition key_c : Bytes := [99].

(** A shard with three keys: "a" holds one value, every value of "b" has
    been removed, "c" holds one value. *)
Definition shard_abc : Shard.t :=
  let s := state_of (Shard.put key_a (raw 3 1) shard16) in
  let s := state_of (Shard.put key_b (raw 2 2) s) in
  let s := state_of (Shard.put key_c (raw 4 3) s) in
  fst (state_of (Shard.removeAll key_b (fun _ => true) s)).

(** The same table while another thread holds a reader lock on "c". *)
Definition lock_shared (key : Bytes) (m : list (Bytes * Table.Slot))
  : list (Bytes * Table.Slot) :=
  map (fun '(k, s) =>
         if Bytes_eqb k key
         then (k, {| Table.slot_list := Table.slot_list s;
                     Table.slot_mutex := Table.LockedShared 1 |})
         else (k, s)) m.

Definition table_abc : Table.t := Shard.table_ shard_abc.

Definition table_abc_c_locked : Table.t :=
  {| Table.map_ := lock_shared key_c (Table.map_ table_abc);
     Table.path_ := Table.path_ table_abc |}.

(** A directory that holds the keys file of a new, empty table. *)
Definition fs_new : FS :=
  fun p => if String.eqb p "multimap.0.keys" then Some [U32 0] else None.

(** The directory after a first [close] with no list locked, and the store
    that [close] left. *)
Definition fs_closed_once : FS :=
  Table.c_fs (state_of (Table.close table_abc fs_new (Shard.store_ shard_abc))).

Definition store_closed_once : Store.t :=
  Table.c_store (state_of (Table.close table_abc fs_new (Shard.store_ shard_abc))).

(** The table reopened from that directory, with a reader lock held on
    "c" when it is closed again. *)
Definition table_reopened : Table.t :=
  snd (state_of (Table.open "multimap.0.keys" false fs_closed_once)).

Definition table_reopened_c_locked : Table.t :=
  {| Table.map_ := lock_shared key_c (Table.map_ table_reopened);
     Table.path_ := Table.path_ table_reopened |}.

(** A shard whose store already holds 2^28 blocks of 64 bytes (16 GiB,
    ids 0 .. 2^28 - 1) and whose table holds no key: what a shard is after
    the values that filled these blocks were removed and the shard was
    closed and opened again.  The next block is committed under the id
    2^28. *)
Definition many_blocks : list Block.t :=
  repeat (Block.zeroed 64) (Z.to_nat (2 ^ 28)).

Definition shard64_big : Shard.t :=
  {| Shard.store_ := {| Store.block_size := 64; Store.blocks := many_blocks |};
     Shard.table_ := {| Table.map_ := []; Table.path_ := "multimap.0.keys" |} |}.

(** A map of 23 empty partitions. *)
Definition map23 : Map.t := {| Map.partitions_ := repeat shard512 23 |}.

(** A partition that holds two values under the key "a". *)
Definition shard_a2 : Shard.t :=
  let s := state_of (Shard.put key_a (raw 3 1) shard512) in
  state_of (Shard.put key_a (raw 3 2) s).

(** A map of 23 partitions whose two values, both under "a", were put into
    partition 14, the one that [Map::getPartition] picks for "a". *)
Definition map23_a : Map.t :=
  {| Map.partitions_ := repeat shard512 14 ++ shard_a2 :: repeat shard512 8 |}.

End Examples.

(** ** Specification vocabulary *)

(** [runs_on i op m out]: [out] is what running [op] on partition [i] of
    the map [m] gives.  It ends the way [op] ends on that partition and with
    the same result; in the map that it leaves, partition [i] is the
    partition as [op] left it and every other partition is the one of [m]. *)
Definition runs_on {R} (i : nat) (op : Shard.t -> result (Shard.t * R))
    (m : Map.t) (out : result (Map.t * R)) : Prop :=
  exists sh,
    nth_error (Map.partitions_ m) i = Some sh
    /\ map_result snd out = map_result snd (op sh)
    /\ length (Map.partitions_ (fst (state_of out))) = length (Map.partitions_ m)
    /\ nth_error (Map.partitions_ (fst (state_of out))) i
       = Some (fst (state_of (op sh)))
    /\ forall j, j <> i ->
         nth_error (Map.partitions_ (fst (state_of out))) j
         = nth_error (Map.partitions_ m) j.

(** The block [List::Add] tries first: the in-memory block of the list, or
    a freshly allocated, zeroed one when the list has none. *)
Definition current_tail (st : Store.t) (l : List.t) : Block.t :=
  if Block.has_data (List.block_ l) then List.block_ l
  else Block.zeroed (Store.block_size st).


(** The outcome of an accepted [List::Add] as far as the placement of the
    value goes: [value] is the last entry of the in-memory block [b] of the
    list; it starts at offset [start >= 0], header and bytes end at
    [next_offset b <= size b]; and either it fitted into the block tried
    first (the store is untouched), or that block was appended to the
    store and the value starts a fresh block at offset 0. *)
Definition stored_in_one_block (value : Bytes) (st st' : Store.t)
    (l l' : List.t) : Prop :=
  let tail := current_tail st l in
  let b := List.block_ l' in
  exists before start,
    Block.entries b = before ++ [ {| Block.value := value; Block.deleted := false |} ]
    /\ Block.has_data b = true
    /\ start = Block.next_offset
                 {| Block.has_data := true; Block.size := Block.size b;
                    Block.entries := before |}
    /\ 0 <= start
    /\ start + Block.header_size (Bytes_size value) + Bytes_size value
       = Block.next_offset b
    /\ Block.next_offset b <= Block.size b
    /\ ((Block.fits value tail = true
         /\ st' = st /\ before = Block.entries tail)
        \/ (Block.fits value tail = false
            /\ Store.blocks st' = Store.blocks st ++ [tail]
            /\ before = [] /\ start = 0
            /\ Block.size b = Store.block_size st)).

(** An entry [Table::close] writes: its list can be locked and is not
    empty. *)
Definition writable (entry : Bytes * Table.Slot) : bool :=
  Table.tryLockUnique (Table.slot_mutex (snd entry))
  && negb (List.empty (Table.slot_list (snd entry))).

(** [rec] is the record of [entry] in the keys file: the fields
    [writeEntryToFile] produces for the key and the head of the flushed
    list. *)
Definition record_of (entry : Bytes * Table.Slot) (rec : list Field) : Prop :=
  exists st1 st2 l',
    List.Flush (st1, Table.slot_list (snd entry)) = Ok (st2, l')
    /\ Table.writeEntryToFile (fst entry) (List.head_ l') = Some rec.

(** The keys file after a completed [Table::close], and the table a later
    [Table::open] builds from it: the file is the count followed by the
    records of the writable entries, in the order of the loop; the count
    is the number of records; reopening succeeds and yields exactly the
    keys of those entries, so that a key whose list was empty is not
    found any more. *)
Definition keys_file_after_close (tbl : Table.t) (c : Table.closing) : Prop :=
  let kept := filter writable (Table.map_ tbl) in
  exists recs,
    Table.c_fs c (Table.path_ tbl)
    = Some (U32 (Z.of_nat (length recs)) :: concat recs)
    /\ Forall2 record_of kept recs
    /\ exists tbl',
         Table.open (Table.path_ tbl) false (Table.c_fs c)
         = Ok (Table.c_fs c, tbl')
         /\ map fst (Table.map_ tbl') = map fst kept
         /\ forall key slot,
              Table.find key (Table.map_ tbl) = Some slot ->
              List.empty (Table.slot_list slot) = true ->
              Table.find key (Table.map_ tbl') = None.

(** What [Table::close] does with the keys file when [original] is its
    content before the call.  A list that cannot be locked is skipped: the
    round of the loop leaves file system, store and count as they were.
    A completed run leaves no file at the backup path, and at the path of
    the keys file the count and the records of the writable entries, so no
    record of a skipped list.  A run that stops after [k] rounds of the
    loop leaves [original] at the backup path. *)
Definition close_replaces_keys_file (tbl : Table.t) (fs : FS) (st : Store.t)
    (original : File) : Prop :=
  let path := Table.path_ tbl in
  (forall c key slot,
      Table.tryLockUnique (Table.slot_mutex slot) = false ->
      Table.close_entry path c (key, slot) = Ok c)
  /\ (forall c,
        Table.close tbl fs st = Ok c ->
        Table.c_fs c (Table.backup_path path) = None
        /\ exists recs,
             Table.c_fs c path = Some (U32 (Z.of_nat (length recs)) :: concat recs)
             /\ Forall2 record_of (filter writable (Table.map_ tbl)) recs)
  /\ (forall k,
        Table.c_fs (state_of (Table.close_interrupted k tbl fs st))
                   (Table.backup_path path) = Some original).

(** *** The id vector *)

(** The delta encoding of [ids] after a previous value [prev]. *)
Fixpoint deltas (prev : Z) (ids : list Z) : list byte :=
  match ids with
  | [] => []
  | id :: rest => Varint.bytes_of (id - prev) ++ deltas id rest
  end.

Fixpoint increasing (prev : Z) (ids : list Z) : Prop :=
  match ids with
  | [] => True
  | id :: rest => prev < id /\ increasing id rest
  end.

(** [represents v ids]: the vector [v] holds the strictly increasing ids
    [ids], none above [N4_MAX_UINT]: its buffer starts with their delta
    encoding followed by the last id as a 32-bit field, and [offset_] points
    behind that field.  A vector that holds an id owns at least the eight
    bytes of the first allocation, and the buffer is never more than half
    as large again as what is used (it grows by that factor when full). *)
Definition represents (v : UintVector.t) (ids : list Z) : Prop :=
  length (UintVector.data_ v) = Z.to_nat (UintVector.size_ v)
  /\ 0 <= UintVector.size_ v
  /\ 2 * UintVector.size_ v <= 3 * UintVector.offset_ v + 24
  /\ increasing (-1) ids
  /\ last ids 0 <= Varint.N4_MAX_UINT
  /\ match ids with
     | [] => UintVector.offset_ v = 0
     | _ :: _ =>
         8 <= UintVector.size_ v
         /\ UintVector.offset_ v = Z.of_nat (length (deltas 0 ids)) + 4
         /\ UintVector.offset_ v <= UintVector.size_ v
         /\ firstn (Z.to_nat (UintVector.offset_ v)) (UintVector.data_ v)
            = deltas 0 ids ++ writeUint32 (last ids 0)
     end.

(** The deltas [unpack] meets when it decodes [ids] after [prev]. *)
Fixpoint decodable (prev : Z) (ids : list Z) : Prop :=
  match ids with
  | [] => True
  | id :: rest =>
      0 <= id - prev <= Varint.N4_MAX_UINT /\ 0 <= id < 2 ^ 32
      /\ decodable id rest
  end.


(** *** The content of a list *)

(** The committed blocks of a list with block ids [ids], the entries of the
    whole list in order, the values an iteration yields, and the number of
    entries marked as deleted. *)
Definition committed (st : Store.t) (ids : list Z) : list Block.t :=
  map (fun id => Store.read id st) ids.

Definition content (st : Store.t) (ids : list Z) (l : List.t)
  : list Block.Entry :=
  flat_map Block.entries (committed st ids) ++ Block.entries (List.block_ l).

Definition is_live (e : Block.Entry) : bool := negb (Block.deleted e).

Definition live (es : list Block.Entry) : list Bytes :=
  map Block.value (filter is_live es).

Definition count_deleted (es : list Block.Entry) : nat :=
  length (filter Block.deleted es).

(** [well_formed st l ids]: the list [l] over the store [st] has the
    committed block ids [ids]: its id vector represents them, they name
    blocks of the store, none of these is empty, the in-memory block, when
    there is one, holds a value and has the block size of the store, and
    the two counters count the entries and the deleted entries (as 32-bit
    numbers). *)
Definition well_formed (st : Store.t) (l : List.t) (ids : list Z) : Prop :=
  represents (List.block_ids (List.head_ l)) ids
  /\ Forall (fun id => id < Store.num_blocks st) ids
  /\ Forall (fun id => Block.entries (Store.read id st) <> []) ids
  /\ (if Block.has_data (List.block_ l)
      then Block.entries (List.block_ l) <> []
           /\ Block.size (List.block_ l) = Store.block_size st
      else Block.entries (List.block_ l) = [])
  /\ List.num_values_total (List.head_ l)
     = u32 (Z.of_nat (length (content st ids l)))
  /\ List.num_values_deleted (List.head_ l)
     = u32 (Z.of_nat (count_deleted (content st ids l))).

(** *** The iterator as a cursor into the content of its list *)

(** The entries of the blocks [k], [k+1], ..., [k+n-1] of the iterator's
    view of the list. *)
Definition entries_from (w : List.Iter.world) (k n : nat) : list Block.Entry :=
  flat_map (fun j => Block.entries (List.Iter.block_at w j)) (seq k n).

(** The entries before the position of the iterator, and the entries from
    this position on: the first of them, if any, is the current one. *)
Definition before (w : List.Iter.world) : list Block.Entry :=
  let it := List.Iter.w_iter w in
  entries_from w 0 (List.Iter.block_id_index it)
  ++ firstn (List.Iter.block_iter_ it) (Block.entries (List.Iter.current_block w)).

Definition ahead (w : List.Iter.world) : list Block.Entry :=
  let it := List.Iter.w_iter w in
  skipn (List.Iter.block_iter_ it) (Block.entries (List.Iter.current_block w))
  ++ entries_from w (S (List.Iter.block_id_index it))
       (length (List.Iter.block_ids_ it) - List.Iter.block_id_index it).

Definition view (w : List.Iter.world) : list Block.Entry := before w ++ ahead w.

(** [iter_ok w]: the iterator of [w] is one of a well-formed list.  The
    snapshot [block_ids_] is what the head holds, the ids name blocks of
    the store, no committed block of the view is empty, the in-memory block
    is as in [well_formed], the counters count the entries of the view, the
    position lies inside the current block (at its end only in the last
    one), and an unchanged [requested_block_] is the block of the store. *)
Definition iter_ok (w : List.Iter.world) : Prop :=
  let st := List.Iter.w_store w in
  let l := List.Iter.w_list w in
  let it := List.Iter.w_iter w in
  let ids := List.Iter.block_ids_ it in
  let index := List.Iter.block_id_index it in
  let cur := Block.entries (List.Iter.current_block w) in
  represents (List.block_ids (List.head_ l)) ids
  /\ Forall (fun id => id < Store.num_blocks st) ids
  /\ (forall k, (k < length ids)%nat ->
        Block.entries (List.Iter.block_at w k) <> [])
  /\ (if Block.has_data (List.block_ l)
      then Block.entries (List.block_ l) <> []
           /\ Block.size (List.block_ l) = Store.block_size st
      else Block.entries (List.block_ l) = [])
  /\ List.num_values_total (List.head_ l) = u32 (Z.of_nat (length (view w)))
  /\ List.num_values_deleted (List.head_ l)
     = u32 (Z.of_nat (count_deleted (view w)))
  /\ (index <= S (length ids))%nat
  /\ (List.Iter.block_iter_ it <= length cur)%nat
  /\ ((index < length ids)%nat -> (List.Iter.block_iter_ it < length cur)%nat)
  /\ ((index < length ids)%nat ->
      List.Iter.block_has_changed it = false ->
      List.Iter.requested_block_ it = Store.read (nth index ids 0) st).

(** The entries left after the loop that skips deleted values. *)
Fixpoint skip_marked (es : list Block.Entry) : list Block.Entry :=
  match es with
  | e :: rest => if Block.deleted e then skip_marked rest else es
  | [] => []
  end.

(** The iterator rests on a valid value or at the end. *)
Definition settled (w : List.Iter.world) : Prop :=
  skip_marked (ahead w) = ahead w.

(** What [Shard::remove] and [Shard::replace] do to the entries: the first
    valid entry, or every valid entry, that [selected] picks is marked as
    deleted; its value stays. *)
Fixpoint mark_first (selected : Bytes -> bool) (es : list Block.Entry)
  : list Block.Entry :=
  match es with
  | [] => []
  | e :: rest =>
      if is_live e && selected (Block.value e)
      then Block.set_deleted_entry e :: rest
      else e :: mark_first selected rest
  end.

Definition mark_all (selected : Bytes -> bool) (es : list Block.Entry)
  : list Block.Entry :=
  map (fun e => if is_live e && selected (Block.value e)
                then Block.set_deleted_entry e else e) es.

(** The values [selected] picks among the valid entries, in order. *)
Definition selected_values (selected : Bytes -> bool) (es : list Block.Entry)
  : list Bytes :=
  filter selected (live es).

Definition first_selected (selected : Bytes -> bool) (es : list Block.Entry)
  : list Bytes :=
  firstn 1 (selected_values selected es).

(** The steps of an iterator leave the ids of its list, the block size and
    the number of blocks of the store as they are, and every block of the
    store that is not one of its list. *)
Definition same_frame (w w' : List.Iter.world) : Prop :=
  List.Iter.block_ids_ (List.Iter.w_iter w')
  = List.Iter.block_ids_ (List.Iter.w_iter w)
  /\ Store.block_size (List.Iter.w_store w')
     = Store.block_size (List.Iter.w_store w)
  /\ Store.num_blocks (List.Iter.w_store w')
     = Store.num_blocks (List.Iter.w_store w)
  /\ (forall id, 0 <= id ->
        ~ In id (List.Iter.block_ids_ (List.Iter.w_iter w)) ->
        Store.read id (List.Iter.w_store w')
        = Store.read id (List.Iter.w_store w)).

(** *** Shards *)

(** The list a key stands for: the one the table holds, or the empty list
    [getUniqueOrCreate] would create. *)
Definition list_of (key : Bytes) (sh : Shard.t) : List.t :=
  match Table.getUnique key (Shard.table_ sh) with
  | Some l => l
  | None => List.init
  end.

(** [shard_ok sh ids_of]: every list of the table is a well-formed list
    over the store of the shard, with the committed block ids [ids_of key];
    lists of different keys share no block; a key without a list has no
    block. *)
Definition shard_ok (sh : Shard.t) (ids_of : Bytes -> list Z) : Prop :=
  (forall key, well_formed (Shard.store_ sh) (list_of key sh) (ids_of key))
  /\ (forall key1 key2 id,
        key1 <> key2 -> In id (ids_of key1) -> ~ In id (ids_of key2)).

(** The entries of the list of [key], in order. *)
Definition entries_of (key : Bytes) (sh : Shard.t) (ids_of : Bytes -> list Z)
  : list Block.Entry :=
  content (Shard.store_ sh) (ids_of key) (list_of key sh).

(** The entries [put] makes of new values. *)
Definition fresh (values : list Bytes) : list Block.Entry :=
  map (fun v => {| Block.value := v; Block.deleted := false |}) values.

(** [put(key, v1); ...; put(key, vn)]. *)
Fixpoint puts (key : Bytes) (values : list Bytes) (sh : Shard.t) : result Shard.t :=
  match values with
  | [] => Ok sh
  | value :: rest => bind (Shard.put key value sh) (fun sh => sh) (puts key rest)
  end.

(** A value [put] accepts: it fits into an empty block of the store. *)
Definition fits_block (sh : Shard.t) (value : Bytes) : Prop :=
  Block.fits_empty (Bytes_size value) (Store.block_size (Shard.store_ sh)) = true.

(** What an iteration yields after [put(key, v1) .. put(key, vn)]: the
    puts return, and the iterator of [key] yields what it yielded before,
    followed by the new values in the order of the puts; these are the
    values not marked as deleted of the committed blocks of the list, in
    the order of its block ids, followed by those of the in-memory block. *)
Definition puts_yield (key : Bytes) (values : list Bytes) (sh : Shard.t) : Prop :=
  exists sh' earlier ids,
    puts key values sh = Ok sh'
    /\ Shard.get key sh = Some earlier
    /\ Shard.get key sh' = Some (earlier ++ values)
    /\ UintVector.unpack (List.block_ids (List.head_ (list_of key sh'))) = Some ids
    /\ earlier ++ values
       = live (flat_map Block.entries (committed (Shard.store_ sh') ids)
               ++ Block.entries (List.block_ (list_of key sh'))).

(** The entries after [Shard::remove] or the loops of [Shard::replace],
    and the values these loops pick, with and without [apply_to_all]. *)
Definition marked (apply_to_all : bool) (selected : Bytes -> bool)
    (es : list Block.Entry) : list Block.Entry :=
  if apply_to_all then mark_all selected es else mark_first selected es.

Definition chosen (apply_to_all : bool) (selected : Bytes -> bool)
    (es : list Block.Entry) : list Bytes :=
  if apply_to_all then selected_values selected es else first_selected selected es.

(** The values [Shard::replace] replaces: those for which the function
    returns a value that is not empty. *)
Definition replaced (function : Bytes -> Bytes) (value : Bytes) : bool :=
  negb (Shard.is_empty (function value)).

(** *** Reachable shards *)

(** The operations on the lists of a shard: [Shard::put], [Shard::remove],
    [Shard::replace], and [List::Flush] of the list of a key (as
    [Table::close] calls it). *)
Inductive Op : Type :=
| OpPut (key value : Bytes)
| OpRemove (key : Bytes) (predicate : Bytes -> bool) (apply_to_all : bool)
| OpReplace (key : Bytes) (function : Bytes -> Bytes) (apply_to_all : bool)
| OpFlush (key : Bytes).

Definition run (op : Op) (sh : Shard.t) : result Shard.t :=
  match op with
  | OpPut key value => Shard.put key value sh
  | OpRemove key predicate apply_to_all =>
      map_result fst (Shard.remove key predicate apply_to_all sh)
  | OpReplace key function apply_to_all =>
      map_result fst (Shard.replace key function apply_to_all sh)
  | OpFlush key =>
      match Table.getUnique key (Shard.table_ sh) with
      | Some l =>
          map_result (Shard.with_list key (Shard.table_ sh))
                     (List.Flush (Shard.store_ sh, l))
      | None => Ok sh
      end
  end.

(** The values an operation with or without [apply_to_all] picks among
    the values [vs] an iteration yields. *)
Definition picked (apply_to_all : bool) (selected : Bytes -> bool)
    (vs : list Bytes) : list Bytes :=
  if apply_to_all then filter selected vs else firstn 1 (filter selected vs).

(** [in_range op sh]: the operation stays within the limits of the code:
    the key is not larger than [max_key_size], a new value fits into a
    block, and the ids of the blocks the operation may commit (one per
    value added, at most) are not above [N4_MAX_UINT]. *)
Definition in_range (op : Op) (sh : Shard.t) : Prop :=
  match op with
  | OpPut key value =>
      Bytes_size key <= Table.max_key_size
      /\ fits_block sh value
      /\ Store.num_blocks (Shard.store_ sh) <= Varint.N4_MAX_UINT
  | OpRemove _ _ _ => True
  | OpReplace key function apply_to_all =>
      exists vs,
        Shard.get key sh = Some vs
        /\ Forall (fits_block sh)
                  (map function (picked apply_to_all (replaced function) vs))
        /\ Store.num_blocks (Shard.store_ sh)
           + Z.of_nat (length (picked apply_to_all (replaced function) vs))
           <= Varint.N4_MAX_UINT + 1
  | OpFlush _ => Store.num_blocks (Shard.store_ sh) <= Varint.N4_MAX_UINT
  end.

(** The shards reached from a new, empty one by operations in range that
    returned. *)
Inductive reachable : Shard.t -> Prop :=
| reachable_new (block_size : Z) (path : string) :
    reachable
      {| Shard.store_ := {| Store.block_size := block_size; Store.blocks := [] |};
         Shard.table_ := {| Table.map_ := []; Table.path_ := path |} |}
| reachable_step (op : Op) (sh sh' : Shard.t) :
    reachable sh -> in_range op sh -> run op sh = Ok sh' -> reachable sh'.

(** The counters of the list of [key] agree with its iteration: no more
    values are counted as deleted than in total, and a full iteration
    yields as many values as the difference says. *)
Definition counters_agree (key : Bytes) (sh : Shard.t) : Prop :=
  let head := List.head_ (list_of key sh) in
  List.num_values_deleted head <= List.num_values_total head
  /\ exists values,
       Shard.get key sh = Some values
       /\ List.num_values_total head - List.num_values_deleted head
          = Z.of_nat (length values)
       /\ List.size (list_of key sh) = Z.of_nat (length values).

(** What [Shard::replace] leaves: it returns the number of values it
    picked; the entries the list had are all there, in place and with
    their values, those of the picked values marked as deleted; behind
    them are the new values, in the order of the values they replace; and
    an iteration yields the values that were not picked, then the new
    values. *)
Definition replace_appends (key : Bytes) (function : Bytes -> Bytes)
    (apply_to_all : bool) (sh : Shard.t) (ids_of : Bytes -> list Z) : Prop :=
  let es := entries_of key sh ids_of in
  let old := chosen apply_to_all (replaced function) es in
  exists sh' ids_of',
    Shard.replace key function apply_to_all sh = Ok (sh', Z.of_nat (length old))
    /\ shard_ok sh' ids_of'
    /\ entries_of key sh' ids_of'
       = marked apply_to_all (replaced function) es ++ fresh (map function old)
    /\ map Block.value (marked apply_to_all (replaced function) es)
       = map Block.value es
    /\ Shard.get key sh'
       = Some (live (marked apply_to_all (replaced function) es)
               ++ map function old)
    /\ (apply_to_all = true ->
        live (marked apply_to_all (replaced function) es)
        = filter (fun v => negb (replaced function v)) (live es)).

(** ** A run of operations *)

Module Scenario.

Import Examples.

Definition step (op : Op) (sh : Shard.t) : Shard.t := state_of (run op sh).

Definition is_first_value (v : Bytes) : bool := Bytes_eqb v (raw 10 1).

(** Replaces the value of ten bytes 0x01 by twelve bytes 0x03. *)
Definition renew (v : Bytes) : Bytes :=
  if Bytes_eqb v (raw 10 1) then raw 12 3 else [].

(** Blocks of 16 bytes: the second [put] under "a" commits the block of the
    first; the value is then removed, the list flushed, and the value put
    again.  "b" holds one value. *)
Definition sh1 : Shard.t := step (OpPut key_a (raw 10 1)) shard16.
Definition sh2 : Shard.t := step (OpPut key_a (raw 10 2)) sh1.
Definition sh3 : Shard.t := step (OpPut key_b (raw 4 7)) sh2.
Definition sh4 : Shard.t := step (OpRemove key_a is_first_value true) sh3.
Definition sh5 : Shard.t := step (OpFlush key_a) sh4.
Definition sh6 : Shard.t := step (OpPut key_a (raw 10 1)) sh5.

End Scenario.

(** *** Lists that outgrow their counters *)

(** The bytes of the store and of the in-memory block of a list that are
    in use when every block of the store is full. *)
Definition used_bytes (st : Store.t) (l : List.t) : Z :=
  Store.block_size st * Store.num_blocks st + Block.next_offset (List.block_ l).

(** ** Predicates (callables.hpp) *)

Module Callables.

(** [std::memcmp(a, b, n) == 0]: the first [n] bytes of the two buffers
    are compared; [None] stands for a call that reads past the end of one
    of them (undefined in C++). *)
Definition memcmp_eq (a b : Bytes) (n : Z) : option bool :=
  if (n <=? Bytes_size a) && (n <=? Bytes_size b)
  then Some (Bytes_eqb (firstn (Z.to_nat n) a) (firstn (Z.to_nat n) b))
  else None.

(** The conversion of a [std::size_t] to [int]: the low 32 bits, read as a
    signed number. *)
Definition to_int (x : Z) : Z :=
  let low := x mod 2 ^ 32 in
  if low <? 2 ^ 31 then low else low - 2 ^ 32.

(** [Equal(value_)(value)]. *)
Definition Equal (value_ value : Bytes) : bool := Bytes_eqb value value_.

(** The elements of [pattern] are the first elements of [value]. *)
Fixpoint matches_at (value pattern : Bytes) : bool :=
  match pattern, value with
  | [], _ => true
  | p :: pattern', x :: value' => (x =? p) && matches_at value' pattern'
  | _ :: _, [] => false
  end.

(** [std::search(value.begin(), value.end(), pattern.begin(),
    pattern.end())]: the position of the first occurrence of [pattern] in
    [value]; the position [value.end()], the length of [value], when there
    is none. *)
Fixpoint search (value pattern : Bytes) : nat :=
  if matches_at value pattern then O
  else match value with
       | [] => O
       | _ :: value' => S (search value' pattern)
       end.

(** [Contains(value_)(value)]. *)
Definition Contains (value_ value : Bytes) : bool :=
  if Bytes_size value_ >? 0
  then negb (search value value_ =? length value)%nat
  else true.

(** [StartsWith(value_)(value)]. *)
Definition StartsWith (value_ value : Bytes) : option bool :=
  if Bytes_size value >=? Bytes_size value_
  then memcmp_eq value value_ (Bytes_size value_)
  else Some false.

(** [EndsWith(value_)(value)]: [diff] is an [int] that receives the
    difference of two [std::size_t]. *)
Definition EndsWith (value_ value : Bytes) : option bool :=
  let diff := to_int ((Bytes_size value - Bytes_size value_) mod 2 ^ 64) in
  if diff >=? 0
  then memcmp_eq (skipn (Z.to_nat diff) value) value_ (Bytes_size value_)
  else Some false.

End Callables.

(** ** More specification vocabulary *)

(** [add(id1); ...; add(idn)] on an id vector, every call returning
    [true]; [None] when a call returns [false] or does not return. *)
Fixpoint add_each (ids : list Z) (v : UintVector.t) : option UintVector.t :=
  match ids with
  | [] => Some v
  | id :: rest =>
      match UintVector.add id v with
      | Ok (true, v') => add_each rest v'
      | _ => None
      end
  end.

(** The values left when the first value that [selected] picks is taken
    out. *)
Fixpoint drop_first (selected : Bytes -> bool) (vs : list Bytes) : list Bytes :=
  match vs with
  | [] => []
  | v :: rest => if selected v then rest else v :: drop_first selected rest
  end.

(** The key an operation works on. *)
Definition key_of (op : Op) : Bytes :=
  match op with
  | OpPut key _ => key
  | OpRemove key _ _ => key
  | OpReplace key _ _ => key
  | OpFlush key => key
  end.

(** Equality of byte strings is decidable. *)
Definition Bytes_eq_dec : forall a b : Bytes, {a = b} + {a <> b} :=
  list_eq_dec Z.eq_dec.

(** An entry of the table whose list holds a value. *)
Definition holds_values (entry : Bytes * Table.Slot) : bool :=
  negb (List.empty (Table.slot_list (snd entry))).

(** An iterator on a list of three values: the first fills the committed
    block 0, the other two are in the in-memory block.  The iterator is on
    the second value, the first of the in-memory block. *)
Definition iter_on_second_value : List.Iter.world :=
  let w := state_of (List.Add (Examples.raw 10 1) (Examples.store16, List.init)) in
  let w := state_of (List.Add (Examples.raw 10 2) w) in
  let '(st, l) := state_of (List.Add (Examples.raw 3 3) w) in
  match List.Iter.NewIterator st l with
  | Some w => List.Iter.Next (List.Iter.SeekToFirst w)
  | None => List.Iter.mkWorld st l (List.Iter.make [])
  end.

(** ** Closing and reopening a shard *)

(** [store_extends st st']: [st'] holds the blocks of [st], unchanged and
    under the same ids, and possibly further blocks behind them. *)
Definition store_extends (st st' : Store.t) : Prop :=
  Store.block_size st' = Store.block_size st
  /\ Store.num_blocks st <= Store.num_blocks st'
  /\ forall id, 0 <= id < Store.num_blocks st -> Store.read id st' = Store.read id st.

(** Two iterators at the same position over the same store, on lists
    whose in-memory blocks hold the same entries. *)
Definition same_cursor (w1 w2 : List.Iter.world) : Prop :=
  List.Iter.w_store w1 = List.Iter.w_store w2
  /\ List.Iter.w_iter w1 = List.Iter.w_iter w2
  /\ Block.entries (List.block_ (List.Iter.w_list w1))
     = Block.entries (List.block_ (List.Iter.w_list w2)).

(** The entry [Table::open] makes of a key and a head read from the keys
    file. *)
Definition slot_of_head (kh : Bytes * List.Head) : Bytes * Table.Slot :=
  (fst kh, {| Table.slot_list := List.of_head (snd kh);
              Table.slot_mutex := Table.Unlocked |}).

(** [rec] is read back as the key and the head [kh], whatever follows it
    in the file. *)
Definition reads_back (rec : list Field) (kh : Bytes * List.Head) : Prop :=
  forall rest, Table.readEntryFromFile (rec ++ rest) = Some (kh, rest).

(** The shard made of the store that [Table::close] left and of the table
    a later [Table::open] built. *)
Definition reopened (c : Table.closing) (tbl : Table.t) : Shard.t :=
  {| Shard.store_ := Table.c_store c; Shard.table_ := tbl |}.

(** What [Table::close] keeps of an entry it writes: the record is read
    back under the same key, and the list [Table::open] makes of the head
    that is read back yields, over the store that [close] left or any
    extension of it, what the list of the entry yielded over the store
    [st] before. *)
Definition persisted (st st' : Store.t) (entry : Bytes * Table.Slot)
    (kh : Bytes * List.Head) : Prop :=
  fst kh = fst entry
  /\ forall st'', store_extends st' st'' ->
       List.iterate st'' (List.of_head (snd kh))
       = List.iterate st (Table.slot_list (snd entry)).

(** The keys of a table are distinct (the table is a hash map) and none
    is larger than [max_key_size] ([getUniqueOrCreate] rejects a larger
    one). *)
Definition table_ok (tbl : Table.t) : Prop :=
  NoDup (map fst (Table.map_ tbl))
  /\ Forall (fun key => Bytes_size key <= Table.max_key_size)
            (map fst (Table.map_ tbl)).

(** The vector [UintVector::readFromStream] builds from what
    [UintVector::writeToStream] wrote for [v]: [offset_] bytes are
    allocated and read, and [size_] is [offset_]. *)
Definition read_back (v : UintVector.t) : UintVector.t :=
  {| UintVector.data_ :=
       firstn (Z.to_nat (UintVector.offset_ v)) (UintVector.contents v);
     UintVector.offset_ := UintVector.offset_ v;
     UintVector.size_ := UintVector.offset_ v |}.

(** The function [Shard::replaceAllEqual] and [Shard::replaceFirstEqual]
    hand to [Shard::replace]. *)
Definition equal_to_new (old_value new_value : Bytes) : Bytes -> Bytes :=
  fun current_value =>
    if Bytes_eqb current_value old_value then new_value else [].

(** ** Flushing the lists of a table *)

(** [kept st st' entry entry']: [entry'] is [entry] after a loop that
    flushes lists: it has the same key and the same lock state, and its
    list yields over [st'], or any extension of it, what the list of
    [entry] yielded over [st]. *)
Definition kept (st st' : Store.t) (entry entry' : Bytes * Table.Slot) : Prop :=
  fst entry' = fst entry
  /\ Table.slot_mutex (snd entry') = Table.slot_mutex (snd entry)
  /\ forall st'', store_extends st' st'' ->
       List.iterate st'' (Table.slot_list (snd entry'))
       = List.iterate st (Table.slot_list (snd entry)).

(** A list that has been flushed, or that could not be locked and is as
    it was. *)
Definition flushed_or_locked (entry entry' : Bytes * Table.Slot) : Prop :=
  if Table.tryLockUnique (Table.slot_mutex (snd entry))
  then Block.has_data (List.block_ (Table.slot_list (snd entry'))) = false
  else entry' = entry.

(** [flushed entry entry']: [entry'] is [entry] after its list has been
    flushed: the same key, the same lock, and no in-memory block. *)
Definition flushed (entry entry' : Bytes * Table.Slot) : Prop :=
  fst entry' = fst entry
  /\ Table.slot_mutex (snd entry') = Table.slot_mutex (snd entry)
  /\ Block.has_data (List.block_ (Table.slot_list (snd entry'))) = false.

(** [stopped_at_locked entries entries']: what a loop over [entries] that
    flushes list after list and stops at the first one that another thread
    has locked leaves behind.  The lists before that one have been flushed;
    the locked one and those after it are as they were. *)
Definition stopped_at_locked (entries entries' : list (Bytes * Table.Slot)) : Prop :=
  exists done locked rest done',
    entries = done ++ locked :: rest
    /\ Forall (fun entry =>
                 Table.tryLockUnique (Table.slot_mutex (snd entry)) = true) done
    /\ Table.tryLockUnique (Table.slot_mutex (snd locked)) = false
    /\ entries' = done' ++ locked :: rest
    /\ Forall2 flushed done done'.

(** The shard made of a store and a table. *)
Definition shard_of (w : Store.t * Table.t) : Shard.t :=
  {| Shard.store_ := fst w; Shard.table_ := snd w |}.

(** No list of the table is locked by another thread. *)
Definition all_unlocked (tbl : Table.t) : Prop :=
  Forall (fun entry => Table.tryLockUnique (Table.slot_mutex (snd entry)) = true)
         (Table.map_ tbl).

(** The shard of [Examples.shard_abc] while another thread holds a reader
    lock on the list of "c". *)
Definition shard_abc_c_locked : Shard.t :=
  {| Shard.store_ := Shard.store_ Examples.shard_abc;
     Shard.table_ := Examples.table_abc_c_locked |}.

(** The scenario continued: the list of "b" is flushed, then the list of
    "a".  The blocks 0, 1 and 3 of the store belong to "a", the block 2 to
    "b". *)
Definition sh7 : Shard.t := Scenario.step (OpFlush Examples.key_b) Scenario.sh6.
Definition sh8 : Shard.t := Scenario.step (OpFlush Examples.key_a) sh7.
(* ================================================================== *)
(** * Part II: theorems                                                *)
(* ================================================================== *)

(** ** Version check *)

Lemma to_int_in_range (x : Z) : 0 <= x < 2 ^ 31 -> Version.to_int x = x.
Proof.
  intros Hx. unfold Version.to_int. cbv zeta.
  rewrite (Z.mod_small x (2 ^ 32)) by lia.
  destruct (Z.ltb_spec x (2 ^ 31)); [reflexivity | lia].
Qed.

(** The conversion to [int] forgets every multiple of [2^32]. *)
Lemma to_int_wraps (x k : Z) : Version.to_int (x + k * 2 ^ 32) = Version.to_int x.
Proof. unfold Version.to_int. now rewrite Z.mod_add by lia. Qed.

(** What the check compares are the converted arguments. *)
Lemma checkCompatibility_spec (MAJOR MINOR major minor : Z) :
  (Version.checkCompatibility MAJOR MINOR major minor = Ok tt
     <-> Version.to_int major = MAJOR /\ Version.to_int minor <= MINOR)
  /\ (Version.checkCompatibility MAJOR MINOR major minor = Thrown tt
     <-> ~ (Version.to_int major = MAJOR /\ Version.to_int minor <= MINOR)).
Proof.
  unfold Version.checkCompatibility. cbv zeta.
  destruct (Z.eqb_spec (Version.to_int major) MAJOR) as [Hmaj | Hmaj];
    destruct (Z.leb_spec (Version.to_int minor) MINOR) as [Hmin | Hmin];
    cbn [andb].
  - split; split; intros H; try reflexivity; try discriminate.
    + now split.
    + exfalso. apply H. now split.
  - split; split; intros H; try reflexivity; try discriminate.
    + destruct H. lia.
    + intros [_ ?]. lia.
  - split; split; intros H; try reflexivity; try discriminate.
    + destruct H. contradiction.
    + intros [? _]. contradiction.
  - split; split; intros H; try reflexivity; try discriminate.
    + destruct H. contradiction.
    + intros [? _]. contradiction.
Qed.

(** Version fields that differ by a multiple of [2^32] are not told apart. *)
Lemma checkCompatibility_wraps (MAJOR MINOR major minor k : Z) :
  Version.checkCompatibility MAJOR MINOR (major + k * 2 ^ 32) minor
  = Version.checkCompatibility MAJOR MINOR major minor.
Proof. unfold Version.checkCompatibility. now rewrite to_int_wraps. Qed.

(** C10 (amended).  For version fields [major] and [minor] of the id file
    that are below [2^31], [Version::checkCompatibility(major, minor)]
    returns normally if and only if [major] equals the library's [MAJOR] and
    [minor] is at most its [MINOR]; in every other case it throws. *)
Theorem checkCompatibility_passes_iff (MAJOR MINOR major minor : Z) :
  0 <= major < 2 ^ 31 ->
  0 <= minor < 2 ^ 31 ->
  (Version.checkCompatibility MAJOR MINOR major minor = Ok tt
     <-> major = MAJOR /\ minor <= MINOR)
  /\ (Version.checkCompatibility MAJOR MINOR major minor = Thrown tt
     <-> ~ (major = MAJOR /\ minor <= MINOR)).
Proof.
  intros Hmajor Hminor.
  pose proof (checkCompatibility_spec MAJOR MINOR major minor) as H.
  rewrite (to_int_in_range major Hmajor) in H.
  rewrite (to_int_in_range minor Hminor) in H.
  exact H.
Qed.

Lemma checkCompatibility_passes_iff_witness :
  0 <= 0 < 2 ^ 31 /\ 0 <= 2 < 2 ^ 31
  /\ Version.checkCompatibility 0 3 0 2 = Ok tt.
Proof.
  assert (Hmajor : 0 <= 0 < 2 ^ 31) by lia.
  assert (Hminor : 0 <= 2 < 2 ^ 31) by lia.
  split; [exact Hmajor |]. split; [exact Hminor |].
  destruct (checkCompatibility_passes_iff 0 3 0 2 Hmajor Hminor) as [[_ H] _].
  apply H. split; [reflexivity | lia].
Defined.

(** C10 (counterexample).  The id file holds its version fields as 64-bit
    numbers.  A library of version 0.3 (the version that the project file
    of the sources names) accepts an id file whose major version is [2^32],
    which is not its [MAJOR]: the [int] parameter holds 0. *)
Lemma checkCompatibility_accepts_wrapped_major :
  Version.checkCompatibility 0 3 (2 ^ 32) 3 = Ok tt
  /\ ~ (2 ^ 32 = 0 /\ 3 <= 3).
Proof. split; [reflexivity | intros [H _]; discriminate H]. Qed.

(** ** Partition dispatch *)

Lemma fnv1aHash_step_range (h b : Z) : 0 <= u32 (Z.lxor h b * 16777619) < 2 ^ 32.
Proof. unfold u32. apply Z.mod_pos_bound. lia. Qed.

Lemma fold_fnv_range (key : Bytes) (h : Z) :
  0 <= h < 2 ^ 32 ->
  0 <= fold_left (fun h b => u32 (Z.lxor h b * 16777619)) key h < 2 ^ 32.
Proof.
  revert h. induction key as [|b key IH]; intros h Hh; cbn [fold_left].
  - exact Hh.
  - apply IH. apply fnv1aHash_step_range.
Qed.

Lemma fnv1aHash_range (key : Bytes) : 0 <= Map.fnv1aHash key < 2 ^ 32.
Proof. unfold Map.fnv1aHash. apply fold_fnv_range. lia. Qed.

Lemma partition_index_range (key : Bytes) (n : Z) :
  0 < n -> 0 <= Map.partition_index key n < n.
Proof. intros Hn. unfold Map.partition_index. apply Z.mod_pos_bound. exact Hn. Qed.

Lemma update_nth_length {A} (n : nat) (f : A -> A) (l : list A) :
  length (update_nth n f l) = length l.
Proof.
  revert n. induction l as [|x l IH]; intros [|n]; cbn; try reflexivity.
  now rewrite IH.
Qed.

Lemma update_nth_other {A} (n m : nat) (f : A -> A) (l : list A) :
  n <> m -> nth_error (update_nth n f l) m = nth_error l m.
Proof.
  revert n m. induction l as [|x l IH]; intros [|n] [|m] Hnm; cbn;
    try reflexivity; try congruence.
  apply IH. congruence.
Qed.

Lemma update_nth_same {A} (n : nat) (f : A -> A) (l : list A) (x : A) :
  nth_error l n = Some x -> nth_error (update_nth n f l) n = Some (f x).
Proof.
  revert n. induction l as [|y l IH]; intros [|n] H; cbn in *; try discriminate.
  - now inversion H.
  - now apply IH.
Qed.

(** What [in_partition] does in a map with at least one partition, for
    every way in which the forwarded operation ends. *)
Lemma in_partition_runs_on {R} (key : Bytes)
    (op : Shard.t -> result (Shard.t * R)) (d : R) (m : Map.t) :
  Map.partitions_ m <> [] ->
  runs_on
    (Z.to_nat (Map.partition_index key (Z.of_nat (length (Map.partitions_ m)))))
    op m (Map.in_partition key op d m).
Proof.
  intros Hne.
  set (n := Z.of_nat (length (Map.partitions_ m))).
  set (i := Z.to_nat (Map.partition_index key n)).
  assert (Hn : 0 < n).
  { subst n. destruct (Map.partitions_ m); [congruence | cbn [length]; lia]. }
  pose proof (partition_index_range key n Hn) as Hrange.
  assert (Hi : (i < length (Map.partitions_ m))%nat) by (subst i n; lia).
  destruct (nth_error (Map.partitions_ m) i) as [sh|] eqn:Hsh;
    [| apply nth_error_None in Hsh; lia].
  assert (Hget : Map.getPartition key m = Some sh).
  { unfold Map.getPartition. exact Hsh. }
  exists sh. split; [exact Hsh |].
  unfold Map.in_partition. rewrite Hget. fold n. fold i.
  destruct (op sh) as [[sh' r]|[sh' r]|[sh' r]|[sh' r]];
    cbn [map_result bind state_of fst snd Map.partitions_];
    (split; [reflexivity |]);
    (split; [apply update_nth_length |]);
    (split; [now apply (update_nth_same i (fun _ => sh') _ sh) |]);
    intros j Hj; apply update_nth_other; congruence.
Qed.

(** C7.  In a map with at least one partition, the partition picked for a
    key is the one at index [fnv1aHash(key) mod num_partitions]; that index
    is a function of the key bytes and the number of partitions alone, so
    two maps with equally many partitions pick the same index; and every
    single-key operation ([removeValue], [removeValues], [replaceValue],
    [replaceValues], and any other operation forwarded in their way) runs
    on that partition: it ends as the operation of the partition ends, with
    its result, puts the partition that the operation left at that index
    and leaves every other partition as it was. *)
Theorem getPartition_dispatch (key : Bytes) (m : Map.t) :
  Map.partitions_ m <> [] ->
  let n := Z.of_nat (length (Map.partitions_ m)) in
  let i := Z.to_nat (Map.partition_index key n) in
  (0 <= Map.partition_index key n < n)
  /\ (exists sh, Map.getPartition key m = Some sh
              /\ nth_error (Map.partitions_ m) i = Some sh)
  /\ (forall m' : Map.t,
         length (Map.partitions_ m') = length (Map.partitions_ m) ->
         Map.getPartition key m' = nth_error (Map.partitions_ m') i)
  /\ (forall (R : Type) (op : Shard.t -> result (Shard.t * R)) (d : R) m2 r,
         Map.in_partition key op d m = Ok (m2, r) ->
         exists sh sh',
           nth_error (Map.partitions_ m) i = Some sh
           /\ op sh = Ok (sh', r)
           /\ nth_error (Map.partitions_ m2) i = Some sh'
           /\ forall j, j <> i ->
                nth_error (Map.partitions_ m2) j = nth_error (Map.partitions_ m) j)
  /\ (forall (R : Type) (op : Shard.t -> result (Shard.t * R)) (d : R),
         runs_on i op m (Map.in_partition key op d m))
  /\ (forall predicate,
         runs_on i (Shard.removeFirst key predicate) m
           (Map.removeValue key predicate m)
         /\ runs_on i (Shard.removeAll key predicate) m
              (Map.removeValues key predicate m))
  /\ (forall map,
         runs_on i (Shard.replaceFirst key map) m (Map.replaceValue key map m)
         /\ runs_on i (Shard.replaceAll key map) m
              (Map.replaceValues key map m)).
Proof.
  intros Hne n i.
  assert (Hn : 0 < n).
  { subst n. destruct (Map.partitions_ m); [congruence | cbn [length]; lia]. }
  pose proof (partition_index_range key n Hn) as Hrange.
  assert (Hi : (i < length (Map.partitions_ m))%nat) by (subst i n; lia).
  destruct (nth_error (Map.partitions_ m) i) as [sh|] eqn:Hsh;
    [| apply nth_error_None in Hsh; lia].
  assert (Hget : Map.getPartition key m = Some sh).
  { unfold Map.getPartition. exact Hsh. }
  split; [exact Hrange |].
  split; [exists sh; split; [exact Hget | reflexivity] |].
  split.
  { intros m' Hlen. unfold Map.getPartition. rewrite Hlen. reflexivity. }
  split.
  { intros R op d m2 r Hop. unfold Map.in_partition in Hop.
    rewrite Hget in Hop. fold n in Hop. fold i in Hop.
    unfold map_result, bind in Hop.
    destruct (op sh) as [[sh' r']| | |] eqn:Hopsh; try discriminate.
    inversion Hop; subst m2 r'. clear Hop.
    exists sh, sh'. cbn [Map.partitions_].
    split; [reflexivity |]. split; [exact Hopsh |].
    split.
    + now apply (update_nth_same i (fun _ => sh') _ sh).
    + intros j Hj. apply update_nth_other. congruence. }
  split.
  { intros R op d. exact (in_partition_runs_on key op d m Hne). }
  split.
  - intros predicate. split.
    + exact (in_partition_runs_on key (Shard.removeFirst key predicate) 0 m Hne).
    + exact (in_partition_runs_on key (Shard.removeAll key predicate) 0 m Hne).
  - intros map. split.
    + exact (in_partition_runs_on key (Shard.replaceFirst key map) 0 m Hne).
    + exact (in_partition_runs_on key (Shard.replaceAll key map) 0 m Hne).
Qed.

Lemma getPartition_dispatch_witness :
  Map.partitions_ Examples.map23_a <> []
  /\ Map.partition_index Examples.key_a 23 = 14
  /\ Map.getPartition Examples.key_a Examples.map23_a = Some Examples.shard_a2
  /\ Map.getPartition Examples.key_a Examples.map23
     = nth_error (Map.partitions_ Examples.map23) 14
  /\ Shard.get Examples.key_a Examples.shard_a2
     = Some [Examples.raw 3 1; Examples.raw 3 2]
  /\ Shard.removeAll Examples.key_a (fun _ => true) Examples.shard512
     = Ok (Examples.shard512, 0)
  /\ exists m2 sh',
       Map.removeValues Examples.key_a (fun _ => true) Examples.map23_a
       = Ok (m2, 2)
       /\ Shard.removeAll Examples.key_a (fun _ => true) Examples.shard_a2
          = Ok (sh', 2)
       /\ Map.partitions_ m2
          = repeat Examples.shard512 14 ++ sh' :: repeat Examples.shard512 8
       /\ Shard.get Examples.key_a sh' = Some [].
Proof.
  assert (H : Map.partitions_ Examples.map23_a <> []) by (cbn; discriminate).
  split; [exact H |].
  split; [vm_compute; reflexivity |].
  destruct (getPartition_dispatch Examples.key_a Examples.map23_a H)
    as (_ & (sh & Hget & Hnth) & Hsame & _ & _ & Hremove & _).
  destruct (Hremove (fun _ => true)) as [_ (sh0 & Hsh0 & Hout & _ & Hpicked & _)].
  split.
  { rewrite Hget. rewrite <- Hnth. vm_compute. reflexivity. }
  split.
  { rewrite (Hsame Examples.map23) by (vm_compute; reflexivity).
    vm_compute. reflexivity. }
  split; [vm_compute; reflexivity |].
  split; [vm_compute; reflexivity |].
  vm_compute in Hsh0. injection Hsh0 as Hsh0. subst sh0.
  destruct (Map.removeValues Examples.key_a (fun _ => true) Examples.map23_a)
    as [[m2 r]|[m2 r]|[m2 r]|[m2 r]] eqn:Hrun;
    try (vm_compute in Hout; discriminate Hout).
  assert (Hr : r = 2) by (vm_compute in Hout; now injection Hout).
  subst r.
  exists m2, (fst (state_of (Shard.removeAll Examples.key_a (fun _ => true)
                              Examples.shard_a2))).
  split; [reflexivity |].
  split; [vm_compute; reflexivity |].
  split; [| vm_compute; reflexivity].
  vm_compute in Hrun. injection Hrun as Hrun. subst m2.
  vm_compute. reflexivity.
Defined.

(** ** UintVector: the failure path of [add] *)

Lemma allocateMoreIfFull_offset (v : UintVector.t) :
  UintVector.offset_ (UintVector.allocateMoreIfFull v) = UintVector.offset_ v.
Proof.
  unfold UintVector.allocateMoreIfFull.
  destruct (UintVector.size_ v - UintVector.offset_ v <? 8); reflexivity.
Qed.

Lemma allocateMoreIfFull_empty (v : UintVector.t) :
  UintVector.empty (UintVector.allocateMoreIfFull v) = UintVector.empty v.
Proof. unfold UintVector.empty. now rewrite allocateMoreIfFull_offset. Qed.

(** When [add] returns [false] on a vector that already holds a value, the
    put offset has been moved back over the trailing 32-bit copy of that
    value and is left there. *)
Lemma write_value_true (a room value : Z) (v : UintVector.t) (ok : bool)
    (v' : UintVector.t) :
  UintVector.write_value a room value v = Ok (ok, v') -> ok = true.
Proof.
  unfold UintVector.write_value. cbv zeta.
  destruct (_ && _); [| discriminate]. intros H. now inversion H.
Qed.

Lemma add_false_leaves_offset_moved (value : Z) (v v' : UintVector.t) :
  UintVector.empty v = false ->
  UintVector.add value v = Ok (false, v') ->
  UintVector.offset_ v' = u32 (UintVector.offset_ v - 4).
Proof.
  intros Hne Hadd. unfold UintVector.add in Hadd.
  rewrite allocateMoreIfFull_empty, Hne in Hadd.
  cbv zeta in Hadd.
  destruct (_ <? value); [| discriminate].
  destruct (_ <=? Varint.N4_MAX_UINT).
  - apply write_value_true in Hadd. discriminate.
  - inversion Hadd; subst v'. cbn [UintVector.advance UintVector.offset_].
    now rewrite allocateMoreIfFull_offset.
Qed.

Lemma write_value_outcome (a room value : Z) (v : UintVector.t) :
  (exists v', UintVector.write_value a room value v = Ok (true, v'))
  \/ UintVector.write_value a room value v = Undefined (false, v).
Proof.
  unfold UintVector.write_value. cbv zeta. destruct (_ && _); eauto.
Qed.

(** [UintVector::add] never throws. *)
Lemma add_outcome (value : Z) (v : UintVector.t) :
  forall r, UintVector.add value v <> Thrown r.
Proof.
  intros r. unfold UintVector.add. cbv zeta.
  destruct (UintVector.empty _).
  - destruct (value <=? Varint.N4_MAX_UINT); [| discriminate].
    destruct (write_value_outcome value
                (UintVector.size_ (UintVector.allocateMoreIfFull v)) value
                (UintVector.allocateMoreIfFull v)) as [[v' ->] | ->]; discriminate.
  - destruct (_ <? value); [| discriminate].
    destruct (_ <=? Varint.N4_MAX_UINT); [| discriminate].
    match goal with
    | |- UintVector.write_value ?a ?r ?x ?w <> _ =>
        destruct (write_value_outcome a r x w) as [[v' ->] | ->]; discriminate
    end.
Qed.

(** C6 (the code at the failing input).  After [add(1) .. add(5)] the
    vector unpacks to [1..5] and its offset is 9.  [add(5 + 2^28)] returns
    [false] (the delta is [2^28 > varint_max]), yet the offset is 5
    afterwards and [unpack] yields [1] only. *)
Theorem add_failure_changes_state :
  UintVector.unpack Examples.uv5 = Some [1; 2; 3; 4; 5]
  /\ UintVector.offset_ Examples.uv5 = 9
  /\ exists v',
       UintVector.add (5 + 2 ^ 28) Examples.uv5 = Ok (false, v')
       /\ UintVector.offset_ v' = 5
       /\ UintVector.unpack v' = Some [1].
Proof.
  split; [vm_compute; reflexivity |].
  split; [vm_compute; reflexivity |].
  eexists. split; [vm_compute; reflexivity |].
  split; [vm_compute; reflexivity |].
  vm_compute; reflexivity.
Qed.

(** ** Blocks *)

Lemma encode_nonempty (f : nat) (v : Z) : Varint.encode (S f) v <> [].
Proof. cbn. destruct (v <? 128); discriminate. Qed.

Lemma encode_length_le (f : nat) (v : Z) : (length (Varint.encode f v) <= f)%nat.
Proof.
  revert v. induction f as [|f IH]; intros v; cbn.
  - lia.
  - destruct (v <? 128); cbn; [lia |]. specialize (IH (v / 128)). lia.
Qed.

Lemma size_of_range (v : Z) : 1 <= Varint.size_of v <= 5.
Proof.
  unfold Varint.size_of, Varint.bytes_of.
  pose proof (encode_length_le 5 v).
  pose proof (encode_nonempty 4 v).
  destruct (Varint.encode 5 v); [congruence | cbn [length] in *; lia].
Qed.

Lemma header_size_range (len : Z) : 1 <= Block.header_size len <= 5.
Proof. apply size_of_range. Qed.

Lemma Bytes_size_nonneg (b : Bytes) : 0 <= Bytes_size b.
Proof. unfold Bytes_size. lia. Qed.

Lemma entry_size_pos (e : Block.Entry) : 1 <= Block.entry_size e.
Proof.
  unfold Block.entry_size.
  pose proof (header_size_range (Bytes_size (Block.value e))).
  pose proof (Bytes_size_nonneg (Block.value e)). lia.
Qed.

Lemma next_offset_nonneg (b : Block.t) : 0 <= Block.next_offset b.
Proof.
  unfold Block.next_offset. induction (Block.entries b) as [|e es IH]; cbn.
  - lia.
  - pose proof (entry_size_pos e). lia.
Qed.

(** A value larger than [max_value_size] does not fit into an empty block. *)
Lemma above_max_value_size_does_not_fit (len block_size : Z) :
  Block.max_value_size block_size < len ->
  Block.fits_empty len block_size = false.
Proof.
  unfold Block.max_value_size. intros H.
  destruct (Block.fits_empty len block_size) eqn:Hfit; [| reflexivity].
  exfalso.
  pose proof (header_size_range len) as Hh.
  assert (Hlen : len <= block_size - 1).
  { unfold Block.fits_empty in Hfit. apply Z.leb_le in Hfit. lia. }
  destruct (Block.fits_empty (block_size - 1) block_size) eqn:H1; [lia |].
  destruct (Block.fits_empty (block_size - 2) block_size) eqn:H2.
  { assert (len = block_size - 1) by lia. subst len. congruence. }
  destruct (Block.fits_empty (block_size - 3) block_size) eqn:H3.
  { assert (len = block_size - 1 \/ len = block_size - 2) as [-> | ->] by lia;
      congruence. }
  destruct (Block.fits_empty (block_size - 4) block_size) eqn:H4.
  { assert (len = block_size - 1 \/ len = block_size - 2 \/ len = block_size - 3)
      as [-> | [-> | ->]] by lia; congruence. }
  assert (len = block_size - 1 \/ len = block_size - 2 \/ len = block_size - 3
          \/ len = block_size - 4) as [-> | [-> | [-> | ->]]] by lia; congruence.
Qed.

Lemma TryAdd_oversize (value : Bytes) (b : Block.t) :
  Block.fits_empty (Bytes_size value) (Block.size b) = false ->
  Block.TryAdd value b = None.
Proof.
  intros H. unfold Block.TryAdd, Block.fits.
  unfold Block.fits_empty in H. apply Z.leb_gt in H.
  pose proof (next_offset_nonneg b).
  destruct (Block.has_data b); cbn [andb]; [| reflexivity].
  destruct (Z.leb_spec
              (Block.next_offset b + Block.header_size (Bytes_size value)
               + Bytes_size value) (Block.size b)); [lia | reflexivity].
Qed.

(** ** [List::Add] on a value that is too large *)

(** A value larger than [max_value_size(block_size)] never makes
    [List::Add] throw or return with the list as it was: the current block
    (a fresh one when the list had none) is committed to the store, its id
    is handed to the head, and the run ends in an assertion
    ([assert(ok)], or the one inside [UintVector::add]) or, when the
    buffer of the id vector is too small for the write, in undefined
    behaviour. *)
Lemma Add_oversize (value : Bytes) (st : Store.t) (l : List.t) :
  (Block.has_data (List.block_ l) = true ->
   Block.size (List.block_ l) = Store.block_size st) ->
  Block.max_value_size (Store.block_size st) < Bytes_size value ->
  (exists st' l',
      List.Add value (st, l) = AssertionFailed (st', l')
      /\ Store.num_blocks st' = Store.num_blocks st + 1)
  \/ (exists st' l',
      List.Add value (st, l) = Undefined (st', l')
      /\ Store.num_blocks st' = Store.num_blocks st + 1).
Proof.
  intros Hsize Hbig.
  apply above_max_value_size_does_not_fit in Hbig.
  unfold List.Add.
  set (l1 := if negb (Block.has_data (List.block_ l)) then _ else l).
  assert (Hsz1 : Block.size (List.block_ l1) = Store.block_size st).
  { subst l1. destruct (Block.has_data (List.block_ l)) eqn:Hd; cbn.
    - now apply Hsize.
    - reflexivity. }
  rewrite TryAdd_oversize by now rewrite Hsz1.
  unfold List.commit, List.commit_block, Store.append, map_result, bind.
  assert (Hgrow : forall b,
             Store.num_blocks
               {| Store.block_size := Store.block_size st;
                  Store.blocks := Store.blocks st ++ [b] |}
             = Store.num_blocks st + 1).
  { intros b. unfold Store.num_blocks. cbn [Store.blocks].
    rewrite length_app. cbn [length]. lia. }
  destruct (UintVector.add (u32 (Store.num_blocks st))
              (List.block_ids (List.head_ l1)))
    as [[ok ids] | [ok ids] | [ok ids] | [ok ids]] eqn:Hadd;
    cbn [List.block_ List.head_ Store.block_size List.allocate_block
         List.memset_zero Block.zeroed Block.size].
  - rewrite TryAdd_oversize by exact Hbig.
    left. eexists _, _. split; [reflexivity | apply Hgrow].
  - exfalso. exact (add_outcome _ _ _ Hadd).
  - left. eexists _, _. split; [reflexivity | apply Hgrow].
  - right. eexists _, _. split; [reflexivity | apply Hgrow].
Qed.

Lemma Bytes_eqb_refl (a : Bytes) : Bytes_eqb a a = true.
Proof. induction a as [|x a IH]; cbn; [reflexivity |]. now rewrite Z.eqb_refl, IH. Qed.

Lemma Bytes_eqb_eq (a b : Bytes) : Bytes_eqb a b = true <-> a = b.
Proof.
  split.
  - revert b. induction a as [|x a IH]; intros [|y b] H; cbn in H;
      try discriminate; [reflexivity |].
    apply andb_true_iff in H as [Hxy Hab]. apply Z.eqb_eq in Hxy.
    f_equal; [exact Hxy | now apply IH].
  - intros ->. apply Bytes_eqb_refl.
Qed.

Lemma Bytes_eqb_neq (a b : Bytes) : Bytes_eqb a b = false <-> a <> b.
Proof.
  split.
  - intros H Heq. apply Bytes_eqb_eq in Heq. congruence.
  - intros H. destruct (Bytes_eqb a b) eqn:E; [| reflexivity].
    apply Bytes_eqb_eq in E. contradiction.
Qed.

Lemma find_app_new (key : Bytes) (s : Table.Slot) (m : list (Bytes * Table.Slot)) :
  Table.find key m = None -> Table.find key (m ++ [(key, s)]) = Some s.
Proof.
  induction m as [|[k s'] m IH]; cbn; intros H.
  - now rewrite Bytes_eqb_refl.
  - destruct (Bytes_eqb k key); [discriminate | now apply IH].
Qed.

Lemma find_emplace (key : Bytes) (l : List.t) (m : list (Bytes * Table.Slot)) :
  Table.find key (Table.emplace key l m)
  = match Table.find key m with
    | Some s => Some s
    | None => Some {| Table.slot_list := l; Table.slot_mutex := Table.Unlocked |}
    end.
Proof.
  unfold Table.emplace. destruct (Table.find key m) eqn:H.
  - exact H.
  - now apply find_app_new.
Qed.

(** The list [Shard::put] appends to: the one the table holds for [key],
    or a new empty list. *)
Lemma getUniqueOrCreate_list (key : Bytes) (tbl : Table.t) :
  Bytes_size key <= Table.max_key_size ->
  exists tbl',
    Table.getUniqueOrCreate key tbl
    = Ok (tbl', match Table.getUnique key tbl with
                | Some l => l
                | None => List.init
                end).
Proof.
  intros Hk. unfold Table.getUniqueOrCreate, Table.getUnique.
  destruct (Z.leb_spec (Bytes_size key) Table.max_key_size); [| lia].
  eexists. f_equal. f_equal. cbn [Table.map_]. rewrite find_emplace.
  destruct (Table.find key (Table.map_ tbl)); reflexivity.
Qed.

(** [Shard::put] with a value larger than [max_value_size()]: no exception
    is thrown and the call does not return; the store has grown by one
    block when the run stops. *)
Lemma put_oversize (key value : Bytes) (sh : Shard.t) :
  Bytes_size key <= Table.max_key_size ->
  (forall l, Table.getUnique key (Shard.table_ sh) = Some l ->
             Block.has_data (List.block_ l) = true ->
             Block.size (List.block_ l) = Store.block_size (Shard.store_ sh)) ->
  Shard.max_value_size sh < Bytes_size value ->
  exists sh',
    (Shard.put key value sh = AssertionFailed sh'
     \/ Shard.put key value sh = Undefined sh')
    /\ Store.num_blocks (Shard.store_ sh')
       = Store.num_blocks (Shard.store_ sh) + 1.
Proof.
  intros Hk Hwf Hbig. unfold Shard.put.
  destruct (getUniqueOrCreate_list key (Shard.table_ sh) Hk) as [tbl' ->].
  cbn [bind].
  set (l := match Table.getUnique key (Shard.table_ sh) with
            | Some l => l | None => List.init end).
  destruct (Add_oversize value (Shard.store_ sh) l)
    as [(st' & l' & Hadd & Hn) | (st' & l' & Hadd & Hn)].
  - subst l. destruct (Table.getUnique key (Shard.table_ sh)) eqn:Hget.
    + now apply Hwf.
    + cbn. discriminate.
  - exact Hbig.
  - rewrite Hadd. cbn [map_result bind Shard.with_list].
    eexists. split; [left; reflexivity | exact Hn].
  - rewrite Hadd. cbn [map_result bind Shard.with_list].
    eexists. split; [right; reflexivity | exact Hn].
Qed.

(** C3 (the code at the failing input).  In an empty shard with blocks of
    512 bytes, [put("a", V)] with a value of 512 bytes, which is larger
    than [max_value_size()], does not throw: it ends in [assert(ok)], and
    by then the key is in the table, an empty block is in the store, and
    its id is in the head of the list. *)
Theorem put_oversize_hits_assertion :
  let value := Examples.raw 512 0 in
  Shard.max_value_size Examples.shard512 < Bytes_size value
  /\ exists sh' l',
       Shard.put Examples.key_a value Examples.shard512 = AssertionFailed sh'
       /\ Store.blocks (Shard.store_ sh') = [Block.zeroed 512]
       /\ Table.getUnique Examples.key_a (Shard.table_ sh') = Some l'
       /\ UintVector.unpack (List.block_ids (List.head_ l')) = Some [0].
Proof.
  cbv zeta. split; [vm_compute; reflexivity |].
  eexists _, _. split; [vm_compute; reflexivity |].
  split; [vm_compute; reflexivity |].
  split; [vm_compute; reflexivity |].
  vm_compute; reflexivity.
Qed.

(** ** [List::Add]: where the value is stored *)

Lemma next_offset_app (has : bool) (sz : Z) (es : list Block.Entry) (e : Block.Entry) :
  Block.next_offset {| Block.has_data := has; Block.size := sz; Block.entries := es ++ [e] |}
  = Block.next_offset {| Block.has_data := has; Block.size := sz; Block.entries := es |}
    + Block.entry_size e.
Proof.
  unfold Block.next_offset. cbn [Block.entries].
  induction es as [|x es IH]; cbn; lia.
Qed.

Lemma TryAdd_Some (value : Bytes) (b b' : Block.t) :
  Block.TryAdd value b = Some b' ->
  Block.fits value b = true
  /\ Block.has_data b' = true
  /\ Block.size b' = Block.size b
  /\ Block.entries b'
     = Block.entries b ++ [ {| Block.value := value; Block.deleted := false |} ]
  /\ Block.next_offset b'
     = Block.next_offset b + Block.header_size (Bytes_size value) + Bytes_size value
  /\ Block.next_offset b' <= Block.size b'.
Proof.
  unfold Block.TryAdd. destruct (Block.fits value b) eqn:Hfit; [| discriminate].
  intros H. inversion H; subst b'. clear H. cbn [Block.has_data Block.size Block.entries].
  unfold Block.fits in Hfit. apply andb_true_iff in Hfit as [Hd Hle].
  apply Z.leb_le in Hle.
  split; [reflexivity |].
  split; [exact Hd |]. split; [reflexivity |]. split; [reflexivity |].
  rewrite next_offset_app. unfold Block.entry_size. cbn [Block.value].
  destruct b as [has sz es]. cbn [Block.has_data Block.size Block.entries] in *.
  split; lia.
Qed.

Lemma TryAdd_None (value : Bytes) (b : Block.t) :
  Block.TryAdd value b = None -> Block.fits value b = false.
Proof. unfold Block.TryAdd. destruct (Block.fits value b); [discriminate | reflexivity]. Qed.

(** C4.  When [List::Add] accepts a value, the value is the last entry of
    the list's in-memory block and lies inside it: it starts at the
    block's previous [next_offset] (at least 0) and header plus bytes end at
    or before the block size.  Either the value fitted into the current
    block, which is then extended and the store untouched; or it did not,
    and then exactly that block was appended to the store and the value is
    the first entry (offset 0) of a fresh block. *)
Theorem Add_keeps_value_in_one_block
    (value : Bytes) (st st' : Store.t) (l l' : List.t) :
  List.Add value (st, l) = Ok (st', l') ->
  stored_in_one_block value st st' l l'.
Proof.
  intros Hadd. unfold stored_in_one_block.
  set (tail := current_tail st l). cbv zeta. unfold List.Add in Hadd.
  set (l1 := if negb (Block.has_data (List.block_ l)) then _ else l) in Hadd.
  assert (Htail : List.block_ l1 = tail).
  { subst l1 tail. unfold current_tail.
    destruct (Block.has_data (List.block_ l)); reflexivity. }
  rewrite Htail in Hadd.
  destruct (Block.TryAdd value tail) as [b1|] eqn:Htry.
  - (* the value fits into the current block *)
    inversion Hadd; subst st' l'. clear Hadd. cbn [List.block_].
    apply TryAdd_Some in Htry as (Hfit & Hd & Hsz & Hes & Hoff & Hle).
    exists (Block.entries tail), (Block.next_offset tail).
    split; [exact Hes |]. split; [exact Hd |].
    split.
    { unfold Block.next_offset. reflexivity. }
    split; [apply next_offset_nonneg |].
    split; [lia |]. split; [exact Hle |].
    left. auto.
  - (* it does not: commit, then a fresh block *)
    apply TryAdd_None in Htry.
    unfold List.commit, List.commit_block, Store.append, map_result, bind in Hadd.
    rewrite Htail in Hadd.
    destruct (UintVector.add _ _) as [[ok ids]| | |]; try discriminate.
    cbn [List.block_ List.head_ Store.block_size List.allocate_block
         List.memset_zero Block.zeroed Block.size] in Hadd.
    destruct (Block.TryAdd value _) as [b2|] eqn:Htry2; [| discriminate].
    inversion Hadd; subst st' l'. clear Hadd. cbn [List.block_ Store.blocks].
    apply TryAdd_Some in Htry2 as (Hfit2 & Hd & Hsz & Hes & Hoff & Hle).
    cbn [Block.entries Block.size app] in *.
    exists [], 0.
    split; [exact Hes |]. split; [exact Hd |].
    split; [reflexivity |]. split; [lia |].
    split.
    { rewrite Hoff. unfold Block.next_offset. cbn. lia. }
    split; [exact Hle |].
    right. auto.
Qed.

Lemma Add_keeps_value_in_one_block_witness :
  let l := snd (state_of (List.Add (Examples.raw 7 3)
                                   (Examples.store16, List.init))) in
  exists st' l',
    List.Add (Examples.raw 15 4) (Examples.store16, l) = Ok (st', l')
    /\ stored_in_one_block (Examples.raw 15 4) Examples.store16 st' l l'.
Proof.
  cbv zeta. eexists _, _. split.
  - vm_compute. reflexivity.
  - apply Add_keeps_value_in_one_block. vm_compute. reflexivity.
Defined.

(** ** The keys file written by [Table::close] *)

Lemma string_length_append (a b : string) :
  String.length (a ++ b) = (String.length a + String.length b)%nat.
Proof. induction a as [|c a IH]; cbn; [reflexivity | now rewrite IH]. Qed.

Lemma backup_path_neq (path : string) : Table.backup_path path <> path.
Proof.
  unfold Table.backup_path. intros H.
  apply (f_equal String.length) in H. rewrite string_length_append in H.
  cbn in H. lia.
Qed.

Lemma backup_path_eqb (path : string) :
  String.eqb (Table.backup_path path) path = false.
Proof. apply String.eqb_neq, backup_path_neq. Qed.

Lemma path_backup_eqb (path : string) :
  String.eqb path (Table.backup_path path) = false.
Proof. rewrite String.eqb_sym. apply backup_path_eqb. Qed.

Lemma fs_set_same (path : string) (f : option File) (fs : FS) :
  fs_set path f fs path = f.
Proof. unfold fs_set. now rewrite String.eqb_refl. Qed.

Lemma fs_set_other (path p : string) (f : option File) (fs : FS) :
  p <> path -> fs_set path f fs p = fs p.
Proof. intros H. unfold fs_set. apply String.eqb_neq in H. now rewrite H. Qed.

Lemma fs_append_same (path : string) (fields f : list Field) (fs : FS) :
  fs path = Some f -> fs_append path fields fs path = Some (f ++ fields).
Proof. intros H. unfold fs_append. rewrite H. apply fs_set_same. Qed.

Lemma fs_append_other (path p : string) (fields : list Field) (fs : FS) :
  p <> path -> fs_append path fields fs p = fs p.
Proof.
  intros H. unfold fs_append. destruct (fs path); [| reflexivity].
  now apply fs_set_other.
Qed.

(** What [close_begin] leaves: the old content under the backup path, the
    count alone in the new file. *)
Lemma close_begin_spec (tbl : Table.t) (fs : FS) (st : Store.t) (original : File) :
  fs (Table.path_ tbl) = Some original ->
  exists c,
    Table.close_begin tbl fs st = Ok c
    /\ Table.c_fs c (Table.path_ tbl)
       = Some [U32 (u32 (Z.of_nat (length (Table.map_ tbl))))]
    /\ Table.c_fs c (Table.backup_path (Table.path_ tbl)) = Some original
    /\ Table.c_store c = st
    /\ Table.c_written c = 0.
Proof.
  intros Hfs. unfold Table.close_begin, fs_rename. rewrite Hfs.
  eexists. split; [reflexivity |]. cbn [Table.c_fs Table.c_store Table.c_written].
  pose proof (backup_path_neq (Table.path_ tbl)) as Hne.
  split.
  - rewrite (fs_append_same _ _ []); [reflexivity |].
    unfold fs_create. apply fs_set_same.
  - split; [| split; reflexivity].
    rewrite fs_append_other by exact Hne.
    unfold fs_create. rewrite fs_set_other by exact Hne.
    apply fs_set_same.
Qed.

Lemma close_begin_missing (tbl : Table.t) (fs : FS) (st : Store.t) :
  fs (Table.path_ tbl) = None ->
  Table.close_begin tbl fs st
  = AssertionFailed {| Table.c_fs := fs; Table.c_store := st; Table.c_written := 0 |}.
Proof. intros H. unfold Table.close_begin, fs_rename. now rewrite H. Qed.

(** One round of the loop touches no path but the keys file, whatever its
    outcome. *)
Lemma close_entry_other_paths (path p : string) (c : Table.closing)
    (entry : Bytes * Table.Slot) :
  p <> path ->
  Table.c_fs (state_of (Table.close_entry path c entry)) p = Table.c_fs c p.
Proof.
  intros Hp. unfold Table.close_entry. destruct entry as [key slot].
  destruct (Table.tryLockUnique _); [| reflexivity].
  destruct (negb _); [| reflexivity].
  destruct (List.Flush _) as [[st l] | [st l] | [st l] | [st l]]; try reflexivity.
  destruct (Table.writeEntryToFile _ _); cbn; [| reflexivity].
  now apply fs_append_other.
Qed.

Lemma close_loop_other_paths (path p : string) (entries : list (Bytes * Table.Slot))
    (c : Table.closing) :
  p <> path ->
  Table.c_fs (state_of (Table.close_loop path entries c)) p = Table.c_fs c p.
Proof.
  intros Hp. revert c. induction entries as [|e rest IH]; intros c; cbn.
  - reflexivity.
  - pose proof (close_entry_other_paths path p c e Hp) as He.
    destruct (Table.close_entry path c e) as [c1 | c1 | c1 | c1]; cbn in *;
      try exact He.
    rewrite IH. exact He.
Qed.

(** A list that cannot be locked is skipped: the round changes nothing. *)
Lemma close_entry_locked (path : string) (c : Table.closing)
    (key : Bytes) (slot : Table.Slot) :
  Table.tryLockUnique (Table.slot_mutex slot) = false ->
  Table.close_entry path c (key, slot) = Ok c.
Proof. intros H. unfold Table.close_entry. now rewrite H. Qed.

Lemma close_entry_not_writable (path : string) (c : Table.closing)
    (entry : Bytes * Table.Slot) :
  writable entry = false -> Table.close_entry path c entry = Ok c.
Proof.
  destruct entry as [key slot]. unfold writable, Table.close_entry. cbn [snd].
  destruct (Table.tryLockUnique _); [| reflexivity].
  cbn [andb]. now intros ->.
Qed.

Lemma close_entry_writable (path : string) (c c' : Table.closing)
    (entry : Bytes * Table.Slot) (f : File) :
  writable entry = true ->
  Table.c_fs c path = Some f ->
  Table.close_entry path c entry = Ok c' ->
  exists rec,
    record_of entry rec
    /\ Table.c_fs c' path = Some (f ++ rec)
    /\ Table.c_written c' = u32 (Table.c_written c + 1).
Proof.
  destruct entry as [key slot]. unfold writable, Table.close_entry. cbn [snd].
  intros Hw Hf. apply andb_true_iff in Hw as [-> ->].
  destruct (List.Flush _) as [[st l] | [st l] | [st l] | [st l]] eqn:Hflush;
    try discriminate.
  destruct (Table.writeEntryToFile key (List.head_ l)) as [fields|] eqn:Hrec;
    [| discriminate].
  intros H. inversion H; subst c'. clear H.
  exists fields. cbn [Table.c_fs Table.c_written].
  split; [| split; [now apply fs_append_same | reflexivity]].
  exists (Table.c_store c), st, l. cbn [fst snd]. auto.
Qed.

Lemma u32_idem (x : Z) : u32 (u32 x) = u32 x.
Proof. unfold u32. apply Z.mod_mod. lia. Qed.

Lemma u32_succ (x : Z) : u32 (u32 x + 1) = u32 (x + 1).
Proof. unfold u32. rewrite Z.add_mod_idemp_l by lia. reflexivity. Qed.

Lemma u32_small (x : Z) : 0 <= x < 2 ^ 32 -> u32 x = x.
Proof. intros H. unfold u32. now apply Z.mod_small. Qed.

(** The loop appends, in order, one record per writable entry and counts
    them. *)
Lemma close_loop_spec (path : string) (entries : list (Bytes * Table.Slot))
    (c c' : Table.closing) (f : File) (n : Z) :
  Table.c_fs c path = Some f ->
  Table.c_written c = u32 n ->
  Table.close_loop path entries c = Ok c' ->
  exists recs,
    Forall2 record_of (filter writable entries) recs
    /\ Table.c_fs c' path = Some (f ++ concat recs)
    /\ Table.c_written c' = u32 (n + Z.of_nat (length recs)).
Proof.
  revert c f n. induction entries as [|e rest IH]; intros c f n Hf Hn Hloop.
  - cbn in Hloop. inversion Hloop; subst c'. exists []. cbn.
    split; [constructor |]. split; [now rewrite app_nil_r |].
    now rewrite Z.add_0_r.
  - cbn [Table.close_loop bind] in Hloop. cbn [filter].
    destruct (writable e) eqn:Hw.
    + destruct (Table.close_entry path c e) as [c1 | | |] eqn:He; try discriminate.
      cbn [bind] in Hloop.
      destruct (close_entry_writable path c c1 e f Hw Hf He) as (rec & Hrec & Hf1 & Hn1).
      rewrite Hn, u32_succ in Hn1.
      destruct (IH c1 (f ++ rec) (n + 1) Hf1 Hn1 Hloop) as (recs & Hall & Hf' & Hn').
      exists (rec :: recs). cbn [concat length].
      split; [now constructor |].
      split; [now rewrite Hf', <- app_assoc |].
      rewrite Hn'. f_equal. lia.
    + rewrite (close_entry_not_writable path c e Hw) in Hloop. cbn [bind] in Hloop.
      now apply (IH c f n).
Qed.

Lemma find_None_iff (key : Bytes) (m : list (Bytes * Table.Slot)) :
  Table.find key m = None <-> ~ In key (map fst m).
Proof.
  induction m as [|[k s] m IH]; cbn.
  - tauto.
  - destruct (Bytes_eqb k key) eqn:E.
    + apply Bytes_eqb_eq in E. split; [discriminate | intros H; exfalso; auto].
    + apply Bytes_eqb_neq in E. rewrite IH. tauto.
Qed.

Lemma find_Some_In (key : Bytes) (s : Table.Slot) (m : list (Bytes * Table.Slot)) :
  Table.find key m = Some s -> In (key, s) m.
Proof.
  induction m as [|[k s'] m IH]; cbn; [discriminate |].
  destruct (Bytes_eqb k key) eqn:E.
  - apply Bytes_eqb_eq in E. intros H. inversion H. subst. now left.
  - intros H. right. now apply IH.
Qed.

Lemma NoDup_keys_In_unique (m : list (Bytes * Table.Slot)) (key : Bytes)
    (s1 s2 : Table.Slot) :
  NoDup (map fst m) -> In (key, s1) m -> In (key, s2) m -> s1 = s2.
Proof.
  induction m as [|[k s] m IH]; cbn; intros Hnd H1 H2; [contradiction |].
  inversion Hnd as [|? ? Hnot Hnd']; subst.
  destruct H1 as [H1 | H1]; destruct H2 as [H2 | H2].
  - congruence.
  - inversion H1; subst. exfalso. apply Hnot.
    change key with (fst (key, s2)). now apply in_map.
  - inversion H2; subst. exfalso. apply Hnot.
    change key with (fst (key, s1)). now apply in_map.
  - now apply IH.
Qed.

Lemma NoDup_keys_filter (f : Bytes * Table.Slot -> bool)
    (m : list (Bytes * Table.Slot)) :
  NoDup (map fst m) -> NoDup (map fst (filter f m)).
Proof.
  induction m as [|e m IH]; cbn; intros Hnd; [constructor |].
  inversion Hnd as [|? ? Hnot Hnd']; subst.
  destruct (f e); cbn; [| now apply IH].
  constructor; [| now apply IH].
  intros Hin. apply Hnot. apply in_map_iff in Hin as (x & Hx & Hin).
  apply filter_In in Hin as [Hin _]. rewrite <- Hx. now apply in_map.
Qed.

(** Reading back what [writeEntryToFile] wrote gives the key. *)
Lemma readEntryFromFile_record (key : Bytes) (h : List.Head)
    (rec : list Field) (rest : File) :
  Table.writeEntryToFile key h = Some rec ->
  exists h', Table.readEntryFromFile (rec ++ rest) = Some ((key, h'), rest).
Proof.
  unfold Table.writeEntryToFile, Table.Head_WriteToStream.
  destruct (Z.leb_spec (Bytes_size key) 65535) as [Hk|]; [| discriminate].
  destruct (UintVector.empty _); [discriminate |].
  intros H. inversion H; subst rec. clear H. cbn.
  eexists. f_equal. f_equal. f_equal.
  unfold u16. pose proof (Bytes_size_nonneg key).
  rewrite Z.mod_small by lia. unfold Bytes_size. rewrite Nat2Z.id.
  now rewrite !firstn_all.
Qed.

Lemma read_entries_records (kept : list (Bytes * Table.Slot))
    (recs : list (list Field)) :
  Forall2 record_of kept recs ->
  NoDup (map fst kept) ->
  forall m0,
    (forall e, In e kept -> ~ In (fst e) (map fst m0)) ->
    exists m,
      Table.read_entries (length recs) (concat recs) m0 = Some m
      /\ map fst m = map fst m0 ++ map fst kept.
Proof.
  induction 1 as [|e rec kept recs Hrec Hall IH]; intros Hnd m0 Hfresh.
  - exists m0. cbn. split; [reflexivity | now rewrite app_nil_r].
  - cbn [length concat Table.read_entries].
    destruct Hrec as (st1 & st2 & l' & _ & Hw).
    destruct (readEntryFromFile_record _ _ _ (concat recs) Hw) as [h' ->].
    cbn [map] in Hnd. inversion Hnd as [|? ? Hnot Hnd']; subst.
    assert (Hnone : Table.find (fst e) m0 = None).
    { apply find_None_iff. apply Hfresh. now left. }
    unfold Table.emplace. rewrite Hnone.
    destruct (IH Hnd' (m0 ++ [(fst e,
                {| Table.slot_list := List.of_head h';
                   Table.slot_mutex := Table.Unlocked |})])) as (m & Hm & Hkeys).
    + intros e' Hin. rewrite map_app. cbn [map fst]. intros Hin'.
      apply in_app_or in Hin' as [Hin' | [Hin' | []]].
      * apply (Hfresh e'); [now right | exact Hin'].
      * apply Hnot. rewrite Hin'. now apply in_map.
    + exists m. split; [exact Hm |].
      rewrite Hkeys, map_app. cbn [map fst]. now rewrite <- app_assoc.
Qed.

Lemma Forall2_length_eq {A B} (R : A -> B -> Prop) (l1 : list A) (l2 : list B) :
  Forall2 R l1 l2 -> length l1 = length l2.
Proof. induction 1; cbn; congruence. Qed.

Lemma filter_length_le {A} (f : A -> bool) (l : list A) :
  (length (filter f l) <= length l)%nat.
Proof. induction l as [|x l IH]; cbn; [lia |]. destruct (f x); cbn; lia. Qed.

(** The state after a completed [Table::close]. *)
Lemma close_Ok_spec (tbl : Table.t) (fs : FS) (st : Store.t) (c : Table.closing) :
  Table.path_ tbl <> EmptyString ->
  Z.of_nat (length (Table.map_ tbl)) < 2 ^ 32 ->
  Table.close tbl fs st = Ok c ->
  exists original recs,
    fs (Table.path_ tbl) = Some original
    /\ Forall2 record_of (filter writable (Table.map_ tbl)) recs
    /\ Table.c_fs c (Table.path_ tbl)
       = Some (U32 (Z.of_nat (length recs)) :: concat recs)
    /\ Table.c_fs c (Table.backup_path (Table.path_ tbl)) = None.
Proof.
  intros Hpath Hlen Hclose. unfold Table.close in Hclose.
  apply String.eqb_neq in Hpath. rewrite Hpath in Hclose.
  destruct (fs (Table.path_ tbl)) as [original|] eqn:Hfs.
  2:{ rewrite close_begin_missing in Hclose by exact Hfs. discriminate. }
  destruct (close_begin_spec tbl fs st original Hfs)
    as (c0 & Hbegin & Hf0 & Hb0 & _ & Hn0).
  rewrite Hbegin in Hclose. cbn [bind] in Hclose.
  destruct (Table.close_loop _ _ c0) as [c1 | | |] eqn:Hloop; try discriminate.
  cbn [bind] in Hclose.
  destruct (close_loop_spec _ _ c0 c1 _ 0 Hf0 Hn0 Hloop) as (recs & Hall & Hf1 & Hn1).
  pose proof (close_loop_other_paths (Table.path_ tbl)
                (Table.backup_path (Table.path_ tbl)) (Table.map_ tbl) c0
                (backup_path_neq _)) as Hb1.
  rewrite Hloop in Hb1. cbn [state_of] in Hb1. rewrite Hb0 in Hb1.
  assert (Hrecs : (length recs <= length (Table.map_ tbl))%nat).
  { rewrite <- (Forall2_length_eq _ _ _ Hall). apply filter_length_le. }
  rewrite Z.add_0_l, u32_small in Hn1 by lia.
  exists original, recs. split; [reflexivity |]. split; [exact Hall |].
  unfold Table.close_end in Hclose.
  pose proof (backup_path_neq (Table.path_ tbl)) as Hne.
  assert (Hne' : Table.path_ tbl <> Table.backup_path (Table.path_ tbl)) by congruence.
  destruct (Z.eqb_spec (Table.c_written c1) (Z.of_nat (length (Table.map_ tbl))))
    as [Heq | Hneq].
  - unfold fs_remove in Hclose. rewrite Hb1 in Hclose.
    inversion Hclose; subst c. clear Hclose. cbn [Table.c_fs].
    rewrite fs_set_same, fs_set_other by exact Hne'.
    split; [| reflexivity].
    rewrite Hf1. cbn [app]. rewrite u32_small by lia.
    rewrite <- Heq, Hn1. reflexivity.
  - unfold fs_remove, fs_rewrite_first in Hclose. rewrite Hf1 in Hclose.
    cbn [app] in Hclose.
    rewrite fs_set_other in Hclose by exact Hne.
    rewrite Hb1 in Hclose.
    inversion Hclose; subst c. clear Hclose. cbn [Table.c_fs].
    rewrite fs_set_same, fs_set_other by exact Hne'.
    rewrite fs_set_same. rewrite Hn1. auto.
Qed.

(** C9.  After a completed [Table::close] the keys file holds the count
    followed by one record per entry whose list could be locked and is not
    empty, and nothing else; the count equals the number of records; and a
    [Table::open] of that file yields exactly the keys of those entries: a
    key whose list was empty is not found in the reopened table. *)
Theorem close_writes_nonempty_unlocked_lists
    (tbl : Table.t) (fs : FS) (st : Store.t) (c : Table.closing) :
  Table.path_ tbl <> EmptyString ->
  NoDup (map fst (Table.map_ tbl)) ->
  Z.of_nat (length (Table.map_ tbl)) < 2 ^ 32 ->
  Table.close tbl fs st = Ok c ->
  keys_file_after_close tbl c.
Proof.
  intros Hpath Hnd Hlen Hclose.
  destruct (close_Ok_spec tbl fs st c Hpath Hlen Hclose)
    as (original & recs & _ & Hall & Hfile & _).
  unfold keys_file_after_close. cbv zeta.
  exists recs. split; [exact Hfile |]. split; [exact Hall |].
  destruct (read_entries_records _ _ Hall (NoDup_keys_filter _ _ Hnd) [])
    as (m & Hread & Hkeys).
  { intros e _ []. }
  exists {| Table.map_ := m; Table.path_ := Table.path_ tbl |}.
  split.
  - unfold Table.open. rewrite Hfile, Nat2Z.id, Hread. reflexivity.
  - cbn [Table.map_]. split; [exact Hkeys |].
    intros key slot Hfind Hempty.
    apply find_None_iff. rewrite Hkeys. cbn [app map].
    intros Hin. apply in_map_iff in Hin as ([k s] & Hk & Hin). cbn in Hk. subst k.
    apply filter_In in Hin as [Hin Hw].
    apply find_Some_In in Hfind.
    pose proof (NoDup_keys_In_unique _ _ _ _ Hnd Hin Hfind) as ->.
    unfold writable in Hw. cbn [snd] in Hw. rewrite Hempty in Hw.
    now rewrite andb_false_r in Hw.
Qed.

Lemma close_writes_nonempty_unlocked_lists_witness :
  exists c,
    Table.close Examples.table_abc_c_locked Examples.fs_new
                (Shard.store_ Examples.shard_abc) = Ok c
    /\ keys_file_after_close Examples.table_abc_c_locked c.
Proof.
  eexists. split.
  - vm_compute. reflexivity.
  - apply (close_writes_nonempty_unlocked_lists _ Examples.fs_new
             (Shard.store_ Examples.shard_abc)).
    + vm_compute. discriminate.
    + vm_compute. repeat constructor; cbn; intuition discriminate.
    + vm_compute. reflexivity.
    + vm_compute. reflexivity.
Defined.

(** ** [Table::close] and the previous keys file *)

(** C5 (counterexample).  A table is closed, reopened, and closed again
    while a reader holds the lock of the list of "c".  The second [close]
    completes; the list of "c" cannot be locked; yet the keys file is not
    the one the first [close] wrote (it no longer holds the record of
    "c"), and no file is left at the backup path. *)
Lemma close_does_not_keep_previous_keys_file :
  let path := "multimap.0.keys"%string in
  let result :=
    Table.close Examples.table_reopened_c_locked Examples.fs_closed_once
                Examples.store_closed_once in
  (exists slot,
      Table.find Examples.key_c (Table.map_ Examples.table_reopened_c_locked)
      = Some slot
      /\ Table.tryLockUnique (Table.slot_mutex slot) = false)
  /\ is_Ok result = true
  /\ Table.c_fs (state_of result) path <> Examples.fs_closed_once path
  /\ Table.c_fs (state_of result) (Table.backup_path path) = None.
Proof.
  cbv zeta. split.
  - eexists. split; vm_compute; reflexivity.
  - split; [vm_compute; reflexivity |].
    split; [vm_compute; discriminate | vm_compute; reflexivity].
Qed.

(** C5 (amended).  When the keys file exists, [Table::close] skips a list
    whose unique lock cannot be acquired without writing or flushing
    anything for it; the previous keys file is renamed to the backup path
    first and is removed at the end of a completed run, which leaves at
    the path of the keys file the count and the records of the lists that
    could be locked and are not empty; a run that stops before the end
    leaves the previous content at the backup path. *)
Theorem close_skips_locked_and_replaces_keys_file
    (tbl : Table.t) (fs : FS) (st : Store.t) (original : File) :
  Table.path_ tbl <> EmptyString ->
  Z.of_nat (length (Table.map_ tbl)) < 2 ^ 32 ->
  fs (Table.path_ tbl) = Some original ->
  close_replaces_keys_file tbl fs st original.
Proof.
  intros Hpath Hlen Hfs. unfold close_replaces_keys_file. cbv zeta.
  split; [| split].
  - intros c key slot Hlocked. now apply close_entry_locked.
  - intros c Hclose.
    destruct (close_Ok_spec tbl fs st c Hpath Hlen Hclose)
      as (original' & recs & _ & Hall & Hfile & Hbackup).
    split; [exact Hbackup |]. exists recs. auto.
  - intros k. unfold Table.close_interrupted.
    destruct (close_begin_spec tbl fs st original Hfs)
      as (c0 & -> & _ & Hb0 & _ & _).
    cbn [bind].
    rewrite close_loop_other_paths by apply backup_path_neq.
    exact Hb0.
Qed.

Lemma close_skips_locked_and_replaces_keys_file_witness :
  Examples.fs_closed_once (Table.path_ Examples.table_reopened_c_locked)
  = Some [U32 2; U16 1; Raw [97]; U32 1; U32 0; U32 5; Raw [0; 0; 0; 0; 0];
          U16 1; Raw [99]; U32 1; U32 0; U32 5; Raw [1; 1; 0; 0; 0]]
  /\ close_replaces_keys_file Examples.table_reopened_c_locked
       Examples.fs_closed_once Examples.store_closed_once
       [U32 2; U16 1; Raw [97]; U32 1; U32 0; U32 5; Raw [0; 0; 0; 0; 0];
        U16 1; Raw [99]; U32 1; U32 0; U32 5; Raw [1; 1; 0; 0; 0]].
Proof.
  split.
  - vm_compute. reflexivity.
  - apply close_skips_locked_and_replaces_keys_file.
    + vm_compute. discriminate.
    + vm_compute. reflexivity.
    + vm_compute. reflexivity.
Defined.

(** ** Varint and the id vector *)

Lemma encode_decode (fuel : nat) (v : Z) (rest : list byte) :
  0 <= v < 128 ^ Z.of_nat fuel ->
  (0 < fuel)%nat ->
  Varint.decode fuel (Varint.encode fuel v ++ rest)
  = (length (Varint.encode fuel v), v).
Proof.
  revert v. induction fuel as [|f IH]; intros v Hv Hf; [lia |].
  cbn [Varint.encode]. destruct (Z.ltb_spec v 128) as [Hlt | Hge].
  - cbn. destruct (Z.ltb_spec v 128); [reflexivity | lia].
  - cbn [app Varint.decode length].
    destruct (Z.ltb_spec (v mod 128 + 128) 128) as [Hlt | _].
    { pose proof (Z.mod_pos_bound v 128). lia. }
    assert (Hdiv : 0 <= v / 128 < 128 ^ Z.of_nat f).
    { split; [apply Z.div_pos; lia |].
      apply Z.div_lt_upper_bound; [lia |].
      rewrite Nat2Z.inj_succ, Z.pow_succ_r in Hv by lia. lia. }
    assert (Hf' : (0 < f)%nat).
    { destruct f; [| lia]. cbn in Hdiv. lia. }
    rewrite (IH _ Hdiv Hf'). f_equal.
    pose proof (Z.div_mod v 128). lia.
Qed.

Lemma encode_length_small (fuel k : nat) (v : Z) :
  0 <= v < 128 ^ Z.of_nat k -> (0 < k <= fuel)%nat ->
  (length (Varint.encode fuel v) <= k)%nat.
Proof.
  revert k v. induction fuel as [|f IH]; intros k v Hv Hk; [lia |].
  cbn [Varint.encode]. destruct (Z.ltb_spec v 128) as [Hlt | Hge].
  - cbn. lia.
  - cbn [length]. destruct k as [|k]; [lia |].
    assert (Hdiv : 0 <= v / 128 < 128 ^ Z.of_nat k).
    { split; [apply Z.div_pos; lia |].
      apply Z.div_lt_upper_bound; [lia |].
      rewrite Nat2Z.inj_succ, Z.pow_succ_r in Hv by lia. lia. }
    assert (Hk' : (0 < k)%nat).
    { destruct k; [| lia]. cbn in Hdiv. lia. }
    specialize (IH k (v / 128) Hdiv). lia.
Qed.

Lemma bytes_of_length_N4 (v : Z) :
  0 <= v <= Varint.N4_MAX_UINT -> (1 <= length (Varint.bytes_of v) <= 4)%nat.
Proof.
  intros Hv. unfold Varint.N4_MAX_UINT in Hv. split.
  - pose proof (encode_nonempty 4 v). unfold Varint.bytes_of.
    destruct (Varint.encode 5 v); [congruence | cbn; lia].
  - apply encode_length_small; [| lia]. change (128 ^ Z.of_nat 4) with (2 ^ 28). lia.
Qed.

Lemma bytes_of_decode (v : Z) (rest : list byte) :
  0 <= v <= Varint.N4_MAX_UINT ->
  Varint.decode 5 (Varint.bytes_of v ++ rest) = (length (Varint.bytes_of v), v).
Proof.
  intros Hv. apply encode_decode; [| lia].
  unfold Varint.N4_MAX_UINT in Hv. change (128 ^ Z.of_nat 5) with (2 ^ 35). lia.
Qed.

Lemma readUint32_writeUint32 (x : Z) (rest : list byte) :
  0 <= x < 2 ^ 32 -> readUint32 (writeUint32 x ++ rest) = x.
Proof.
  intros Hx. unfold writeUint32, readUint32. cbn [app].
  replace (x / 65536) with (x / 256 / 256)
    by (rewrite Z.div_div by lia; reflexivity).
  replace (x / 16777216) with (x / 256 / 256 / 256)
    by (rewrite !Z.div_div by lia; reflexivity).
  pose proof (Z.div_mod x 256 ltac:(lia)).
  pose proof (Z.div_mod (x / 256) 256 ltac:(lia)).
  pose proof (Z.div_mod (x / 256 / 256) 256 ltac:(lia)).
  assert (x / 256 / 256 / 256 < 256).
  { repeat (apply Z.div_lt_upper_bound; [lia |]). lia. }
  assert (0 <= x / 256 / 256 / 256) by (repeat apply Z.div_pos; lia).
  rewrite (Z.mod_small (x / 256 / 256 / 256)) by lia.
  lia.
Qed.

Lemma write_at_length (pos : Z) (bs buf : list byte) :
  0 <= pos -> (Z.to_nat pos + length bs <= length buf)%nat ->
  length (write_at pos bs buf) = length buf.
Proof.
  intros Hp Hle. unfold write_at.
  rewrite !length_app, length_firstn, length_skipn. lia.
Qed.

Lemma write_at_firstn (pos : Z) (bs buf : list byte) :
  (Z.to_nat pos <= length buf)%nat ->
  firstn (Z.to_nat pos + length bs) (write_at pos bs buf)
  = firstn (Z.to_nat pos) buf ++ bs.
Proof.
  intros Hle. unfold write_at.
  rewrite firstn_app, length_firstn, Nat.min_l by exact Hle.
  rewrite firstn_all2 by (rewrite length_firstn; lia).
  f_equal.
  replace (Z.to_nat pos + length bs - Z.to_nat pos)%nat with (length bs) by lia.
  rewrite firstn_app, Nat.sub_diag, firstn_all. cbn. now rewrite app_nil_r.
Qed.

Lemma last_cons (x : Z) (l : list Z) (d : Z) : last (x :: l) d = last l x.
Proof.
  revert x d. induction l as [|y l IH]; intros x d; [reflexivity |].
  change (last (x :: y :: l) d) with (last (y :: l) d).
  now rewrite (IH y d), (IH y x).
Qed.

Lemma deltas_app (prev : Z) (ids : list Z) (id : Z) :
  deltas prev (ids ++ [id])
  = deltas prev ids ++ Varint.bytes_of (id - last ids prev).
Proof.
  revert prev. induction ids as [|x ids IH]; intros prev; cbn [app deltas].
  - cbn. now rewrite app_nil_r.
  - now rewrite IH, <- app_assoc, last_cons.
Qed.

Lemma last_app_single (ids : list Z) (id d : Z) : last (ids ++ [id]) d = id.
Proof. apply last_last. Qed.

Lemma increasing_app (prev : Z) (ids : list Z) (id : Z) :
  increasing prev ids -> last ids prev < id -> increasing prev (ids ++ [id]).
Proof.
  revert prev. induction ids as [|x ids IH]; intros prev Hinc Hlast; cbn [app increasing] in *.
  - cbn in Hlast. auto.
  - destruct Hinc as [Hx Hinc]. split; [exact Hx |]. apply IH; [exact Hinc |].
    now rewrite last_cons in Hlast.
Qed.

Lemma increasing_last_ge (prev : Z) (ids : list Z) :
  increasing prev ids -> prev <= last ids prev.
Proof.
  revert prev. induction ids as [|x ids IH]; intros prev Hinc.
  - cbn. lia.
  - destruct Hinc as [Hx Hinc]. specialize (IH x Hinc).
    rewrite last_cons. lia.
Qed.

Lemma bytes_of_length_le (d : Z) :
  1 <= d -> Z.of_nat (length (Varint.bytes_of d)) <= d.
Proof.
  intros Hd. unfold Varint.bytes_of.
  destruct (Z.ltb_spec d 128) as [Hlt | Hge].
  - cbn [Varint.encode]. destruct (Z.ltb_spec d 128); [cbn; lia | lia].
  - pose proof (encode_length_le 5 d). lia.
Qed.

Lemma deltas_length_increasing (prev : Z) (ids : list Z) :
  increasing prev ids ->
  Z.of_nat (length (deltas prev ids)) <= last ids prev - prev.
Proof.
  revert prev. induction ids as [|x ids IH]; intros prev Hinc.
  - cbn. lia.
  - destruct Hinc as [Hx Hinc]. cbn [deltas]. rewrite length_app, last_cons.
    specialize (IH x Hinc).
    pose proof (bytes_of_length_le (x - prev) ltac:(lia)). lia.
Qed.

Lemma deltas_length_bound (ids : list Z) :
  increasing (-1) ids ->
  Z.of_nat (length (deltas 0 ids)) <= last ids 0 + 1.
Proof.
  destruct ids as [|x ids]; intros Hinc.
  - cbn. lia.
  - destruct Hinc as [Hx Hinc]. cbn [deltas]. rewrite length_app, last_cons.
    pose proof (deltas_length_increasing x ids Hinc).
    rewrite Z.sub_0_r.
    destruct (Z.eq_dec x 0) as [-> | Hx0].
    + cbn [Varint.bytes_of Varint.encode Z.ltb Z.compare length]. lia.
    + pose proof (bytes_of_length_le x ltac:(lia)). lia.
Qed.

(** [allocateMoreIfFull] keeps the bytes in front of [offset_] and leaves
    room for the next [add]. *)
Lemma allocateMoreIfFull_spec (v : UintVector.t) :
  length (UintVector.data_ v) = Z.to_nat (UintVector.size_ v) ->
  0 <= UintVector.offset_ v <= UintVector.size_ v ->
  let v1 := UintVector.allocateMoreIfFull v in
  UintVector.offset_ v1 = UintVector.offset_ v
  /\ length (UintVector.data_ v1) = Z.to_nat (UintVector.size_ v1)
  /\ 8 <= UintVector.size_ v1
  /\ firstn (Z.to_nat (UintVector.offset_ v)) (UintVector.data_ v1)
     = firstn (Z.to_nat (UintVector.offset_ v)) (UintVector.data_ v)
  /\ (8 <= UintVector.size_ v ->
      UintVector.offset_ v + 4 <= UintVector.size_ v1)
  /\ (2 * UintVector.size_ v <= 3 * UintVector.offset_ v + 24 ->
      2 * UintVector.size_ v1 <= 3 * UintVector.offset_ v + 24).
Proof.
  intros Hlen Hoff. cbv zeta. unfold UintVector.allocateMoreIfFull. cbv zeta.
  destruct (Z.ltb_spec (UintVector.size_ v - UintVector.offset_ v) 8) as [Hfull | Hroom].
  - cbn [UintVector.offset_ UintVector.data_ UintVector.size_].
    assert (Hdiv : 0 <= UintVector.size_ v / 2) by (apply Z.div_pos; lia).
    split; [reflexivity |].
    split.
    { rewrite length_app, length_firstn, repeat_length. lia. }
    split; [lia |].
    split.
    { rewrite firstn_app, length_firstn.
      replace (Z.to_nat (UintVector.offset_ v)
               - Nat.min (Z.to_nat (UintVector.offset_ v)) (length (UintVector.data_ v)))%nat
        with 0%nat by lia.
      cbn [firstn]. rewrite app_nil_r, firstn_firstn. f_equal. lia. }
    split.
    { intros H8.
      assert (4 <= UintVector.size_ v / 2).
      { apply Z.div_le_lower_bound; lia. }
      lia. }
    intros _.
    assert (2 * (UintVector.size_ v / 2) <= UintVector.size_ v).
    { apply Z.mul_div_le. lia. }
    lia.
  - split; [reflexivity |]. split; [exact Hlen |]. split; [lia |].
    split; [reflexivity |]. split; lia.
Qed.

Lemma skipn_length_app {A} (a b : list A) : skipn (length a) (a ++ b) = b.
Proof. induction a as [|x a IH]; cbn; [reflexivity | exact IH]. Qed.

Lemma firstn_length_app {A} (a b : list A) : firstn (length a) (a ++ b) = a.
Proof. induction a as [|x a IH]; cbn; [reflexivity | now rewrite IH]. Qed.

Lemma writeUint32_length (x : Z) : length (writeUint32 x) = 4%nat.
Proof. reflexivity. Qed.

(** The two writes of [add] behind a prefix [pre] of the buffer. *)
Lemma write_value_spec (a room value : Z) (v : UintVector.t) (pre : list byte) :
  length (UintVector.data_ v) = Z.to_nat (UintVector.size_ v) ->
  0 <= UintVector.offset_ v ->
  UintVector.offset_ v + 8 <= UintVector.size_ v ->
  UintVector.size_ v < 2 ^ 32 ->
  0 <= a <= Varint.N4_MAX_UINT ->
  4 <= room ->
  firstn (Z.to_nat (UintVector.offset_ v)) (UintVector.data_ v) = pre ->
  exists v',
    UintVector.write_value a room value v = Ok (true, v')
    /\ UintVector.size_ v' = UintVector.size_ v
    /\ length (UintVector.data_ v') = Z.to_nat (UintVector.size_ v')
    /\ UintVector.offset_ v'
       = UintVector.offset_ v + Z.of_nat (length (Varint.bytes_of a)) + 4
    /\ firstn (Z.to_nat (UintVector.offset_ v')) (UintVector.data_ v')
       = pre ++ Varint.bytes_of a ++ writeUint32 value.
Proof.
  intros Hlen Hoff Hroom Hsz Ha Hr Hpre.
  pose proof (bytes_of_length_N4 a Ha) as Hbs.
  unfold UintVector.write_value. cbv zeta.
  assert (Hw : Varint.writeUint a room = Varint.bytes_of a).
  { unfold Varint.writeUint. cbv zeta.
    destruct (Z.leb_spec (Z.of_nat (length (Varint.bytes_of a))) room); [reflexivity | lia]. }
  rewrite Hw.
  set (bs := Varint.bytes_of a) in *.
  set (n := Z.of_nat (length bs)).
  assert (Hu : u32 (UintVector.offset_ v + n) = UintVector.offset_ v + n).
  { apply u32_small. subst n. lia. }
  unfold UintVector.has_room.
  cbn [UintVector.advance UintVector.put UintVector.offset_ UintVector.size_
       UintVector.data_].
  fold n. rewrite Hu.
  destruct (Z.leb_spec (UintVector.offset_ v + n) (UintVector.size_ v)); [| subst n; lia].
  destruct (Z.leb_spec (UintVector.offset_ v + n + 4) (UintVector.size_ v)); [| subst n; lia].
  cbn [andb]. eexists. split; [reflexivity |].
  cbn [UintVector.advance UintVector.put UintVector.offset_ UintVector.size_
       UintVector.data_].
  rewrite Hu.
  assert (Hu4 : u32 (UintVector.offset_ v + n + 4) = UintVector.offset_ v + n + 4).
  { apply u32_small. subst n. lia. }
  rewrite Hu4.
  assert (Hlen1 : length (write_at (UintVector.offset_ v) bs (UintVector.data_ v))
                  = length (UintVector.data_ v)).
  { apply write_at_length; [lia |]. subst n. lia. }
  split; [reflexivity |].
  split.
  { rewrite write_at_length; [now rewrite Hlen1 | lia |].
    rewrite Hlen1, writeUint32_length. subst n. lia. }
  split; [reflexivity |].
  replace (Z.to_nat (UintVector.offset_ v + n + 4))
    with (Z.to_nat (UintVector.offset_ v + n) + length (writeUint32 value))%nat
    by (rewrite writeUint32_length; lia).
  rewrite write_at_firstn by (rewrite Hlen1; subst n; lia).
  replace (Z.to_nat (UintVector.offset_ v + n))
    with (Z.to_nat (UintVector.offset_ v) + length bs)%nat by (subst n; lia).
  rewrite write_at_firstn by lia.
  now rewrite Hpre, <- app_assoc.
Qed.

Lemma last_default_irrelevant (l : list Z) (d d' : Z) :
  l <> [] -> last l d = last l d'.
Proof.
  destruct l as [|x l]; [congruence |]. intros _. now rewrite !last_cons.
Qed.

Lemma increasing_last_gt (prev x : Z) (ids : list Z) :
  increasing prev (x :: ids) -> prev < last (x :: ids) prev.
Proof.
  intros [Hx Hinc]. rewrite last_cons.
  pose proof (increasing_last_ge x ids Hinc). lia.
Qed.

Lemma represents_ids_range (v : UintVector.t) (ids : list Z) :
  represents v ids ->
  -1 <= last ids (-1) <= Varint.N4_MAX_UINT
  /\ (ids <> [] -> last ids (-1) = last ids 0 /\ 0 <= last ids 0).
Proof.
  intros (_ & _ & _ & Hinc & Hlast & _).
  destruct ids as [|x ids].
  - cbn. unfold Varint.N4_MAX_UINT. split; [lia | congruence].
  - pose proof (increasing_last_gt _ _ _ Hinc) as Hgt.
    rewrite (last_default_irrelevant (x :: ids) (-1) 0) in * by discriminate.
    split; [lia |]. intros _. split; [reflexivity | lia].
Qed.

Lemma represents_nonempty_intro (v : UintVector.t) (ids : list Z) :
  ids <> [] ->
  length (UintVector.data_ v) = Z.to_nat (UintVector.size_ v) ->
  0 <= UintVector.size_ v ->
  2 * UintVector.size_ v <= 3 * UintVector.offset_ v + 24 ->
  increasing (-1) ids ->
  last ids 0 <= Varint.N4_MAX_UINT ->
  8 <= UintVector.size_ v ->
  UintVector.offset_ v = Z.of_nat (length (deltas 0 ids)) + 4 ->
  UintVector.offset_ v <= UintVector.size_ v ->
  firstn (Z.to_nat (UintVector.offset_ v)) (UintVector.data_ v)
  = deltas 0 ids ++ writeUint32 (last ids 0) ->
  represents v ids.
Proof.
  intros Hne. destruct ids; [congruence |]. unfold represents. auto 10.
Qed.

(** [add] after a well-formed vector: an id above the last one and not
    above [N4_MAX_UINT] is accepted and appended. *)
Lemma add_represents (v : UintVector.t) (ids : list Z) (id : Z) :
  represents v ids ->
  last ids (-1) < id ->
  id <= Varint.N4_MAX_UINT ->
  exists v',
    UintVector.add id v = Ok (true, v')
    /\ represents v' (ids ++ [id]).
Proof.
  intros Hrep Hlast Hid.
  pose proof (represents_ids_range v ids Hrep) as [Hrange Hindep].
  destruct Hrep as (Hlen & Hsz & Hgrow & Hinc & HlastN & Hshape).
  assert (HidN : 0 <= id < 2 ^ 32) by (unfold Varint.N4_MAX_UINT in Hid; lia).
  assert (Hinc' : increasing (-1) (ids ++ [id])) by now apply increasing_app.
  unfold UintVector.add. cbv zeta.
  destruct ids as [|x0 ids0].
  - (* the first id *)
    assert (Hoff : 0 <= UintVector.offset_ v <= UintVector.size_ v) by lia.
    destruct (allocateMoreIfFull_spec v Hlen Hoff) as (Ho1 & Hl1 & H8 & Hpre & _ & Hg1).
    specialize (Hg1 Hgrow).
    set (v1 := UintVector.allocateMoreIfFull v) in *.
    assert (Hsz1 : UintVector.size_ v1 < 2 ^ 32) by lia.
    unfold UintVector.empty. rewrite Ho1, Hshape. cbn [Z.eqb].
    destruct (Z.leb_spec id Varint.N4_MAX_UINT); [| lia].
    destruct (write_value_spec id (UintVector.size_ v1) id v1 [])
      as (v' & Hw & Hsz' & Hlen' & Hoff' & Hdata'); try lia.
    { rewrite Ho1, Hshape. reflexivity. }
    exists v'. split; [exact Hw |].
    pose proof (bytes_of_length_N4 id ltac:(lia)) as Hbs.
    unfold represents. rewrite Hlen', Hsz'.
    split; [reflexivity |]. split; [lia |].
    split; [rewrite Hoff', Ho1, Hshape; lia |].
    split; [exact Hinc' |].
    cbn [app last deltas]. split; [exact Hid |].
    rewrite Z.sub_0_r, app_nil_r.
    split; [lia |]. split; [lia |].
    split.
    { rewrite Hoff', Ho1, Hshape.
      pose proof (bytes_of_length_N4 id ltac:(lia)). lia. }
    rewrite Hdata'. reflexivity.
  - (* a further id *)
    destruct Hshape as (H8 & Hoffset & Hle & Hdata).
    destruct (Hindep ltac:(discriminate)) as [Hindep' Hlast0].
    clear Hindep. rename Hindep' into Hindep.
    set (ids := x0 :: ids0) in *.
    pose proof (deltas_length_bound ids Hinc) as Hbound.
    assert (Hoff : 0 <= UintVector.offset_ v <= UintVector.size_ v) by lia.
    destruct (allocateMoreIfFull_spec v Hlen Hoff)
      as (Ho1 & Hl1 & H81 & Hpre & Hroom & Hg1).
    specialize (Hroom H8). specialize (Hg1 Hgrow).
    set (v1 := UintVector.allocateMoreIfFull v) in *.
    assert (Hsz1 : UintVector.size_ v1 < 2 ^ 32).
    { unfold Varint.N4_MAX_UINT in *. lia. }
    unfold UintVector.empty. rewrite Ho1.
    destruct (Z.eqb_spec (UintVector.offset_ v) 0) as [H0 | _]; [lia |].
    set (n := Z.of_nat (length (deltas 0 ids))) in *.
    assert (Hu : u32 (UintVector.offset_ v1 + - 4) = n).
    { rewrite Ho1, Hoffset. replace (n + 4 + - 4) with n by lia.
      apply u32_small. subst n. unfold Varint.N4_MAX_UINT in *. lia. }
    assert (Hcur : UintVector.current (UintVector.advance (- 4) v1)
                   = writeUint32 (last ids 0)
                     ++ skipn (Z.to_nat (UintVector.offset_ v)) (UintVector.data_ v1)).
    { unfold UintVector.current. cbn [UintVector.advance UintVector.offset_ UintVector.data_].
      rewrite Hu.
      rewrite <- (firstn_skipn (Z.to_nat (UintVector.offset_ v)) (UintVector.data_ v1)) at 1.
      rewrite Hpre, Hdata, <- app_assoc.
      replace (Z.to_nat n) with (length (deltas 0 ids)) by (subst n; lia).
      apply skipn_length_app. }
    rewrite Hcur.
    rewrite readUint32_writeUint32 by (unfold Varint.N4_MAX_UINT in *; lia).
    rewrite <- Hindep.
    destruct (Z.ltb_spec (last ids (-1)) id); [| lia].
    assert (Hdelta : u32 (id - last ids (-1)) = id - last ids (-1)).
    { apply u32_small. unfold Varint.N4_MAX_UINT in *. lia. }
    rewrite Hdelta.
    destruct (Z.leb_spec (id - last ids (-1)) Varint.N4_MAX_UINT); [| lia].
    set (v2 := UintVector.advance (- 4) v1).
    assert (Ho2 : UintVector.offset_ v2 = n) by exact Hu.
    destruct (write_value_spec (id - last ids (-1)) (UintVector.remaining v2) id v2
                (deltas 0 ids))
      as (v' & Hw & Hsz' & Hlen' & Hoff' & Hdata');
      try (subst v2; cbn [UintVector.advance UintVector.data_ UintVector.size_]; lia).
    { unfold UintVector.remaining. rewrite Ho2. subst v2.
      cbn [UintVector.advance UintVector.size_]. lia. }
    { rewrite Ho2. subst v2. cbn [UintVector.advance UintVector.data_].
      replace (Z.to_nat n) with (length (deltas 0 ids)) by (subst n; lia).
      rewrite <- (firstn_skipn (Z.to_nat (UintVector.offset_ v)) (UintVector.data_ v1)).
      rewrite Hpre, Hdata, <- app_assoc.
      apply firstn_length_app. }
    exists v'. split; [exact Hw |].
    subst v2. cbn [UintVector.advance UintVector.size_] in *.
    pose proof (bytes_of_length_N4 (id - last ids (-1)) ltac:(lia)) as Hbs.
    apply represents_nonempty_intro.
    + destruct ids; discriminate.
    + now rewrite Hlen', Hsz'.
    + lia.
    + rewrite Hsz', Hoff', Ho2. subst n. lia.
    + exact Hinc'.
    + now rewrite last_app_single.
    + lia.
    + rewrite Hoff', Ho2, deltas_app, length_app, Hindep. subst n. lia.
    + rewrite Hoff', Ho2, Hsz'. lia.
    + rewrite Hdata', last_app_single, deltas_app, <- app_assoc, Hindep. reflexivity.
Qed.

Lemma increasing_decodable (prev : Z) (ids : list Z) :
  0 <= prev -> increasing prev ids -> last ids prev <= Varint.N4_MAX_UINT ->
  decodable prev ids.
Proof.
  revert prev. induction ids as [|x ids IH]; intros prev Hp Hinc Hlast; cbn.
  - exact I.
  - destruct Hinc as [Hx Hinc]. rewrite last_cons in Hlast.
    pose proof (increasing_last_ge x ids Hinc).
    unfold Varint.N4_MAX_UINT in *.
    split; [lia |]. split; [lia |]. apply IH; [lia | exact Hinc | exact Hlast].
Qed.

Lemma represents_decodable (v : UintVector.t) (ids : list Z) :
  represents v ids -> decodable 0 ids.
Proof.
  intros (_ & _ & _ & Hinc & Hlast & _).
  destruct ids as [|x ids]; [exact I |].
  destruct Hinc as [Hx Hinc]. rewrite last_cons in Hlast.
  pose proof (increasing_last_ge x ids Hinc).
  unfold Varint.N4_MAX_UINT in *.
  cbn. split; [lia |]. split; [lia |].
  apply increasing_decodable; [lia | exact Hinc | exact Hlast].
Qed.

Lemma unpack_loop_spec (ids : list Z) :
  forall (prev : Z) (fuel : nat) (data rest : list byte) (offset : Z),
    decodable prev ids ->
    0 <= prev < 2 ^ 32 ->
    (length (deltas prev ids) < fuel)%nat ->
    0 <= offset ->
    offset + Z.of_nat (length (deltas prev ids)) < 2 ^ 32 ->
    skipn (Z.to_nat offset) data = deltas prev ids ++ rest ->
    UintVector.unpack_loop fuel data offset
      (Z.of_nat (length (deltas prev ids))) prev = Some ids.
Proof.
  induction ids as [|id ids IH]; intros prev fuel data rest offset Hdec Hprev Hfuel Hoff Hmax Hdata.
  - destruct fuel; reflexivity.
  - destruct Hdec as (Hdelta & Hid & Hdec).
    cbn [deltas] in *. rewrite length_app in *.
    pose proof (bytes_of_length_N4 (id - prev) Hdelta) as Hbs.
    set (bs := Varint.bytes_of (id - prev)) in *.
    destruct fuel as [|f]; [lia |].
    cbn [UintVector.unpack_loop].
    destruct (Z.leb_spec (Z.of_nat (length bs + length (deltas id ids))) 0); [lia |].
    unfold Varint.readUint. rewrite Hdata, Nat2Z.id.
    rewrite <- length_app, firstn_length_app.
    subst bs. rewrite bytes_of_decode by exact Hdelta.
    set (bs := Varint.bytes_of (id - prev)) in *.
    destruct (Z.eqb_spec (Z.of_nat (length bs)) 0); [lia |].
    replace (u32 (prev + (id - prev))) with id by (rewrite u32_small; lia).
    rewrite (u32_small (offset + Z.of_nat (length bs))) by lia.
    replace (u32 (Z.of_nat (length (bs ++ deltas id ids)) - Z.of_nat (length bs)))
      with (Z.of_nat (length (deltas id ids)))
      by (rewrite length_app, u32_small; lia).
    rewrite (IH id f data rest); [reflexivity | exact Hdec | lia | lia | lia | lia |].
    replace (Z.to_nat (offset + Z.of_nat (length bs)))
      with (length bs + Z.to_nat offset)%nat by lia.
    rewrite <- skipn_skipn, Hdata, <- app_assoc. apply skipn_length_app.
Qed.

(** [unpack] returns the ids a well-formed vector holds. *)
Lemma unpack_represents (v : UintVector.t) (ids : list Z) :
  represents v ids -> UintVector.unpack v = Some ids.
Proof.
  intros Hrep. pose proof (represents_decodable v ids Hrep) as Hdec.
  destruct Hrep as (Hlen & Hsz & Hgrow & Hinc & Hlast & Hshape).
  unfold UintVector.unpack, UintVector.empty.
  destruct ids as [|x ids0].
  - rewrite Hshape. reflexivity.
  - destruct Hshape as (H8 & Hoffset & Hle & Hdata).
    set (ids := x :: ids0) in *.
    pose proof (deltas_length_bound ids Hinc) as Hbound.
    destruct (Z.eqb_spec (UintVector.offset_ v) 0); [lia |].
    cbv zeta.
    replace (u32 (UintVector.offset_ v - 4)) with (Z.of_nat (length (deltas 0 ids)))
      by (rewrite Hoffset, u32_small; unfold Varint.N4_MAX_UINT in *; lia).
    apply (unpack_loop_spec ids 0 _ _
             (writeUint32 (last ids 0)
              ++ skipn (Z.to_nat (UintVector.offset_ v)) (UintVector.data_ v)));
      try lia.
    + exact Hdec.
    + unfold Varint.N4_MAX_UINT in *. lia.
    + cbn [Z.to_nat skipn].
      rewrite <- (firstn_skipn (Z.to_nat (UintVector.offset_ v)) (UintVector.data_ v)) at 1.
      now rewrite Hdata, <- app_assoc.
Qed.

(** ** Well-formed lists: [List::Add] and [List::Flush] *)

Lemma increasing_Forall (prev : Z) (ids : list Z) :
  increasing prev ids -> Forall (fun id => prev < id) ids.
Proof.
  revert prev. induction ids as [|x ids IH]; intros prev Hinc; constructor.
  - now destruct Hinc.
  - destruct Hinc as [Hx Hinc]. specialize (IH x Hinc).
    eapply Forall_impl; [| exact IH]. cbn. intros. lia.
Qed.

Lemma increasing_last_max (prev : Z) (ids : list Z) :
  increasing prev ids -> Forall (fun id => id <= last ids prev) ids.
Proof.
  revert prev. induction ids as [|x ids IH]; intros prev Hinc; constructor.
  - destruct Hinc as [Hx Hinc]. rewrite last_cons.
    apply (increasing_last_ge x ids Hinc).
  - destruct Hinc as [Hx Hinc]. rewrite last_cons. apply IH, Hinc.
Qed.

Lemma increasing_NoDup (prev : Z) (ids : list Z) : increasing prev ids -> NoDup ids.
Proof.
  revert prev. induction ids as [|x ids IH]; intros prev Hinc; constructor.
  - destruct Hinc as [Hx Hinc]. intros Hin.
    pose proof (increasing_Forall x ids Hinc) as Hall.
    rewrite Forall_forall in Hall. specialize (Hall x Hin). lia.
  - destruct Hinc as [Hx Hinc]. now apply (IH x).
Qed.

Lemma last_In (l : list Z) (d : Z) : l <> [] -> In (last l d) l.
Proof.
  revert d. induction l as [|x l IH]; intros d Hne; [congruence |].
  rewrite last_cons. destruct l as [|y l'].
  - now left.
  - right. apply IH. discriminate.
Qed.

Lemma well_formed_ids_range (st : Store.t) (l : List.t) (ids : list Z) :
  well_formed st l ids ->
  Forall (fun id => 0 <= id < Store.num_blocks st) ids /\ NoDup ids.
Proof.
  intros (Hrep & Hlt & _). destruct Hrep as (_ & _ & _ & Hinc & _).
  split; [| now apply (increasing_NoDup (-1))].
  pose proof (increasing_Forall _ _ Hinc) as Hge.
  rewrite Forall_forall in *. intros id Hin.
  specialize (Hge id Hin). specialize (Hlt id Hin). cbn in *. lia.
Qed.

Lemma read_append_old (id : Z) (st : Store.t) (b : Block.t) :
  0 <= id < Store.num_blocks st ->
  Store.read id {| Store.block_size := Store.block_size st;
                   Store.blocks := Store.blocks st ++ [b] |}
  = Store.read id st.
Proof.
  unfold Store.read, Store.num_blocks. cbn [Store.blocks]. intros H.
  apply app_nth1. lia.
Qed.

Lemma read_append_new (st : Store.t) (b : Block.t) :
  Store.read (Store.num_blocks st)
             {| Store.block_size := Store.block_size st;
                Store.blocks := Store.blocks st ++ [b] |} = b.
Proof.
  unfold Store.read, Store.num_blocks. cbn [Store.blocks].
  rewrite Nat2Z.id, app_nth2, Nat.sub_diag by lia. reflexivity.
Qed.

Lemma committed_append (ids : list Z) (st : Store.t) (b : Block.t) :
  Forall (fun id => 0 <= id < Store.num_blocks st) ids ->
  committed {| Store.block_size := Store.block_size st;
               Store.blocks := Store.blocks st ++ [b] |} ids
  = committed st ids.
Proof.
  intros H. unfold committed. apply map_ext_in. intros id Hin.
  rewrite Forall_forall in H. now apply read_append_old, H.
Qed.

Lemma count_deleted_app (a b : list Block.Entry) :
  count_deleted (a ++ b) = (count_deleted a + count_deleted b)%nat.
Proof. unfold count_deleted. now rewrite filter_app, length_app. Qed.

Lemma num_blocks_append (st : Store.t) (b : Block.t) :
  Store.num_blocks {| Store.block_size := Store.block_size st;
                      Store.blocks := Store.blocks st ++ [b] |}
  = Store.num_blocks st + 1.
Proof. unfold Store.num_blocks. cbn [Store.blocks]. rewrite length_app. cbn. lia. Qed.

Lemma TryAdd_fits (value : Bytes) (b : Block.t) :
  Block.fits value b = true ->
  Block.TryAdd value b
  = Some {| Block.has_data := Block.has_data b; Block.size := Block.size b;
            Block.entries := Block.entries b
                             ++ [ {| Block.value := value; Block.deleted := false |} ] |}.
Proof. intros H. unfold Block.TryAdd. now rewrite H. Qed.

Lemma fits_zeroed (value : Bytes) (block_size : Z) :
  Block.fits_empty (Bytes_size value) block_size = true ->
  Block.fits value (Block.zeroed block_size) = true.
Proof.
  unfold Block.fits_empty, Block.fits, Block.zeroed, Block.next_offset. cbn.
  intros H. apply Z.leb_le in H. apply Z.leb_le. lia.
Qed.

(** What a successful [commit] of the in-memory block does to a
    well-formed list. *)
Lemma commit_well_formed (st : Store.t) (l : List.t) (ids : list Z) :
  well_formed st l ids ->
  Block.has_data (List.block_ l) = true ->
  Store.num_blocks st <= Varint.N4_MAX_UINT ->
  exists l',
    let st' := {| Store.block_size := Store.block_size st;
                  Store.blocks := Store.blocks st ++ [List.block_ l] |} in
    List.commit st l = Ok (st', l')
    /\ well_formed st' l' (ids ++ [Store.num_blocks st])
    /\ List.block_ l' = Block.init
    /\ content st' (ids ++ [Store.num_blocks st]) l' = content st ids l.
Proof.
  intros Hwf Hdata Hcap.
  pose proof (well_formed_ids_range st l ids Hwf) as [Hrange Hnd].
  destruct Hwf as (Hrep & Hlt & Hne & Htail & Htotal & Hdel).
  rewrite Hdata in Htail. destruct Htail as [Htail_ne Htail_sz].
  unfold List.commit, List.commit_block, Store.append.
  assert (Hnb : 0 <= Store.num_blocks st) by (unfold Store.num_blocks; lia).
  rewrite (u32_small (Store.num_blocks st))
    by (unfold Varint.N4_MAX_UINT in Hcap; lia).
  destruct (add_represents _ ids (Store.num_blocks st) Hrep) as (v' & Hadd & Hrep').
  { pose proof (represents_ids_range _ _ Hrep) as [_ Hlast].
    destruct ids as [|x ids]; [cbn; lia |].
    destruct (Hlast ltac:(discriminate)) as [-> _].
    destruct Hrep as (_ & _ & _ & Hinc & _).
    pose proof (increasing_last_max _ _ Hinc) as Hmax.
    assert (Hin : In (last (x :: ids) (-1)) (x :: ids))
      by (apply last_In; discriminate).
    rewrite Forall_forall in Hlt. specialize (Hlt _ Hin).
    rewrite (last_default_irrelevant _ (-1) 0) in Hlt by discriminate. exact Hlt. }
  { exact Hcap. }
  rewrite Hadd. cbn [map_result bind].
  eexists. cbv zeta. split; [reflexivity |].
  set (st' := {| Store.block_size := Store.block_size st;
                 Store.blocks := Store.blocks st ++ [List.block_ l] |}).
  assert (Hcontent : content st' (ids ++ [Store.num_blocks st])
                       {| List.head_ := List.set_block_ids v' (List.head_ l);
                          List.block_ := Block.init |} = content st ids l).
  { unfold content, committed. cbn [List.block_ Block.entries Block.init].
    rewrite app_nil_r, map_app, flat_map_app. cbn [map flat_map].
    fold (committed st' ids). subst st'. rewrite committed_append by exact Hrange.
    rewrite read_append_new. now rewrite app_nil_r. }
  split; [| split; [reflexivity | exact Hcontent]].
  unfold well_formed. rewrite Hcontent.
  cbn [List.head_ List.block_ List.set_block_ids List.block_ids
       List.num_values_total List.num_values_deleted Block.has_data Block.init
       Block.entries].
  split; [exact Hrep' |].
  split.
  { apply Forall_app. split.
    - eapply Forall_impl; [| exact Hlt]. cbn. intros id Hid.
      subst st'. rewrite num_blocks_append. lia.
    - constructor; [| constructor]. subst st'. rewrite num_blocks_append. lia. }
  split.
  { apply Forall_app. split.
    - rewrite Forall_forall in *. intros id Hin. subst st'.
      rewrite read_append_old by now apply Hrange. now apply Hne.
    - constructor; [| constructor]. subst st'. now rewrite read_append_new. }
  split; [reflexivity |]. split; [exact Htotal | exact Hdel].
Qed.

Lemma well_formed_tail_add (st : Store.t) (l : List.t) (ids : list Z)
    (b : Block.t) (e : Block.Entry) :
  well_formed st l ids ->
  Block.deleted e = false ->
  Block.has_data b = true ->
  Block.size b = Store.block_size st ->
  Block.entries b = Block.entries (List.block_ l) ++ [e] ->
  let l' := {| List.head_ := List.incr_num_values_total (List.head_ l);
               List.block_ := b |} in
  well_formed st l' ids /\ content st ids l' = content st ids l ++ [e].
Proof.
  intros (Hrep & Hlt & Hne & Htail & Htotal & Hdel) He Hdata Hsize Hentries l'.
  assert (Hc : content st ids l' = content st ids l ++ [e]).
  { unfold content, l'. cbn [List.block_]. rewrite Hentries.
    now rewrite app_assoc. }
  split; [| exact Hc].
  unfold well_formed. rewrite Hc. unfold l'.
  cbn [List.head_ List.block_ List.incr_num_values_total List.block_ids
       List.num_values_total List.num_values_deleted].
  rewrite Hdata, Hentries, Htotal, Hdel, u32_succ, count_deleted_app, length_app.
  cbn [length count_deleted]. unfold count_deleted. cbn [filter length]. rewrite He.
  cbn [length].
  split; [exact Hrep |]. split; [exact Hlt |]. split; [exact Hne |].
  split; [split; [| exact Hsize] |].
  - destruct (Block.entries (List.block_ l)); discriminate.
  - split; f_equal; f_equal; lia.
Qed.

(** [List::Add] of a value that fits into an empty block, on a well-formed
    list, while the next block id is at most [N4_MAX_UINT]: the call
    returns, the list stays well-formed, and its content is the old
    content followed by the value. *)
Lemma Add_well_formed (value : Bytes) (st : Store.t) (l : List.t) (ids : list Z) :
  well_formed st l ids ->
  Block.fits_empty (Bytes_size value) (Store.block_size st) = true ->
  Store.num_blocks st <= Varint.N4_MAX_UINT ->
  exists st' l' ids',
    List.Add value (st, l) = Ok (st', l')
    /\ well_formed st' l' ids'
    /\ content st' ids' l'
       = content st ids l ++ [ {| Block.value := value; Block.deleted := false |} ]
    /\ Store.block_size st' = Store.block_size st
    /\ Store.num_blocks st <= Store.num_blocks st' <= Store.num_blocks st + 1
    /\ (forall id, 0 <= id < Store.num_blocks st ->
          Store.read id st' = Store.read id st)
    /\ (forall id, In id ids' -> In id ids \/ id = Store.num_blocks st).
Proof.
  intros Hwf Hfit Hcap.
  unfold List.Add.
  destruct (Block.has_data (List.block_ l)) eqn:Hdata; cbn [negb].
  - (* the list has an in-memory block *)
    destruct (Block.fits value (List.block_ l)) eqn:Hfits.
    + rewrite (TryAdd_fits _ _ Hfits).
      exists st; eexists; exists ids. split; [reflexivity |].
      assert (Hsz : Block.size (List.block_ l) = Store.block_size st).
      { destruct Hwf as (_ & _ & _ & Htail & _). rewrite Hdata in Htail. apply Htail. }
      destruct (well_formed_tail_add st l ids
                  {| Block.has_data := Block.has_data (List.block_ l);
                     Block.size := Block.size (List.block_ l);
                     Block.entries := Block.entries (List.block_ l)
                       ++ [ {| Block.value := value; Block.deleted := false |} ] |}
                  {| Block.value := value; Block.deleted := false |}
                  Hwf eq_refl Hdata Hsz eq_refl) as [Hwf' Hc].
      split; [exact Hwf' |]. split; [exact Hc |]. split; [reflexivity |].
      split; [lia |]. split; [reflexivity | now left].
    + unfold Block.TryAdd at 1. rewrite Hfits.
      destruct (commit_well_formed st l ids Hwf Hdata Hcap)
        as (l1 & Hcommit & Hwf1 & Hb1 & Hc1).
      cbv zeta in *. rewrite Hcommit. cbn [bind].
      set (st' := {| Store.block_size := Store.block_size st;
                     Store.blocks := Store.blocks st ++ [List.block_ l] |}) in *.
      change (List.memset_zero (List.allocate_block st'))
        with (Block.zeroed (Store.block_size st)).
      cbn [List.head_ List.block_].
      rewrite (TryAdd_fits _ _ (fits_zeroed _ _ Hfit)).
      exists st'; eexists; exists (ids ++ [Store.num_blocks st]).
      split; [reflexivity |].
      destruct (well_formed_tail_add st' l1 (ids ++ [Store.num_blocks st])
                  {| Block.has_data := true; Block.size := Store.block_size st;
                     Block.entries := [ {| Block.value := value;
                                           Block.deleted := false |} ] |}
                  {| Block.value := value; Block.deleted := false |}
                  Hwf1 eq_refl eq_refl eq_refl) as [Hwf' Hc].
      { rewrite Hb1. reflexivity. }
      split; [exact Hwf' |]. split; [now rewrite <- Hc1 |].
      split; [reflexivity |].
      split; [subst st'; rewrite num_blocks_append; lia |].
      split; [intros id Hid; now apply read_append_old |].
      intros id Hid. apply in_app_or in Hid.
      destruct Hid as [Hid | [<- | []]]; [now left | now right].
  - (* no in-memory block: a fresh one is allocated *)
    cbn [List.head_ List.block_].
    change (List.memset_zero (List.allocate_block st))
      with (Block.zeroed (Store.block_size st)).
    rewrite (TryAdd_fits _ _ (fits_zeroed _ _ Hfit)).
    exists st; eexists; exists ids. split; [reflexivity |].
    destruct (well_formed_tail_add st l ids
                {| Block.has_data := true; Block.size := Store.block_size st;
                   Block.entries := [ {| Block.value := value;
                                         Block.deleted := false |} ] |}
                {| Block.value := value; Block.deleted := false |}
                Hwf eq_refl eq_refl eq_refl) as [Hwf' Hc].
    { destruct Hwf as (_ & _ & _ & Htail & _). rewrite Hdata in Htail.
      rewrite Htail. reflexivity. }
    split; [exact Hwf' |]. split; [exact Hc |]. split; [reflexivity |].
    split; [lia |]. split; [reflexivity | now left].
Qed.

(** [List::Flush] on a well-formed list. *)
Lemma Flush_well_formed (st : Store.t) (l : List.t) (ids : list Z) :
  well_formed st l ids ->
  Store.num_blocks st <= Varint.N4_MAX_UINT ->
  exists st' l' ids',
    List.Flush (st, l) = Ok (st', l')
    /\ well_formed st' l' ids'
    /\ content st' ids' l' = content st ids l
    /\ Store.block_size st' = Store.block_size st
    /\ Store.num_blocks st <= Store.num_blocks st' <= Store.num_blocks st + 1
    /\ (forall id, 0 <= id < Store.num_blocks st ->
          Store.read id st' = Store.read id st)
    /\ (forall id, In id ids' -> In id ids \/ id = Store.num_blocks st).
Proof.
  intros Hwf Hcap. unfold List.Flush.
  destruct (Block.has_data (List.block_ l)) eqn:Hdata.
  - destruct (commit_well_formed st l ids Hwf Hdata Hcap)
      as (l1 & Hcommit & Hwf1 & Hb1 & Hc1).
    cbv zeta in *. rewrite Hcommit.
    eexists _, _, _. split; [reflexivity |]. split; [exact Hwf1 |].
    split; [exact Hc1 |]. split; [reflexivity |].
    split; [rewrite num_blocks_append; lia |].
    split; [intros id Hid; now apply read_append_old |].
    intros id Hid. apply in_app_or in Hid.
    destruct Hid as [Hid | [<- | []]]; [now left | now right].
  - exists st, l, ids. split; [reflexivity |]. split; [exact Hwf |].
    split; [reflexivity |]. split; [reflexivity |]. split; [lia |].
    split; [reflexivity | now left].
Qed.

Lemma init_well_formed (st : Store.t) : well_formed st List.init [].
Proof.
  unfold well_formed, List.init, represents, content, committed, count_deleted.
  cbn. unfold Varint.N4_MAX_UINT.
  repeat split; try constructor; try lia; reflexivity.
Qed.

(** ** A store beyond the range of the block-id deltas *)

(** With no id recorded yet, [UintVector::add] refuses an id above
    [N4_MAX_UINT]. *)
Lemma add_out_of_range (id : Z) (v : UintVector.t) :
  UintVector.offset_ v = 0 -> Varint.N4_MAX_UINT < id ->
  UintVector.add id v = Ok (false, UintVector.allocateMoreIfFull v).
Proof.
  intros Hoff Hid. unfold UintVector.add.
  rewrite allocateMoreIfFull_empty. unfold UintVector.empty. rewrite Hoff.
  cbn [Z.eqb]. apply Z.leb_gt in Hid. now rewrite Hid.
Qed.

(** [List::commit] in such a store: the block is appended to the store and
    its id is not recorded. *)
Lemma commit_out_of_range (st : Store.t) (l : List.t) :
  Varint.N4_MAX_UINT < Store.num_blocks st < 2 ^ 32 ->
  UintVector.offset_ (List.block_ids (List.head_ l)) = 0 ->
  List.commit st l
  = Ok ({| Store.block_size := Store.block_size st;
           Store.blocks := Store.blocks st ++ [List.block_ l] |},
        {| List.head_ :=
             List.set_block_ids
               (UintVector.allocateMoreIfFull (List.block_ids (List.head_ l)))
               (List.head_ l);
           List.block_ := Block.init |}).
Proof.
  intros Hbig Hoff. unfold List.commit, List.commit_block, Store.append.
  assert (Hmax : Varint.N4_MAX_UINT = 2 ^ 28 - 1) by reflexivity.
  rewrite u32_small by lia.
  rewrite add_out_of_range by (assumption || lia). reflexivity.
Qed.

Lemma Add_out_of_range (value : Bytes) (st : Store.t) (l : List.t) :
  Varint.N4_MAX_UINT < Store.num_blocks st < 2 ^ 32 ->
  UintVector.offset_ (List.block_ids (List.head_ l)) = 0 ->
  Block.has_data (List.block_ l) = true ->
  Block.fits value (List.block_ l) = false ->
  Block.fits_empty (Bytes_size value) (Store.block_size st) = true ->
  List.Add value (st, l)
  = Ok ({| Store.block_size := Store.block_size st;
           Store.blocks := Store.blocks st ++ [List.block_ l] |},
        {| List.head_ :=
             List.incr_num_values_total
               (List.set_block_ids
                  (UintVector.allocateMoreIfFull (List.block_ids (List.head_ l)))
                  (List.head_ l));
           List.block_ :=
             {| Block.has_data := true; Block.size := Store.block_size st;
                Block.entries := [ {| Block.value := value;
                                      Block.deleted := false |} ] |} |}).
Proof.
  intros Hbig Hoff Hdata Hfits Hfit. unfold List.Add.
  rewrite Hdata. cbn [negb]. unfold Block.TryAdd at 1. rewrite Hfits.
  rewrite (commit_out_of_range _ _ Hbig Hoff). cbn [bind].
  cbn [List.head_ List.block_].
  change (List.memset_zero (List.allocate_block _))
    with (Block.zeroed (Store.block_size st)).
  rewrite (TryAdd_fits _ _ (fits_zeroed _ _ Hfit)). reflexivity.
Qed.

(** [Shard::replace] with [apply_to_all], once the results of its loops
    are known: the collected values are added to the list the iterator
    released. *)
Lemma replace_all_unfold (key : Bytes) (function : Bytes -> Bytes) (sh : Shard.t)
    (l : List.t) (w w1 w2 : List.Iter.world) (uv1 uv2 : list Bytes) :
  Table.getUnique key (Shard.table_ sh) = Some l ->
  List.Iter.NewIterator (Shard.store_ sh) l = Some w ->
  Shard.replace_first (List.Iter.steps_bound (List.Iter.SeekToFirst w)) function
    (List.Iter.SeekToFirst w) = Ok (w1, uv1) ->
  Shard.replace_rest (List.Iter.steps_bound (List.Iter.SeekToFirst w)) function
    w1 uv1 = Ok (w2, uv2) ->
  Shard.replace key function true sh
  = map_result
      (fun w' => (Shard.with_list key (Shard.table_ sh) w', Z.of_nat (length uv2)))
      (Shard.add_all uv2 (List.Iter.release w2)).
Proof.
  intros Hl Hw H1 H2. unfold Shard.replace. rewrite Hl, Hw. cbv zeta.
  rewrite H1. cbn [bind]. rewrite H2. reflexivity.
Qed.

Section BigStore.

Import Examples.

Variable bs : list Block.t.
Hypothesis Hbig : Varint.N4_MAX_UINT < Z.of_nat (length bs) < 2 ^ 32 - 2.

Let sh : Shard.t :=
  {| Shard.store_ := {| Store.block_size := 64; Store.blocks := bs |};
     Shard.table_ := {| Table.map_ := []; Table.path_ := "multimap.0.keys" |} |}.

(** Two values of forty bytes do not share a block of 64 bytes: the second
    [put] commits the block of the first under an id that is not recorded,
    and the first value is out of the iterator's reach. *)
Lemma put_twice_out_of_range :
  exists sh1 sh2 l,
    Shard.put key_a (raw 40 1) sh = Ok sh1
    /\ Shard.put key_a (raw 40 2) sh1 = Ok sh2
    /\ Table.getUnique key_a (Shard.table_ sh2) = Some l
    /\ List.num_values_total (List.head_ l) = 2
    /\ List.num_values_deleted (List.head_ l) = 0
    /\ List.size l = 2
    /\ Shard.get key_a sh2 = Some [raw 40 2].
Proof.
  exists (state_of (Shard.put key_a (raw 40 1) sh)).
  set (sh1 := state_of (Shard.put key_a (raw 40 1) sh)).
  assert (H1 : Shard.put key_a (raw 40 1) sh = Ok sh1) by (vm_compute; reflexivity).
  set (tl := state_of (Table.getUniqueOrCreate key_a (Shard.table_ sh1))).
  assert (Htl : Table.getUniqueOrCreate key_a (Shard.table_ sh1)
                = Ok (fst tl, snd tl)) by (vm_compute; reflexivity).
  assert (H2 : Shard.put key_a (raw 40 2) sh1
               = map_result (Shard.with_list key_a (fst tl))
                   (List.Add (raw 40 2) (Shard.store_ sh1, snd tl))).
  { unfold Shard.put. rewrite Htl. reflexivity. }
  assert (Hb : Varint.N4_MAX_UINT < Store.num_blocks (Shard.store_ sh1) < 2 ^ 32).
  { change (Varint.N4_MAX_UINT < Z.of_nat (length bs) < 2 ^ 32). lia. }
  rewrite (Add_out_of_range _ _ _ Hb) in H2 by (vm_compute; reflexivity).
  cbn [map_result bind] in H2.
  eexists. eexists. split; [exact H1 |]. split; [exact H2 |].
  split; [vm_compute; reflexivity |].
  split; [reflexivity |]. split; [reflexivity |]. split; [reflexivity |].
  vm_compute. reflexivity.
Qed.

(** Two values of six bytes share a block; both are replaced by values of
    56 bytes, each of which needs a block of its own.  The block of
    the first new value is committed under an id that is not recorded. *)
Lemma replace_out_of_range :
  exists sh1 sh2 sh3,
    Shard.put key_a (raw 6 1) sh = Ok sh1
    /\ Shard.put key_a (raw 6 1) sh1 = Ok sh2
    /\ Shard.get key_a sh2 = Some [raw 6 1; raw 6 1]
    /\ Shard.replaceAllEqual key_a (raw 6 1) (raw 56 2) sh2 = Ok (sh3, 2)
    /\ Shard.get key_a sh3 = Some [raw 56 2].
Proof.
  set (sh1 := state_of (Shard.put key_a (raw 6 1) sh)).
  set (sh2 := state_of (Shard.put key_a (raw 6 1) sh1)).
  exists sh1, sh2.
  assert (H1 : Shard.put key_a (raw 6 1) sh = Ok sh1) by (vm_compute; reflexivity).
  assert (H2 : Shard.put key_a (raw 6 1) sh1 = Ok sh2) by (vm_compute; reflexivity).
  assert (Hget : Shard.get key_a sh2 = Some [raw 6 1; raw 6 1])
    by (vm_compute; reflexivity).
  eassert (H3 : Shard.replaceAllEqual key_a (raw 6 1) (raw 56 2) sh2 = _).
  { unfold Shard.replaceAllEqual, Shard.replaceAll.
    eapply replace_all_unfold; [vm_compute; reflexivity ..]. }
  unfold List.Iter.release in H3.
  cbn [List.Iter.block_has_changed List.Iter.w_iter List.Iter.w_store
       List.Iter.w_list Shard.add_all] in H3.
  assert (Hmax : Varint.N4_MAX_UINT = 2 ^ 28 - 1) by reflexivity.
  rewrite Add_out_of_range in H3;
    [| unfold Store.num_blocks; cbn [Store.blocks]; lia
     | vm_compute; reflexivity ..].
  cbn [bind] in H3.
  rewrite Add_out_of_range in H3;
    [| unfold Store.num_blocks; cbn [Store.blocks]; rewrite length_app;
       cbn [length]; lia
     | vm_compute; reflexivity ..].
  cbn [bind map_result] in H3.
  eexists. split; [exact H1 |]. split; [exact H2 |]. split; [exact Hget |].
  split; [exact H3 |].
  vm_compute. reflexivity.
Qed.

End BigStore.

Lemma many_blocks_length :
  Varint.N4_MAX_UINT < Z.of_nat (length Examples.many_blocks) < 2 ^ 32 - 2.
Proof.
  unfold Examples.many_blocks, Varint.N4_MAX_UINT.
  rewrite repeat_length, Z2Nat.id by lia. lia.
Qed.

(** C1.  In a shard whose store holds 2^28 blocks, after [put("a", V1)] and
    [put("a", V2)] with two values of forty bytes (blocks of 64 bytes), both
    calls having returned, the iterator of "a" yields V2 only: [List::Add]
    committed the block of V1 under the id 2^28, [UintVector::add] refused
    that id and returned [false], and [List::Add] discards what it
    returns. *)
Theorem put_beyond_delta_range_loses_value :
  exists sh1 sh2,
    Shard.put Examples.key_a (Examples.raw 40 1) Examples.shard64_big = Ok sh1
    /\ Shard.put Examples.key_a (Examples.raw 40 2) sh1 = Ok sh2
    /\ Shard.get Examples.key_a sh2 = Some [Examples.raw 40 2]
    /\ Shard.get Examples.key_a sh2
       <> Some [Examples.raw 40 1; Examples.raw 40 2].
Proof.
  destruct (put_twice_out_of_range Examples.many_blocks many_blocks_length)
    as (sh1 & sh2 & l & H1 & H2 & _ & _ & _ & _ & Hget).
  exists sh1, sh2. split; [exact H1 |]. split; [exact H2 |].
  split; [exact Hget |]. rewrite Hget. discriminate.
Qed.

(** The same state seen from the counters: the head of the list of "a"
    counts two values, none of them deleted, and a full iteration yields
    one. *)
Lemma counters_beyond_delta_range_exceed_iteration :
  exists sh1 sh2 l values,
    Shard.put Examples.key_a (Examples.raw 40 1) Examples.shard64_big = Ok sh1
    /\ Shard.put Examples.key_a (Examples.raw 40 2) sh1 = Ok sh2
    /\ Table.getUnique Examples.key_a (Shard.table_ sh2) = Some l
    /\ List.iterate (Shard.store_ sh2) l = Some values
    /\ List.num_values_total (List.head_ l)
       - List.num_values_deleted (List.head_ l) = 2
    /\ Z.of_nat (length values) = 1
    /\ List.num_values_total (List.head_ l)
       - List.num_values_deleted (List.head_ l) <> Z.of_nat (length values).
Proof.
  destruct (put_twice_out_of_range Examples.many_blocks many_blocks_length)
    as (sh1 & sh2 & l & H1 & H2 & Hl & Htotal & Hdeleted & _ & Hget).
  exists sh1, sh2, l, [Examples.raw 40 2].
  split; [exact H1 |]. split; [exact H2 |]. split; [exact Hl |].
  split; [unfold Shard.get in Hget; rewrite Hl in Hget; exact Hget |].
  rewrite Htotal, Hdeleted. cbn [length].
  split; [reflexivity |]. split; [reflexivity | discriminate].
Qed.

(** In a shard whose store holds 2^28 blocks, "a" holds two values of
    six bytes in one block.  [replaceAllEqual] replaces both by a value of
    56 bytes and returns 2; afterwards the iterator of "a" yields
    one value, not two: the block of the first new value was committed
    under an id that is not recorded. *)
Lemma replace_beyond_delta_range_loses_new_value :
  exists sh1 sh2 sh3,
    Shard.put Examples.key_a (Examples.raw 6 1) Examples.shard64_big = Ok sh1
    /\ Shard.put Examples.key_a (Examples.raw 6 1) sh1 = Ok sh2
    /\ Shard.get Examples.key_a sh2 = Some [Examples.raw 6 1; Examples.raw 6 1]
    /\ Shard.replaceAllEqual Examples.key_a (Examples.raw 6 1)
         (Examples.raw 56 2) sh2 = Ok (sh3, 2)
    /\ Shard.get Examples.key_a sh3 = Some [Examples.raw 56 2]
    /\ forall earlier,
         Shard.get Examples.key_a sh3
         <> Some (earlier ++ [Examples.raw 56 2; Examples.raw 56 2]).
Proof.
  destruct (replace_out_of_range Examples.many_blocks many_blocks_length)
    as (sh1 & sh2 & sh3 & H1 & H2 & Hget2 & Hrun & Hget3).
  exists sh1, sh2, sh3. repeat (split; [assumption |]).
  intros earlier H. rewrite Hget3 in H. injection H as H.
  apply (f_equal (@length Bytes)) in H. rewrite length_app in H. cbn [length] in H.
  lia.
Qed.

(** ** The iterator as a cursor *)

Lemma current_block_block_at (w : List.Iter.world) :
  List.Iter.current_block w
  = List.Iter.block_at w (List.Iter.block_id_index (List.Iter.w_iter w)).
Proof.
  unfold List.Iter.current_block, List.Iter.block_at.
  destruct (List.Iter.block_id_index (List.Iter.w_iter w)
            <? length (List.Iter.block_ids_ (List.Iter.w_iter w)))%nat; [| reflexivity].
  now rewrite Nat.eqb_refl.
Qed.

Lemma entries_from_app (w : List.Iter.world) (k a b : nat) :
  entries_from w k (a + b) = entries_from w k a ++ entries_from w (k + a) b.
Proof. unfold entries_from. now rewrite seq_app, flat_map_app. Qed.

Lemma entries_from_one (w : List.Iter.world) (k : nat) :
  entries_from w k 1 = Block.entries (List.Iter.block_at w k).
Proof. unfold entries_from. cbn. apply app_nil_r. Qed.

Lemma entries_from_S (w : List.Iter.world) (k n : nat) :
  entries_from w k (S n)
  = Block.entries (List.Iter.block_at w k) ++ entries_from w (S k) n.
Proof. reflexivity. Qed.

Lemma flat_map_ext_In {A B : Type} (f g : A -> list B) (xs : list A) :
  (forall x, In x xs -> f x = g x) -> flat_map f xs = flat_map g xs.
Proof.
  induction xs as [| x xs IH]; intros H; [reflexivity |]. cbn.
  rewrite (H x) by now left. f_equal. apply IH. intros y Hy. apply H. now right.
Qed.

Lemma skipn_nth_cons {A : Type} (d : A) (xs : list A) (n : nat) :
  (n < length xs)%nat -> skipn n xs = nth n xs d :: skipn (S n) xs.
Proof.
  revert n. induction xs as [| x xs IH]; intros n H; [cbn in H; lia |].
  destruct n; [reflexivity |]. cbn in H. cbn [skipn nth].
  apply IH. lia.
Qed.

Lemma entries_from_ext (w w' : List.Iter.world) (k n : nat) :
  (forall j, (k <= j < k + n)%nat ->
     List.Iter.block_at w' j = List.Iter.block_at w j) ->
  entries_from w' k n = entries_from w k n.
Proof.
  intros H. unfold entries_from. apply flat_map_ext_In.
  intros j Hj. apply in_seq in Hj. now rewrite H.
Qed.

(** The view is the sequence of the blocks, whatever the position. *)
Lemma view_blocks (w : List.Iter.world) :
  (List.Iter.block_id_index (List.Iter.w_iter w)
   <= S (length (List.Iter.block_ids_ (List.Iter.w_iter w))))%nat ->
  view w = entries_from w 0 (S (length (List.Iter.block_ids_ (List.Iter.w_iter w)))).
Proof.
  intros Hi. unfold view, before, ahead.
  set (i := List.Iter.block_id_index (List.Iter.w_iter w)) in *.
  set (m := length (List.Iter.block_ids_ (List.Iter.w_iter w))) in *.
  rewrite current_block_block_at. fold i.
  rewrite <- app_assoc, (app_assoc (firstn _ _)), firstn_skipn.
  destruct (Nat.eq_dec i (S m)) as [-> | Hne].
  - replace (m - S m)%nat with 0%nat by lia.
    assert (Hinit : Block.entries (List.Iter.block_at w (S m)) = []).
    { unfold List.Iter.block_at. fold m.
      destruct (Nat.ltb_spec (S m) m); [lia |].
      destruct (Nat.eqb_spec (S m) m); [lia | reflexivity]. }
    rewrite Hinit. cbn. now rewrite !app_nil_r.
  - replace (S m) with (i + S (m - i))%nat by lia.
    rewrite entries_from_app, entries_from_S. reflexivity.
Qed.

Lemma has_value_ahead (w : List.Iter.world) :
  List.Iter.has_value w = true ->
  ahead w
  = List.Iter.current_entry w
    :: skipn (S (List.Iter.block_iter_ (List.Iter.w_iter w)))
         (Block.entries (List.Iter.current_block w))
    ++ entries_from w (S (List.Iter.block_id_index (List.Iter.w_iter w)))
         (length (List.Iter.block_ids_ (List.Iter.w_iter w))
          - List.Iter.block_id_index (List.Iter.w_iter w)).
Proof.
  unfold List.Iter.has_value, ahead, List.Iter.current_entry. intros H.
  apply Nat.ltb_lt in H.
  now rewrite (skipn_nth_cons {| Block.value := []; Block.deleted := false |} _ _ H).
Qed.

Lemma no_value_ahead (w : List.Iter.world) :
  iter_ok w -> List.Iter.has_value w = false -> ahead w = [].
Proof.
  intros (_ & _ & _ & _ & _ & _ & Hi & Hpos & Hin & _) H.
  unfold List.Iter.has_value in H. apply Nat.ltb_ge in H.
  unfold ahead.
  replace (length (List.Iter.block_ids_ (List.Iter.w_iter w))
           - List.Iter.block_id_index (List.Iter.w_iter w))%nat with 0%nat by lia.
  rewrite skipn_all2 by exact H. reflexivity.
Qed.

Lemma nth_update_nth_same {A} (n : nat) (f : A -> A) (l : list A) (d : A) :
  (n < length l)%nat -> nth n (update_nth n f l) d = f (nth n l d).
Proof.
  revert n. induction l as [| x l IH]; intros n H; [cbn in H; lia |].
  destruct n; [reflexivity |]. cbn in H. cbn. apply IH. lia.
Qed.

Lemma nth_update_nth_other {A} (n m : nat) (f : A -> A) (l : list A) (d : A) :
  n <> m -> nth m (update_nth n f l) d = nth m l d.
Proof.
  revert n m. induction l as [| x l IH]; intros n m H; [now destruct n |].
  destruct n, m; try reflexivity; [congruence |]. cbn. apply IH. congruence.
Qed.

Lemma firstn_update_nth {A} (n : nat) (f : A -> A) (l : list A) :
  firstn n (update_nth n f l) = firstn n l.
Proof.
  revert n. induction l as [| x l IH]; intros n; [now destruct n |].
  destruct n; [reflexivity |]. cbn. now rewrite IH.
Qed.

Lemma skipn_update_nth {A} (n : nat) (f : A -> A) (l : list A) :
  skipn (S n) (update_nth n f l) = skipn (S n) l.
Proof.
  revert n. induction l as [| x l IH]; intros n; [now destruct n |].
  destruct n; [reflexivity |]. cbn [update_nth]. apply IH.
Qed.

Lemma firstn_S_nth {A} (d : A) (n : nat) (l : list A) :
  (n < length l)%nat -> firstn (S n) l = firstn n l ++ [nth n l d].
Proof.
  revert n. induction l as [| x l IH]; intros n H; [cbn in H; lia |].
  destruct n; [reflexivity |]. cbn in H.
  change (x :: firstn (S n) l = x :: (firstn n l ++ [nth n l d])).
  f_equal. apply IH. lia.
Qed.

Lemma read_write_same (id : Z) (b : Block.t) (st : Store.t) :
  0 <= id < Store.num_blocks st -> Store.read id (Store.write id b st) = b.
Proof.
  intros H. unfold Store.read, Store.write, Store.num_blocks in *. cbn [Store.blocks].
  rewrite nth_update_nth_same by lia. reflexivity.
Qed.

Lemma read_write_other (id id' : Z) (b : Block.t) (st : Store.t) :
  0 <= id -> 0 <= id' -> id <> id' ->
  Store.read id' (Store.write id b st) = Store.read id' st.
Proof.
  intros H H' Hne. unfold Store.read, Store.write. cbn [Store.blocks].
  apply nth_update_nth_other. lia.
Qed.

Lemma num_blocks_write (id : Z) (b : Block.t) (st : Store.t) :
  Store.num_blocks (Store.write id b st) = Store.num_blocks st.
Proof.
  unfold Store.num_blocks, Store.write. cbn [Store.blocks].
  now rewrite update_nth_length.
Qed.

(** The ids of a vector are distinct, not negative, and [nth] finds them. *)
Lemma represents_NoDup (v : UintVector.t) (ids : list Z) :
  represents v ids -> NoDup ids /\ Forall (fun id => 0 <= id) ids.
Proof.
  intros (_ & _ & _ & Hinc & _). split; [exact (increasing_NoDup _ _ Hinc) |].
  apply increasing_Forall in Hinc. eapply Forall_impl; [| exact Hinc].
  cbn. intros. lia.
Qed.

Lemma set_deleted_length (pos : nat) (b : Block.t) :
  length (Block.entries (Block.set_deleted pos b)) = length (Block.entries b).
Proof. unfold Block.set_deleted. cbn. apply update_nth_length. Qed.

(** [Advance] inside a block. *)
Lemma Advance_inside (st : Store.t) (l : List.t) (ids : list Z) (i : nat)
    (ch : bool) (req : Block.t) (pos : nat) :
  let w := List.Iter.mkWorld st l (List.Iter.mk ids i ch req pos) in
  (S pos < length (Block.entries (List.Iter.current_block w)))%nat ->
  List.Iter.Advance w = List.Iter.mkWorld st l (List.Iter.mk ids i ch req (S pos)).
Proof.
  intros w H. subst w. apply Nat.ltb_lt in H.
  unfold List.Iter.Advance, List.Iter.set_iter, List.Iter.has_value,
    List.Iter.current_block in *.
  cbn [List.Iter.w_iter List.Iter.w_store List.Iter.w_list List.Iter.block_ids_
       List.Iter.block_id_index List.Iter.block_has_changed
       List.Iter.requested_block_ List.Iter.block_iter_] in *.
  rewrite H. reflexivity.
Qed.

(** [Advance] from the last value of a block. *)
Lemma Advance_next_block (st : Store.t) (l : List.t) (ids : list Z) (i : nat)
    (ch : bool) (req : Block.t) (pos : nat) :
  let w := List.Iter.mkWorld st l (List.Iter.mk ids i ch req pos) in
  (length (Block.entries (List.Iter.current_block w)) <= S pos)%nat ->
  let st' := match nth_error ids i with
             | Some id => if ch then Store.write id req st else st
             | None => st
             end in
  List.Iter.Advance w
  = List.Iter.mkWorld st' l
      (List.Iter.mk ids (S i) false
         match nth_error ids (S i) with
         | Some id => Store.read id st'
         | None => req
         end 0).
Proof.
  intros w H st'. subst w. apply Nat.ltb_ge in H.
  unfold List.Iter.Advance, List.Iter.set_iter, List.Iter.has_value,
    List.Iter.current_block in *.
  cbn [List.Iter.w_iter List.Iter.w_store List.Iter.w_list List.Iter.block_ids_
       List.Iter.block_id_index List.Iter.block_has_changed
       List.Iter.requested_block_ List.Iter.block_iter_] in *.
  rewrite H. cbn [negb].
  unfold List.Iter.RequestNextBlockAndInitIter, List.Iter.load,
    List.Iter.UpdateCurrentBlock, List.Iter.set_iter, st'.
  destruct ch; cbn [List.Iter.w_iter List.Iter.w_store List.Iter.w_list
       List.Iter.block_ids_ List.Iter.block_id_index
       List.Iter.block_has_changed List.Iter.requested_block_
       List.Iter.block_iter_];
    destruct (nth_error ids i); reflexivity.
Qed.

Lemma iter_ok_transfer (w w' : List.Iter.world) :
  iter_ok w ->
  List.Iter.w_list w' = List.Iter.w_list w ->
  List.Iter.block_ids_ (List.Iter.w_iter w')
  = List.Iter.block_ids_ (List.Iter.w_iter w) ->
  Store.num_blocks (List.Iter.w_store w') = Store.num_blocks (List.Iter.w_store w) ->
  Store.block_size (List.Iter.w_store w') = Store.block_size (List.Iter.w_store w) ->
  (forall k, List.Iter.block_at w' k = List.Iter.block_at w k) ->
  view w' = view w ->
  (List.Iter.block_id_index (List.Iter.w_iter w')
   <= S (length (List.Iter.block_ids_ (List.Iter.w_iter w))))%nat ->
  (List.Iter.block_iter_ (List.Iter.w_iter w')
   <= length (Block.entries (List.Iter.current_block w')))%nat ->
  ((List.Iter.block_id_index (List.Iter.w_iter w')
    < length (List.Iter.block_ids_ (List.Iter.w_iter w)))%nat ->
   (List.Iter.block_iter_ (List.Iter.w_iter w')
    < length (Block.entries (List.Iter.current_block w')))%nat) ->
  ((List.Iter.block_id_index (List.Iter.w_iter w')
    < length (List.Iter.block_ids_ (List.Iter.w_iter w)))%nat ->
   List.Iter.block_has_changed (List.Iter.w_iter w') = false ->
   List.Iter.requested_block_ (List.Iter.w_iter w')
   = Store.read (nth (List.Iter.block_id_index (List.Iter.w_iter w'))
                     (List.Iter.block_ids_ (List.Iter.w_iter w)) 0)
                (List.Iter.w_store w')) ->
  iter_ok w'.
Proof.
  intros (Hrep & Hlt & Hne & Htail & Htotal & Hdel & _) Hl Hids Hnum Hsize
    Hat Hview Hi Hpos Hin Hreq.
  unfold iter_ok. rewrite Hl, Hids, Hnum, Hsize, Hview.
  split; [exact Hrep |]. split; [exact Hlt |].
  split; [intros k Hk; rewrite Hat; now apply Hne |].
  repeat (split; [assumption |]). assumption.
Qed.

Lemma nth_error_nth_Z (ids : list Z) (k : nat) :
  (k < length ids)%nat -> nth_error ids k = Some (nth k ids 0).
Proof. intros H. now apply nth_error_nth'. Qed.

Lemma nth_error_beyond (ids : list Z) (k : nat) :
  (length ids <= k)%nat -> nth_error ids k = None.
Proof. intros H. now apply nth_error_None. Qed.

(** The blocks of the view are the same after [Advance] has moved on to
    the next block: a changed block is found in the store instead. *)
Lemma Advance_next_block_at (st : Store.t) (l : List.t) (ids : list Z) (i : nat)
    (ch : bool) (req : Block.t) (pos k : nat) :
  let w := List.Iter.mkWorld st l (List.Iter.mk ids i ch req pos) in
  iter_ok w ->
  let st' := match nth_error ids i with
             | Some id => if ch then Store.write id req st else st
             | None => st
             end in
  let w' := List.Iter.mkWorld st' l
              (List.Iter.mk ids (S i) false
                 match nth_error ids (S i) with
                 | Some id => Store.read id st'
                 | None => req
                 end 0) in
  List.Iter.block_at w' k = List.Iter.block_at w k.
Proof.
  intros w Hok st' w'.
  destruct Hok as (Hrep & Hlt & _ & _ & _ & _ & _ & _ & _ & Hreq).
  cbn [List.Iter.w_iter List.Iter.w_store List.Iter.w_list List.Iter.block_ids_
       List.Iter.block_id_index List.Iter.block_has_changed
       List.Iter.requested_block_ List.Iter.block_iter_ w] in Hrep, Hlt, Hreq.
  destruct (represents_NoDup _ _ Hrep) as [Hnodup Hnonneg].
  rewrite Forall_forall in Hlt, Hnonneg.
  assert (Hread : forall j, (j < length ids)%nat -> j <> i ->
            Store.read (nth j ids 0) st' = Store.read (nth j ids 0) st).
  { intros j Hj Hji. unfold st'.
    destruct (nth_error ids i) as [id |] eqn:Hid; [| reflexivity].
    destruct ch; [| reflexivity].
    assert (Hi : (i < length ids)%nat) by (apply nth_error_Some; congruence).
    rewrite (nth_error_nth_Z _ _ Hi) in Hid. injection Hid as <-.
    apply read_write_other.
    - apply Hnonneg, nth_In, Hi.
    - apply Hnonneg, nth_In, Hj.
    - intros Heq. apply Hji. symmetry.
      exact (proj1 (NoDup_nth ids 0) Hnodup i j Hi Hj Heq). }
  unfold List.Iter.block_at, w', w.
  cbn [List.Iter.w_iter List.Iter.w_store List.Iter.w_list List.Iter.block_ids_
       List.Iter.block_id_index List.Iter.block_has_changed
       List.Iter.requested_block_ List.Iter.block_iter_].
  destruct (Nat.ltb_spec k (length ids)) as [Hk | Hk]; [| reflexivity].
  destruct (Nat.eqb_spec k (S i)) as [-> | Hks].
  - rewrite (nth_error_nth_Z _ _ Hk).
    destruct (Nat.eqb_spec (S i) i); [lia |]. apply Hread; lia.
  - destruct (Nat.eqb_spec k i) as [-> | Hki]; [| now apply Hread].
    unfold st'. rewrite (nth_error_nth_Z _ _ Hk).
    destruct ch.
    + apply read_write_same. split; [apply Hnonneg | apply Hlt]; apply nth_In, Hk.
    + symmetry. now apply Hreq.
Qed.

Lemma has_value_index (w : List.Iter.world) :
  List.Iter.has_value w = true ->
  (List.Iter.block_id_index (List.Iter.w_iter w)
   <= length (List.Iter.block_ids_ (List.Iter.w_iter w)))%nat.
Proof.
  unfold List.Iter.has_value, List.Iter.current_block.
  destruct (Nat.ltb_spec (List.Iter.block_id_index (List.Iter.w_iter w))
              (length (List.Iter.block_ids_ (List.Iter.w_iter w)))); [lia |].
  destruct (Nat.eqb_spec (List.Iter.block_id_index (List.Iter.w_iter w))
              (length (List.Iter.block_ids_ (List.Iter.w_iter w)))); [lia |].
  cbn [Block.init Block.entries length]. intros Hv. apply Nat.ltb_lt in Hv. lia.
Qed.

(** [Advance] on a value moves the cursor over it; the view, the list and
    the size of the store stay. *)
Lemma Advance_spec (w : List.Iter.world) :
  iter_ok w -> List.Iter.has_value w = true ->
  iter_ok (List.Iter.Advance w)
  /\ before (List.Iter.Advance w) = before w ++ [List.Iter.current_entry w]
  /\ ahead (List.Iter.Advance w) = tl (ahead w)
  /\ List.Iter.w_list (List.Iter.Advance w) = List.Iter.w_list w
  /\ List.Iter.block_ids_ (List.Iter.w_iter (List.Iter.Advance w))
     = List.Iter.block_ids_ (List.Iter.w_iter w)
  /\ Store.block_size (List.Iter.w_store (List.Iter.Advance w))
     = Store.block_size (List.Iter.w_store w)
  /\ Store.num_blocks (List.Iter.w_store (List.Iter.Advance w))
     = Store.num_blocks (List.Iter.w_store w).
Proof.
  intros Hok Hv. pose proof (has_value_ahead w Hv) as Hahead.
  assert (Hgoal : forall w',
    List.Iter.w_list w' = List.Iter.w_list w ->
    List.Iter.block_ids_ (List.Iter.w_iter w')
    = List.Iter.block_ids_ (List.Iter.w_iter w) ->
    Store.num_blocks (List.Iter.w_store w') = Store.num_blocks (List.Iter.w_store w) ->
    Store.block_size (List.Iter.w_store w') = Store.block_size (List.Iter.w_store w) ->
    (forall k, List.Iter.block_at w' k = List.Iter.block_at w k) ->
    before w' = before w ++ [List.Iter.current_entry w] ->
    ahead w' = tl (ahead w) ->
    (List.Iter.block_id_index (List.Iter.w_iter w')
     <= S (length (List.Iter.block_ids_ (List.Iter.w_iter w))))%nat ->
    (List.Iter.block_iter_ (List.Iter.w_iter w')
     <= length (Block.entries (List.Iter.current_block w')))%nat ->
    ((List.Iter.block_id_index (List.Iter.w_iter w')
      < length (List.Iter.block_ids_ (List.Iter.w_iter w)))%nat ->
     (List.Iter.block_iter_ (List.Iter.w_iter w')
      < length (Block.entries (List.Iter.current_block w')))%nat) ->
    ((List.Iter.block_id_index (List.Iter.w_iter w')
      < length (List.Iter.block_ids_ (List.Iter.w_iter w)))%nat ->
     List.Iter.block_has_changed (List.Iter.w_iter w') = false ->
     List.Iter.requested_block_ (List.Iter.w_iter w')
     = Store.read (nth (List.Iter.block_id_index (List.Iter.w_iter w'))
                       (List.Iter.block_ids_ (List.Iter.w_iter w)) 0)
                  (List.Iter.w_store w')) ->
    iter_ok w'
    /\ before w' = before w ++ [List.Iter.current_entry w]
    /\ ahead w' = tl (ahead w)
    /\ List.Iter.w_list w' = List.Iter.w_list w
    /\ List.Iter.block_ids_ (List.Iter.w_iter w')
       = List.Iter.block_ids_ (List.Iter.w_iter w)
    /\ Store.block_size (List.Iter.w_store w')
       = Store.block_size (List.Iter.w_store w)
    /\ Store.num_blocks (List.Iter.w_store w')
       = Store.num_blocks (List.Iter.w_store w)).
  { intros w' Hl Hids Hnum Hsize Hat Hb Ha Hi Hpos Hin Hreq.
    split; [| repeat (split; [assumption |]); assumption].
    apply (iter_ok_transfer w w'); try assumption.
    unfold view. rewrite Hb, Ha, Hahead, <- app_assoc. reflexivity. }
  destruct w as [st l [ids i ch req pos]].
  set (w := List.Iter.mkWorld st l (List.Iter.mk ids i ch req pos)) in *.
  assert (Hpos : (pos < length (Block.entries (List.Iter.current_block w)))%nat)
    by (apply Nat.ltb_lt; exact Hv).
  destruct (Nat.lt_ge_cases (S pos)
              (length (Block.entries (List.Iter.current_block w)))) as [Hin | Hout].
  - pose proof (Advance_inside st l ids i ch req pos Hin) as Hadv.
    set (w1 := List.Iter.mkWorld st l (List.Iter.mk ids i ch req (S pos))) in *.
    change (List.Iter.Advance w = w1) in Hadv.
    rewrite Hadv. apply Hgoal; clear Hgoal; try reflexivity.
    + unfold before, List.Iter.current_entry.
      change (entries_from w 0 i
              ++ firstn (S pos) (Block.entries (List.Iter.current_block w))
              = (entries_from w 0 i
                 ++ firstn pos (Block.entries (List.Iter.current_block w)))
                ++ [nth pos (Block.entries (List.Iter.current_block w))
                      {| Block.value := []; Block.deleted := false |}]).
      rewrite (firstn_S_nth {| Block.value := []; Block.deleted := false |})
        by exact Hpos.
      now rewrite app_assoc.
    + rewrite Hahead. reflexivity.
    + destruct Hok as (_ & _ & _ & _ & _ & _ & Hi & _). exact Hi.
    + exact (Nat.lt_le_incl _ _ Hin).
    + intros _. exact Hin.
    + destruct Hok as (_ & _ & _ & _ & _ & _ & _ & _ & _ & Hreq). exact Hreq.
  - pose proof (Advance_next_block st l ids i ch req pos Hout) as Hadv.
    pose proof (Advance_next_block_at st l ids i ch req pos) as Hat.
    cbv zeta in Hadv, Hat. specialize (fun k => Hat k Hok).
    set (st' := match nth_error ids i with
                | Some id => if ch then Store.write id req st else st
                | None => st
                end) in *.
    set (w1 := List.Iter.mkWorld st' l
                 (List.Iter.mk ids (S i) false
                    match nth_error ids (S i) with
                    | Some id => Store.read id st'
                    | None => req
                    end 0)) in *.
    change (List.Iter.Advance w = w1) in Hadv.
    assert (Hile : (i <= length ids)%nat) by exact (has_value_index w Hv).
    assert (Hcur : List.Iter.current_block w = List.Iter.block_at w i)
      by apply current_block_block_at.
    assert (Hcur1 : List.Iter.current_block w1 = List.Iter.block_at w (S i))
      by (rewrite current_block_block_at; apply Hat).
    assert (Hent : forall a n, entries_from w1 a n = entries_from w a n)
      by (intros a n; apply entries_from_ext; intros j _; apply Hat).
    rewrite Hadv. apply Hgoal; clear Hgoal; try reflexivity.
    + unfold st'. destruct (nth_error ids i); [destruct ch |]; try reflexivity.
      apply num_blocks_write.
    + unfold st'. destruct (nth_error ids i); [destruct ch |]; reflexivity.
    + exact Hat.
    + unfold before, List.Iter.current_entry. rewrite Hent.
      change (List.Iter.block_id_index (List.Iter.w_iter w1)) with (S i).
      rewrite <- (Nat.add_1_r i).
      change (List.Iter.block_iter_ (List.Iter.w_iter w1)) with 0%nat.
      change (List.Iter.block_id_index (List.Iter.w_iter w)) with i.
      change (List.Iter.block_iter_ (List.Iter.w_iter w)) with pos.
      rewrite entries_from_app. cbn [Nat.add].
      rewrite entries_from_one, firstn_O, app_nil_r, <- Hcur.
      rewrite <- app_assoc. f_equal.
      rewrite <- (firstn_S_nth {| Block.value := []; Block.deleted := false |})
        by exact Hpos.
      symmetry. apply firstn_all2. exact Hout.
    + rewrite Hahead. cbn [tl]. unfold ahead. rewrite Hcur1, Hent.
      change (List.Iter.block_id_index (List.Iter.w_iter w1)) with (S i).
      change (List.Iter.block_iter_ (List.Iter.w_iter w1)) with 0%nat.
      change (List.Iter.block_ids_ (List.Iter.w_iter w1)) with ids.
      change (List.Iter.block_id_index (List.Iter.w_iter w)) with i.
      change (List.Iter.block_iter_ (List.Iter.w_iter w)) with pos.
      change (List.Iter.block_ids_ (List.Iter.w_iter w)) with ids.
      rewrite (skipn_all2 _ Hout), skipn_O. cbn [app].
      destruct (Nat.eq_dec i (length ids)) as [-> | Hne].
      * rewrite Nat.sub_diag. replace (length ids - S (length ids))%nat with 0%nat by lia.
        unfold List.Iter.block_at.
        change (List.Iter.block_ids_ (List.Iter.w_iter w)) with ids.
        destruct (Nat.ltb_spec (S (length ids)) (length ids)); [lia |].
        destruct (Nat.eqb_spec (S (length ids)) (length ids)); [lia |]. reflexivity.
      * replace (length ids - i)%nat with (S (length ids - S i)) by lia.
        now rewrite entries_from_S.
    + change (S i <= S (length ids))%nat. lia.
    + change (0 <= length (Block.entries (List.Iter.current_block w1)))%nat. lia.
    + change ((S i < length ids)%nat ->
              (0 < length (Block.entries (List.Iter.current_block w1)))%nat).
      intros Hlt. rewrite Hcur1.
      destruct Hok as (_ & _ & Hne & _).
      specialize (Hne (S i) Hlt).
      destruct (Block.entries (List.Iter.block_at w (S i))); [congruence | cbn; lia].
    + change ((S i < length ids)%nat -> false = false ->
              match nth_error ids (S i) with
              | Some id => Store.read id st'
              | None => req
              end = Store.read (nth (S i) ids 0) st').
      intros Hlt _. now rewrite (nth_error_nth_Z _ _ Hlt).
Qed.

(** [Delete] on a valid value, field by field: the entry under the cursor
    is marked in its block, the counter of deleted values goes up by one,
    and the block is flagged as changed. *)
Lemma Delete_world (w : List.Iter.world) :
  List.Iter.Valid w = true ->
  exists w',
    List.Iter.Delete w = Ok w'
    /\ List.Iter.w_store w' = List.Iter.w_store w
    /\ List.head_ (List.Iter.w_list w')
       = List.incr_num_values_deleted (List.head_ (List.Iter.w_list w))
    /\ List.Iter.block_ids_ (List.Iter.w_iter w')
       = List.Iter.block_ids_ (List.Iter.w_iter w)
    /\ List.Iter.block_id_index (List.Iter.w_iter w')
       = List.Iter.block_id_index (List.Iter.w_iter w)
    /\ List.Iter.block_iter_ (List.Iter.w_iter w')
       = List.Iter.block_iter_ (List.Iter.w_iter w)
    /\ List.Iter.block_has_changed (List.Iter.w_iter w') = true
    /\ (forall k,
          List.Iter.block_at w' k
          = if (k =? List.Iter.block_id_index (List.Iter.w_iter w))%nat
            then Block.set_deleted (List.Iter.block_iter_ (List.Iter.w_iter w))
                   (List.Iter.block_at w k)
            else List.Iter.block_at w k)
    /\ Block.has_data (List.block_ (List.Iter.w_list w'))
       = Block.has_data (List.block_ (List.Iter.w_list w))
    /\ Block.size (List.block_ (List.Iter.w_list w'))
       = Block.size (List.block_ (List.Iter.w_list w))
    /\ length (Block.entries (List.block_ (List.Iter.w_list w')))
       = length (Block.entries (List.block_ (List.Iter.w_list w))).
Proof.
  intros Hvalid. unfold List.Iter.Delete. rewrite Hvalid.
  unfold List.Iter.Valid in Hvalid. apply andb_true_iff in Hvalid.
  destruct Hvalid as [Hv Hlive]. pose proof (has_value_index w Hv) as Hile.
  apply negb_true_iff in Hlive. rewrite Hlive. cbn [negb]. rewrite orb_true_r.
  eexists. split; [reflexivity |].
  destruct w as [st l [ids i ch req pos]].
  unfold List.Iter.set_current_block, List.Iter.block_at, List.Iter.current_block.
  cbn [List.Iter.w_iter List.Iter.w_store List.Iter.w_list List.Iter.block_ids_
       List.Iter.block_id_index List.Iter.block_has_changed
       List.Iter.requested_block_ List.Iter.block_iter_] in *.
  destruct (Nat.ltb_spec i (length ids)) as [Hlt | Hge].
  - cbn [List.Iter.w_iter List.Iter.w_store List.Iter.w_list List.Iter.block_ids_
         List.Iter.block_id_index List.Iter.block_has_changed
         List.Iter.requested_block_ List.Iter.block_iter_ List.head_ List.block_].
    repeat (split; [reflexivity |]). split; [| repeat split; reflexivity].
    intros k. destruct (Nat.ltb_spec k (length ids)) as [Hk | Hk].
    + destruct (Nat.eqb_spec k i); reflexivity.
    + destruct (Nat.eqb_spec k i); [lia | reflexivity].
  - assert (Hi : i = length ids) by lia. subst i. rewrite Nat.eqb_refl.
    cbn [List.Iter.w_iter List.Iter.w_store List.Iter.w_list List.Iter.block_ids_
         List.Iter.block_id_index List.Iter.block_has_changed
         List.Iter.requested_block_ List.Iter.block_iter_ List.head_ List.block_].
    repeat (split; [reflexivity |]).
    split; [| split; [reflexivity | split; [reflexivity | apply set_deleted_length]]].
    intros k. destruct (Nat.ltb_spec k (length ids)) as [Hk | Hk].
    + destruct (Nat.eqb_spec k (length ids)); [lia | reflexivity].
    + destruct (Nat.eqb_spec k (length ids)); reflexivity.
Qed.

Lemma count_deleted_mark (a rest : list Block.Entry) (e : Block.Entry) :
  Block.deleted e = false ->
  count_deleted (a ++ Block.set_deleted_entry e :: rest)
  = S (count_deleted (a ++ e :: rest)).
Proof.
  intros He. rewrite !count_deleted_app. unfold count_deleted.
  cbn [filter Block.set_deleted_entry Block.deleted]. rewrite He.
  cbn [length]. lia.
Qed.

(** [Delete] on a valid value marks the entry under the cursor and counts
    it; the cursor stays on the entry. *)
Lemma Delete_spec (w : List.Iter.world) :
  iter_ok w -> List.Iter.Valid w = true ->
  exists w',
    List.Iter.Delete w = Ok w'
    /\ iter_ok w'
    /\ before w' = before w
    /\ ahead w' = Block.set_deleted_entry (List.Iter.current_entry w) :: tl (ahead w)
    /\ List.Iter.has_value w' = true
    /\ List.Iter.w_store w' = List.Iter.w_store w
    /\ List.Iter.block_ids_ (List.Iter.w_iter w')
       = List.Iter.block_ids_ (List.Iter.w_iter w).
Proof.
  intros Hok Hvalid.
  destruct (Delete_world w Hvalid)
    as (w' & Hdel & Hst & Hhead & Hids & Hidx & Hpos' & Hch & Hat & Hdata & Hsize & Hlen).
  exists w'. split; [exact Hdel |].
  unfold List.Iter.Valid in Hvalid. apply andb_true_iff in Hvalid.
  destruct Hvalid as [Hv Hlive]. apply negb_true_iff in Hlive.
  pose proof (has_value_ahead w Hv) as Hahead.
  pose proof (has_value_index w Hv) as Hile.
  set (i := List.Iter.block_id_index (List.Iter.w_iter w)) in *.
  set (pos := List.Iter.block_iter_ (List.Iter.w_iter w)) in *.
  set (ids := List.Iter.block_ids_ (List.Iter.w_iter w)) in *.
  assert (Hpos : (pos < length (Block.entries (List.Iter.current_block w)))%nat)
    by (apply Nat.ltb_lt; exact Hv).
  assert (Hcur : List.Iter.current_block w'
                 = Block.set_deleted pos (List.Iter.current_block w)).
  { rewrite !current_block_block_at, Hidx, Hat. fold i. now rewrite Nat.eqb_refl. }
  assert (Hbefore : before w' = before w).
  { unfold before. rewrite Hidx, Hpos', Hcur. fold i pos. f_equal.
    - apply entries_from_ext. intros j Hj. rewrite Hat. fold i.
      destruct (Nat.eqb_spec j i); [lia | reflexivity].
    - unfold Block.set_deleted. cbn [Block.entries]. apply firstn_update_nth. }
  assert (Hahead' : ahead w'
            = Block.set_deleted_entry (List.Iter.current_entry w) :: tl (ahead w)).
  { rewrite Hahead. cbn [tl]. unfold ahead. rewrite Hidx, Hpos', Hids, Hcur.
    fold i pos ids.
    rewrite (skipn_nth_cons {| Block.value := []; Block.deleted := false |})
      by (rewrite set_deleted_length; exact Hpos).
    unfold Block.set_deleted at 1 2. cbn [Block.entries].
    rewrite nth_update_nth_same by exact Hpos. rewrite skipn_update_nth.
    rewrite <- app_comm_cons. f_equal. f_equal.
    apply entries_from_ext. intros j Hj. rewrite Hat. fold i.
    destruct (Nat.eqb_spec j i); [lia | reflexivity]. }
  assert (Hv' : List.Iter.has_value w' = true).
  { unfold List.Iter.has_value. rewrite Hpos', Hcur, set_deleted_length.
    apply Nat.ltb_lt. exact Hpos. }
  split; [| repeat (split; [assumption |]); assumption].
  destruct Hok as (Hrep & Hlt & Hne & Htail & Htotal & Hdeleted & Hi & Hp & Hin & Hreq).
  assert (Hview_len : length (view w') = length (view w)).
  { unfold view. rewrite Hbefore, Hahead', Hahead. cbn [tl].
    rewrite !length_app. reflexivity. }
  assert (Hview_del : count_deleted (view w') = S (count_deleted (view w))).
  { unfold view. rewrite Hbefore, Hahead', Hahead. cbn [tl].
    apply count_deleted_mark. exact Hlive. }
  unfold iter_ok. rewrite Hst, Hhead, Hids, Hidx, Hpos', Hch, Hcur, Hdata, Hsize.
  rewrite Hview_len, Hview_del, set_deleted_length.
  cbn [List.incr_num_values_deleted List.block_ids List.num_values_total
       List.num_values_deleted].
  split; [exact Hrep |]. split; [exact Hlt |].
  split.
  { intros k Hk. rewrite Hat. fold i.
    specialize (Hne k Hk).
    destruct (Nat.eqb_spec k i); [| exact Hne].
    intros Hnil. apply Hne. apply length_zero_iff_nil.
    rewrite <- (set_deleted_length pos), Hnil. reflexivity. }
  split.
  { destruct (Block.has_data (List.block_ (List.Iter.w_list w))).
    - destruct Htail as [Hnonempty Hsz]. split; [| exact Hsz].
      intros Hnil. apply Hnonempty. apply length_zero_iff_nil.
      rewrite <- Hlen, Hnil. reflexivity.
    - apply length_zero_iff_nil. rewrite Hlen, Htail. reflexivity. }
  split; [exact Htotal |].
  split; [rewrite Hdeleted, u32_succ; f_equal; lia |].
  split; [exact Hi |]. split; [exact Hp |]. split; [exact Hin |].
  intros _ Hfalse. discriminate.
Qed.

Lemma same_frame_refl (w : List.Iter.world) : same_frame w w.
Proof. repeat split; reflexivity. Qed.

Lemma same_frame_trans (w1 w2 w3 : List.Iter.world) :
  same_frame w1 w2 -> same_frame w2 w3 -> same_frame w1 w3.
Proof.
  intros (H1 & H2 & H3 & Hr) (H4 & H5 & H6 & Hr').
  split; [congruence |]. split; [congruence |]. split; [congruence |].
  intros id Hid Hnotin. rewrite Hr' by (rewrite ?H1; assumption). now apply Hr.
Qed.

(** [Advance] writes to no block but the current one of its list. *)
Lemma Advance_reads (w : List.Iter.world) (id : Z) :
  iter_ok w -> 0 <= id ->
  ~ In id (List.Iter.block_ids_ (List.Iter.w_iter w)) ->
  Store.read id (List.Iter.w_store (List.Iter.Advance w))
  = Store.read id (List.Iter.w_store w).
Proof.
  intros Hok Hid Hnotin. destruct w as [st l [ids i ch req pos]].
  set (w := List.Iter.mkWorld st l (List.Iter.mk ids i ch req pos)) in *.
  destruct (Nat.lt_ge_cases (S pos)
              (length (Block.entries (List.Iter.current_block w)))) as [Hin | Hout].
  - pose proof (Advance_inside st l ids i ch req pos Hin) as Hadv.
    change (List.Iter.Advance w
            = List.Iter.mkWorld st l (List.Iter.mk ids i ch req (S pos))) in Hadv.
    now rewrite Hadv.
  - pose proof (Advance_next_block st l ids i ch req pos Hout) as Hadv.
    cbv zeta in Hadv.
    match type of Hadv with _ = ?rhs =>
      change (List.Iter.Advance w = rhs) in Hadv end.
    rewrite Hadv. cbn [List.Iter.w_store].
    destruct (nth_error ids i) as [id0 |] eqn:Hid0; [| reflexivity].
    destruct ch; [| reflexivity].
    destruct Hok as (Hrep & _). destruct (represents_NoDup _ _ Hrep) as [_ Hnonneg].
    rewrite Forall_forall in Hnonneg. apply nth_error_In in Hid0.
    apply read_write_other; [now apply Hnonneg | exact Hid |].
    intros ->. now apply Hnotin.
Qed.

Lemma Advance_frame (w : List.Iter.world) :
  iter_ok w -> List.Iter.has_value w = true -> same_frame w (List.Iter.Advance w).
Proof.
  intros Hok Hv. destruct (Advance_spec w Hok Hv) as (_ & _ & _ & _ & H1 & H2 & H3).
  split; [assumption |]. split; [assumption |]. split; [assumption |].
  intros id Hid Hnotin. now apply Advance_reads.
Qed.

Lemma skip_marked_length (es : list Block.Entry) :
  (length (skip_marked es) <= length es)%nat.
Proof.
  induction es as [| e es IH]; [reflexivity |]. cbn [skip_marked].
  destruct (Block.deleted e); cbn [length]; lia.
Qed.

Lemma skip_marked_idem (es : list Block.Entry) :
  skip_marked (skip_marked es) = skip_marked es.
Proof.
  induction es as [| e es IH]; [reflexivity |]. cbn [skip_marked].
  destruct (Block.deleted e) eqn:He; [exact IH |]. cbn [skip_marked]. now rewrite He.
Qed.

Lemma live_skip_marked (es : list Block.Entry) : live (skip_marked es) = live es.
Proof.
  induction es as [| e es IH]; [reflexivity |]. cbn [skip_marked].
  destruct (Block.deleted e) eqn:He; [| reflexivity].
  rewrite IH. unfold live, is_live. cbn [filter]. now rewrite He.
Qed.

(** The loop that skips deleted values stops on the first valid entry
    ahead, or at the end; nothing but the position changes. *)
Lemma skip_deleted_spec (fuel : nat) (w : List.Iter.world) :
  iter_ok w -> (length (ahead w) < fuel)%nat ->
  iter_ok (List.Iter.skip_deleted fuel w)
  /\ view (List.Iter.skip_deleted fuel w) = view w
  /\ ahead (List.Iter.skip_deleted fuel w) = skip_marked (ahead w)
  /\ List.Iter.w_list (List.Iter.skip_deleted fuel w) = List.Iter.w_list w
  /\ same_frame w (List.Iter.skip_deleted fuel w).
Proof.
  revert w. induction fuel as [| f IH]; intros w Hok Hfuel; [lia |].
  cbn [List.Iter.skip_deleted].
  destruct (List.Iter.has_value w) eqn:Hv; cbn [andb].
  - pose proof (has_value_ahead w Hv) as Hahead.
    unfold List.Iter.deleted.
    destruct (Block.deleted (List.Iter.current_entry w)) eqn:Hdel.
    + destruct (Advance_spec w Hok Hv) as (Hok' & Hb & Ha & Hl & Hframe).
      assert (Hlen : (length (ahead (List.Iter.Advance w)) < f)%nat).
      { rewrite Ha, Hahead. rewrite Hahead in Hfuel. cbn [tl length] in *. lia. }
      destruct (IH _ Hok' Hlen) as (Hok2 & Hview2 & Ha2 & Hl2 & Hframe2).
      split; [exact Hok2 |].
      split; [rewrite Hview2; unfold view; rewrite Hb, Ha, Hahead, <- app_assoc;
              reflexivity |].
      split; [rewrite Ha2, Ha, Hahead; cbn [tl skip_marked]; now rewrite Hdel |].
      split; [congruence |].
      eapply same_frame_trans; [| exact Hframe2]. now apply Advance_frame.
    + split; [exact Hok |]. split; [reflexivity |].
      split; [rewrite Hahead; cbn [skip_marked]; now rewrite Hdel |].
      split; [reflexivity | apply same_frame_refl].
  - split; [exact Hok |]. split; [reflexivity |].
    split; [now rewrite (no_value_ahead w Hok Hv) |].
    split; [reflexivity | apply same_frame_refl].
Qed.

Lemma flat_map_map_comp {A B C : Type} (f : A -> B) (g : B -> list C) (xs : list A) :
  flat_map g (map f xs) = flat_map (fun x => g (f x)) xs.
Proof. induction xs as [| x xs IH]; [reflexivity |]. cbn. now rewrite IH. Qed.

Lemma steps_bound_view (w : List.Iter.world) :
  (List.Iter.block_id_index (List.Iter.w_iter w)
   <= S (length (List.Iter.block_ids_ (List.Iter.w_iter w))))%nat ->
  List.Iter.steps_bound w = S (length (view w)).
Proof.
  intros Hi. rewrite (view_blocks w Hi). unfold List.Iter.steps_bound, List.Iter.blocks.
  now rewrite flat_map_map_comp.
Qed.

Lemma iter_ok_index (w : List.Iter.world) :
  iter_ok w ->
  (List.Iter.block_id_index (List.Iter.w_iter w)
   <= S (length (List.Iter.block_ids_ (List.Iter.w_iter w))))%nat.
Proof. intros (_ & _ & _ & _ & _ & _ & Hi & _). exact Hi. Qed.

Lemma ahead_le_view (w : List.Iter.world) :
  (length (ahead w) <= length (view w))%nat.
Proof. unfold view. rewrite length_app. lia. Qed.

(** [Next] on a value: the cursor moves to the next valid entry. *)
Lemma Next_spec (w : List.Iter.world) :
  iter_ok w -> List.Iter.has_value w = true ->
  iter_ok (List.Iter.Next w)
  /\ view (List.Iter.Next w) = view w
  /\ ahead (List.Iter.Next w) = skip_marked (tl (ahead w))
  /\ List.Iter.w_list (List.Iter.Next w) = List.Iter.w_list w
  /\ same_frame w (List.Iter.Next w).
Proof.
  intros Hok Hv. unfold List.Iter.Next.
  destruct (Advance_spec w Hok Hv) as (Hok' & Hb & Ha & Hl & Hframe).
  pose proof (has_value_ahead w Hv) as Hahead.
  assert (Hview : view (List.Iter.Advance w) = view w).
  { unfold view. rewrite Hb, Ha, Hahead, <- app_assoc. reflexivity. }
  assert (Hfuel : (length (ahead (List.Iter.Advance w))
                   < List.Iter.steps_bound (List.Iter.Advance w))%nat).
  { rewrite (steps_bound_view _ (iter_ok_index _ Hok')).
    pose proof (ahead_le_view (List.Iter.Advance w)). lia. }
  destruct (skip_deleted_spec _ _ Hok' Hfuel) as (Hok2 & Hview2 & Ha2 & Hl2 & Hframe2).
  split; [exact Hok2 |]. split; [congruence |].
  split; [now rewrite Ha2, Ha |]. split; [congruence |].
  eapply same_frame_trans; [| exact Hframe2]. now apply Advance_frame.
Qed.

Lemma Valid_ahead (w : List.Iter.world) :
  List.Iter.Valid w = true ->
  List.Iter.has_value w = true
  /\ Block.deleted (List.Iter.current_entry w) = false
  /\ ahead w = List.Iter.current_entry w :: tl (ahead w).
Proof.
  unfold List.Iter.Valid, List.Iter.deleted. intros H.
  apply andb_true_iff in H. destruct H as [Hv Hlive].
  apply negb_true_iff in Hlive. split; [exact Hv |]. split; [exact Hlive |].
  now rewrite (has_value_ahead w Hv).
Qed.

(** An iterator that rests and is not valid is at the end. *)
Lemma not_Valid_ahead (w : List.Iter.world) :
  iter_ok w -> settled w -> List.Iter.Valid w = false -> ahead w = [].
Proof.
  intros Hok Hsettled Hvalid. unfold List.Iter.Valid, List.Iter.deleted in Hvalid.
  destruct (List.Iter.has_value w) eqn:Hv; [| now apply no_value_ahead].
  cbn [andb] in Hvalid. apply negb_false_iff in Hvalid.
  unfold settled in Hsettled. rewrite (has_value_ahead w Hv) in Hsettled.
  cbn [skip_marked] in Hsettled. rewrite Hvalid in Hsettled.
  match type of Hsettled with skip_marked ?es = _ =>
    pose proof (skip_marked_length es) as Hlen end.
  rewrite Hsettled in Hlen. cbn [length] in Hlen. rewrite length_app in *. lia.
Qed.

(** The loop over the valid values yields the values of the entries ahead
    that are not marked. *)
Lemma collect_loop_spec (fuel : nat) (w : List.Iter.world) :
  iter_ok w -> settled w -> (length (ahead w) < fuel)%nat ->
  List.Iter.collect_loop fuel w = live (ahead w).
Proof.
  revert w. induction fuel as [| f IH]; intros w Hok Hsettled Hfuel; [lia |].
  cbn [List.Iter.collect_loop].
  destruct (List.Iter.Valid w) eqn:Hvalid.
  - destruct (Valid_ahead w Hvalid) as (Hv & Hlive & Hahead).
    destruct (Next_spec w Hok Hv) as (Hok' & _ & Ha & _).
    rewrite IH; [| exact Hok' | unfold settled; rewrite Ha; apply skip_marked_idem |].
    + rewrite Ha, live_skip_marked.
      transitivity (live (List.Iter.current_entry w :: tl (ahead w)));
        [| now rewrite <- Hahead].
      unfold live, is_live, List.Iter.Value. cbn [filter]. rewrite Hlive. reflexivity.
    + rewrite Ha. rewrite Hahead in Hfuel. cbn [length] in Hfuel.
      pose proof (skip_marked_length (tl (ahead w))). lia.
  - now rewrite (not_Valid_ahead w Hok Hsettled Hvalid).
Qed.

Lemma map_nth_seq_Z (ids : list Z) :
  map (fun j => nth j ids 0) (seq 0 (length ids)) = ids.
Proof.
  induction ids as [| id ids IH]; [reflexivity |].
  cbn [length seq map nth]. f_equal.
  rewrite <- seq_shift, map_map. exact IH.
Qed.

(** The committed blocks of a view are those of a store that holds, under
    the ids of the list, the blocks the iterator sees. *)
Lemma entries_from_committed (w : List.Iter.world) (st : Store.t) :
  let ids := List.Iter.block_ids_ (List.Iter.w_iter w) in
  (forall k, (k < length ids)%nat ->
     List.Iter.block_at w k = Store.read (nth k ids 0) st) ->
  entries_from w 0 (length ids) = flat_map Block.entries (committed st ids).
Proof.
  intros ids H. unfold committed.
  rewrite <- (map_nth_seq_Z ids) at 2. rewrite map_map, flat_map_map_comp.
  unfold entries_from. apply flat_map_ext_In. intros j Hj.
  apply in_seq in Hj. rewrite H by lia. reflexivity.
Qed.

Lemma view_content (w : List.Iter.world) (st : Store.t) :
  let ids := List.Iter.block_ids_ (List.Iter.w_iter w) in
  (List.Iter.block_id_index (List.Iter.w_iter w) <= S (length ids))%nat ->
  (forall k, (k < length ids)%nat ->
     List.Iter.block_at w k = Store.read (nth k ids 0) st) ->
  view w = content st ids (List.Iter.w_list w).
Proof.
  intros ids Hi H. rewrite (view_blocks w Hi). subst ids.
  rewrite <- (Nat.add_1_r (length _)), entries_from_app, entries_from_one.
  cbn [Nat.add]. unfold content. rewrite <- (entries_from_committed w st H).
  f_equal. unfold List.Iter.block_at.
  destruct (Nat.ltb_spec (length (List.Iter.block_ids_ (List.Iter.w_iter w)))
              (length (List.Iter.block_ids_ (List.Iter.w_iter w)))); [lia |].
  now rewrite Nat.eqb_refl.
Qed.

(** The iterator of a well-formed list after [load 0]: it is at the start
    of the content. *)
Lemma load_first_ok (st : Store.t) (l : List.t) (ids : list Z) :
  well_formed st l ids ->
  let w := List.Iter.load 0 (List.Iter.mkWorld st l (List.Iter.make ids)) in
  iter_ok w /\ before w = [] /\ ahead w = content st ids l
  /\ List.Iter.w_list w = l /\ List.Iter.w_store w = st
  /\ List.Iter.block_ids_ (List.Iter.w_iter w) = ids.
Proof.
  intros Hwf w.
  assert (Hat : forall k, (k < length ids)%nat ->
            List.Iter.block_at w k = Store.read (nth k ids 0) st).
  { intros k Hk. unfold List.Iter.block_at, w, List.Iter.load, List.Iter.make,
      List.Iter.set_iter.
    cbn [List.Iter.w_iter List.Iter.w_store List.Iter.w_list List.Iter.block_ids_
         List.Iter.block_id_index List.Iter.block_has_changed
         List.Iter.requested_block_ List.Iter.block_iter_].
    destruct (Nat.ltb_spec k (length ids)); [| lia].
    destruct (Nat.eqb_spec k 0) as [-> | Hne]; [| reflexivity].
    now rewrite (nth_error_nth_Z _ _ Hk). }
  assert (Hbefore : before w = []) by reflexivity.
  assert (Hview : view w = content st ids l).
  { apply (view_content w st); [cbn; lia | exact Hat]. }
  assert (Hahead : ahead w = content st ids l).
  { rewrite <- Hview. unfold view. now rewrite Hbefore. }
  split; [| repeat (split; [assumption || reflexivity |]); reflexivity].
  destruct Hwf as (Hrep & Hlt & Hne & Htail & Htotal & Hdel).
  unfold iter_ok. rewrite Hview.
  split; [exact Hrep |]. split; [exact Hlt |].
  split.
  { intros k Hk. change (List.Iter.block_ids_ (List.Iter.w_iter w)) with ids in Hk.
    rewrite (Hat k Hk). rewrite Forall_forall in Hne. apply Hne, nth_In, Hk. }
  split; [exact Htail |]. split; [exact Htotal |]. split; [exact Hdel |].
  change (List.Iter.block_id_index (List.Iter.w_iter w)) with 0%nat.
  change (List.Iter.block_iter_ (List.Iter.w_iter w)) with 0%nat.
  change (List.Iter.block_ids_ (List.Iter.w_iter w)) with ids.
  split; [lia |]. split; [lia |].
  split.
  { intros Hk. rewrite current_block_block_at.
    change (List.Iter.block_id_index (List.Iter.w_iter w)) with 0%nat.
    rewrite (Hat 0%nat Hk). rewrite Forall_forall in Hne.
    specialize (Hne (nth 0 ids 0) (nth_In _ _ Hk)).
    destruct (Block.entries (Store.read (nth 0 ids 0) st)); [congruence | cbn; lia]. }
  intros Hk _. specialize (Hat 0%nat Hk).
  change (List.Iter.w_store w) with st. rewrite <- Hat.
  unfold List.Iter.block_at.
  change (List.Iter.block_ids_ (List.Iter.w_iter w)) with ids.
  change (List.Iter.block_id_index (List.Iter.w_iter w)) with 0%nat.
  destruct (Nat.ltb_spec 0 (length ids)); [reflexivity | lia].
Qed.

(** [SeekToFirst] on the iterator of a well-formed list. *)
Lemma SeekToFirst_spec (st : Store.t) (l : List.t) (ids : list Z) :
  well_formed st l ids ->
  let w := List.Iter.SeekToFirst (List.Iter.mkWorld st l (List.Iter.make ids)) in
  iter_ok w /\ settled w /\ view w = content st ids l
  /\ ahead w = skip_marked (content st ids l)
  /\ List.Iter.w_list w = l
  /\ List.Iter.block_ids_ (List.Iter.w_iter w) = ids
  /\ Store.block_size (List.Iter.w_store w) = Store.block_size st
  /\ Store.num_blocks (List.Iter.w_store w) = Store.num_blocks st
  /\ (forall id, 0 <= id -> ~ In id ids ->
        Store.read id (List.Iter.w_store w) = Store.read id st).
Proof.
  intros Hwf. unfold List.Iter.SeekToFirst. cbv zeta.
  destruct (load_first_ok st l ids Hwf) as (Hok & Hb & Ha & Hl & Hst & Hids).
  set (w0 := List.Iter.load 0 (List.Iter.mkWorld st l (List.Iter.make ids))) in *.
  assert (Hfuel : (length (ahead w0) < List.Iter.steps_bound w0)%nat).
  { rewrite (steps_bound_view _ (iter_ok_index _ Hok)).
    pose proof (ahead_le_view w0). lia. }
  destruct (skip_deleted_spec _ _ Hok Hfuel)
    as (Hok2 & Hview2 & Ha2 & Hl2 & Hids2 & Hsize2 & Hnum2 & Hreads2).
  split; [exact Hok2 |].
  split; [unfold settled; rewrite Ha2; apply skip_marked_idem |].
  split; [rewrite Hview2; unfold view; now rewrite Hb, Ha |].
  split; [now rewrite Ha2, Ha |]. split; [congruence |].
  split; [congruence |]. split; [congruence |]. split; [congruence |].
  intros id Hid Hnotin. rewrite Hreads2 by (rewrite ?Hids; assumption).
  now rewrite Hst.
Qed.

(** A full iteration of a well-formed list yields the values of its
    entries that are not marked as deleted, in the order of the content:
    committed blocks first, then the in-memory block. *)
Lemma iterate_spec (st : Store.t) (l : List.t) (ids : list Z) :
  well_formed st l ids -> List.iterate st l = Some (live (content st ids l)).
Proof.
  intros Hwf. unfold List.iterate, List.Iter.NewIterator.
  destruct Hwf as (Hrep & Hrest). rewrite (unpack_represents _ _ Hrep).
  destruct (SeekToFirst_spec st l ids (conj Hrep Hrest))
    as (Hok & Hsettled & Hview & Ha & _).
  cbv zeta in *.
  set (w := List.Iter.SeekToFirst _) in *.
  rewrite collect_loop_spec; [| exact Hok | exact Hsettled |].
  - now rewrite Ha, live_skip_marked.
  - rewrite (steps_bound_view _ (iter_ok_index _ Hok)).
    pose proof (ahead_le_view w). lia.
Qed.

(** ** The loops of [Shard::remove] and [Shard::replace] *)

(** A marking that leaves deleted entries alone commutes with skipping
    them. *)
Lemma marking_skips (g : list Block.Entry -> list Block.Entry) :
  (forall e es, Block.deleted e = true -> g (e :: es) = e :: g es) ->
  forall es b b',
    b' ++ skip_marked es = b ++ es -> b' ++ g (skip_marked es) = b ++ g es.
Proof.
  intros Hg es. induction es as [| e es IH]; intros b b' H.
  - cbn [skip_marked] in *. rewrite !app_nil_r in H. now subst.
  - cbn [skip_marked] in *. destruct (Block.deleted e) eqn:He.
    + rewrite (Hg e es He).
      replace (b ++ e :: g es) with ((b ++ [e]) ++ g es)
        by (rewrite <- app_assoc; reflexivity).
      apply IH. rewrite H, <- app_assoc. reflexivity.
    + apply app_inv_tail in H. now subst.
Qed.

Lemma mark_all_deleted (selected : Bytes -> bool) (e : Block.Entry)
    (es : list Block.Entry) :
  Block.deleted e = true -> mark_all selected (e :: es) = e :: mark_all selected es.
Proof. intros He. unfold mark_all, is_live. cbn [map]. now rewrite He. Qed.

Lemma mark_first_deleted (selected : Bytes -> bool) (e : Block.Entry)
    (es : list Block.Entry) :
  Block.deleted e = true ->
  mark_first selected (e :: es) = e :: mark_first selected es.
Proof. intros He. unfold is_live. cbn [mark_first]. unfold is_live. now rewrite He. Qed.

Lemma selected_values_skip (selected : Bytes -> bool) (es : list Block.Entry) :
  selected_values selected (skip_marked es) = selected_values selected es.
Proof. unfold selected_values. now rewrite live_skip_marked. Qed.

Lemma selected_values_cons (selected : Bytes -> bool) (e : Block.Entry)
    (es : list Block.Entry) :
  Block.deleted e = false ->
  selected_values selected (e :: es)
  = if selected (Block.value e)
    then Block.value e :: selected_values selected es
    else selected_values selected es.
Proof.
  intros He. unfold selected_values, live, is_live. cbn [filter]. rewrite He.
  cbn [negb map filter]. reflexivity.
Qed.

(** After [Delete] and [Next], or [Next] alone, on a valid entry: the
    invariant, the frame, the entries that are left, and how a marking
    of the entries ahead is continued. *)
Lemma Next_continues (w : List.Iter.world) (e : Block.Entry) (rest : list Block.Entry) :
  iter_ok w -> List.Iter.has_value w = true -> ahead w = e :: rest ->
  let w' := List.Iter.Next w in
  iter_ok w' /\ settled w' /\ same_frame w w'
  /\ (length (ahead w') <= length rest)%nat
  /\ ahead w' = skip_marked rest
  /\ forall g : list Block.Entry -> list Block.Entry,
       (forall x xs, Block.deleted x = true -> g (x :: xs) = x :: g xs) ->
       before w' ++ g (ahead w') = (before w ++ [e]) ++ g rest.
Proof.
  intros Hok Hv Hahead w'.
  destruct (Next_spec w Hok Hv) as (Hok' & Hview & Ha & _ & Hframe).
  fold w' in Hok', Hview, Ha, Hframe. rewrite Hahead in Ha. cbn [tl] in Ha.
  split; [exact Hok' |].
  split; [unfold settled; rewrite Ha; apply skip_marked_idem |].
  split; [exact Hframe |].
  split; [rewrite Ha; apply skip_marked_length |].
  split; [exact Ha |].
  intros g Hg. rewrite Ha. apply (marking_skips g Hg).
  rewrite <- Ha. unfold view in Hview. rewrite Hview, Hahead, <- app_assoc.
  reflexivity.
Qed.

Lemma Delete_frame (w w' : List.Iter.world) :
  List.Iter.w_store w' = List.Iter.w_store w ->
  List.Iter.block_ids_ (List.Iter.w_iter w')
  = List.Iter.block_ids_ (List.Iter.w_iter w) ->
  same_frame w w'.
Proof.
  intros Hst Hids. unfold same_frame. rewrite Hst, Hids.
  repeat split; reflexivity.
Qed.

(** The second loop of [Shard::remove] marks every valid entry ahead that
    the predicate selects, and counts them. *)
Lemma remove_rest_spec (predicate : Bytes -> bool) (fuel : nat)
    (w : List.Iter.world) (n : Z) :
  iter_ok w -> settled w -> (length (ahead w) < fuel)%nat ->
  exists w',
    Shard.remove_rest fuel predicate w n
    = Ok (w', n + Z.of_nat (length (selected_values predicate (ahead w))))
    /\ iter_ok w' /\ same_frame w w'
    /\ view w' = before w ++ mark_all predicate (ahead w).
Proof.
  revert w n. induction fuel as [| f IH]; intros w n Hok Hsettled Hfuel; [lia |].
  cbn [Shard.remove_rest].
  destruct (List.Iter.Valid w) eqn:Hvalid.
  - destruct (Valid_ahead w Hvalid) as (Hv & Hlive & Hahead).
    set (e := List.Iter.current_entry w) in *. set (rest := tl (ahead w)) in *.
    change (List.Iter.Value w) with (Block.value e).
    rewrite Hahead in Hfuel. cbn [length] in Hfuel.
    rewrite Hahead, (selected_values_cons _ _ _ Hlive).
    unfold mark_all at 1. cbn [map]. fold (mark_all predicate rest).
    unfold is_live. rewrite Hlive. cbn [negb andb].
    destruct (predicate (Block.value e)) eqn:Hsel.
    + destruct (Delete_spec w Hok Hvalid)
        as (w1 & Hdel & Hok1 & Hb1 & Ha1 & Hv1 & Hst1 & Hids1).
      rewrite Hdel. cbn [bind]. fold e rest in Ha1.
      destruct (Next_continues w1 _ _ Hok1 Hv1 Ha1)
        as (Hok2 & Hsettled2 & Hframe2 & Hlen2 & Ha2 & Hcont).
      destruct (IH (List.Iter.Next w1) (n + 1) Hok2 Hsettled2 ltac:(lia))
        as (w' & Hrun & Hok' & Hframe' & Hview').
      exists w'. rewrite Hrun, Ha2, selected_values_skip.
      split; [f_equal; f_equal; cbn [length]; lia |].
      split; [exact Hok' |].
      split; [eapply same_frame_trans; [apply (Delete_frame w w1 Hst1 Hids1) |];
              eapply same_frame_trans; eassumption |].
      rewrite Hview', (Hcont _ (mark_all_deleted predicate)), Hb1, <- app_assoc.
      reflexivity.
    + destruct (Next_continues w _ _ Hok Hv Hahead)
        as (Hok2 & Hsettled2 & Hframe2 & Hlen2 & Ha2 & Hcont).
      destruct (IH (List.Iter.Next w) n Hok2 Hsettled2 ltac:(fold rest in Hlen2; lia))
        as (w' & Hrun & Hok' & Hframe' & Hview').
      exists w'. rewrite Hrun, Ha2. fold rest. rewrite selected_values_skip.
      split; [reflexivity |]. split; [exact Hok' |].
      split; [eapply same_frame_trans; eassumption |].
      rewrite Hview', (Hcont _ (mark_all_deleted predicate)), <- app_assoc.
      reflexivity.
  - rewrite (not_Valid_ahead w Hok Hsettled Hvalid). exists w.
    split; [cbn; f_equal; f_equal; lia |]. split; [exact Hok |].
    split; [apply same_frame_refl |].
    unfold view. now rewrite (not_Valid_ahead w Hok Hsettled Hvalid).
Qed.

(** The first loop of [Shard::remove] marks the first valid entry ahead
    that the predicate selects, if there is one, and rests behind it. *)
Lemma remove_first_spec (predicate : Bytes -> bool) (fuel : nat)
    (w : List.Iter.world) :
  iter_ok w -> settled w -> (length (ahead w) < fuel)%nat ->
  exists w',
    Shard.remove_first fuel predicate w
    = Ok (w', Z.of_nat (length (first_selected predicate (ahead w))))
    /\ iter_ok w' /\ settled w' /\ same_frame w w'
    /\ (length (ahead w') <= length (ahead w))%nat
    /\ view w' = before w ++ mark_first predicate (ahead w)
    /\ before w' ++ mark_all predicate (ahead w')
       = before w ++ mark_all predicate (ahead w)
    /\ (length (first_selected predicate (ahead w))
        + length (selected_values predicate (ahead w'))
        = length (selected_values predicate (ahead w)))%nat.
Proof.
  revert w. induction fuel as [| f IH]; intros w Hok Hsettled Hfuel; [lia |].
  cbn [Shard.remove_first]. unfold first_selected in *.
  destruct (List.Iter.Valid w) eqn:Hvalid.
  - destruct (Valid_ahead w Hvalid) as (Hv & Hlive & Hahead).
    set (e := List.Iter.current_entry w) in *. set (rest := tl (ahead w)) in *.
    change (List.Iter.Value w) with (Block.value e).
    rewrite Hahead in Hfuel. cbn [length] in Hfuel.
    rewrite Hahead, (selected_values_cons _ _ _ Hlive).
    unfold mark_all at 2. cbn [map mark_first]. fold (mark_all predicate rest).
    unfold is_live. rewrite Hlive. cbn [negb andb].
    destruct (predicate (Block.value e)) eqn:Hsel.
    + destruct (Delete_spec w Hok Hvalid)
        as (w1 & Hdel & Hok1 & Hb1 & Ha1 & Hv1 & Hst1 & Hids1).
      rewrite Hdel. cbn [bind]. fold e rest in Ha1.
      destruct (Next_continues w1 _ _ Hok1 Hv1 Ha1)
        as (Hok2 & Hsettled2 & Hframe2 & Hlen2 & Ha2 & Hcont).
      exists (List.Iter.Next w1).
      split; [reflexivity |]. split; [exact Hok2 |]. split; [exact Hsettled2 |].
      split; [eapply same_frame_trans; [apply (Delete_frame w w1 Hst1 Hids1) |];
              exact Hframe2 |].
      split; [cbn [length]; lia |].
      split.
      { unfold view.
        rewrite (Hcont (fun es => es) (fun _ _ _ => eq_refl)), Hb1, <- app_assoc.
        reflexivity. }
      split.
      { rewrite (Hcont _ (mark_all_deleted predicate)), Hb1, <- app_assoc.
        reflexivity. }
      rewrite Ha2, selected_values_skip. cbn [firstn length]. lia.
    + destruct (Next_continues w _ _ Hok Hv Hahead)
        as (Hok2 & Hsettled2 & Hframe2 & Hlen2 & Ha2 & Hcont).
      destruct (IH (List.Iter.Next w) Hok2 Hsettled2 ltac:(fold rest in Hlen2; lia))
        as (w' & Hrun & Hok' & Hsettled' & Hframe' & Hlen' & Hview' & Hall' & Hcount').
      fold rest in Hlen2, Ha2.
      rewrite Ha2, selected_values_skip in Hrun, Hcount'.
      exists w'. split; [exact Hrun |]. split; [exact Hok' |].
      split; [exact Hsettled' |].
      split; [eapply same_frame_trans; eassumption |].
      split; [cbn [length]; lia |].
      split.
      { rewrite Hview', (Hcont _ (mark_first_deleted predicate)), <- app_assoc.
        reflexivity. }
      split; [| exact Hcount'].
      rewrite Hall', (Hcont _ (mark_all_deleted predicate)), <- app_assoc.
      reflexivity.
  - pose proof (not_Valid_ahead w Hok Hsettled Hvalid) as Hnil. exists w.
    unfold view. rewrite !Hnil.
    split; [reflexivity |]. split; [exact Hok |]. split; [exact Hsettled |].
    split; [apply same_frame_refl |]. split; [apply Nat.le_refl |]. repeat split.
Qed.

(** Releasing the iterator writes a changed block back: store and list
    are those of a well-formed list whose content is the view. *)
Lemma release_spec (w : List.Iter.world) :
  iter_ok w ->
  let ids := List.Iter.block_ids_ (List.Iter.w_iter w) in
  let st' := fst (List.Iter.release w) in
  let l' := snd (List.Iter.release w) in
  well_formed st' l' ids
  /\ content st' ids l' = view w
  /\ Store.block_size st' = Store.block_size (List.Iter.w_store w)
  /\ Store.num_blocks st' = Store.num_blocks (List.Iter.w_store w)
  /\ (forall id, 0 <= id -> ~ In id ids ->
        Store.read id st' = Store.read id (List.Iter.w_store w)).
Proof.
  intros Hok ids st' l'.
  destruct Hok as (Hrep & Hlt & Hne & Htail & Htotal & Hdel & Hi & Hp & Hin & Hreq).
  destruct (represents_NoDup _ _ Hrep) as [Hnodup Hnonneg].
  fold ids in Hrep, Hlt, Hne, Hi, Hin, Hreq, Hnodup, Hnonneg.
  rewrite Forall_forall in Hlt, Hnonneg.
  set (i := List.Iter.block_id_index (List.Iter.w_iter w)) in *.
  assert (Hl' : l' = List.Iter.w_list w).
  { unfold l', List.Iter.release, List.Iter.UpdateCurrentBlock.
    destruct (List.Iter.block_has_changed (List.Iter.w_iter w)); [| reflexivity].
    destruct (nth_error _ _); reflexivity. }
  assert (Hst' : st' = match nth_error ids i with
                       | Some id =>
                           if List.Iter.block_has_changed (List.Iter.w_iter w)
                           then Store.write id
                                  (List.Iter.requested_block_ (List.Iter.w_iter w))
                                  (List.Iter.w_store w)
                           else List.Iter.w_store w
                       | None => List.Iter.w_store w
                       end).
  { unfold st', List.Iter.release, List.Iter.UpdateCurrentBlock. fold ids i.
    destruct (List.Iter.block_has_changed (List.Iter.w_iter w));
      destruct (nth_error ids i); reflexivity. }
  clearbody st' l'. subst l'.
  assert (Hat : forall k, (k < length ids)%nat ->
            List.Iter.block_at w k = Store.read (nth k ids 0) st').
  { intros k Hk. unfold List.Iter.block_at. fold ids i.
    destruct (Nat.ltb_spec k (length ids)); [| lia].
    destruct (Nat.eqb_spec k i) as [-> | Hki].
    - rewrite Hst', (nth_error_nth_Z _ _ Hk).
      destruct (List.Iter.block_has_changed (List.Iter.w_iter w)) eqn:Hch.
      + symmetry. apply read_write_same.
        split; [apply Hnonneg | apply Hlt]; apply nth_In, Hk.
      + now apply Hreq.
    - rewrite Hst'. destruct (nth_error ids i) as [id0 |] eqn:Hid0; [| reflexivity].
      destruct (List.Iter.block_has_changed (List.Iter.w_iter w)); [| reflexivity].
      assert (Hi' : (i < length ids)%nat) by (apply nth_error_Some; congruence).
      rewrite (nth_error_nth_Z _ _ Hi') in Hid0. injection Hid0 as <-.
      symmetry. apply read_write_other.
      + apply Hnonneg, nth_In, Hi'.
      + apply Hnonneg, nth_In, Hk.
      + intros Heq. apply Hki.
        exact (proj1 (NoDup_nth ids 0) Hnodup k i Hk Hi' (eq_sym Heq)). }
  assert (Hnum : Store.num_blocks st' = Store.num_blocks (List.Iter.w_store w)).
  { rewrite Hst'. destruct (nth_error ids i); [| reflexivity].
    destruct (List.Iter.block_has_changed _); [apply num_blocks_write | reflexivity]. }
  assert (Hsize : Store.block_size st' = Store.block_size (List.Iter.w_store w)).
  { rewrite Hst'. destruct (nth_error ids i); [| reflexivity].
    destruct (List.Iter.block_has_changed _); reflexivity. }
  assert (Hview : view w = content st' ids (List.Iter.w_list w))
    by (apply (view_content w st'); assumption).
  split.
  { unfold well_formed. rewrite <- Hview, Hnum, Hsize.
    split; [exact Hrep |]. split; [apply Forall_forall; exact Hlt |].
    split; [| repeat (split; [assumption |]); assumption].
    apply Forall_forall. intros id Hid. apply In_nth with (d := 0) in Hid.
    destruct Hid as (k & Hk & <-). rewrite <- (Hat k Hk). now apply Hne. }
  split; [now rewrite Hview |]. split; [exact Hsize |]. split; [exact Hnum |].
  intros id Hid Hnotin. rewrite Hst'.
  destruct (nth_error ids i) as [id0 |] eqn:Hid0; [| reflexivity].
  destruct (List.Iter.block_has_changed _); [| reflexivity].
  apply nth_error_In in Hid0.
  apply read_write_other; [now apply Hnonneg | exact Hid |].
  intros ->. now apply Hnotin.
Qed.

(** ** Shards *)

Lemma find_set_list_same (key : Bytes) (l : List.t) (s : Table.Slot)
    (m : list (Bytes * Table.Slot)) :
  Table.find key m = Some s ->
  Table.find key (Table.set_list key l m)
  = Some {| Table.slot_list := l; Table.slot_mutex := Table.slot_mutex s |}.
Proof.
  induction m as [| [k s'] m IH]; [discriminate |]. cbn [Table.find Table.set_list].
  destruct (Bytes_eqb k key) eqn:Hk; cbn [Table.find]; rewrite Hk.
  - now intros [= ->].
  - exact IH.
Qed.

Lemma find_set_list_other (key key' : Bytes) (l : List.t)
    (m : list (Bytes * Table.Slot)) :
  key' <> key ->
  Table.find key' (Table.set_list key l m) = Table.find key' m.
Proof.
  intros Hne. induction m as [| [k s] m IH]; [reflexivity |].
  cbn [Table.find Table.set_list].
  destruct (Bytes_eqb k key) eqn:Hk; cbn [Table.find].
  - apply Bytes_eqb_eq in Hk. subst k.
    assert (Hf : Bytes_eqb key key' = false) by (apply Bytes_eqb_neq; congruence).
    now rewrite Hf.
  - destruct (Bytes_eqb k key'); [reflexivity | exact IH].
Qed.

Lemma find_set_list_None (key : Bytes) (l : List.t) (m : list (Bytes * Table.Slot)) :
  Table.find key m = None -> Table.set_list key l m = m.
Proof.
  induction m as [| [k s] m IH]; [reflexivity |]. cbn [Table.find Table.set_list].
  destruct (Bytes_eqb k key); [discriminate |]. intros H. now rewrite IH.
Qed.

Lemma find_emplace_other (key key' : Bytes) (l : List.t)
    (m : list (Bytes * Table.Slot)) :
  key' <> key -> Table.find key' (Table.emplace key l m) = Table.find key' m.
Proof.
  intros Hne. unfold Table.emplace. destruct (Table.find key m); [reflexivity |].
  induction m as [| [k s] m IH]; cbn [Table.find app].
  - assert (Hf : Bytes_eqb key key' = false) by (apply Bytes_eqb_neq; congruence).
    now rewrite Hf.
  - destruct (Bytes_eqb k key'); [reflexivity | exact IH].
Qed.

(** The lists of a shard after an operation on the list of [key] that
    stored [l'] for it. *)
Lemma list_of_with_list_same (key : Bytes) (tbl : Table.t) (st : Store.t)
    (l' : List.t) (s : Table.Slot) :
  Table.find key (Table.map_ tbl) = Some s ->
  list_of key (Shard.with_list key tbl (st, l')) = l'.
Proof.
  intros H. unfold list_of, Shard.with_list, Table.getUnique.
  cbn [Shard.table_ Table.map_]. now rewrite (find_set_list_same _ _ _ _ H).
Qed.

Lemma list_of_with_list_other (key key' : Bytes) (tbl : Table.t) (st : Store.t)
    (l' : List.t) (sh : Shard.t) :
  key' <> key ->
  Table.find key' (Table.map_ tbl) = Table.find key' (Table.map_ (Shard.table_ sh)) ->
  list_of key' (Shard.with_list key tbl (st, l')) = list_of key' sh.
Proof.
  intros Hne H. unfold list_of, Shard.with_list, Table.getUnique.
  cbn [Shard.table_ Table.map_]. now rewrite (find_set_list_other _ _ _ _ Hne), H.
Qed.

(** A well-formed list stays well-formed when the store changes in other
    blocks only. *)
Lemma well_formed_store_ext (st st' : Store.t) (l : List.t) (ids : list Z) :
  well_formed st l ids ->
  Store.block_size st' = Store.block_size st ->
  Store.num_blocks st <= Store.num_blocks st' ->
  (forall id, In id ids -> Store.read id st' = Store.read id st) ->
  well_formed st' l ids /\ content st' ids l = content st ids l.
Proof.
  intros (Hrep & Hlt & Hne & Htail & Htotal & Hdel) Hsize Hnum Hread.
  assert (Hc : content st' ids l = content st ids l).
  { unfold content, committed. f_equal. f_equal. apply map_ext_in. exact Hread. }
  split; [| exact Hc].
  unfold well_formed. rewrite Hc, Hsize.
  split; [exact Hrep |].
  split; [eapply Forall_impl; [| exact Hlt]; cbn; intros; lia |].
  split; [| repeat (split; [assumption |]); assumption].
  rewrite Forall_forall in *. intros id Hid. rewrite (Hread id Hid). now apply Hne.
Qed.

Lemma shard_ok_range (sh : Shard.t) (ids_of : Bytes -> list Z) (key : Bytes) (id : Z) :
  shard_ok sh ids_of -> In id (ids_of key) ->
  0 <= id < Store.num_blocks (Shard.store_ sh).
Proof.
  intros [Hwf _] Hid.
  destruct (well_formed_ids_range _ _ _ (Hwf key)) as [Hrange _].
  rewrite Forall_forall in Hrange. now apply Hrange.
Qed.

(** The invariant of the shard after an operation that replaced the list
    of [key], left the blocks of the other lists alone, and added block
    ids only behind the blocks the store had. *)
Lemma shard_ok_update (key : Bytes) (sh : Shard.t) (ids_of : Bytes -> list Z)
    (tbl : Table.t) (st' : Store.t) (l' : List.t) (ids' : list Z) (s : Table.Slot) :
  shard_ok sh ids_of ->
  (forall key', key' <> key ->
     Table.find key' (Table.map_ tbl)
     = Table.find key' (Table.map_ (Shard.table_ sh))) ->
  Table.find key (Table.map_ tbl) = Some s ->
  well_formed st' l' ids' ->
  Store.block_size st' = Store.block_size (Shard.store_ sh) ->
  Store.num_blocks (Shard.store_ sh) <= Store.num_blocks st' ->
  (forall id, 0 <= id < Store.num_blocks (Shard.store_ sh) ->
     ~ In id (ids_of key) -> Store.read id st' = Store.read id (Shard.store_ sh)) ->
  (forall id, In id ids' ->
     In id (ids_of key) \/ Store.num_blocks (Shard.store_ sh) <= id) ->
  let sh' := Shard.with_list key tbl (st', l') in
  let ids_of' := fun k => if Bytes_eqb k key then ids' else ids_of k in
  shard_ok sh' ids_of'
  /\ list_of key sh' = l'
  /\ entries_of key sh' ids_of' = content st' ids' l'
  /\ (forall key', key' <> key ->
        list_of key' sh' = list_of key' sh
        /\ entries_of key' sh' ids_of' = entries_of key' sh ids_of).
Proof.
  intros Hok Hfind Hs Hwf' Hsize Hnum Hread Hids' sh' ids_of'.
  assert (Hsame : list_of key sh' = l') by exact (list_of_with_list_same _ _ _ _ _ Hs).
  assert (Hother : forall key', key' <> key -> list_of key' sh' = list_of key' sh).
  { intros key' Hne. apply list_of_with_list_other; [exact Hne | now apply Hfind]. }
  assert (Hids_same : ids_of' key = ids') by (unfold ids_of'; now rewrite Bytes_eqb_refl).
  assert (Hids_other : forall key', key' <> key -> ids_of' key' = ids_of key').
  { intros key' Hne. unfold ids_of'.
    now rewrite (proj2 (Bytes_eqb_neq key' key) Hne). }
  assert (Hext : forall key', key' <> key ->
            well_formed st' (list_of key' sh) (ids_of key')
            /\ content st' (ids_of key') (list_of key' sh)
               = content (Shard.store_ sh) (ids_of key') (list_of key' sh)).
  { intros key' Hne. destruct Hok as [Hwf Hdisj].
    apply (well_formed_store_ext (Shard.store_ sh)); try assumption; [apply Hwf |].
    intros id Hid. apply Hread.
    - exact (shard_ok_range sh ids_of key' id (conj Hwf Hdisj) Hid).
    - exact (Hdisj key' key id Hne Hid). }
  split; [split |].
  - intros k. destruct (Bytes_eqb k key) eqn:Hk.
    + apply Bytes_eqb_eq in Hk. subst k. now rewrite Hsame, Hids_same.
    + apply Bytes_eqb_neq in Hk. rewrite (Hother k Hk), (Hids_other k Hk).
      exact (proj1 (Hext k Hk)).
  - intros k1 k2 id Hne H1 H2.
    assert (Hold : forall k, k <> key -> In id (ids_of' k) ->
              In id (ids_of k) /\ id < Store.num_blocks (Shard.store_ sh)).
    { intros k Hk Hin. rewrite (Hids_other k Hk) in Hin. split; [exact Hin |].
      exact (proj2 (shard_ok_range sh ids_of k id Hok Hin)). }
    assert (Hnew : forall k, k <> key -> In id (ids_of' key) -> In id (ids_of' k) ->
              False).
    { intros k Hk Hin Hin'. destruct (Hold k Hk Hin') as [Hin_old Hlt].
      rewrite Hids_same in Hin. destruct (Hids' id Hin) as [Hin_key | Hge]; [| lia].
      exact (proj2 Hok k key id Hk Hin_old Hin_key). }
    destruct (Bytes_eqb k1 key) eqn:Hk1, (Bytes_eqb k2 key) eqn:Hk2.
    + apply Bytes_eqb_eq in Hk1, Hk2. congruence.
    + apply Bytes_eqb_eq in Hk1. apply Bytes_eqb_neq in Hk2. subst k1.
      exact (Hnew k2 Hk2 H1 H2).
    + apply Bytes_eqb_neq in Hk1. apply Bytes_eqb_eq in Hk2. subst k2.
      exact (Hnew k1 Hk1 H2 H1).
    + apply Bytes_eqb_neq in Hk1, Hk2.
      destruct (Hold k1 Hk1 H1) as [H1' _]. destruct (Hold k2 Hk2 H2) as [H2' _].
      exact (proj2 Hok k1 k2 id Hne H1' H2').
  - split; [exact Hsame |]. split.
    + unfold entries_of. now rewrite Hsame, Hids_same.
    + intros key' Hne. split; [now apply Hother |].
      unfold entries_of. rewrite (Hother key' Hne), (Hids_other key' Hne).
      exact (proj2 (Hext key' Hne)).
Qed.

(** [Shard::get] and a full run of the iterator in a shard that satisfies
    the invariant: the values of the entries that are not marked. *)
Lemma get_spec (key : Bytes) (sh : Shard.t) (ids_of : Bytes -> list Z) :
  shard_ok sh ids_of -> Shard.get key sh = Some (live (entries_of key sh ids_of)).
Proof.
  intros [Hwf _]. specialize (Hwf key). apply iterate_spec in Hwf.
  unfold entries_of. rewrite <- Hwf. unfold Shard.get, list_of.
  destruct (Table.getUnique key (Shard.table_ sh)); reflexivity.
Qed.

(** [Shard::put], given what [List::Add] makes of the list of the key. *)
Lemma put_from_Add (key value : Bytes) (sh : Shard.t) (ids_of : Bytes -> list Z)
    (st' : Store.t) (l' : List.t) (ids' : list Z) :
  shard_ok sh ids_of ->
  Bytes_size key <= Table.max_key_size ->
  List.Add value (Shard.store_ sh, list_of key sh) = Ok (st', l') ->
  well_formed st' l' ids' ->
  Store.block_size st' = Store.block_size (Shard.store_ sh) ->
  Store.num_blocks (Shard.store_ sh) <= Store.num_blocks st' ->
  (forall id, 0 <= id < Store.num_blocks (Shard.store_ sh) ->
     Store.read id st' = Store.read id (Shard.store_ sh)) ->
  (forall id, In id ids' ->
     In id (ids_of key) \/ id = Store.num_blocks (Shard.store_ sh)) ->
  exists sh' ids_of',
    Shard.put key value sh = Ok sh'
    /\ shard_ok sh' ids_of'
    /\ Shard.store_ sh' = st'
    /\ list_of key sh' = l'
    /\ entries_of key sh' ids_of' = content st' ids' l'
    /\ (forall key', key' <> key ->
          list_of key' sh' = list_of key' sh
          /\ entries_of key' sh' ids_of' = entries_of key' sh ids_of).
Proof.
  intros Hok Hkey Hadd Hwf' Hsize Hnum Hread Hids'.
  set (tbl := {| Table.map_ := Table.emplace key List.init
                                 (Table.map_ (Shard.table_ sh));
                 Table.path_ := Table.path_ (Shard.table_ sh) |}).
  assert (Hfind : exists s, Table.find key (Table.map_ tbl) = Some s
                            /\ Table.slot_list s = list_of key sh).
  { unfold tbl, list_of, Table.getUnique. cbn [Table.map_]. rewrite find_emplace.
    destruct (Table.find key (Table.map_ (Shard.table_ sh))); eexists;
      split; reflexivity. }
  destruct Hfind as (s & Hs & Hlist).
  assert (Hput : Shard.put key value sh = Ok (Shard.with_list key tbl (st', l'))).
  { unfold Shard.put, Table.getUniqueOrCreate.
    apply Z.leb_le in Hkey. rewrite Hkey. cbn [bind]. fold tbl.
    rewrite Hs, Hlist, Hadd. reflexivity. }
  destruct (shard_ok_update key sh ids_of tbl st' l' ids' s Hok) as
    (Hok' & Hl' & He' & Hothers); try assumption.
  - intros key' Hne. unfold tbl. cbn [Table.map_]. now apply find_emplace_other.
  - intros id Hid _. now apply Hread.
  - intros id Hid. destruct (Hids' id Hid) as [H | ->]; [now left | right; lia].
  - eexists _, _. split; [exact Hput |]. split; [exact Hok' |].
    split; [reflexivity |]. split; [exact Hl' |]. split; [exact He' |].
    exact Hothers.
Qed.

(** [Shard::put] of a value that fits, while the next block id is in the
    range of the id vector. *)
Lemma put_ok (key value : Bytes) (sh : Shard.t) (ids_of : Bytes -> list Z) :
  shard_ok sh ids_of ->
  Bytes_size key <= Table.max_key_size ->
  fits_block sh value ->
  Store.num_blocks (Shard.store_ sh) <= Varint.N4_MAX_UINT ->
  exists sh' ids_of',
    Shard.put key value sh = Ok sh'
    /\ shard_ok sh' ids_of'
    /\ entries_of key sh' ids_of' = entries_of key sh ids_of ++ fresh [value]
    /\ (forall key', key' <> key ->
          list_of key' sh' = list_of key' sh
          /\ entries_of key' sh' ids_of' = entries_of key' sh ids_of)
    /\ Store.block_size (Shard.store_ sh') = Store.block_size (Shard.store_ sh)
    /\ Store.num_blocks (Shard.store_ sh)
       <= Store.num_blocks (Shard.store_ sh')
       <= Store.num_blocks (Shard.store_ sh) + 1.
Proof.
  intros Hok Hkey Hfit Hcap.
  destruct (Add_well_formed value (Shard.store_ sh) (list_of key sh) (ids_of key)
              (proj1 Hok key) Hfit Hcap)
    as (st' & l' & ids' & Hadd & Hwf' & Hc & Hsize & Hnum & Hread & Hids').
  destruct (put_from_Add key value sh ids_of st' l' ids' Hok Hkey Hadd Hwf' Hsize
              ltac:(lia) Hread Hids')
    as (sh' & ids_of' & Hput & Hok' & Hst' & Hl' & He' & Hothers).
  exists sh', ids_of'. split; [exact Hput |]. split; [exact Hok' |].
  split; [rewrite He', Hc; reflexivity |]. split; [exact Hothers |].
  rewrite Hst'. split; [exact Hsize | exact Hnum].
Qed.

Lemma live_app (a b : list Block.Entry) : live (a ++ b) = live a ++ live b.
Proof. unfold live. now rewrite filter_app, map_app. Qed.

Lemma live_fresh (values : list Bytes) : live (fresh values) = values.
Proof.
  induction values as [| v values IH]; [reflexivity |].
  unfold live, fresh, is_live in *. cbn. now rewrite IH.
Qed.

Lemma fresh_app (a b : list Bytes) : fresh (a ++ b) = fresh a ++ fresh b.
Proof. unfold fresh. apply map_app. Qed.

(** [put(key, v1); ...; put(key, vn)] with values that fit, while the
    block ids stay in the range of the id vector. *)
Lemma puts_ok (key : Bytes) (values : list Bytes) :
  forall (sh : Shard.t) (ids_of : Bytes -> list Z),
  shard_ok sh ids_of ->
  Bytes_size key <= Table.max_key_size ->
  Forall (fits_block sh) values ->
  Store.num_blocks (Shard.store_ sh) + Z.of_nat (length values)
  <= Varint.N4_MAX_UINT + 1 ->
  exists sh' ids_of',
    puts key values sh = Ok sh'
    /\ shard_ok sh' ids_of'
    /\ entries_of key sh' ids_of' = entries_of key sh ids_of ++ fresh values
    /\ (forall key', key' <> key ->
          list_of key' sh' = list_of key' sh
          /\ entries_of key' sh' ids_of' = entries_of key' sh ids_of)
    /\ Store.block_size (Shard.store_ sh') = Store.block_size (Shard.store_ sh)
    /\ Store.num_blocks (Shard.store_ sh)
       <= Store.num_blocks (Shard.store_ sh')
       <= Store.num_blocks (Shard.store_ sh) + Z.of_nat (length values).
Proof.
  induction values as [| v values IH]; intros sh ids_of Hok Hkey Hfits Hcap.
  - exists sh, ids_of. cbn [puts fresh map length]. rewrite app_nil_r.
    split; [reflexivity |]. split; [exact Hok |]. split; [reflexivity |].
    split; [intros; split; reflexivity |]. split; [reflexivity | lia].
  - inversion Hfits as [| ? ? Hv Hrest]; subst. cbn [length] in Hcap.
    destruct (put_ok key v sh ids_of Hok Hkey Hv ltac:(lia))
      as (sh1 & ids1 & Hput & Hok1 & He1 & Hothers1 & Hsize1 & Hnum1).
    assert (Hfits1 : Forall (fits_block sh1) values).
    { eapply Forall_impl; [| exact Hrest]. unfold fits_block. intros a Ha.
      now rewrite Hsize1. }
    destruct (IH sh1 ids1 Hok1 Hkey Hfits1 ltac:(lia))
      as (sh' & ids' & Hputs & Hok' & He' & Hothers' & Hsize' & Hnum').
    exists sh', ids'. cbn [puts]. rewrite Hput. cbn [bind].
    split; [exact Hputs |]. split; [exact Hok' |].
    split; [rewrite He', He1, <- app_assoc; reflexivity |].
    split.
    { intros key' Hne. destruct (Hothers1 key' Hne) as [Ha Hb].
      destruct (Hothers' key' Hne) as [Hc Hd]. split; congruence. }
    split; [congruence |]. cbn [length]. lia.
Qed.

(** X1 (C1 within the limits of the code).  In a shard that satisfies
    the invariant, for a key of at most [max_key_size] bytes and values
    that fit into a block, as long as the ids of the blocks that may be
    committed stay in the range of the id vector: the puts return, and
    the values put under the key are iterated in the order of the puts,
    after the values the key held, from the committed blocks first and the
    in-memory block last. *)
Theorem puts_then_get_in_order (key : Bytes) (values : list Bytes) (sh : Shard.t)
    (ids_of : Bytes -> list Z) :
  shard_ok sh ids_of ->
  Bytes_size key <= Table.max_key_size ->
  Forall (fits_block sh) values ->
  Store.num_blocks (Shard.store_ sh) + Z.of_nat (length values)
  <= Varint.N4_MAX_UINT + 1 ->
  puts_yield key values sh.
Proof.
  intros Hok Hkey Hfits Hcap.
  destruct (puts_ok key values sh ids_of Hok Hkey Hfits Hcap)
    as (sh' & ids' & Hputs & Hok' & He' & _).
  exists sh', (live (entries_of key sh ids_of)), (ids' key).
  split; [exact Hputs |]. split; [now apply get_spec |].
  assert (Hlive : live (entries_of key sh' ids')
                  = live (entries_of key sh ids_of) ++ values)
    by (now rewrite He', live_app, live_fresh).
  split; [rewrite <- Hlive; now apply get_spec |].
  split.
  - destruct (proj1 Hok' key) as [Hrep _]. exact (unpack_represents _ _ Hrep).
  - rewrite <- Hlive. reflexivity.
Qed.

Lemma empty_shard_ok (block_size : Z) (path : string) :
  shard_ok {| Shard.store_ := {| Store.block_size := block_size; Store.blocks := [] |};
              Shard.table_ := {| Table.map_ := []; Table.path_ := path |} |}
           (fun _ => []).
Proof.
  split; [intros key; apply init_well_formed | intros ? ? ? _ []].
Qed.

Lemma puts_then_get_in_order_witness :
  puts_yield Examples.key_a
    [Examples.raw 10 1; Examples.raw 10 2; Examples.raw 3 3] Examples.shard16.
Proof.
  apply (puts_then_get_in_order _ _ _ (fun _ => [])).
  - apply empty_shard_ok.
  - vm_compute. discriminate.
  - repeat constructor.
  - vm_compute. discriminate.
Defined.

Lemma represents_init (ids : list Z) : represents UintVector.init ids -> ids = [].
Proof.
  intros (_ & _ & _ & _ & _ & H). destruct ids as [| id ids]; [reflexivity |].
  destruct H as [H _]. cbn in H. lia.
Qed.

(** What [SeekToFirst] skipped is marked already: a marking of the entries
    ahead of the iterator is a marking of the whole content. *)
Lemma seek_marking (st : Store.t) (l : List.t) (ids : list Z)
    (g : list Block.Entry -> list Block.Entry) :
  well_formed st l ids ->
  (forall e es, Block.deleted e = true -> g (e :: es) = e :: g es) ->
  let w := List.Iter.SeekToFirst (List.Iter.mkWorld st l (List.Iter.make ids)) in
  before w ++ g (ahead w) = g (content st ids l).
Proof.
  intros Hwf Hg w.
  destruct (SeekToFirst_spec st l ids Hwf) as (_ & _ & Hview & Ha & _).
  fold w in Hview, Ha. rewrite Ha.
  apply (marking_skips g Hg (content st ids l) [] (before w)).
  rewrite <- Ha. exact Hview.
Qed.

(** The end of a run of the iterator of a well-formed list: store and list
    after [release]. *)
Lemma session_close (st : Store.t) (l : List.t) (ids : list Z) (w' : List.Iter.world) :
  well_formed st l ids ->
  let w := List.Iter.SeekToFirst (List.Iter.mkWorld st l (List.Iter.make ids)) in
  iter_ok w' -> same_frame w w' ->
  let st' := fst (List.Iter.release w') in
  let l' := snd (List.Iter.release w') in
  well_formed st' l' ids
  /\ content st' ids l' = view w'
  /\ Store.block_size st' = Store.block_size st
  /\ Store.num_blocks st' = Store.num_blocks st
  /\ (forall id, 0 <= id -> ~ In id ids -> Store.read id st' = Store.read id st).
Proof.
  intros Hwf w Hok' (Hids & Hsize & Hnum & Hreads) st' l'.
  destruct (SeekToFirst_spec st l ids Hwf)
    as (_ & _ & _ & _ & _ & Hids0 & Hsize0 & Hnum0 & Hreads0).
  fold w in Hids0, Hsize0, Hnum0, Hreads0.
  destruct (release_spec w' Hok') as (Hwf' & Hc' & Hsize' & Hnum' & Hreads').
  fold st' l' in Hwf', Hc', Hsize', Hnum', Hreads'.
  rewrite Hids, Hids0 in *.
  split; [exact Hwf' |]. split; [exact Hc' |].
  split; [congruence |]. split; [congruence |].
  intros id Hid Hnotin.
  rewrite Hreads', Hreads, Hreads0 by assumption. reflexivity.
Qed.

Lemma entries_of_absent (key : Bytes) (sh : Shard.t) (ids_of : Bytes -> list Z) :
  shard_ok sh ids_of -> Table.getUnique key (Shard.table_ sh) = None ->
  entries_of key sh ids_of = [].
Proof.
  intros [Hwf _] Hnone. specialize (Hwf key). unfold entries_of, list_of in *.
  rewrite Hnone in *. destruct Hwf as [Hrep _].
  rewrite (represents_init _ Hrep). reflexivity.
Qed.

Lemma getUnique_find (key : Bytes) (tbl : Table.t) (l : List.t) :
  Table.getUnique key tbl = Some l ->
  exists s, Table.find key (Table.map_ tbl) = Some s.
Proof.
  unfold Table.getUnique. destruct (Table.find key (Table.map_ tbl)) as [s |];
    [eauto | discriminate].
Qed.

(** [Shard::remove] in a shard that satisfies the invariant: the call
    returns the number of values it picked, these are marked in place, and
    nothing else changes. *)
Lemma remove_ok (key : Bytes) (predicate : Bytes -> bool) (apply_to_all : bool)
    (sh : Shard.t) (ids_of : Bytes -> list Z) :
  shard_ok sh ids_of ->
  exists sh' ids_of',
    Shard.remove key predicate apply_to_all sh
    = Ok (sh', Z.of_nat (length (chosen apply_to_all predicate
                                   (entries_of key sh ids_of))))
    /\ shard_ok sh' ids_of'
    /\ entries_of key sh' ids_of'
       = marked apply_to_all predicate (entries_of key sh ids_of)
    /\ (forall key', key' <> key ->
          list_of key' sh' = list_of key' sh
          /\ entries_of key' sh' ids_of' = entries_of key' sh ids_of)
    /\ Store.block_size (Shard.store_ sh') = Store.block_size (Shard.store_ sh)
    /\ Store.num_blocks (Shard.store_ sh') = Store.num_blocks (Shard.store_ sh).
Proof.
  intros Hok. unfold Shard.remove.
  destruct (Table.getUnique key (Shard.table_ sh)) as [l |] eqn:Hl.
  2:{ exists sh, ids_of. rewrite (entries_of_absent key sh ids_of Hok Hl).
      split; [now destruct apply_to_all |]. split; [exact Hok |].
      split; [now destruct apply_to_all |].
      split; [intros; split; reflexivity |]. split; reflexivity. }
  pose proof (proj1 Hok key) as Hwf. unfold list_of in Hwf. rewrite Hl in Hwf.
  assert (Hentries : entries_of key sh ids_of
                     = content (Shard.store_ sh) (ids_of key) l)
    by (unfold entries_of, list_of; now rewrite Hl).
  rewrite Hentries. set (es := content (Shard.store_ sh) (ids_of key) l).
  destruct (getUnique_find _ _ _ Hl) as [s Hs].
  unfold List.Iter.NewIterator. rewrite (unpack_represents _ _ (proj1 Hwf)).
  cbv zeta.
  destruct (SeekToFirst_spec _ _ _ Hwf) as (Hok0 & Hsettled0 & Hview0 & Ha0 & _).
  pose proof (seek_marking _ _ _ (mark_all predicate) Hwf
                (mark_all_deleted predicate)) as Hall0.
  pose proof (seek_marking _ _ _ (mark_first predicate) Hwf
                (mark_first_deleted predicate)) as Hfirst0.
  cbv zeta in *.
  set (w0 := List.Iter.SeekToFirst
               (List.Iter.mkWorld (Shard.store_ sh) l (List.Iter.make (ids_of key)))) in *.
  assert (Hfuel : (length (ahead w0) < List.Iter.steps_bound w0)%nat).
  { rewrite (steps_bound_view _ (iter_ok_index _ Hok0)).
    pose proof (ahead_le_view w0). lia. }
  destruct (remove_first_spec predicate _ w0 Hok0 Hsettled0 Hfuel)
    as (w1 & Hrun1 & Hok1 & Hsettled1 & Hframe1 & Hlen1 & Hview1 & Hall1 & Hcount1).
  rewrite Hrun1. cbn [bind].
  assert (Hfinal : exists w',
            (if apply_to_all
             then map_result
                    (fun '(w, n) =>
                       (Shard.with_list key (Shard.table_ sh) (List.Iter.release w), n))
                    (Shard.remove_rest (List.Iter.steps_bound w0) predicate w1
                       (Z.of_nat (length (first_selected predicate (ahead w0)))))
             else Ok (Shard.with_list key (Shard.table_ sh) (List.Iter.release w1),
                      Z.of_nat (length (first_selected predicate (ahead w0)))))
            = Ok (Shard.with_list key (Shard.table_ sh) (List.Iter.release w'),
                  Z.of_nat (length (chosen apply_to_all predicate es)))
            /\ iter_ok w' /\ same_frame w0 w'
            /\ view w' = marked apply_to_all predicate es).
  { destruct apply_to_all; unfold chosen, marked.
    - destruct (remove_rest_spec predicate (List.Iter.steps_bound w0) w1
                  (Z.of_nat (length (first_selected predicate (ahead w0))))
                  Hok1 Hsettled1 ltac:(lia))
        as (w2 & Hrun2 & Hok2 & Hframe2 & Hview2).
      exists w2. rewrite Hrun2. cbn [map_result bind].
      split.
      { f_equal. f_equal. rewrite <- Nat2Z.inj_add, Hcount1, Ha0.
        now rewrite selected_values_skip. }
      split; [exact Hok2 |].
      split; [eapply same_frame_trans; eassumption |].
      now rewrite Hview2, Hall1, Hall0.
    - exists w1. split.
      { unfold first_selected. now rewrite Ha0, selected_values_skip. }
      split; [exact Hok1 |]. split; [exact Hframe1 |].
      now rewrite Hview1, Hfirst0. }
  destruct Hfinal as (w' & Hrun & Hok' & Hframe' & Hview').
  destruct (session_close _ _ _ w' Hwf Hok' Hframe')
    as (Hwf' & Hc' & Hsize' & Hnum' & Hreads').
  cbv zeta in *.
  destruct (List.Iter.release w') as [st' l'] eqn:Hrel. cbn [fst snd] in *.
  destruct (shard_ok_update key sh ids_of (Shard.table_ sh) st' l' (ids_of key) s
              Hok) as (Hshard' & Hl' & He' & Hothers); try assumption.
  - reflexivity.
  - lia.
  - intros id Hid Hnotin. apply Hreads'; [lia | exact Hnotin].
  - intros id Hid. now left.
  - eexists _, _. split; [exact Hrun |]. split; [exact Hshard' |].
    split; [rewrite He', Hc'; exact Hview' |]. split; [exact Hothers |].
    split; assumption.
Qed.

(** The second loop of [Shard::replace] marks every valid entry ahead
    that is replaced and collects the new values in order. *)
Lemma replace_rest_spec (function : Bytes -> Bytes) (fuel : nat)
    (w : List.Iter.world) (updated_values : list Bytes) :
  iter_ok w -> settled w -> (length (ahead w) < fuel)%nat ->
  exists w',
    Shard.replace_rest fuel function w updated_values
    = Ok (w', updated_values
              ++ map function (selected_values (replaced function) (ahead w)))
    /\ iter_ok w' /\ same_frame w w'
    /\ view w' = before w ++ mark_all (replaced function) (ahead w).
Proof.
  revert w updated_values.
  induction fuel as [| f IH]; intros w uv Hok Hsettled Hfuel; [lia |].
  cbn [Shard.replace_rest].
  destruct (List.Iter.Valid w) eqn:Hvalid.
  - destruct (Valid_ahead w Hvalid) as (Hv & Hlive & Hahead).
    set (e := List.Iter.current_entry w) in *. set (rest := tl (ahead w)) in *.
    change (List.Iter.Value w) with (Block.value e). cbv zeta.
    rewrite Hahead in Hfuel. cbn [length] in Hfuel.
    rewrite Hahead, (selected_values_cons _ _ _ Hlive).
    unfold mark_all at 1. cbn [map]. fold (mark_all (replaced function) rest).
    unfold is_live. rewrite Hlive. cbn [negb andb].
    change (negb (Shard.is_empty (function (Block.value e))))
      with (replaced function (Block.value e)).
    destruct (replaced function (Block.value e)) eqn:Hsel.
    + destruct (Delete_spec w Hok Hvalid)
        as (w1 & Hdel & Hok1 & Hb1 & Ha1 & Hv1 & Hst1 & Hids1).
      rewrite Hdel. cbn [bind]. fold e rest in Ha1.
      destruct (Next_continues w1 _ _ Hok1 Hv1 Ha1)
        as (Hok2 & Hsettled2 & Hframe2 & Hlen2 & Ha2 & Hcont).
      destruct (IH (List.Iter.Next w1) (uv ++ [function (Block.value e)])
                  Hok2 Hsettled2 ltac:(lia))
        as (w' & Hrun & Hok' & Hframe' & Hview').
      exists w'. rewrite Hrun, Ha2, selected_values_skip.
      split; [cbn [map]; now rewrite <- app_assoc |].
      split; [exact Hok' |].
      split; [eapply same_frame_trans; [apply (Delete_frame w w1 Hst1 Hids1) |];
              eapply same_frame_trans; eassumption |].
      rewrite Hview', (Hcont _ (mark_all_deleted (replaced function))), Hb1,
        <- app_assoc.
      reflexivity.
    + destruct (Next_continues w _ _ Hok Hv Hahead)
        as (Hok2 & Hsettled2 & Hframe2 & Hlen2 & Ha2 & Hcont).
      destruct (IH (List.Iter.Next w) uv Hok2 Hsettled2
                  ltac:(fold rest in Hlen2; lia))
        as (w' & Hrun & Hok' & Hframe' & Hview').
      exists w'. rewrite Hrun, Ha2. fold rest. rewrite selected_values_skip.
      split; [reflexivity |]. split; [exact Hok' |].
      split; [eapply same_frame_trans; eassumption |].
      rewrite Hview', (Hcont _ (mark_all_deleted (replaced function))), <- app_assoc.
      reflexivity.
  - pose proof (not_Valid_ahead w Hok Hsettled Hvalid) as Hnil. exists w.
    unfold view. rewrite !Hnil. cbn [selected_values live filter map mark_all].
    rewrite app_nil_r.
    split; [reflexivity |]. split; [exact Hok |].
    split; [apply same_frame_refl | reflexivity].
Qed.

(** The first loop of [Shard::replace]. *)
Lemma replace_first_spec (function : Bytes -> Bytes) (fuel : nat)
    (w : List.Iter.world) :
  iter_ok w -> settled w -> (length (ahead w) < fuel)%nat ->
  exists w',
    Shard.replace_first fuel function w
    = Ok (w', map function (first_selected (replaced function) (ahead w)))
    /\ iter_ok w' /\ settled w' /\ same_frame w w'
    /\ (length (ahead w') <= length (ahead w))%nat
    /\ view w' = before w ++ mark_first (replaced function) (ahead w)
    /\ before w' ++ mark_all (replaced function) (ahead w')
       = before w ++ mark_all (replaced function) (ahead w)
    /\ first_selected (replaced function) (ahead w)
       ++ selected_values (replaced function) (ahead w')
       = selected_values (replaced function) (ahead w).
Proof.
  revert w. induction fuel as [| f IH]; intros w Hok Hsettled Hfuel; [lia |].
  cbn [Shard.replace_first]. unfold first_selected in *.
  destruct (List.Iter.Valid w) eqn:Hvalid.
  - destruct (Valid_ahead w Hvalid) as (Hv & Hlive & Hahead).
    set (e := List.Iter.current_entry w) in *. set (rest := tl (ahead w)) in *.
    change (List.Iter.Value w) with (Block.value e). cbv zeta.
    rewrite Hahead in Hfuel. cbn [length] in Hfuel.
    rewrite Hahead, (selected_values_cons _ _ _ Hlive).
    unfold mark_all at 2. cbn [map mark_first].
    fold (mark_all (replaced function) rest).
    unfold is_live. rewrite Hlive. cbn [negb andb].
    change (negb (Shard.is_empty (function (Block.value e))))
      with (replaced function (Block.value e)).
    destruct (replaced function (Block.value e)) eqn:Hsel.
    + destruct (Delete_spec w Hok Hvalid)
        as (w1 & Hdel & Hok1 & Hb1 & Ha1 & Hv1 & Hst1 & Hids1).
      rewrite Hdel. cbn [bind]. fold e rest in Ha1.
      destruct (Next_continues w1 _ _ Hok1 Hv1 Ha1)
        as (Hok2 & Hsettled2 & Hframe2 & Hlen2 & Ha2 & Hcont).
      exists (List.Iter.Next w1).
      split; [reflexivity |]. split; [exact Hok2 |]. split; [exact Hsettled2 |].
      split; [eapply same_frame_trans; [apply (Delete_frame w w1 Hst1 Hids1) |];
              exact Hframe2 |].
      split; [cbn [length]; lia |].
      split.
      { unfold view.
        rewrite (Hcont (fun es => es) (fun _ _ _ => eq_refl)), Hb1, <- app_assoc.
        reflexivity. }
      split.
      { rewrite (Hcont _ (mark_all_deleted (replaced function))), Hb1, <- app_assoc.
        reflexivity. }
      rewrite Ha2, selected_values_skip. reflexivity.
    + destruct (Next_continues w _ _ Hok Hv Hahead)
        as (Hok2 & Hsettled2 & Hframe2 & Hlen2 & Ha2 & Hcont).
      destruct (IH (List.Iter.Next w) Hok2 Hsettled2 ltac:(fold rest in Hlen2; lia))
        as (w' & Hrun & Hok' & Hsettled' & Hframe' & Hlen' & Hview' & Hall' & Hcount').
      fold rest in Hlen2, Ha2.
      rewrite Ha2, selected_values_skip in Hrun, Hcount'.
      exists w'. split; [exact Hrun |]. split; [exact Hok' |].
      split; [exact Hsettled' |].
      split; [eapply same_frame_trans; eassumption |].
      split; [cbn [length]; lia |].
      split.
      { rewrite Hview', (Hcont _ (mark_first_deleted (replaced function))),
          <- app_assoc.
        reflexivity. }
      split; [| exact Hcount'].
      rewrite Hall', (Hcont _ (mark_all_deleted (replaced function))), <- app_assoc.
      reflexivity.
  - pose proof (not_Valid_ahead w Hok Hsettled Hvalid) as Hnil. exists w.
    unfold view. rewrite !Hnil.
    split; [reflexivity |]. split; [exact Hok |]. split; [exact Hsettled |].
    split; [apply same_frame_refl |]. split; [apply Nat.le_refl |]. repeat split.
Qed.

(** The loop that adds the new values of [Shard::replace] to the list. *)
Lemma add_all_well_formed (values : list Bytes) :
  forall (st : Store.t) (l : List.t) (ids : list Z),
  well_formed st l ids ->
  Forall (fun v => Block.fits_empty (Bytes_size v) (Store.block_size st) = true)
         values ->
  Store.num_blocks st + Z.of_nat (length values) <= Varint.N4_MAX_UINT + 1 ->
  exists st' l' ids',
    Shard.add_all values (st, l) = Ok (st', l')
    /\ well_formed st' l' ids'
    /\ content st' ids' l' = content st ids l ++ fresh values
    /\ Store.block_size st' = Store.block_size st
    /\ Store.num_blocks st <= Store.num_blocks st'
       <= Store.num_blocks st + Z.of_nat (length values)
    /\ (forall id, 0 <= id < Store.num_blocks st ->
          Store.read id st' = Store.read id st)
    /\ (forall id, In id ids' -> In id ids \/ Store.num_blocks st <= id).
Proof.
  induction values as [| v values IH]; intros st l ids Hwf Hfits Hcap.
  - exists st, l, ids. cbn [Shard.add_all fresh map length]. rewrite app_nil_r.
    split; [reflexivity |]. split; [exact Hwf |]. split; [reflexivity |].
    split; [reflexivity |]. split; [lia |]. split; [reflexivity | now left].
  - inversion Hfits as [| ? ? Hv Hrest]; subst. cbn [length] in Hcap.
    destruct (Add_well_formed v st l ids Hwf Hv ltac:(lia))
      as (st1 & l1 & ids1 & Hadd & Hwf1 & Hc1 & Hsize1 & Hnum1 & Hread1 & Hids1).
    rewrite <- Hsize1 in Hrest.
    destruct (IH st1 l1 ids1 Hwf1 Hrest ltac:(lia))
      as (st' & l' & ids' & Hrun & Hwf' & Hc' & Hsize' & Hnum' & Hread' & Hids').
    exists st', l', ids'. cbn [Shard.add_all]. rewrite Hadd. cbn [bind].
    split; [exact Hrun |]. split; [exact Hwf' |].
    split; [rewrite Hc', Hc1, <- app_assoc; reflexivity |].
    split; [congruence |]. split; [cbn [length]; lia |].
    split.
    + intros id Hid. rewrite Hread' by lia. now apply Hread1.
    + intros id Hid. destruct (Hids' id Hid) as [H | H]; [| right; lia].
      destruct (Hids1 id H) as [H1 | ->]; [now left | right; lia].
Qed.

(** [Shard::replace] in a shard that satisfies the invariant, when the new
    values fit and the block ids stay in the range of the id vector: the
    call returns the number of values it replaced; these are marked in
    place and the new values are added at the end of the list. *)
Lemma replace_ok (key : Bytes) (function : Bytes -> Bytes) (apply_to_all : bool)
    (sh : Shard.t) (ids_of : Bytes -> list Z) :
  shard_ok sh ids_of ->
  let old := chosen apply_to_all (replaced function) (entries_of key sh ids_of) in
  Forall (fits_block sh) (map function old) ->
  Store.num_blocks (Shard.store_ sh) + Z.of_nat (length old)
  <= Varint.N4_MAX_UINT + 1 ->
  exists sh' ids_of',
    Shard.replace key function apply_to_all sh = Ok (sh', Z.of_nat (length old))
    /\ shard_ok sh' ids_of'
    /\ entries_of key sh' ids_of'
       = marked apply_to_all (replaced function) (entries_of key sh ids_of)
         ++ fresh (map function old)
    /\ (forall key', key' <> key ->
          list_of key' sh' = list_of key' sh
          /\ entries_of key' sh' ids_of' = entries_of key' sh ids_of)
    /\ Store.block_size (Shard.store_ sh') = Store.block_size (Shard.store_ sh).
Proof.
  intros Hok old Hfits Hcap. subst old. unfold Shard.replace.
  destruct (Table.getUnique key (Shard.table_ sh)) as [l |] eqn:Hl.
  2:{ exists sh, ids_of.
      rewrite (entries_of_absent key sh ids_of Hok Hl).
      split; [now destruct apply_to_all |]. split; [exact Hok |].
      split; [now destruct apply_to_all |].
      split; [intros; split; reflexivity | reflexivity]. }
  pose proof (proj1 Hok key) as Hwf. unfold list_of in Hwf. rewrite Hl in Hwf.
  assert (Hentries : entries_of key sh ids_of
                     = content (Shard.store_ sh) (ids_of key) l)
    by (unfold entries_of, list_of; now rewrite Hl).
  rewrite Hentries in *. set (es := content (Shard.store_ sh) (ids_of key) l) in *.
  set (old := chosen apply_to_all (replaced function) es) in *.
  destruct (getUnique_find _ _ _ Hl) as [s Hs].
  unfold List.Iter.NewIterator. rewrite (unpack_represents _ _ (proj1 Hwf)).
  cbv zeta.
  destruct (SeekToFirst_spec _ _ _ Hwf) as (Hok0 & Hsettled0 & Hview0 & Ha0 & _).
  pose proof (seek_marking _ _ _ (mark_all (replaced function)) Hwf
                (mark_all_deleted (replaced function))) as Hall0.
  pose proof (seek_marking _ _ _ (mark_first (replaced function)) Hwf
                (mark_first_deleted (replaced function))) as Hfirst0.
  cbv zeta in *.
  set (w0 := List.Iter.SeekToFirst
               (List.Iter.mkWorld (Shard.store_ sh) l (List.Iter.make (ids_of key)))) in *.
  assert (Hfuel : (length (ahead w0) < List.Iter.steps_bound w0)%nat).
  { rewrite (steps_bound_view _ (iter_ok_index _ Hok0)).
    pose proof (ahead_le_view w0). lia. }
  destruct (replace_first_spec function _ w0 Hok0 Hsettled0 Hfuel)
    as (w1 & Hrun1 & Hok1 & Hsettled1 & Hframe1 & Hlen1 & Hview1 & Hall1 & Hcount1).
  set (append := fun '(w, updated_values) =>
         map_result
           (fun w' : Store.t * List.t =>
              (Shard.with_list key (Shard.table_ sh) w',
               Z.of_nat (length (updated_values : list Bytes))))
           (Shard.add_all updated_values (List.Iter.release w))).
  rewrite Hrun1. cbn [bind].
  assert (Hfinal : exists w',
            (if apply_to_all
             then bind (Shard.replace_rest (List.Iter.steps_bound w0) function w1
                          (map function
                             (first_selected (replaced function) (ahead w0))))
                    (fun '(w, vs) =>
                       (Shard.with_list key (Shard.table_ sh) (List.Iter.release w),
                        Z.of_nat (length vs)))
                    append
             else append (w1, map function
                                (first_selected (replaced function) (ahead w0))))
            = append (w', map function old)
            /\ iter_ok w' /\ same_frame w0 w'
            /\ view w' = marked apply_to_all (replaced function) es).
  { subst old. destruct apply_to_all; unfold chosen, marked.
    - destruct (replace_rest_spec function (List.Iter.steps_bound w0) w1
                  (map function (first_selected (replaced function) (ahead w0)))
                  Hok1 Hsettled1 ltac:(lia))
        as (w2 & Hrun2 & Hok2 & Hframe2 & Hview2).
      exists w2. rewrite Hrun2. cbn [bind].
      split.
      { rewrite <- map_app, Hcount1, Ha0. now rewrite selected_values_skip. }
      split; [exact Hok2 |].
      split; [eapply same_frame_trans; eassumption |].
      now rewrite Hview2, Hall1, Hall0.
    - exists w1. split.
      { unfold first_selected. now rewrite Ha0, selected_values_skip. }
      split; [exact Hok1 |]. split; [exact Hframe1 |].
      now rewrite Hview1, Hfirst0. }
  destruct Hfinal as (w' & Hrun & Hok' & Hframe' & Hview').
  destruct (session_close _ _ _ w' Hwf Hok' Hframe')
    as (Hwf' & Hc' & Hsize' & Hnum' & Hreads').
  cbv zeta in *.
  destruct (List.Iter.release w') as [st1 l1] eqn:Hrel. cbn [fst snd] in *.
  unfold fits_block in Hfits. rewrite <- Hsize' in Hfits. rewrite <- Hnum' in Hcap.
  destruct (add_all_well_formed (map function old) st1 l1 (ids_of key) Hwf' Hfits
              ltac:(rewrite length_map; exact Hcap))
    as (st' & l' & ids' & Hadd & Hwf2 & Hc2 & Hsize2 & Hnum2 & Hread2 & Hids2).
  destruct (shard_ok_update key sh ids_of (Shard.table_ sh) st' l' ids' s
              Hok) as (Hshard' & Hl' & He' & Hothers); try assumption.
  - reflexivity.
  - congruence.
  - lia.
  - intros id Hid Hnotin. rewrite Hread2 by lia. apply Hreads'; [lia | exact Hnotin].
  - intros id Hid. destruct (Hids2 id Hid) as [H | H]; [now left | right; lia].
  - eexists _, _. split.
    { transitivity (append (w', map function old)); [exact Hrun |].
      unfold append. rewrite Hrel, Hadd. cbn [map_result bind].
      rewrite length_map. reflexivity. }
    split; [exact Hshard' |].
    split; [rewrite He', Hc2, Hc', Hview'; reflexivity |].
    split; [exact Hothers |].
    change (Store.block_size st' = Store.block_size (Shard.store_ sh)). congruence.
Qed.

Lemma chosen_picked (apply_to_all : bool) (selected : Bytes -> bool)
    (es : list Block.Entry) :
  chosen apply_to_all selected es = picked apply_to_all selected (live es).
Proof. now destruct apply_to_all. Qed.

(** [List::Flush] of the list of a key. *)
Lemma flush_ok (key : Bytes) (sh : Shard.t) (ids_of : Bytes -> list Z) :
  shard_ok sh ids_of ->
  Store.num_blocks (Shard.store_ sh) <= Varint.N4_MAX_UINT ->
  exists sh' ids_of', run (OpFlush key) sh = Ok sh' /\ shard_ok sh' ids_of'.
Proof.
  intros Hok Hcap. cbn [run].
  destruct (Table.getUnique key (Shard.table_ sh)) as [l |] eqn:Hl;
    [| exists sh, ids_of; split; [reflexivity | exact Hok]].
  pose proof (proj1 Hok key) as Hwf. unfold list_of in Hwf. rewrite Hl in Hwf.
  destruct (getUnique_find _ _ _ Hl) as [s Hs].
  destruct (Flush_well_formed _ _ _ Hwf Hcap)
    as (st' & l' & ids' & Hflush & Hwf' & Hc & Hsize & Hnum & Hread & Hids').
  rewrite Hflush. cbn [map_result bind].
  destruct (shard_ok_update key sh ids_of (Shard.table_ sh) st' l' ids' s Hok)
    as (Hok' & _); try assumption.
  - reflexivity.
  - lia.
  - intros id Hid _. now apply Hread.
  - intros id Hid. destruct (Hids' id Hid) as [H | ->]; [now left | right; lia].
  - eexists _, _. split; [reflexivity | exact Hok'].
Qed.

(** Every operation in range returns and keeps the invariant. *)
Lemma run_ok (op : Op) (sh : Shard.t) (ids_of : Bytes -> list Z) :
  shard_ok sh ids_of -> in_range op sh ->
  exists sh' ids_of', run op sh = Ok sh' /\ shard_ok sh' ids_of'.
Proof.
  intros Hok Hrange. destruct op as [key value | key p all | key f all | key].
  - destruct Hrange as (Hkey & Hfit & Hcap).
    destruct (put_ok key value sh ids_of Hok Hkey Hfit Hcap)
      as (sh' & ids' & Hput & Hok' & _).
    exists sh', ids'. split; assumption.
  - destruct (remove_ok key p all sh ids_of Hok) as (sh' & ids' & Hrun & Hok' & _).
    exists sh', ids'. cbn [run]. rewrite Hrun. split; [reflexivity | exact Hok'].
  - destruct Hrange as (vs & Hget & Hfits & Hcap).
    rewrite (get_spec key sh ids_of Hok) in Hget. injection Hget as <-.
    rewrite <- chosen_picked in Hfits, Hcap.
    destruct (replace_ok key f all sh ids_of Hok Hfits Hcap)
      as (sh' & ids' & Hrun & Hok' & _).
    exists sh', ids'. cbn [run]. rewrite Hrun. split; [reflexivity | exact Hok'].
  - exact (flush_ok key sh ids_of Hok Hrange).
Qed.

Lemma reachable_ok (sh : Shard.t) :
  reachable sh -> exists ids_of, shard_ok sh ids_of.
Proof.
  induction 1 as [block_size path | op sh sh' _ [ids_of Hok] Hrange Hrun].
  - exists (fun _ => []). apply empty_shard_ok.
  - destruct (run_ok op sh ids_of Hok Hrange) as (sh1 & ids1 & Hrun1 & Hok1).
    rewrite Hrun in Hrun1. injection Hrun1 as <-. now exists ids1.
Qed.

Lemma length_live (es : list Block.Entry) :
  (length (live es) + count_deleted es = length es)%nat.
Proof.
  unfold live, count_deleted, is_live. rewrite length_map.
  induction es as [| e es IH]; [reflexivity |]. cbn [filter].
  destruct (Block.deleted e); cbn [negb length]; lia.
Qed.

(** The counters of a well-formed list with fewer than 2^32 entries. *)
Lemma counters_of_well_formed (key : Bytes) (sh : Shard.t) (ids_of : Bytes -> list Z) :
  shard_ok sh ids_of ->
  Z.of_nat (length (entries_of key sh ids_of)) < 2 ^ 32 ->
  counters_agree key sh.
Proof.
  intros Hok Hlen. pose proof (get_spec key sh ids_of Hok) as Hget.
  destruct (proj1 Hok key) as (_ & _ & _ & _ & Htotal & Hdel).
  fold (entries_of key sh ids_of) in Htotal, Hdel.
  pose proof (length_live (entries_of key sh ids_of)) as Hlive.
  unfold counters_agree, List.size. cbv zeta.
  rewrite Htotal, Hdel, !u32_small by lia.
  split; [lia |]. exists (live (entries_of key sh ids_of)).
  split; [exact Hget |]. split; lia.
Qed.

Lemma mark_first_values (selected : Bytes -> bool) (es : list Block.Entry) :
  map Block.value (mark_first selected es) = map Block.value es.
Proof.
  induction es as [| e es IH]; [reflexivity |]. cbn [mark_first].
  destruct (is_live e && selected (Block.value e)); cbn [map]; [reflexivity |].
  now rewrite IH.
Qed.

Lemma mark_all_values (selected : Bytes -> bool) (es : list Block.Entry) :
  map Block.value (mark_all selected es) = map Block.value es.
Proof.
  unfold mark_all. rewrite map_map. apply map_ext. intros e.
  now destruct (is_live e && selected (Block.value e)).
Qed.

Lemma live_mark_all (selected : Bytes -> bool) (es : list Block.Entry) :
  live (mark_all selected es) = filter (fun v => negb (selected v)) (live es).
Proof.
  unfold live, mark_all, is_live.
  induction es as [| e es IH]; [reflexivity |]. cbn [map filter].
  destruct (Block.deleted e) eqn:He; cbn [negb andb].
  - rewrite He. cbn [negb]. exact IH.
  - destruct (selected (Block.value e)) eqn:Hsel;
      cbn [Block.set_deleted_entry Block.deleted Block.value negb map filter].
    + rewrite Hsel. cbn [negb]. exact IH.
    + rewrite He, Hsel. cbn [negb map]. now rewrite IH.
Qed.

(** C2 (as amended).  In every shard reached from an empty one by puts,
    removes, replaces and flushes within the limits of the code, the lists
    are well-formed, and the counters of every list agree with its
    iteration as long as the list has fewer than 2^32 entries (the
    counters are 32-bit numbers): [num_values_deleted <= num_values_total],
    and their difference is the number of values a full iteration
    yields. *)
Theorem reachable_counters_agree (sh : Shard.t) :
  reachable sh ->
  exists ids_of,
    shard_ok sh ids_of
    /\ forall key,
         Z.of_nat (length (entries_of key sh ids_of)) < 2 ^ 32 ->
         counters_agree key sh.
Proof.
  intros Hreach. destruct (reachable_ok sh Hreach) as [ids_of Hok].
  exists ids_of. split; [exact Hok |].
  intros key Hlen. exact (counters_of_well_formed key sh ids_of Hok Hlen).
Qed.

(** C8 (counterexample).  "a" holds the value X; [replaceAllEqual("a", X,
    "")] selects X for replacement by the empty value.  The function
    handed to [Shard::replace] returns the empty value for it, which is
    what it returns for a value that is not to be replaced: the call
    returns 0, X is not marked, nothing is added, and the iterator still
    yields X. *)
Theorem replace_by_empty_value_changes_nothing :
  exists sh1,
    Shard.put Examples.key_a (Examples.raw 6 1) Examples.shard16 = Ok sh1
    /\ Shard.replaceAllEqual Examples.key_a (Examples.raw 6 1) [] sh1 = Ok (sh1, 0)
    /\ Shard.replaceFirstEqual Examples.key_a (Examples.raw 6 1) [] sh1 = Ok (sh1, 0)
    /\ Shard.get Examples.key_a sh1 = Some [Examples.raw 6 1]
    /\ List.num_values_deleted (List.head_ (list_of Examples.key_a sh1)) = 0.
Proof.
  exists (state_of (Shard.put Examples.key_a (Examples.raw 6 1) Examples.shard16)).
  split; [vm_compute; reflexivity |]. split; [vm_compute; reflexivity |].
  split; [vm_compute; reflexivity |]. split; vm_compute; reflexivity.
Qed.

(** C8 (as amended).  In a reachable shard, when the new values fit into a
    block and the ids of the blocks that may be committed stay in the
    range of the id vector, [Shard::replace] returns the number of values
    it picked (those for which the function returns a value that is not
    empty), leaves every entry of the list in place with its value, marks
    those of the picked values as deleted, and adds the new values behind
    them, so that an iteration yields the values that were not picked and
    then the new values. *)
Theorem replace_marks_and_appends (key : Bytes) (function : Bytes -> Bytes)
    (apply_to_all : bool) (sh : Shard.t) :
  reachable sh ->
  in_range (OpReplace key function apply_to_all) sh ->
  exists ids_of, shard_ok sh ids_of /\ replace_appends key function apply_to_all sh ids_of.
Proof.
  intros Hreach (vs & Hget & Hfits & Hcap).
  destruct (reachable_ok sh Hreach) as [ids_of Hok].
  exists ids_of. split; [exact Hok |].
  rewrite (get_spec key sh ids_of Hok) in Hget. injection Hget as <-.
  rewrite <- chosen_picked in Hfits, Hcap.
  destruct (replace_ok key function apply_to_all sh ids_of Hok Hfits Hcap)
    as (sh' & ids' & Hrun & Hok' & He' & _).
  exists sh', ids'. split; [exact Hrun |]. split; [exact Hok' |].
  split; [exact He' |].
  split; [destruct apply_to_all; [apply mark_all_values | apply mark_first_values] |].
  split.
  - rewrite (get_spec key sh' ids' Hok'), He', live_app, live_fresh. reflexivity.
  - intros ->. apply live_mark_all.
Qed.

Ltac put_in_range :=
  split; [vm_compute; discriminate
         | split; [vm_compute; reflexivity | vm_compute; discriminate]].

Ltac scenario_reachable :=
  apply (reachable_step (OpPut Examples.key_a (Examples.raw 10 1)) Scenario.sh5);
    [ apply (reachable_step (OpFlush Examples.key_a) Scenario.sh4);
      [ apply (reachable_step
                 (OpRemove Examples.key_a Scenario.is_first_value true) Scenario.sh3);
        [ apply (reachable_step (OpPut Examples.key_b (Examples.raw 4 7)) Scenario.sh2);
          [ apply (reachable_step (OpPut Examples.key_a (Examples.raw 10 2))
                     Scenario.sh1);
            [ apply (reachable_step (OpPut Examples.key_a (Examples.raw 10 1))
                       Examples.shard16);
              [ apply reachable_new | put_in_range | vm_compute; reflexivity ]
            | put_in_range | vm_compute; reflexivity ]
          | put_in_range | vm_compute; reflexivity ]
        | exact I | vm_compute; reflexivity ]
      | vm_compute; discriminate | vm_compute; reflexivity ]
    | put_in_range | vm_compute; reflexivity ].

Lemma reachable_counters_agree_witness :
  exists ids_of,
    shard_ok Scenario.sh6 ids_of
    /\ forall key,
         Z.of_nat (length (entries_of key Scenario.sh6 ids_of)) < 2 ^ 32 ->
         counters_agree key Scenario.sh6.
Proof.
  apply reachable_counters_agree. scenario_reachable.
Defined.

Lemma replace_marks_and_appends_witness :
  exists ids_of,
    shard_ok Scenario.sh6 ids_of
    /\ replace_appends Examples.key_a Scenario.renew true Scenario.sh6 ids_of.
Proof.
  apply replace_marks_and_appends.
  - scenario_reachable.
  - exists [Examples.raw 10 2; Examples.raw 10 1].
    split; [vm_compute; reflexivity |].
    split; [vm_compute; repeat constructor | vm_compute; discriminate].
Defined.

(** ** Lists that outgrow their counters *)

Lemma entry_size_empty :
  Block.entry_size {| Block.value := []; Block.deleted := false |} = 1.
Proof. reflexivity. Qed.

(** [List::Add] of the empty value takes one byte: either of the
    in-memory block, or, when that is full, of a new one. *)
Lemma Add_empty_value (st : Store.t) (l : List.t) (ids : list Z) :
  well_formed st l ids ->
  1 <= Store.block_size st ->
  Store.num_blocks st <= Varint.N4_MAX_UINT ->
  Block.next_offset (List.block_ l) <= Store.block_size st ->
  exists st' l' ids',
    List.Add [] (st, l) = Ok (st', l')
    /\ well_formed st' l' ids'
    /\ content st' ids' l' = content st ids l ++ fresh [[]]
    /\ Store.block_size st' = Store.block_size st
    /\ Store.num_blocks st <= Store.num_blocks st'
    /\ (forall id, 0 <= id < Store.num_blocks st ->
          Store.read id st' = Store.read id st)
    /\ (forall id, In id ids' -> In id ids \/ id = Store.num_blocks st)
    /\ Block.next_offset (List.block_ l') <= Store.block_size st'
    /\ used_bytes st' l' = used_bytes st l + 1.
Proof.
  intros Hwf HB Hcap Hoff.
  assert (Hfit : Block.fits_empty (Bytes_size []) (Store.block_size st) = true).
  { unfold Block.fits_empty. apply Z.leb_le.
    change (Block.header_size (Bytes_size []) + Bytes_size []) with 1. exact HB. }
  destruct (Add_well_formed [] st l ids Hwf Hfit Hcap)
    as (st' & l' & ids' & Hadd & Hwf' & Hc & Hsize & Hnum & Hread & Hids').
  exists st', l', ids'.
  split; [exact Hadd |]. split; [exact Hwf' |]. split; [exact Hc |].
  split; [exact Hsize |]. split; [lia |]. split; [exact Hread |].
  split; [exact Hids' |].
  destruct Hwf as (_ & _ & _ & Htail & _).
  revert Hadd. unfold List.Add, used_bytes.
  destruct (Block.has_data (List.block_ l)) eqn:Hdata; cbn [negb].
  - destruct Htail as [_ Hsz].
    destruct (Block.fits [] (List.block_ l)) eqn:Hfits.
    + rewrite (TryAdd_fits _ _ Hfits). intros [= <- <-].
      cbn [List.block_]. rewrite next_offset_app, entry_size_empty.
      unfold Block.fits in Hfits. rewrite Hdata in Hfits. cbn [andb] in Hfits.
      apply Z.leb_le in Hfits.
      change (Block.header_size (Bytes_size [])) with 1 in Hfits.
      change (Bytes_size []) with 0 in Hfits.
      replace (Block.next_offset
                 {| Block.has_data := Block.has_data (List.block_ l);
                    Block.size := Block.size (List.block_ l);
                    Block.entries := Block.entries (List.block_ l) |})
        with (Block.next_offset (List.block_ l)) by reflexivity.
      lia.
    + unfold Block.TryAdd at 1. rewrite Hfits.
      unfold List.commit, List.commit_block, Store.append.
      destruct (UintVector.add _ _) as [[ok v] | [ok v] | [ok v] | [ok v]];
        cbn [map_result bind]; try discriminate.
      change (List.memset_zero (List.allocate_block _))
        with (Block.zeroed (Store.block_size st)).
      cbn [List.head_ List.block_].
      rewrite (TryAdd_fits _ _ (fits_zeroed _ _ Hfit)). intros [= <- <-].
      cbn [List.block_ Store.block_size Block.zeroed Block.has_data Block.size
           Block.entries app].
      rewrite num_blocks_append.
      unfold Block.fits in Hfits. rewrite Hdata in Hfits. cbn [andb] in Hfits.
      apply Z.leb_gt in Hfits.
      change (Block.header_size (Bytes_size [])) with 1 in Hfits.
      change (Bytes_size []) with 0 in Hfits.
      change (Block.next_offset
                {| Block.has_data := true; Block.size := Store.block_size st;
                   Block.entries := [ {| Block.value := []; Block.deleted := false |} ] |})
        with 1.
      split; [lia |]. rewrite Z.mul_add_distr_l, Z.mul_1_r. lia.
  - change (List.memset_zero (List.allocate_block st))
      with (Block.zeroed (Store.block_size st)).
    cbn [List.head_ List.block_].
    rewrite (TryAdd_fits _ _ (fits_zeroed _ _ Hfit)). intros [= <- <-].
    cbn [List.block_ Block.zeroed Block.has_data Block.size Block.entries app].
    change (Block.next_offset
              {| Block.has_data := true; Block.size := Store.block_size st;
                 Block.entries := [ {| Block.value := []; Block.deleted := false |} ] |})
      with 1.
    unfold Block.next_offset. rewrite Htail. cbn [fold_right]. lia.
Qed.

(** [put(key, "")], as long as the bytes in use leave the block ids in
    the range of the id vector. *)
Lemma put_empty_value (key : Bytes) (sh : Shard.t) (ids_of : Bytes -> list Z) :
  shard_ok sh ids_of ->
  Bytes_size key <= Table.max_key_size ->
  1 <= Store.block_size (Shard.store_ sh) ->
  Store.num_blocks (Shard.store_ sh) <= Varint.N4_MAX_UINT ->
  Block.next_offset (List.block_ (list_of key sh))
  <= Store.block_size (Shard.store_ sh) ->
  exists sh' ids_of',
    Shard.put key [] sh = Ok sh'
    /\ shard_ok sh' ids_of'
    /\ entries_of key sh' ids_of' = entries_of key sh ids_of ++ fresh [[]]
    /\ Store.block_size (Shard.store_ sh') = Store.block_size (Shard.store_ sh)
    /\ Block.next_offset (List.block_ (list_of key sh'))
       <= Store.block_size (Shard.store_ sh')
    /\ used_bytes (Shard.store_ sh') (list_of key sh')
       = used_bytes (Shard.store_ sh) (list_of key sh) + 1.
Proof.
  intros Hok Hkey HB Hcap Hoff.
  destruct (Add_empty_value (Shard.store_ sh) (list_of key sh) (ids_of key)
              (proj1 Hok key) HB Hcap Hoff)
    as (st' & l' & ids' & Hadd & Hwf' & Hc & Hsize & Hnum & Hread & Hids'
        & Hoff' & Hused).
  destruct (put_from_Add key [] sh ids_of st' l' ids' Hok Hkey Hadd Hwf' Hsize
              Hnum Hread Hids')
    as (sh' & ids_of' & Hput & Hok' & Hst' & Hl' & He' & _).
  exists sh', ids_of'. split; [exact Hput |]. split; [exact Hok' |].
  split; [rewrite He', Hc; reflexivity |]. rewrite Hst', Hl'.
  split; [exact Hsize |]. split; [exact Hoff' | exact Hused].
Qed.

(** [n] puts of the empty value under one key. *)
Lemma puts_empty_values (key : Bytes) (n : nat) :
  forall (sh : Shard.t) (ids_of : Bytes -> list Z),
  shard_ok sh ids_of ->
  Bytes_size key <= Table.max_key_size ->
  1 <= Store.block_size (Shard.store_ sh) ->
  Block.next_offset (List.block_ (list_of key sh))
  <= Store.block_size (Shard.store_ sh) ->
  used_bytes (Shard.store_ sh) (list_of key sh) + Z.of_nat n
  <= Store.block_size (Shard.store_ sh) * (Varint.N4_MAX_UINT + 1) ->
  exists sh' ids_of',
    puts key (repeat [] n) sh = Ok sh'
    /\ shard_ok sh' ids_of'
    /\ entries_of key sh' ids_of' = entries_of key sh ids_of ++ fresh (repeat [] n)
    /\ (reachable sh -> reachable sh').
Proof.
  induction n as [| n IH]; intros sh ids_of Hok Hkey HB Hoff Hcap.
  - exists sh, ids_of. cbn [repeat puts fresh map]. rewrite app_nil_r.
    split; [reflexivity |]. split; [exact Hok |]. split; [reflexivity | auto].
  - assert (Hblocks : Store.num_blocks (Shard.store_ sh) <= Varint.N4_MAX_UINT).
    { unfold used_bytes in Hcap.
      pose proof (next_offset_nonneg (List.block_ (list_of key sh))).
      assert (Store.block_size (Shard.store_ sh) * Store.num_blocks (Shard.store_ sh)
              < Store.block_size (Shard.store_ sh) * (Varint.N4_MAX_UINT + 1)) by lia.
      apply Z.mul_lt_mono_pos_l in H0; lia. }
    destruct (put_empty_value key sh ids_of Hok Hkey HB Hblocks Hoff)
      as (sh1 & ids1 & Hput & Hok1 & He1 & Hsize1 & Hoff1 & Hused1).
    destruct (IH sh1 ids1 Hok1 Hkey ltac:(lia) Hoff1
                ltac:(rewrite Hused1, Hsize1; lia))
      as (sh' & ids' & Hputs & Hok' & He' & Hreach).
    exists sh', ids'. cbn [repeat puts]. rewrite Hput. cbn [bind].
    split; [exact Hputs |]. split; [exact Hok' |].
    split; [rewrite He', He1, <- app_assoc; reflexivity |].
    intros Hsh. apply Hreach.
    apply (reachable_step (OpPut key []) sh sh1 Hsh); [| exact Hput].
    split; [exact Hkey |]. split; [| exact Hblocks].
    unfold fits_block, Block.fits_empty. apply Z.leb_le.
    change (Block.header_size (Bytes_size []) + Bytes_size []) with 1. exact HB.
Qed.

Lemma count_deleted_fresh (values : list Bytes) : count_deleted (fresh values) = 0%nat.
Proof.
  pose proof (length_live (fresh values)) as H. rewrite live_fresh in H.
  assert (Hlen : length (fresh values) = length values)
    by (unfold fresh; apply length_map).
  lia.
Qed.

(** After [n = 2^32] puts of the empty value under one key of a new shard
    (blocks of 512 bytes), all in range: the iteration yields [n] values
    and the counters are both 0. *)
Lemma counters_wrap (n : nat) :
  Z.of_nat n = 2 ^ 32 ->
  exists sh' values,
    puts Examples.key_a (repeat [] n) Examples.shard512 = Ok sh'
    /\ reachable sh'
    /\ Shard.get Examples.key_a sh' = Some values
    /\ Z.of_nat (length values) = 2 ^ 32
    /\ List.num_values_total (List.head_ (list_of Examples.key_a sh')) = 0
    /\ List.num_values_deleted (List.head_ (list_of Examples.key_a sh')) = 0.
Proof.
  intros Hn.
  destruct (puts_empty_values Examples.key_a n Examples.shard512 (fun _ => []))
    as (sh' & ids' & Hputs & Hok' & He' & Hreach).
  - apply empty_shard_ok.
  - vm_compute. discriminate.
  - vm_compute. discriminate.
  - vm_compute. discriminate.
  - change (used_bytes (Shard.store_ Examples.shard512)
              (list_of Examples.key_a Examples.shard512)) with 0.
    change (Store.block_size (Shard.store_ Examples.shard512)) with 512.
    rewrite Hn. vm_compute. discriminate.
  - change (entries_of Examples.key_a Examples.shard512 (fun _ => [])) with
      (@nil Block.Entry) in He'.
    cbn [app] in He'.
    exists sh', (repeat [] n).
    split; [exact Hputs |]. split; [apply Hreach; apply reachable_new |].
    split; [rewrite (get_spec _ _ _ Hok'), He', live_fresh; reflexivity |].
    split; [rewrite repeat_length; exact Hn |].
    destruct (proj1 Hok' Examples.key_a) as (_ & _ & _ & _ & Htotal & Hdel).
    fold (entries_of Examples.key_a sh' ids') in Htotal, Hdel.
    rewrite He' in Htotal, Hdel.
    rewrite count_deleted_fresh in Hdel. unfold fresh in Htotal.
    rewrite length_map, repeat_length, Hn in Htotal.
    split; [rewrite Htotal | rewrite Hdel]; reflexivity.
Qed.

(** C2 (counterexample).  A new shard with blocks of 512 bytes; 2^32 puts
    of the empty value under the key "a", each within the limits of the
    code.  The state is reachable, a full iteration of the list yields
    2^32 values, and [num_values_total] and [num_values_deleted] are both
    0: the counters are 32-bit numbers. *)
Theorem counters_wrap_after_2_32_values :
  exists sh' values,
    puts Examples.key_a (repeat [] (Z.to_nat (2 ^ 32))) Examples.shard512 = Ok sh'
    /\ reachable sh'
    /\ Shard.get Examples.key_a sh' = Some values
    /\ List.num_values_total (List.head_ (list_of Examples.key_a sh'))
       - List.num_values_deleted (List.head_ (list_of Examples.key_a sh'))
       <> Z.of_nat (length values).
Proof.
  destruct (counters_wrap (Z.to_nat (2 ^ 32)) (Z2Nat.id (2 ^ 32) ltac:(lia)))
    as (sh' & values & Hputs & Hreach & Hget & Hlen & Htotal & Hdel).
  exists sh', values. split; [exact Hputs |]. split; [exact Hreach |].
  split; [exact Hget |]. rewrite Htotal, Hdel, Hlen. discriminate.
Qed.

(* ================================================================== *)
(** * Part III: further properties of the code                          *)
(* ================================================================== *)

(** ** The id vector: adding and unpacking *)

Lemma represents_init_nil : represents UintVector.init [].
Proof.
  unfold represents, UintVector.init. cbn.
  repeat split; lia.
Qed.

Lemma increasing_head_le_last (prev id : Z) (rest : list Z) (d : Z) :
  increasing prev (id :: rest) -> id <= last (id :: rest) d.
Proof.
  intros [_ Hinc]. rewrite last_cons. exact (increasing_last_ge id rest Hinc).
Qed.

Lemma add_each_represents (ids : list Z) :
  forall (v : UintVector.t) (ids0 : list Z),
    represents v ids0 ->
    increasing (last ids0 (-1)) ids ->
    Forall (fun id => id <= Varint.N4_MAX_UINT) ids ->
    exists v', add_each ids v = Some v' /\ represents v' (ids0 ++ ids).
Proof.
  induction ids as [|id rest IH]; intros v ids0 Hrep Hinc Hmax.
  - exists v. rewrite app_nil_r. split; [reflexivity | exact Hrep].
  - destruct Hinc as [Hlt Hinc]. inversion Hmax as [|? ? Hid Hmax']; subst.
    destruct (add_represents v ids0 id Hrep Hlt Hid) as (v1 & Hadd & Hrep1).
    destruct (IH v1 (ids0 ++ [id]) Hrep1) as (v' & Heach & Hrep').
    + rewrite last_app_single. exact Hinc.
    + exact Hmax'.
    + exists v'. cbn [add_each]. rewrite Hadd. split; [exact Heach |].
      rewrite <- app_assoc in Hrep'. exact Hrep'.
Qed.

Lemma add_not_greater (v : UintVector.t) (ids : list Z) (id : Z) :
  represents v ids -> ids <> [] -> id <= last ids 0 ->
  exists v', UintVector.add id v = AssertionFailed (false, v').
Proof.
  intros Hrep Hne Hid.
  pose proof (represents_ids_range v ids Hrep) as [Hrange Hindep].
  destruct (Hindep Hne) as [Hlast Hlast0].
  destruct Hrep as (Hlen & Hsz & Hgrow & Hinc & HlastN & Hshape).
  destruct ids as [|x0 ids0]; [contradiction |].
  destruct Hshape as (H8 & Hoffset & Hle & Hdata).
  set (ids := x0 :: ids0) in *.
  pose proof (deltas_length_bound ids Hinc) as Hbound.
  assert (Hoff : 0 <= UintVector.offset_ v <= UintVector.size_ v) by lia.
  destruct (allocateMoreIfFull_spec v Hlen Hoff)
    as (Ho1 & Hl1 & H81 & Hpre & Hroom & Hg1).
  unfold UintVector.add. cbv zeta.
  set (v1 := UintVector.allocateMoreIfFull v) in *.
  unfold UintVector.empty. rewrite Ho1.
  destruct (Z.eqb_spec (UintVector.offset_ v) 0) as [H0 | _]; [lia |].
  set (n := Z.of_nat (length (deltas 0 ids))) in *.
  assert (Hu : u32 (UintVector.offset_ v1 + - 4) = n).
  { rewrite Ho1, Hoffset. replace (n + 4 + - 4) with n by lia.
    apply u32_small. subst n. unfold Varint.N4_MAX_UINT in *. lia. }
  assert (Hcur : UintVector.current (UintVector.advance (- 4) v1)
                 = writeUint32 (last ids 0)
                   ++ skipn (Z.to_nat (UintVector.offset_ v)) (UintVector.data_ v1)).
  { unfold UintVector.current.
    cbn [UintVector.advance UintVector.offset_ UintVector.data_].
    rewrite Hu.
    rewrite <- (firstn_skipn (Z.to_nat (UintVector.offset_ v)) (UintVector.data_ v1)) at 1.
    rewrite Hpre, Hdata, <- app_assoc.
    replace (Z.to_nat n) with (length (deltas 0 ids)) by (subst n; lia).
    apply skipn_length_app. }
  rewrite Hcur.
  rewrite readUint32_writeUint32 by (unfold Varint.N4_MAX_UINT in *; lia).
  destruct (Z.ltb_spec (last ids 0) id); [lia |].
  eexists. reflexivity.
Qed.

(** X2.  Round trip of the id vector: when strictly increasing ids, none
    above [N4_MAX_UINT], are added to a new vector one after the other,
    every [add] returns [true] and [unpack] returns exactly these ids, in
    the order they were added. *)
Theorem add_then_unpack_round_trip (ids : list Z) :
  increasing (-1) ids ->
  Forall (fun id => id <= Varint.N4_MAX_UINT) ids ->
  exists v,
    add_each ids UintVector.init = Some v
    /\ UintVector.unpack v = Some ids.
Proof.
  intros Hinc Hmax.
  destruct (add_each_represents ids UintVector.init [] represents_init_nil Hinc Hmax)
    as (v & Heach & Hrep).
  exists v. split; [exact Heach |]. exact (unpack_represents v ids Hrep).
Qed.

Lemma add_then_unpack_round_trip_witness :
  exists v,
    add_each [0; 1; 200; 20000; 2 ^ 28 - 1] UintVector.init = Some v
    /\ UintVector.unpack v = Some [0; 1; 200; 20000; 2 ^ 28 - 1].
Proof.
  apply add_then_unpack_round_trip.
  - cbn. lia.
  - repeat constructor; vm_compute; discriminate.
Defined.

(** X3.  The ids of a vector must grow: after strictly increasing ids
    have been added to a new vector, [add] of a value that is not greater
    than the last one added stops at [MT_ASSERT_LT(prev_value, value)]. *)
Theorem add_not_greater_fails_assertion (ids : list Z) (id : Z) :
  increasing (-1) ids ->
  Forall (fun i => i <= Varint.N4_MAX_UINT) ids ->
  ids <> [] ->
  id <= last ids 0 ->
  exists v v',
    add_each ids UintVector.init = Some v
    /\ UintVector.add id v = AssertionFailed (false, v').
Proof.
  intros Hinc Hmax Hne Hid.
  destruct (add_each_represents ids UintVector.init [] represents_init_nil Hinc Hmax)
    as (v & Heach & Hrep).
  destruct (add_not_greater v ids id Hrep Hne Hid) as [v' Hadd].
  exists v, v'. split; [exact Heach | exact Hadd].
Qed.

Lemma add_not_greater_fails_assertion_witness :
  exists v v',
    add_each [3; 7; 300] UintVector.init = Some v
    /\ UintVector.add 300 v = AssertionFailed (false, v').
Proof.
  apply add_not_greater_fails_assertion.
  - cbn. lia.
  - repeat constructor; vm_compute; discriminate.
  - discriminate.
  - cbn. lia.
Defined.

(** ** The keys file: writing and reading an entry *)

(** The vector [UintVector::readFromStream] builds from what
    [UintVector::writeToStream] wrote. *)
Lemma unpack_read_back (v : UintVector.t) (ids : list Z) :
  represents v ids ->
  UintVector.unpack
    {| UintVector.data_ :=
         firstn (Z.to_nat (UintVector.offset_ v)) (UintVector.contents v);
       UintVector.offset_ := UintVector.offset_ v;
       UintVector.size_ := UintVector.offset_ v |}
  = Some ids.
Proof.
  intros Hrep. pose proof (represents_decodable v ids Hrep) as Hdec.
  destruct Hrep as (Hlen & Hsz & Hgrow & Hinc & Hlast & Hshape).
  unfold UintVector.unpack, UintVector.empty, UintVector.contents.
  cbn [UintVector.offset_ UintVector.data_].
  destruct ids as [|x ids0].
  - rewrite Hshape. reflexivity.
  - destruct Hshape as (H8 & Hoffset & Hle & Hdata).
    set (ids := x :: ids0) in *.
    pose proof (deltas_length_bound ids Hinc) as Hbound.
    destruct (Z.eqb_spec (UintVector.offset_ v) 0); [lia |].
    cbv zeta. rewrite firstn_firstn, Nat.min_id, Hdata.
    replace (u32 (UintVector.offset_ v - 4)) with (Z.of_nat (length (deltas 0 ids)))
      by (rewrite Hoffset, u32_small; unfold Varint.N4_MAX_UINT in *; lia).
    apply (unpack_loop_spec ids 0 _ _ (writeUint32 (last ids 0))); try lia.
    + exact Hdec.
    + rewrite length_app. lia.
    + unfold Varint.N4_MAX_UINT in *. lia.
    + reflexivity.
Qed.

Lemma writeEntryToFile_fields (key : Bytes) (h : List.Head) :
  Bytes_size key <= 65535 ->
  UintVector.empty (List.block_ids h) = false ->
  Table.writeEntryToFile key h
  = Some [ U16 (Bytes_size key); Raw key;
           U32 (List.num_values_total h); U32 (List.num_values_deleted h);
           U32 (UintVector.offset_ (List.block_ids h));
           Raw (UintVector.contents (List.block_ids h)) ].
Proof.
  intros Hk Hne. unfold Table.writeEntryToFile, Table.Head_WriteToStream.
  destruct (Z.leb_spec (Bytes_size key) 65535); [| lia].
  rewrite Hne. pose proof (Bytes_size_nonneg key).
  unfold u16. rewrite Z.mod_small by lia.
  unfold Bytes_size. rewrite Nat2Z.id, firstn_all. reflexivity.
Qed.

Lemma represents_not_empty (v : UintVector.t) (ids : list Z) :
  represents v ids -> ids <> [] -> UintVector.empty v = false.
Proof.
  intros (_ & _ & _ & _ & _ & Hshape) Hne.
  destruct ids; [contradiction |]. destruct Hshape as (_ & Hoff & _).
  unfold UintVector.empty. apply Z.eqb_neq. lia.
Qed.

(** X4.  Round trip of an entry of the keys file: for a key of at most
    65535 bytes and a head whose id vector holds at least one id,
    [readEntryFromFile] reads from what [writeEntryToFile] wrote the same
    key, the same two counters and an id vector that unpacks to the same
    ids, and leaves the rest of the file to be read. *)
Theorem entry_write_read_round_trip (key : Bytes) (h : List.Head) (ids : list Z)
    (rest : File) :
  Bytes_size key <= 65535 ->
  represents (List.block_ids h) ids ->
  ids <> [] ->
  exists rec h',
    Table.writeEntryToFile key h = Some rec
    /\ Table.readEntryFromFile (rec ++ rest) = Some ((key, h'), rest)
    /\ List.num_values_total h' = List.num_values_total h
    /\ List.num_values_deleted h' = List.num_values_deleted h
    /\ UintVector.unpack (List.block_ids h') = Some ids.
Proof.
  intros Hk Hrep Hne.
  pose proof (represents_not_empty _ _ Hrep Hne) as Hempty.
  eexists. eexists.
  split; [apply (writeEntryToFile_fields key h Hk Hempty) |].
  cbn [app Table.readEntryFromFile].
  unfold Bytes_size at 1. rewrite Nat2Z.id, firstn_all.
  split; [reflexivity |].
  cbn [List.num_values_total List.num_values_deleted List.block_ids].
  split; [reflexivity |]. split; [reflexivity |].
  exact (unpack_read_back _ ids Hrep).
Qed.

Lemma entry_write_read_round_trip_witness :
  exists rec h',
    Table.writeEntryToFile Examples.key_a
      {| List.num_values_total := 7; List.num_values_deleted := 2;
         List.block_ids := Examples.uv5 |} = Some rec
    /\ Table.readEntryFromFile (rec ++ [U16 1])
       = Some ((Examples.key_a, h'), [U16 1])
    /\ List.num_values_total h' = 7
    /\ List.num_values_deleted h' = 2
    /\ UintVector.unpack (List.block_ids h') = Some [1; 2; 3; 4; 5].
Proof.
  apply (entry_write_read_round_trip Examples.key_a
           {| List.num_values_total := 7; List.num_values_deleted := 2;
              List.block_ids := Examples.uv5 |} [1; 2; 3; 4; 5] [U16 1]).
  - vm_compute. discriminate.
  - vm_compute. repeat split; try discriminate; reflexivity.
  - discriminate.
Defined.

(** ** The table: creating and finding lists, opening a keys file *)



(** X6.  Opening a table whose keys file is missing: without
    [create_if_missing] the call throws and the file system is untouched;
    with it, the call creates a keys file that holds the count 0 and
    nothing else, touches no other file and yields a table without keys,
    and a later [open] of that file without the flag yields the same
    table. *)
Theorem open_missing_keys_file (file : string) (fs : FS) :
  fs file = None ->
  (exists tbl, Table.open file false fs = Thrown (fs, tbl))
  /\ exists fs',
       Table.open file true fs
       = Ok (fs', {| Table.map_ := []; Table.path_ := file |})
       /\ fs' file = Some [U32 0]
       /\ (forall p, p <> file -> fs' p = fs p)
       /\ Table.open file false fs'
          = Ok (fs', {| Table.map_ := []; Table.path_ := file |}).
Proof.
  intros Hmissing. unfold Table.open at 1 2. rewrite Hmissing.
  split; [eexists; reflexivity |].
  eexists. split; [reflexivity |].
  assert (Hfile : fs_append file [U32 0] (fs_create file fs) file = Some [U32 0]).
  { unfold fs_create. rewrite (fs_append_same file [U32 0] []).
    - reflexivity.
    - apply fs_set_same. }
  split; [exact Hfile |].
  split.
  - intros p Hne. rewrite fs_append_other by exact Hne.
    unfold fs_create. now apply fs_set_other.
  - unfold Table.open. rewrite Hfile. reflexivity.
Qed.

Lemma open_missing_keys_file_witness :
  (exists tbl, Table.open "multimap.1.keys" false Examples.fs_new
               = Thrown (Examples.fs_new, tbl))
  /\ exists fs',
       Table.open "multimap.1.keys" true Examples.fs_new
       = Ok (fs', {| Table.map_ := []; Table.path_ := "multimap.1.keys" |})
       /\ fs' "multimap.1.keys"%string = Some [U32 0]
       /\ (forall p, p <> "multimap.1.keys"%string -> fs' p = Examples.fs_new p)
       /\ Table.open "multimap.1.keys" false fs'
          = Ok (fs', {| Table.map_ := []; Table.path_ := "multimap.1.keys" |}).
Proof.
  apply open_missing_keys_file. reflexivity.
Defined.

(** ** Shards: what the operations do to an iteration *)

Lemma Flush_block (st st' : Store.t) (l l' : List.t) :
  List.Flush (st, l) = Ok (st', l') ->
  Block.has_data (List.block_ l') = false.
Proof.
  unfold List.Flush.
  destruct (Block.has_data (List.block_ l)) eqn:Hdata.
  - unfold List.commit. destruct (List.commit_block (List.block_ l) st) as [st1 id].
    destruct (UintVector.add id (List.block_ids (List.head_ l))) as [[ok ids] | | |];
      cbn [map_result bind]; try discriminate.
    intros H. injection H as _ <-. reflexivity.
  - intros H. injection H as _ <-. exact Hdata.
Qed.

Lemma flush_spec (key : Bytes) (sh : Shard.t) (ids_of : Bytes -> list Z) :
  shard_ok sh ids_of ->
  Store.num_blocks (Shard.store_ sh) <= Varint.N4_MAX_UINT ->
  exists sh' ids_of',
    run (OpFlush key) sh = Ok sh'
    /\ shard_ok sh' ids_of'
    /\ (forall k, entries_of k sh' ids_of' = entries_of k sh ids_of)
    /\ Block.has_data (List.block_ (list_of key sh')) = false
    /\ Store.block_size (Shard.store_ sh') = Store.block_size (Shard.store_ sh).
Proof.
  intros Hok Hcap. cbn [run].
  destruct (Table.getUnique key (Shard.table_ sh)) as [l |] eqn:Hl.
  2:{ exists sh, ids_of. split; [reflexivity |]. split; [exact Hok |].
      split; [reflexivity |]. split; [| reflexivity].
      unfold list_of. rewrite Hl. reflexivity. }
  pose proof (proj1 Hok key) as Hwf. unfold list_of in Hwf. rewrite Hl in Hwf.
  destruct (getUnique_find _ _ _ Hl) as [s Hs].
  destruct (Flush_well_formed _ _ _ Hwf Hcap)
    as (st' & l' & ids' & Hflush & Hwf' & Hc & Hsize & Hnum & Hread & Hids').
  rewrite Hflush. cbn [map_result bind].
  destruct (shard_ok_update key sh ids_of (Shard.table_ sh) st' l' ids' s Hok)
    as (Hok' & Hsame & He & Hothers); try assumption.
  - reflexivity.
  - lia.
  - intros id Hid _. now apply Hread.
  - intros id Hid. destruct (Hids' id Hid) as [H | ->]; [now left | right; lia].
  - eexists _, _. split; [reflexivity |]. split; [exact Hok' |].
    split.
    + intros k. destruct (Bytes_eqb k key) eqn:Hk.
      * apply Bytes_eqb_eq in Hk. subst k. rewrite He, Hc.
        unfold entries_of, list_of. rewrite Hl. reflexivity.
      * apply Bytes_eqb_neq in Hk. exact (proj2 (Hothers k Hk)).
    + split; [| exact Hsize]. rewrite Hsame. exact (Flush_block _ _ _ _ Hflush).
Qed.

(** An operation in range returns, keeps the invariant and leaves the
    entries of every other key as they are. *)
Lemma run_others (op : Op) (sh : Shard.t) (ids_of : Bytes -> list Z) :
  shard_ok sh ids_of -> in_range op sh ->
  exists sh' ids_of',
    run op sh = Ok sh'
    /\ shard_ok sh' ids_of'
    /\ forall key', key' <> key_of op ->
         entries_of key' sh' ids_of' = entries_of key' sh ids_of.
Proof.
  intros Hok Hrange. destruct op as [key value | key p all | key f all | key];
    cbn [key_of].
  - destruct Hrange as (Hkey & Hfit & Hcap).
    destruct (put_ok key value sh ids_of Hok Hkey Hfit Hcap)
      as (sh' & ids' & Hput & Hok' & _ & Hothers & _).
    exists sh', ids'. split; [exact Hput |]. split; [exact Hok' |].
    intros key' Hne. exact (proj2 (Hothers key' Hne)).
  - destruct (remove_ok key p all sh ids_of Hok)
      as (sh' & ids' & Hrun & Hok' & _ & Hothers & _).
    exists sh', ids'. cbn [run]. rewrite Hrun. split; [reflexivity |].
    split; [exact Hok' |].
    intros key' Hne. exact (proj2 (Hothers key' Hne)).
  - destruct Hrange as (vs & Hget & Hfits & Hcap).
    rewrite (get_spec key sh ids_of Hok) in Hget. injection Hget as <-.
    rewrite <- chosen_picked in Hfits, Hcap.
    destruct (replace_ok key f all sh ids_of Hok Hfits Hcap)
      as (sh' & ids' & Hrun & Hok' & _ & Hothers & _).
    exists sh', ids'. cbn [run]. rewrite Hrun. split; [reflexivity |].
    split; [exact Hok' |].
    intros key' Hne. exact (proj2 (Hothers key' Hne)).
  - destruct (flush_spec key sh ids_of Hok Hrange)
      as (sh' & ids' & Hrun & Hok' & Hsame & _).
    exists sh', ids'. split; [exact Hrun |]. split; [exact Hok' |].
    intros key' _. apply Hsame.
Qed.

Lemma live_mark_first (selected : Bytes -> bool) (es : list Block.Entry) :
  live (mark_first selected es) = drop_first selected (live es).
Proof.
  unfold live.
  induction es as [|[v d] rest IH]; [reflexivity |].
  destruct d.
  - change (map Block.value (filter is_live (mark_first selected rest))
            = drop_first selected (map Block.value (filter is_live rest))).
    exact IH.
  - cbn [mark_first]. unfold is_live at 1. cbn [Block.deleted Block.value negb andb].
    destruct (selected v) eqn:Hsel.
    + change (map Block.value (filter is_live rest)
              = drop_first selected (v :: map Block.value (filter is_live rest))).
      cbn [drop_first]. now rewrite Hsel.
    + change (v :: map Block.value (filter is_live (mark_first selected rest))
              = drop_first selected (v :: map Block.value (filter is_live rest))).
      cbn [drop_first]. rewrite Hsel. now rewrite IH.
Qed.

Lemma filter_partition_length {A} (f : A -> bool) (l : list A) :
  (length (filter f l) + length (filter (fun x => negb (f x)) l) = length l)%nat.
Proof.
  induction l as [|x l IH]; [reflexivity |].
  cbn [filter]. destruct (f x); cbn [negb length]; lia.
Qed.

Lemma drop_first_length (selected : Bytes -> bool) (vs : list Bytes) :
  (length (firstn 1 (filter selected vs)) + length (drop_first selected vs)
   = length vs)%nat.
Proof.
  induction vs as [|v rest IH]; [reflexivity |].
  cbn [filter drop_first]. destruct (selected v).
  - cbn [firstn length]. lia.
  - cbn [length]. lia.
Qed.

Lemma firstn_1_filter_existsb (selected : Bytes -> bool) (vs : list Bytes) :
  Z.of_nat (length (firstn 1 (filter selected vs)))
  = if existsb selected vs then 1 else 0.
Proof.
  induction vs as [|v rest IH]; [reflexivity |].
  cbn [filter existsb]. destruct (selected v); [reflexivity | exact IH].
Qed.

(** The values left by [Shard::remove], and how many it picks. *)
Lemma live_marked (apply_to_all : bool) (selected : Bytes -> bool)
    (es : list Block.Entry) :
  live (marked apply_to_all selected es)
  = if apply_to_all then filter (fun v => negb (selected v)) (live es)
    else drop_first selected (live es).
Proof.
  destruct apply_to_all; [apply live_mark_all | apply live_mark_first].
Qed.

Lemma marked_values (apply_to_all : bool) (selected : Bytes -> bool)
    (es : list Block.Entry) :
  map Block.value (marked apply_to_all selected es) = map Block.value es.
Proof.
  destruct apply_to_all; [apply mark_all_values | apply mark_first_values].
Qed.

Lemma chosen_live_length (apply_to_all : bool) (selected : Bytes -> bool)
    (es : list Block.Entry) :
  (length (chosen apply_to_all selected es)
   + length (live (marked apply_to_all selected es)) = length (live es))%nat.
Proof.
  rewrite live_marked. destruct apply_to_all; cbn [chosen].
  - unfold selected_values. apply filter_partition_length.
  - unfold first_selected, selected_values. apply drop_first_length.
Qed.

Lemma get_others (sh sh' : Shard.t) (ids_of ids_of' : Bytes -> list Z) (key : Bytes) :
  shard_ok sh ids_of -> shard_ok sh' ids_of' ->
  entries_of key sh' ids_of' = entries_of key sh ids_of ->
  Shard.get key sh' = Shard.get key sh.
Proof.
  intros Hok Hok' He.
  now rewrite (get_spec key sh' ids_of' Hok'), (get_spec key sh ids_of Hok), He.
Qed.

(** X7.  [removeAll] in a reachable shard: the call returns the number of
    values of the key that the predicate selects; afterwards the iterator
    of the key yields the values the predicate does not select, in their
    order, and every other key yields what it yielded before. *)
Theorem removeAll_leaves_unselected_values (key : Bytes) (predicate : Bytes -> bool)
    (sh : Shard.t) :
  reachable sh ->
  exists sh' values,
    Shard.get key sh = Some values
    /\ Shard.removeAll key predicate sh
       = Ok (sh', Z.of_nat (length (filter predicate values)))
    /\ Shard.get key sh' = Some (filter (fun v => negb (predicate v)) values)
    /\ (forall key', key' <> key -> Shard.get key' sh' = Shard.get key' sh)
    /\ reachable sh'.
Proof.
  intros Hreach. destruct (reachable_ok sh Hreach) as [ids_of Hok].
  destruct (remove_ok key predicate true sh ids_of Hok)
    as (sh' & ids' & Hrun & Hok' & He & Hothers & _).
  exists sh', (live (entries_of key sh ids_of)).
  split; [now apply get_spec |]. split; [exact Hrun |].
  split.
  - rewrite (get_spec key sh' ids' Hok'), He. cbn [marked].
    now rewrite live_mark_all.
  - split.
    + intros key' Hne.
      exact (get_others sh sh' ids_of ids' key' Hok Hok' (proj2 (Hothers key' Hne))).
    + apply (reachable_step (OpRemove key predicate true) sh sh' Hreach I).
      cbn [run]. unfold Shard.removeAll in Hrun.
      change (Shard.remove key predicate true sh) with
        (Shard.removeAll key predicate sh).
      unfold Shard.removeAll. rewrite Hrun. reflexivity.
Qed.

Lemma removeAll_leaves_unselected_values_witness :
  exists sh' values,
    Shard.get Examples.key_a Scenario.sh6 = Some values
    /\ Shard.removeAll Examples.key_a Scenario.is_first_value Scenario.sh6
       = Ok (sh', Z.of_nat (length (filter Scenario.is_first_value values)))
    /\ Shard.get Examples.key_a sh'
       = Some (filter (fun v => negb (Scenario.is_first_value v)) values)
    /\ (forall key', key' <> Examples.key_a ->
          Shard.get key' sh' = Shard.get key' Scenario.sh6)
    /\ reachable sh'.
Proof.
  apply removeAll_leaves_unselected_values. scenario_reachable.
Defined.

(** X8.  [removeFirst] in a reachable shard: the call returns 1 when the
    predicate selects a value of the key and 0 otherwise; afterwards the
    iterator of the key yields the values it yielded before without the
    first one the predicate selects, and every other key yields what it
    yielded before. *)
Theorem removeFirst_drops_first_selected_value (key : Bytes)
    (predicate : Bytes -> bool) (sh : Shard.t) :
  reachable sh ->
  exists sh' values,
    Shard.get key sh = Some values
    /\ Shard.removeFirst key predicate sh
       = Ok (sh', if existsb predicate values then 1 else 0)
    /\ Shard.get key sh' = Some (drop_first predicate values)
    /\ (forall key', key' <> key -> Shard.get key' sh' = Shard.get key' sh).
Proof.
  intros Hreach. destruct (reachable_ok sh Hreach) as [ids_of Hok].
  destruct (remove_ok key predicate false sh ids_of Hok)
    as (sh' & ids' & Hrun & Hok' & He & Hothers & _).
  exists sh', (live (entries_of key sh ids_of)).
  split; [now apply get_spec |].
  split.
  - unfold Shard.removeFirst. rewrite Hrun. cbn [chosen].
    unfold first_selected, selected_values.
    now rewrite firstn_1_filter_existsb.
  - split.
    + rewrite (get_spec key sh' ids' Hok'), He. cbn [marked].
      now rewrite live_mark_first.
    + intros key' Hne.
      exact (get_others sh sh' ids_of ids' key' Hok Hok' (proj2 (Hothers key' Hne))).
Qed.

Lemma removeFirst_drops_first_selected_value_witness :
  exists sh' values,
    Shard.get Examples.key_a Scenario.sh6 = Some values
    /\ Shard.removeFirst Examples.key_a Scenario.is_first_value Scenario.sh6
       = Ok (sh', if existsb Scenario.is_first_value values then 1 else 0)
    /\ Shard.get Examples.key_a sh' = Some (drop_first Scenario.is_first_value values)
    /\ (forall key', key' <> Examples.key_a ->
          Shard.get key' sh' = Shard.get key' Scenario.sh6).
Proof.
  apply removeFirst_drops_first_selected_value. scenario_reachable.
Defined.

Lemma filter_Bytes_eqb_count (value : Bytes) (vs : list Bytes) :
  length (filter (fun v => Bytes_eqb v value) vs) = count_occ Bytes_eq_dec vs value.
Proof.
  induction vs as [|v rest IH]; [reflexivity |].
  cbn [filter count_occ].
  destruct (Bytes_eq_dec v value) as [-> | Hne].
  - rewrite Bytes_eqb_refl. cbn [length]. now rewrite IH.
  - rewrite (proj2 (Bytes_eqb_neq v value) Hne). exact IH.
Qed.

(** X9.  [removeAllEqual] in a reachable shard: the call returns the
    number of occurrences of the value among the values of the key;
    afterwards the iterator of the key never yields that value, and it
    yields every other value as before, in the same order. *)
Theorem removeAllEqual_leaves_no_equal_value (key value : Bytes) (sh : Shard.t) :
  reachable sh ->
  exists sh' values values',
    Shard.get key sh = Some values
    /\ Shard.removeAllEqual key value sh
       = Ok (sh', Z.of_nat (count_occ Bytes_eq_dec values value))
    /\ Shard.get key sh' = Some values'
    /\ ~ In value values'
    /\ values' = filter (fun v => if Bytes_eq_dec v value then false else true) values.
Proof.
  intros Hreach. destruct (reachable_ok sh Hreach) as [ids_of Hok].
  set (p := fun current_value => Bytes_eqb current_value value).
  destruct (remove_ok key p true sh ids_of Hok)
    as (sh' & ids' & Hrun & Hok' & He & _).
  exists sh', (live (entries_of key sh ids_of)),
    (filter (fun v => negb (p v)) (live (entries_of key sh ids_of))).
  split; [now apply get_spec |].
  split.
  { unfold Shard.removeAllEqual, Shard.removeAll. fold p. rewrite Hrun.
    cbn [chosen]. unfold selected_values. subst p.
    now rewrite filter_Bytes_eqb_count. }
  split.
  { rewrite (get_spec key sh' ids' Hok'), He. cbn [marked].
    now rewrite live_mark_all. }
  split.
  - intros Hin. apply filter_In in Hin. destruct Hin as [_ Hp].
    subst p. cbn beta in Hp. rewrite Bytes_eqb_refl in Hp. discriminate.
  - apply filter_ext. intros v. subst p. cbn beta.
    destruct (Bytes_eq_dec v value) as [-> | Hne].
    + now rewrite Bytes_eqb_refl.
    + now rewrite (proj2 (Bytes_eqb_neq v value) Hne).
Qed.

Lemma removeAllEqual_leaves_no_equal_value_witness :
  exists sh' values values',
    Shard.get Examples.key_a Scenario.sh6 = Some values
    /\ Shard.removeAllEqual Examples.key_a (Examples.raw 10 2) Scenario.sh6
       = Ok (sh', Z.of_nat (count_occ Bytes_eq_dec values (Examples.raw 10 2)))
    /\ Shard.get Examples.key_a sh' = Some values'
    /\ ~ In (Examples.raw 10 2) values'
    /\ values'
       = filter (fun v => if Bytes_eq_dec v (Examples.raw 10 2) then false else true)
                values.
Proof.
  apply removeAllEqual_leaves_no_equal_value. scenario_reachable.
Defined.

(** X10.  [Shard::remove] frees nothing and rewrites no value: in a
    reachable shard the call returns, the list of the key has the same
    entries with the same values in the same places afterwards (entries
    are only marked), and the store has as many blocks of the same size
    as before. *)
Theorem remove_only_marks_entries (key : Bytes) (predicate : Bytes -> bool)
    (apply_to_all : bool) (sh : Shard.t) :
  reachable sh ->
  exists ids_of sh' n ids_of',
    shard_ok sh ids_of
    /\ Shard.remove key predicate apply_to_all sh = Ok (sh', n)
    /\ shard_ok sh' ids_of'
    /\ map Block.value (entries_of key sh' ids_of')
       = map Block.value (entries_of key sh ids_of)
    /\ Store.num_blocks (Shard.store_ sh') = Store.num_blocks (Shard.store_ sh)
    /\ Store.block_size (Shard.store_ sh') = Store.block_size (Shard.store_ sh).
Proof.
  intros Hreach. destruct (reachable_ok sh Hreach) as [ids_of Hok].
  destruct (remove_ok key predicate apply_to_all sh ids_of Hok)
    as (sh' & ids' & Hrun & Hok' & He & _ & Hsize & Hnum).
  exists ids_of, sh'; eexists; exists ids'.
  split; [exact Hok |]. split; [exact Hrun |].
  split; [exact Hok' |].
  split; [rewrite He; apply marked_values |]. split; assumption.
Qed.

Lemma remove_only_marks_entries_witness :
  exists ids_of sh' n ids_of',
    shard_ok Scenario.sh6 ids_of
    /\ Shard.remove Examples.key_a Scenario.is_first_value true Scenario.sh6
       = Ok (sh', n)
    /\ shard_ok sh' ids_of'
    /\ map Block.value (entries_of Examples.key_a sh' ids_of')
       = map Block.value (entries_of Examples.key_a Scenario.sh6 ids_of)
    /\ Store.num_blocks (Shard.store_ sh') = Store.num_blocks (Shard.store_ Scenario.sh6)
    /\ Store.block_size (Shard.store_ sh') = Store.block_size (Shard.store_ Scenario.sh6).
Proof.
  apply remove_only_marks_entries. scenario_reachable.
Defined.

(** X11.  Keys do not interfere: in a reachable shard an operation within
    the limits of the code ([put], [remove], [replace], or a flush of the
    list of a key) returns, and every key other than the one it works on
    yields afterwards what it yielded before. *)
Theorem operation_leaves_other_keys (op : Op) (sh : Shard.t) :
  reachable sh ->
  in_range op sh ->
  exists sh',
    run op sh = Ok sh'
    /\ forall key', key' <> key_of op -> Shard.get key' sh' = Shard.get key' sh.
Proof.
  intros Hreach Hrange. destruct (reachable_ok sh Hreach) as [ids_of Hok].
  destruct (run_others op sh ids_of Hok Hrange) as (sh' & ids' & Hrun & Hok' & Hothers).
  exists sh'. split; [exact Hrun |].
  intros key' Hne.
  exact (get_others sh sh' ids_of ids' key' Hok Hok' (Hothers key' Hne)).
Qed.

Lemma operation_leaves_other_keys_witness :
  exists sh',
    run (OpPut Examples.key_b (Examples.raw 12 9)) Scenario.sh6 = Ok sh'
    /\ forall key', key' <> Examples.key_b ->
         Shard.get key' sh' = Shard.get key' Scenario.sh6.
Proof.
  apply (operation_leaves_other_keys (OpPut Examples.key_b (Examples.raw 12 9))).
  - scenario_reachable.
  - put_in_range.
Defined.

Lemma Flush_counters (st st' : Store.t) (l l' : List.t) :
  List.Flush (st, l) = Ok (st', l') ->
  List.num_values_total (List.head_ l') = List.num_values_total (List.head_ l)
  /\ List.num_values_deleted (List.head_ l') = List.num_values_deleted (List.head_ l).
Proof.
  unfold List.Flush.
  destruct (Block.has_data (List.block_ l)) eqn:Hdata.
  - unfold List.commit. destruct (List.commit_block (List.block_ l) st) as [st1 id].
    destruct (UintVector.add id (List.block_ids (List.head_ l))) as [[ok ids] | | |];
      cbn [map_result bind]; try discriminate.
    intros H. injection H as _ <-. split; reflexivity.
  - intros H. injection H as _ <-. split; reflexivity.
Qed.

(** X12.  A flush is invisible: in a reachable shard whose store holds at
    most [N4_MAX_UINT] blocks, flushing the list of a key (as
    [Table::close] does) returns, leaves the list without an in-memory
    block and with the same counters, and every key, this one included,
    yields afterwards what it yielded before. *)
Theorem flush_keeps_every_iteration (key : Bytes) (sh : Shard.t) :
  reachable sh ->
  Store.num_blocks (Shard.store_ sh) <= Varint.N4_MAX_UINT ->
  exists sh',
    run (OpFlush key) sh = Ok sh'
    /\ (forall k, Shard.get k sh' = Shard.get k sh)
    /\ Block.has_data (List.block_ (list_of key sh')) = false
    /\ List.num_values_total (List.head_ (list_of key sh'))
       = List.num_values_total (List.head_ (list_of key sh))
    /\ List.num_values_deleted (List.head_ (list_of key sh'))
       = List.num_values_deleted (List.head_ (list_of key sh)).
Proof.
  intros Hreach Hcap. destruct (reachable_ok sh Hreach) as [ids_of Hok].
  destruct (flush_spec key sh ids_of Hok Hcap)
    as (sh' & ids' & Hrun & Hok' & Hsame & Hblock & _).
  exists sh'. split; [exact Hrun |].
  split.
  { intros k. exact (get_others sh sh' ids_of ids' k Hok Hok' (Hsame k)). }
  split; [exact Hblock |].
  revert Hrun. cbn [run]. unfold list_of at 2 4.
  destruct (Table.getUnique key (Shard.table_ sh)) as [l |] eqn:Hl.
  - destruct (List.Flush (Shard.store_ sh, l)) as [[st' l'] | | |] eqn:Hflush;
      cbn [map_result bind]; try discriminate.
    intros H. injection H as <-.
    destruct (getUnique_find _ _ _ Hl) as [s Hs].
    pose proof (list_of_with_list_same key (Shard.table_ sh) st' l' s Hs) as Hsame'.
    cbn [Shard.with_list] in Hsame'. rewrite Hsame'.
    exact (Flush_counters _ _ _ _ Hflush).
  - intros H. injection H as <-. unfold list_of. rewrite Hl. split; reflexivity.
Qed.

Lemma flush_keeps_every_iteration_witness :
  exists sh',
    run (OpFlush Examples.key_a) Scenario.sh6 = Ok sh'
    /\ (forall k, Shard.get k sh' = Shard.get k Scenario.sh6)
    /\ Block.has_data (List.block_ (list_of Examples.key_a sh')) = false
    /\ List.num_values_total (List.head_ (list_of Examples.key_a sh'))
       = List.num_values_total (List.head_ (list_of Examples.key_a Scenario.sh6))
    /\ List.num_values_deleted (List.head_ (list_of Examples.key_a sh'))
       = List.num_values_deleted (List.head_ (list_of Examples.key_a Scenario.sh6)).
Proof.
  apply flush_keeps_every_iteration.
  - scenario_reachable.
  - vm_compute. discriminate.
Defined.

Lemma counters_exact (key : Bytes) (sh : Shard.t) (ids_of : Bytes -> list Z) :
  shard_ok sh ids_of ->
  Z.of_nat (length (entries_of key sh ids_of)) < 2 ^ 32 ->
  let head := List.head_ (list_of key sh) in
  List.num_values_total head = Z.of_nat (length (entries_of key sh ids_of))
  /\ List.num_values_deleted head
     = Z.of_nat (count_deleted (entries_of key sh ids_of))
  /\ List.size (list_of key sh)
     = Z.of_nat (length (live (entries_of key sh ids_of))).
Proof.
  intros Hok Hlen head.
  destruct (proj1 Hok key) as (_ & _ & _ & _ & Htotal & Hdel).
  fold (entries_of key sh ids_of) in Htotal, Hdel.
  pose proof (length_live (entries_of key sh ids_of)) as Hlive.
  assert (Ht : List.num_values_total head
               = Z.of_nat (length (entries_of key sh ids_of))).
  { subst head. rewrite Htotal. apply u32_small. lia. }
  assert (Hd : List.num_values_deleted head
               = Z.of_nat (count_deleted (entries_of key sh ids_of))).
  { subst head. rewrite Hdel. apply u32_small. lia. }
  split; [exact Ht |]. split; [exact Hd |].
  unfold List.size. fold head. rewrite Ht, Hd. rewrite u32_small; lia.
Qed.

(** X13.  The counters follow [Shard::remove]: in a reachable shard, for
    a key whose list has fewer than 2^32 entries, the call returns the
    number [n] of values it marked, which is at most the [size()] of the
    list; afterwards [size()] is smaller by [n], [num_values_deleted] is
    larger by [n], and [num_values_total] is unchanged. *)
Theorem remove_updates_counters (key : Bytes) (predicate : Bytes -> bool)
    (apply_to_all : bool) (sh : Shard.t) :
  reachable sh ->
  exists ids_of,
    shard_ok sh ids_of
    /\ (Z.of_nat (length (entries_of key sh ids_of)) < 2 ^ 32 ->
        exists sh' n,
          Shard.remove key predicate apply_to_all sh = Ok (sh', n)
          /\ 0 <= n <= List.size (list_of key sh)
          /\ List.size (list_of key sh') = List.size (list_of key sh) - n
          /\ List.num_values_deleted (List.head_ (list_of key sh'))
             = List.num_values_deleted (List.head_ (list_of key sh)) + n
          /\ List.num_values_total (List.head_ (list_of key sh'))
             = List.num_values_total (List.head_ (list_of key sh))).
Proof.
  intros Hreach. destruct (reachable_ok sh Hreach) as [ids_of Hok].
  exists ids_of. split; [exact Hok |]. intros Hlen.
  destruct (remove_ok key predicate apply_to_all sh ids_of Hok)
    as (sh' & ids' & Hrun & Hok' & He & _).
  set (es := entries_of key sh ids_of) in *.
  assert (Hlen' : length (entries_of key sh' ids') = length es).
  { rewrite He, <- (length_map Block.value), marked_values. apply length_map. }
  destruct (counters_exact key sh ids_of Hok Hlen) as (Ht & Hd & Hs).
  destruct (counters_exact key sh' ids' Hok') as (Ht' & Hd' & Hs').
  { rewrite Hlen'. exact Hlen. }
  fold es in Ht, Hd, Hs.
  pose proof (chosen_live_length apply_to_all predicate es) as Hsum.
  pose proof (length_live es) as Hl.
  pose proof (length_live (entries_of key sh' ids')) as Hl'.
  rewrite Hlen' in Hl'. rewrite He in Hl' at 1.
  exists sh', (Z.of_nat (length (chosen apply_to_all predicate es))).
  split; [exact Hrun |].
  rewrite Hs, Hs', Hd, Hd', Ht, Ht', Hlen'. rewrite He at 1.
  repeat split; lia.
Qed.

Lemma remove_updates_counters_witness :
  exists ids_of,
    shard_ok Scenario.sh6 ids_of
    /\ (Z.of_nat (length (entries_of Examples.key_a Scenario.sh6 ids_of)) < 2 ^ 32 ->
        exists sh' n,
          Shard.remove Examples.key_a Scenario.is_first_value true Scenario.sh6
          = Ok (sh', n)
          /\ 0 <= n <= List.size (list_of Examples.key_a Scenario.sh6)
          /\ List.size (list_of Examples.key_a sh')
             = List.size (list_of Examples.key_a Scenario.sh6) - n
          /\ List.num_values_deleted (List.head_ (list_of Examples.key_a sh'))
             = List.num_values_deleted
                 (List.head_ (list_of Examples.key_a Scenario.sh6)) + n
          /\ List.num_values_total (List.head_ (list_of Examples.key_a sh'))
             = List.num_values_total
                 (List.head_ (list_of Examples.key_a Scenario.sh6))).
Proof.
  apply remove_updates_counters. scenario_reachable.
Defined.

Lemma filter_filter_negb {A} (f : A -> bool) (l : list A) :
  filter f (filter (fun x => negb (f x)) l) = [].
Proof.
  induction l as [|x l IH]; [reflexivity |].
  cbn [filter]. destruct (f x) eqn:Hf; cbn [negb]; [exact IH |].
  cbn [filter]. now rewrite Hf.
Qed.

Lemma filter_negb_idem {A} (f : A -> bool) (l : list A) :
  filter (fun x => negb (f x)) (filter (fun x => negb (f x)) l)
  = filter (fun x => negb (f x)) l.
Proof.
  induction l as [|x l IH]; [reflexivity |].
  cbn [filter]. destruct (f x) eqn:Hf; cbn [negb]; [exact IH |].
  cbn [filter]. rewrite Hf. cbn [negb]. now rewrite IH.
Qed.

(** X14.  [removeAll] is idempotent: in a reachable shard, a second
    [removeAll] with the same key and predicate right after the first
    returns 0 and leaves what the key yields as the first call left it. *)
Theorem removeAll_twice_removes_nothing_more (key : Bytes)
    (predicate : Bytes -> bool) (sh : Shard.t) :
  reachable sh ->
  exists sh1 n sh2,
    Shard.removeAll key predicate sh = Ok (sh1, n)
    /\ Shard.removeAll key predicate sh1 = Ok (sh2, 0)
    /\ Shard.get key sh2 = Shard.get key sh1.
Proof.
  intros Hreach. destruct (reachable_ok sh Hreach) as [ids_of Hok].
  destruct (remove_ok key predicate true sh ids_of Hok)
    as (sh1 & ids1 & Hrun1 & Hok1 & He1 & _).
  destruct (remove_ok key predicate true sh1 ids1 Hok1)
    as (sh2 & ids2 & Hrun2 & Hok2 & He2 & _).
  exists sh1; eexists; exists sh2.
  split; [exact Hrun1 |].
  cbn [chosen marked] in *. unfold selected_values in Hrun2.
  rewrite He1, live_mark_all, filter_filter_negb in Hrun2.
  split; [exact Hrun2 |].
  rewrite (get_spec key sh2 ids2 Hok2), (get_spec key sh1 ids1 Hok1), He2.
  rewrite live_mark_all, He1, live_mark_all. now rewrite filter_negb_idem.
Qed.

Lemma removeAll_twice_removes_nothing_more_witness :
  exists sh1 n sh2,
    Shard.removeAll Examples.key_a Scenario.is_first_value Scenario.sh6 = Ok (sh1, n)
    /\ Shard.removeAll Examples.key_a Scenario.is_first_value sh1 = Ok (sh2, 0)
    /\ Shard.get Examples.key_a sh2 = Shard.get Examples.key_a sh1.
Proof.
  apply removeAll_twice_removes_nothing_more. scenario_reachable.
Defined.

(** ** The predicates of callables.hpp *)

Lemma Bytes_eqb_firstn_prefix (value pattern : Bytes) :
  (length pattern <= length value)%nat ->
  (Bytes_eqb (firstn (length pattern) value) (firstn (length pattern) pattern) = true
   <-> exists rest, value = pattern ++ rest).
Proof.
  intros Hlen. rewrite firstn_all, Bytes_eqb_eq. split.
  - intros H. exists (skipn (length pattern) value).
    rewrite <- H at 1. symmetry. apply firstn_skipn.
  - intros [rest ->]. apply firstn_length_app.
Qed.

Lemma Bytes_size_app (a b : Bytes) : Bytes_size (a ++ b) = Bytes_size a + Bytes_size b.
Proof. unfold Bytes_size. rewrite length_app. lia. Qed.

Lemma memcmp_eq_whole (value pattern : Bytes) :
  Bytes_size pattern <= Bytes_size value ->
  exists b,
    Callables.memcmp_eq value pattern (Bytes_size pattern) = Some b
    /\ (b = true <-> exists rest, value = pattern ++ rest).
Proof.
  intros Hsize. unfold Callables.memcmp_eq.
  destruct (Z.leb_spec (Bytes_size pattern) (Bytes_size value)); [| lia].
  rewrite Z.leb_refl. cbn [andb]. eexists. split; [reflexivity |].
  unfold Bytes_size at 1 2. rewrite Nat2Z.id.
  apply Bytes_eqb_firstn_prefix. unfold Bytes_size in Hsize. lia.
Qed.

(** X15.  [StartsWith(prefix)] never reads past a buffer, and it holds
    for a value exactly when the value is the prefix followed by further
    bytes (none, possibly); an empty prefix starts every value. *)
Theorem StartsWith_iff_prefix (prefix value : Bytes) :
  exists b,
    Callables.StartsWith prefix value = Some b
    /\ (b = true <-> exists rest, value = prefix ++ rest).
Proof.
  unfold Callables.StartsWith.
  destruct (Z.geb_spec (Bytes_size value) (Bytes_size prefix)) as [Hge | Hlt].
  - apply memcmp_eq_whole. lia.
  - exists false. split; [reflexivity |]. split; [discriminate |].
    intros [rest ->]. rewrite Bytes_size_app in Hlt.
    pose proof (Bytes_size_nonneg rest). lia.
Qed.

Lemma to_int_small (d : Z) :
  - 2 ^ 31 <= d < 2 ^ 31 -> Callables.to_int (d mod 2 ^ 64) = d.
Proof.
  intros Hd. unfold Callables.to_int. cbv zeta.
  rewrite (Z.mod_mod_divide d (2 ^ 64) (2 ^ 32)) by (exists (2 ^ 32); reflexivity).
  destruct (Z.lt_ge_cases d 0) as [Hneg | Hpos].
  - assert (Hmod : d mod 2 ^ 32 = d + 2 ^ 32).
    { symmetry. apply (Z.mod_unique d (2 ^ 32) (-1)); lia. }
    rewrite Hmod. destruct (Z.ltb_spec (d + 2 ^ 32) (2 ^ 31)); lia.
  - rewrite Z.mod_small by lia. destruct (Z.ltb_spec d (2 ^ 31)); lia.
Qed.

(** X16.  [EndsWith(suffix)]: when the difference of the two sizes fits
    into the [int] that receives it, the predicate never reads past a
    buffer, and it holds for a value exactly when the value ends with the
    suffix. *)
Theorem EndsWith_iff_suffix (suffix value : Bytes) :
  - 2 ^ 31 <= Bytes_size value - Bytes_size suffix < 2 ^ 31 ->
  exists b,
    Callables.EndsWith suffix value = Some b
    /\ (b = true <-> exists front, value = front ++ suffix).
Proof.
  intros Hd. unfold Callables.EndsWith. cbv zeta.
  rewrite (to_int_small _ Hd).
  destruct (Z.geb_spec (Bytes_size value - Bytes_size suffix) 0) as [Hge | Hlt].
  - set (diff := Z.to_nat (Bytes_size value - Bytes_size suffix)).
    assert (Hdiff : (diff + length suffix = length value)%nat).
    { subst diff. unfold Bytes_size in *. lia. }
    assert (Hskip : length (skipn diff value) = length suffix).
    { rewrite length_skipn. lia. }
    destruct (memcmp_eq_whole (skipn diff value) suffix) as (b & Hb & Hiff).
    { unfold Bytes_size. lia. }
    exists b. split; [exact Hb |]. rewrite Hiff. split.
    + intros [rest Hrest]. exists (firstn diff value).
      assert (rest = []) as ->.
      { apply length_zero_iff_nil.
        rewrite Hrest, length_app in Hskip. lia. }
      rewrite app_nil_r in Hrest. rewrite <- Hrest. symmetry. apply firstn_skipn.
    + intros [front Hfront]. exists [].
      rewrite app_nil_r. subst value.
      rewrite length_app in Hdiff.
      replace diff with (length front) by lia. apply skipn_length_app.
  - exists false. split; [reflexivity |]. split; [discriminate |].
    intros [front ->]. rewrite Bytes_size_app in Hlt.
    pose proof (Bytes_size_nonneg front). lia.
Qed.

Lemma EndsWith_iff_suffix_witness :
  exists b,
    Callables.EndsWith [3; 4] [1; 2; 3; 4] = Some b
    /\ (b = true <-> exists front, [1; 2; 3; 4] = front ++ [3; 4]).
Proof.
  apply EndsWith_iff_suffix. vm_compute. split; [discriminate | reflexivity].
Defined.

Lemma matches_at_iff (value pattern : Bytes) :
  Callables.matches_at value pattern = true <-> exists rest, value = pattern ++ rest.
Proof.
  revert value. induction pattern as [|p pattern IH]; intros value.
  - destruct value; cbn; split; eauto.
  - destruct value as [|x value]; cbn [Callables.matches_at].
    + split; [discriminate | intros [rest H]; discriminate].
    + rewrite andb_true_iff, Z.eqb_eq, IH. split.
      * intros [-> [rest ->]]. now exists rest.
      * intros [rest H]. injection H as -> ->. split; [reflexivity | now exists rest].
Qed.

Lemma search_le (value pattern : Bytes) :
  (Callables.search value pattern <= length value)%nat.
Proof.
  induction value as [|x value IH]; cbn [Callables.search].
  - destruct (Callables.matches_at [] pattern); cbn; lia.
  - destruct (Callables.matches_at (x :: value) pattern); cbn [length]; lia.
Qed.

Lemma search_found_iff (value pattern : Bytes) :
  pattern <> [] ->
  (Callables.search value pattern <> length value
   <-> exists a b, value = a ++ pattern ++ b).
Proof.
  intros Hne. induction value as [|x value IH].
  - cbn [Callables.search length].
    destruct (Callables.matches_at [] pattern) eqn:Hm.
    + apply matches_at_iff in Hm. destruct Hm as [rest Hrest].
      destruct pattern; [contradiction | discriminate].
    + split; [intros H; now contradiction H |].
      intros (a & b & H). destruct a, pattern; try discriminate; contradiction.
  - cbn [Callables.search length].
    destruct (Callables.matches_at (x :: value) pattern) eqn:Hm.
    + apply matches_at_iff in Hm. destruct Hm as [rest Hrest].
      split; [| discriminate]. intros _. exists [], rest. exact Hrest.
    + split.
      * intros H. destruct (proj1 IH ltac:(congruence)) as (a & b & ->).
        now exists (x :: a), b.
      * intros (a & b & H). destruct a as [|y a].
        -- cbn [app] in H.
           assert (Callables.matches_at (x :: value) pattern = true)
             by (apply matches_at_iff; now exists b).
           congruence.
        -- injection H as -> ->.
           assert (Callables.search (a ++ pattern ++ b) pattern
                   <> length (a ++ pattern ++ b))
             by (apply IH; now exists a, b).
           congruence.
Qed.

(** X17.  [Contains(pattern)] holds for a value exactly when the pattern
    occurs in the value as a run of consecutive bytes; the empty pattern
    occurs in every value, the empty one included. *)
Theorem Contains_iff_occurs (pattern value : Bytes) :
  Callables.Contains pattern value = true
  <-> exists a b, value = a ++ pattern ++ b.
Proof.
  unfold Callables.Contains.
  destruct pattern as [|p pattern].
  - cbn. split; [| reflexivity]. intros _. now exists [], value.
  - assert (Hpos : (Bytes_size (p :: pattern) >? 0) = true).
    { apply Z.gtb_lt. unfold Bytes_size. cbn [length]. lia. }
    rewrite Hpos, negb_true_iff, Nat.eqb_neq.
    apply search_found_iff. discriminate.
Qed.

(** ** [Table::forEachKey] and [Shard::contains] *)

Lemma forEachKey_loop_spec (entries : list (Bytes * Table.Slot)) :
  (forall key slot, In (key, slot) entries ->
     Table.slot_mutex slot <> Table.LockedUnique) ->
  Table.forEachKey_loop entries = Some (map fst (filter holds_values entries)).
Proof.
  induction entries as [|[key slot] rest IH]; intros Hfree; [reflexivity |].
  cbn [Table.forEachKey_loop].
  assert (Hlock : Table.tryLockShared (Table.slot_mutex slot) = true).
  { specialize (Hfree key slot (or_introl eq_refl)).
    destruct (Table.slot_mutex slot); [reflexivity | reflexivity | contradiction]. }
  rewrite Hlock, IH by (intros k s Hin; apply (Hfree k s); now right).
  change (filter holds_values ((key, slot) :: rest))
    with (if negb (List.empty (Table.slot_list slot))
          then (key, slot) :: filter holds_values rest
          else filter holds_values rest).
  destruct (negb (List.empty (Table.slot_list slot))); reflexivity.
Qed.

Lemma find_In_NoDup (key : Bytes) (s : Table.Slot) (m : list (Bytes * Table.Slot)) :
  NoDup (map fst m) -> In (key, s) m -> Table.find key m = Some s.
Proof.
  intros Hnd Hin.
  destruct (Table.find key m) as [s' |] eqn:Hfind.
  - f_equal. apply (NoDup_keys_In_unique m key s' s Hnd); [| exact Hin].
    now apply find_Some_In.
  - apply find_None_iff in Hfind. contradiction Hfind.
    apply (in_map fst) in Hin. exact Hin.
Qed.

(** X18.  [Table::forEachKey] and [Shard::contains] agree: when no list
    of the table is held with a unique lock by another thread,
    [forEachKey] returns, it calls the procedure once for every key for
    which [contains] holds, that is, every key whose list is not empty,
    and for no other key. *)
Theorem forEachKey_visits_contained_keys (sh : Shard.t) :
  NoDup (map fst (Table.map_ (Shard.table_ sh))) ->
  (forall key slot, In (key, slot) (Table.map_ (Shard.table_ sh)) ->
     Table.slot_mutex slot <> Table.LockedUnique) ->
  exists keys,
    Table.forEachKey (Shard.table_ sh) = Some keys
    /\ NoDup keys
    /\ forall key, In key keys <-> Shard.contains key sh = true.
Proof.
  intros Hnd Hfree. exists (map fst (filter holds_values (Table.map_ (Shard.table_ sh)))).
  split; [now apply forEachKey_loop_spec |].
  split; [now apply NoDup_keys_filter |].
  intros key. unfold Shard.contains, Table.getUnique. split.
  - intros Hin. apply in_map_iff in Hin. destruct Hin as ([k s] & Hk & Hin).
    cbn [fst] in Hk. subst k. apply filter_In in Hin. destruct Hin as [Hin Hholds].
    rewrite (find_In_NoDup key s _ Hnd Hin). exact Hholds.
  - destruct (Table.find key (Table.map_ (Shard.table_ sh))) as [s |] eqn:Hfind;
      [| discriminate].
    intros Hholds. apply in_map_iff. exists (key, s). split; [reflexivity |].
    apply filter_In. split; [now apply find_Some_In | exact Hholds].
Qed.

Lemma forEachKey_visits_contained_keys_witness :
  exists keys,
    Table.forEachKey (Shard.table_ Examples.shard_abc) = Some keys
    /\ NoDup keys
    /\ forall key, In key keys <-> Shard.contains key Examples.shard_abc = true.
Proof.
  apply forEachKey_visits_contained_keys.
  - vm_compute. repeat constructor; cbn; intuition discriminate.
  - intros key slot Hin. vm_compute in Hin.
    destruct Hin as [H | [H | [H | []]]]; injection H as _ <-; discriminate.
Defined.

Lemma contains_list_of (key : Bytes) (sh : Shard.t) :
  List.empty (list_of key sh) = true -> Shard.contains key sh = false.
Proof.
  unfold Shard.contains, list_of.
  destruct (Table.getUnique key (Shard.table_ sh)); [| reflexivity].
  now intros ->.
Qed.

Lemma contains_nonempty (key : Bytes) (sh : Shard.t) (ids_of : Bytes -> list Z) :
  shard_ok sh ids_of ->
  entries_of key sh ids_of <> [] ->
  List.empty (list_of key sh) = false ->
  Shard.contains key sh = true.
Proof.
  intros Hok Hne Hempty. unfold Shard.contains.
  destruct (Table.getUnique key (Shard.table_ sh)) as [l |] eqn:Hl.
  - unfold list_of in Hempty. rewrite Hl in Hempty. now rewrite Hempty.
  - contradiction Hne. exact (entries_of_absent key sh ids_of Hok Hl).
Qed.

Lemma filter_negb_true {A} (l : list A) :
  filter (fun x => negb ((fun _ : A => true) x)) l = [].
Proof. induction l; [reflexivity | exact IHl]. Qed.

(** X19.  A key is contained after a [put]: in a reachable shard, for a
    [put] within the limits of the code under a key whose list has fewer
    than 2^32 - 1 entries, the call returns and [contains] holds for the
    key afterwards. *)
Theorem put_makes_key_contained (key value : Bytes) (sh : Shard.t) :
  reachable sh ->
  in_range (OpPut key value) sh ->
  exists ids_of,
    shard_ok sh ids_of
    /\ (Z.of_nat (length (entries_of key sh ids_of)) < 2 ^ 32 - 1 ->
        exists sh',
          Shard.put key value sh = Ok sh'
          /\ Shard.contains key sh' = true).
Proof.
  intros Hreach (Hkey & Hfit & Hcap).
  destruct (reachable_ok sh Hreach) as [ids_of Hok].
  exists ids_of. split; [exact Hok |]. intros Hlen.
  destruct (put_ok key value sh ids_of Hok Hkey Hfit Hcap)
    as (sh' & ids' & Hput & Hok' & He & _).
  exists sh'. split; [exact Hput |].
  assert (Hlen' : Z.of_nat (length (entries_of key sh' ids')) < 2 ^ 32).
  { rewrite He, length_app. cbn [fresh map length]. lia. }
  destruct (counters_exact key sh' ids' Hok' Hlen') as (_ & _ & Hsize).
  apply (contains_nonempty key sh' ids' Hok').
  - rewrite He. intros H. apply app_eq_nil in H. destruct H as [_ H]. discriminate.
  - unfold List.empty. apply Z.eqb_neq. rewrite Hsize, He, live_app, live_fresh.
    rewrite length_app. cbn [length]. lia.
Qed.

Lemma put_makes_key_contained_witness :
  exists ids_of,
    shard_ok Scenario.sh6 ids_of
    /\ (Z.of_nat (length (entries_of Examples.key_c Scenario.sh6 ids_of)) < 2 ^ 32 - 1 ->
        exists sh',
          Shard.put Examples.key_c (Examples.raw 5 5) Scenario.sh6 = Ok sh'
          /\ Shard.contains Examples.key_c sh' = true).
Proof.
  apply put_makes_key_contained.
  - scenario_reachable.
  - put_in_range.
Defined.

(** X20.  A key is no longer contained once every value is removed: in a
    reachable shard, for a key whose list has fewer than 2^32 entries,
    [removeAll] with a predicate that selects every value returns;
    afterwards the iterator of the key yields nothing and [contains] does
    not hold for the key. *)
Theorem removing_every_value_empties_key (key : Bytes) (sh : Shard.t) :
  reachable sh ->
  exists ids_of,
    shard_ok sh ids_of
    /\ (Z.of_nat (length (entries_of key sh ids_of)) < 2 ^ 32 ->
        exists sh' n,
          Shard.removeAll key (fun _ => true) sh = Ok (sh', n)
          /\ Shard.get key sh' = Some []
          /\ Shard.contains key sh' = false).
Proof.
  intros Hreach. destruct (reachable_ok sh Hreach) as [ids_of Hok].
  exists ids_of. split; [exact Hok |]. intros Hlen.
  destruct (remove_ok key (fun _ => true) true sh ids_of Hok)
    as (sh' & ids' & Hrun & Hok' & He & _).
  exists sh'; eexists. split; [exact Hrun |].
  cbn [marked] in He.
  assert (Hlive : live (entries_of key sh' ids') = []).
  { rewrite He, live_mark_all. apply filter_negb_true. }
  split; [rewrite (get_spec key sh' ids' Hok'), Hlive; reflexivity |].
  apply contains_list_of.
  assert (Hlen' : Z.of_nat (length (entries_of key sh' ids')) < 2 ^ 32).
  { rewrite He, <- (length_map Block.value), mark_all_values, length_map.
    exact Hlen. }
  destruct (counters_exact key sh' ids' Hok' Hlen') as (_ & _ & Hsize).
  unfold List.empty. rewrite Hsize, Hlive. reflexivity.
Qed.

Lemma removing_every_value_empties_key_witness :
  exists ids_of,
    shard_ok Scenario.sh6 ids_of
    /\ (Z.of_nat (length (entries_of Examples.key_a Scenario.sh6 ids_of)) < 2 ^ 32 ->
        exists sh' n,
          Shard.removeAll Examples.key_a (fun _ => true) Scenario.sh6 = Ok (sh', n)
          /\ Shard.get Examples.key_a sh' = Some []
          /\ Shard.contains Examples.key_a sh' = false).
Proof.
  apply removing_every_value_empties_key. scenario_reachable.
Defined.

(** ** The mutable iterator: [Delete] *)

Lemma Delete_requested_block (w w' : List.Iter.world) :
  List.Iter.Delete w = Ok w' ->
  (length (List.Iter.block_ids_ (List.Iter.w_iter w))
   <= List.Iter.block_id_index (List.Iter.w_iter w))%nat ->
  List.Iter.requested_block_ (List.Iter.w_iter w')
  = List.Iter.requested_block_ (List.Iter.w_iter w).
Proof.
  unfold List.Iter.Delete. destruct (List.Iter.Valid w); [| discriminate].
  intros Hdel Hge. injection Hdel as Hdel. subst w'.
  unfold List.Iter.set_current_block.
  destruct (Nat.ltb_spec (List.Iter.block_id_index (List.Iter.w_iter w))
              (length (List.Iter.block_ids_ (List.Iter.w_iter w)))) as [Hlt | _];
    [lia |].
  destruct (List.Iter.block_id_index (List.Iter.w_iter w)
            =? length (List.Iter.block_ids_ (List.Iter.w_iter w)))%nat;
    reflexivity.
Qed.

Lemma nth_error_update_nth_other {A} (n p : nat) (f : A -> A) (l : list A) :
  p <> n -> nth_error (update_nth n f l) p = nth_error l p.
Proof. intros Hp. apply update_nth_other. congruence. Qed.

(** X21.  [List::Iter<false>::Delete] on a valid position marks the value
    there and nothing else.  The call returns; the position still has its
    value, which is now marked as deleted, so that the position is no
    longer valid; [num_values_deleted] has grown by one (as a 32-bit
    number) and [num_values_total] has not changed; and a second [Delete]
    without a step in between stops at [assert(Valid())].  Nothing else:
    the ids of the list, the store, the ids and the position of the
    iterator are as before; so is every other block of the list; the
    current block keeps its buffer, the number of its entries and every
    entry but the current one; the block that the iterator holds for
    committed blocks is untouched while the iterator is on the in-memory
    block.  The iterator notes that the block has changed. *)
Theorem Delete_marks_current_value (w : List.Iter.world) :
  List.Iter.Valid w = true ->
  let index := List.Iter.block_id_index (List.Iter.w_iter w) in
  let pos := List.Iter.block_iter_ (List.Iter.w_iter w) in
  exists w',
    List.Iter.Delete w = Ok w'
    /\ List.Iter.has_value w' = true
    /\ List.Iter.deleted w' = true
    /\ List.Iter.Valid w' = false
    /\ List.Iter.Value w' = List.Iter.Value w
    /\ List.num_values_deleted (List.head_ (List.Iter.w_list w'))
       = u32 (List.num_values_deleted (List.head_ (List.Iter.w_list w)) + 1)
    /\ List.num_values_total (List.head_ (List.Iter.w_list w'))
       = List.num_values_total (List.head_ (List.Iter.w_list w))
    /\ List.Iter.Delete w' = AssertionFailed w'
    /\ List.block_ids (List.head_ (List.Iter.w_list w'))
       = List.block_ids (List.head_ (List.Iter.w_list w))
    /\ List.Iter.w_store w' = List.Iter.w_store w
    /\ List.Iter.block_ids_ (List.Iter.w_iter w')
       = List.Iter.block_ids_ (List.Iter.w_iter w)
    /\ List.Iter.block_id_index (List.Iter.w_iter w') = index
    /\ List.Iter.block_iter_ (List.Iter.w_iter w') = pos
    /\ List.Iter.block_has_changed (List.Iter.w_iter w') = true
    /\ (forall k, k <> index -> List.Iter.block_at w' k = List.Iter.block_at w k)
    /\ Block.has_data (List.Iter.current_block w')
       = Block.has_data (List.Iter.current_block w)
    /\ Block.size (List.Iter.current_block w')
       = Block.size (List.Iter.current_block w)
    /\ length (Block.entries (List.Iter.current_block w'))
       = length (Block.entries (List.Iter.current_block w))
    /\ (forall p, p <> pos ->
          nth_error (Block.entries (List.Iter.current_block w')) p
          = nth_error (Block.entries (List.Iter.current_block w)) p)
    /\ ((length (List.Iter.block_ids_ (List.Iter.w_iter w)) <= index)%nat ->
        List.Iter.requested_block_ (List.Iter.w_iter w')
        = List.Iter.requested_block_ (List.Iter.w_iter w)).
Proof.
  intros Hvalid index pos.
  destruct (Delete_world w Hvalid)
    as (w' & Hdel & Hstore & Hhead & Hids & Hindex & Hpos & Hchanged & Hblocks & _).
  unfold List.Iter.Valid in Hvalid. apply andb_true_iff in Hvalid.
  destruct Hvalid as [Hv Hlive].
  assert (Hcur : List.Iter.current_block w'
                 = Block.set_deleted (List.Iter.block_iter_ (List.Iter.w_iter w))
                     (List.Iter.current_block w)).
  { rewrite !current_block_block_at, Hindex, Hblocks. now rewrite Nat.eqb_refl. }
  unfold List.Iter.has_value in Hv. apply Nat.ltb_lt in Hv.
  assert (Hv' : List.Iter.has_value w' = true).
  { unfold List.Iter.has_value. rewrite Hcur, Hpos, set_deleted_length.
    now apply Nat.ltb_lt. }
  assert (Hentry : List.Iter.current_entry w'
                   = Block.set_deleted_entry (List.Iter.current_entry w)).
  { unfold List.Iter.current_entry. rewrite Hcur, Hpos.
    cbn [Block.set_deleted Block.entries]. now apply nth_update_nth_same. }
  assert (Hd' : List.Iter.deleted w' = true).
  { unfold List.Iter.deleted. rewrite Hentry. reflexivity. }
  assert (Hinvalid : List.Iter.Valid w' = false).
  { unfold List.Iter.Valid. rewrite Hv', Hd'. reflexivity. }
  exists w'. split; [exact Hdel |]. split; [exact Hv' |]. split; [exact Hd' |].
  split; [exact Hinvalid |].
  split; [unfold List.Iter.Value; rewrite Hentry; reflexivity |].
  split; [rewrite Hhead; reflexivity |].
  split; [rewrite Hhead; reflexivity |].
  split; [unfold List.Iter.Delete; rewrite Hinvalid; reflexivity |].
  split; [rewrite Hhead; reflexivity |].
  split; [exact Hstore |]. split; [exact Hids |]. split; [exact Hindex |].
  split; [exact Hpos |]. split; [exact Hchanged |].
  split.
  { intros k Hk. rewrite Hblocks. fold index.
    destruct (Nat.eqb_spec k index); [contradiction | reflexivity]. }
  rewrite Hcur. cbn [Block.set_deleted Block.has_data Block.size Block.entries].
  split; [reflexivity |]. split; [reflexivity |].
  split; [apply update_nth_length |].
  split; [intros p Hp; now apply nth_error_update_nth_other |].
  exact (Delete_requested_block w w' Hdel).
Qed.

Lemma Delete_marks_current_value_witness :
  List.Iter.Valid iter_on_second_value = true
  /\ List.Iter.block_id_index (List.Iter.w_iter iter_on_second_value) = 1%nat
  /\ map Block.deleted (Block.entries (List.Iter.current_block iter_on_second_value))
     = [false; false]
  /\ exists w',
       List.Iter.Delete iter_on_second_value = Ok w'
       /\ List.Iter.Valid w' = false
       /\ List.Iter.Delete w' = AssertionFailed w'
       /\ map Block.deleted (Block.entries (List.Iter.current_block w'))
          = [true; false]
       /\ map Block.value (Block.entries (List.Iter.current_block w'))
          = map Block.value (Block.entries (List.Iter.current_block iter_on_second_value))
       /\ List.Iter.block_at w' 0 = List.Iter.block_at iter_on_second_value 0
       /\ List.Iter.w_store w' = List.Iter.w_store iter_on_second_value
       /\ List.num_values_deleted (List.head_ (List.Iter.w_list w')) = 1
       /\ List.num_values_total (List.head_ (List.Iter.w_list w')) = 3.
Proof.
  assert (Hvalid : List.Iter.Valid iter_on_second_value = true)
    by (vm_compute; reflexivity).
  split; [exact Hvalid |].
  split; [vm_compute; reflexivity |].
  split; [vm_compute; reflexivity |].
  destruct (Delete_marks_current_value iter_on_second_value Hvalid)
    as (w' & Hdel & _ & _ & Hinvalid & _ & Hdeleted & Htotal & Hagain & _
        & Hstore & _ & _ & _ & _ & Hblocks & _).
  exists w'.
  split; [exact Hdel |]. split; [exact Hinvalid |]. split; [exact Hagain |].
  assert (Hw' : Ok w' = List.Iter.Delete iter_on_second_value) by now symmetry.
  vm_compute in Hw'. injection Hw' as Hw'.
  split; [rewrite Hw'; vm_compute; reflexivity |].
  split; [rewrite Hw'; vm_compute; reflexivity |].
  split; [apply Hblocks; vm_compute; discriminate |].
  split; [exact Hstore |].
  split; [rewrite Hdeleted; vm_compute; reflexivity |].
  rewrite Htotal. vm_compute. reflexivity.
Defined.

(** ** Closing a shard and opening it again *)

(** *** An iteration reads the ids and the in-memory entries only *)

Lemma same_cursor_current (w1 w2 : List.Iter.world) :
  same_cursor w1 w2 ->
  Block.entries (List.Iter.current_block w1)
  = Block.entries (List.Iter.current_block w2).
Proof.
  intros (_ & Hi & He). unfold List.Iter.current_block. rewrite Hi.
  destruct (_ <? _)%nat; [reflexivity |].
  destruct (_ =? _)%nat; [exact He | reflexivity].
Qed.

Lemma same_cursor_block_at (w1 w2 : List.Iter.world) (k : nat) :
  same_cursor w1 w2 ->
  Block.entries (List.Iter.block_at w1 k) = Block.entries (List.Iter.block_at w2 k).
Proof.
  intros (Hs & Hi & He). unfold List.Iter.block_at. rewrite Hi, Hs.
  destruct (_ <? _)%nat; [reflexivity |].
  destruct (_ =? _)%nat; [exact He | reflexivity].
Qed.

Lemma same_cursor_has_value (w1 w2 : List.Iter.world) :
  same_cursor w1 w2 -> List.Iter.has_value w1 = List.Iter.has_value w2.
Proof.
  intros H. unfold List.Iter.has_value.
  rewrite (same_cursor_current w1 w2 H). destruct H as (_ & -> & _). reflexivity.
Qed.

Lemma same_cursor_current_entry (w1 w2 : List.Iter.world) :
  same_cursor w1 w2 -> List.Iter.current_entry w1 = List.Iter.current_entry w2.
Proof.
  intros H. unfold List.Iter.current_entry.
  rewrite (same_cursor_current w1 w2 H). destruct H as (_ & -> & _). reflexivity.
Qed.

Lemma same_cursor_Valid (w1 w2 : List.Iter.world) :
  same_cursor w1 w2 -> List.Iter.Valid w1 = List.Iter.Valid w2.
Proof.
  intros H. unfold List.Iter.Valid, List.Iter.deleted.
  now rewrite (same_cursor_has_value w1 w2 H), (same_cursor_current_entry w1 w2 H).
Qed.

Lemma same_cursor_load (index : nat) (w1 w2 : List.Iter.world) :
  same_cursor w1 w2 -> same_cursor (List.Iter.load index w1) (List.Iter.load index w2).
Proof.
  intros (Hs & Hi & He). unfold List.Iter.load, List.Iter.set_iter, same_cursor.
  cbv zeta. cbn [List.Iter.w_store List.Iter.w_iter List.Iter.w_list].
  rewrite Hi, Hs. repeat split; assumption.
Qed.

Lemma same_cursor_UpdateCurrentBlock (w1 w2 : List.Iter.world) :
  same_cursor w1 w2 ->
  same_cursor (List.Iter.UpdateCurrentBlock w1) (List.Iter.UpdateCurrentBlock w2).
Proof.
  intros (Hs & Hi & He). unfold List.Iter.UpdateCurrentBlock. cbv zeta.
  rewrite Hi, Hs.
  destruct (nth_error _ _); unfold same_cursor;
    cbn [List.Iter.w_store List.Iter.w_iter List.Iter.w_list];
    repeat split; assumption.
Qed.

Lemma same_cursor_Request (w1 w2 : List.Iter.world) :
  same_cursor w1 w2 ->
  same_cursor (List.Iter.RequestNextBlockAndInitIter w1)
              (List.Iter.RequestNextBlockAndInitIter w2).
Proof.
  intros H. unfold List.Iter.RequestNextBlockAndInitIter.
  rewrite (proj1 (proj2 H)). now apply same_cursor_load.
Qed.

Lemma same_cursor_Advance (w1 w2 : List.Iter.world) :
  same_cursor w1 w2 -> same_cursor (List.Iter.Advance w1) (List.Iter.Advance w2).
Proof.
  intros H.
  pose (bump := fun w : List.Iter.world =>
    List.Iter.set_iter
      {| List.Iter.block_ids_ := List.Iter.block_ids_ (List.Iter.w_iter w);
         List.Iter.block_id_index := List.Iter.block_id_index (List.Iter.w_iter w);
         List.Iter.block_has_changed := List.Iter.block_has_changed (List.Iter.w_iter w);
         List.Iter.requested_block_ := List.Iter.requested_block_ (List.Iter.w_iter w);
         List.Iter.block_iter_ := S (List.Iter.block_iter_ (List.Iter.w_iter w)) |} w).
  assert (Hunfold : forall w,
            List.Iter.Advance w
            = if negb (List.Iter.has_value (bump w))
              then List.Iter.RequestNextBlockAndInitIter
                     (if List.Iter.block_has_changed (List.Iter.w_iter (bump w))
                      then List.Iter.UpdateCurrentBlock (bump w) else bump w)
              else bump w) by reflexivity.
  assert (Hb : same_cursor (bump w1) (bump w2)).
  { destruct H as (Hs & Hi & He). unfold same_cursor, bump, List.Iter.set_iter.
    cbn [List.Iter.w_store List.Iter.w_iter List.Iter.w_list].
    rewrite Hi. repeat split; assumption. }
  rewrite !Hunfold, (same_cursor_has_value _ _ Hb), (proj1 (proj2 Hb)).
  destruct (negb (List.Iter.has_value (bump w2))); [| exact Hb].
  apply same_cursor_Request.
  destruct (List.Iter.block_has_changed (List.Iter.w_iter (bump w2)));
    [now apply same_cursor_UpdateCurrentBlock | exact Hb].
Qed.

Lemma same_cursor_steps_bound (w1 w2 : List.Iter.world) :
  same_cursor w1 w2 -> List.Iter.steps_bound w1 = List.Iter.steps_bound w2.
Proof.
  intros H. unfold List.Iter.steps_bound, List.Iter.blocks.
  rewrite !flat_map_map_comp, (proj1 (proj2 H)). f_equal. f_equal.
  apply flat_map_ext_In. intros k _. now apply same_cursor_block_at.
Qed.

Lemma same_cursor_skip_deleted (fuel : nat) :
  forall w1 w2, same_cursor w1 w2 ->
    same_cursor (List.Iter.skip_deleted fuel w1) (List.Iter.skip_deleted fuel w2).
Proof.
  induction fuel as [|fuel IH]; intros w1 w2 H; cbn [List.Iter.skip_deleted];
    unfold List.Iter.deleted;
    rewrite (same_cursor_has_value _ _ H), (same_cursor_current_entry _ _ H);
    destruct (_ && _); try exact H.
  apply IH. now apply same_cursor_Advance.
Qed.

Lemma same_cursor_SeekToFirst (w1 w2 : List.Iter.world) :
  same_cursor w1 w2 ->
  same_cursor (List.Iter.SeekToFirst w1) (List.Iter.SeekToFirst w2).
Proof.
  intros H. unfold List.Iter.SeekToFirst. cbv zeta.
  pose proof (same_cursor_load O _ _ H) as Hl.
  rewrite (same_cursor_steps_bound _ _ Hl). now apply same_cursor_skip_deleted.
Qed.

Lemma same_cursor_Next (w1 w2 : List.Iter.world) :
  same_cursor w1 w2 -> same_cursor (List.Iter.Next w1) (List.Iter.Next w2).
Proof.
  intros H. unfold List.Iter.Next. cbv zeta.
  pose proof (same_cursor_Advance _ _ H) as Ha.
  rewrite (same_cursor_steps_bound _ _ Ha). now apply same_cursor_skip_deleted.
Qed.

Lemma same_cursor_collect_loop (fuel : nat) :
  forall w1 w2, same_cursor w1 w2 ->
    List.Iter.collect_loop fuel w1 = List.Iter.collect_loop fuel w2.
Proof.
  induction fuel as [|fuel IH]; intros w1 w2 H; [reflexivity |].
  cbn [List.Iter.collect_loop]. unfold List.Iter.Value.
  rewrite (same_cursor_Valid _ _ H), (same_cursor_current_entry _ _ H).
  destruct (List.Iter.Valid w2); [| reflexivity].
  f_equal. apply IH. now apply same_cursor_Next.
Qed.

(** An iteration depends on the list through the ids its id vector
    unpacks to and through the entries of its in-memory block only. *)
Lemma iterate_ext (st : Store.t) (l1 l2 : List.t) :
  UintVector.unpack (List.block_ids (List.head_ l1))
  = UintVector.unpack (List.block_ids (List.head_ l2)) ->
  Block.entries (List.block_ l1) = Block.entries (List.block_ l2) ->
  List.iterate st l1 = List.iterate st l2.
Proof.
  intros Hids He. unfold List.iterate, List.Iter.NewIterator. rewrite Hids.
  destruct (UintVector.unpack (List.block_ids (List.head_ l2))) as [ids |];
    [| reflexivity].
  assert (H : same_cursor
                {| List.Iter.w_store := st; List.Iter.w_list := l1;
                   List.Iter.w_iter := List.Iter.make ids |}
                {| List.Iter.w_store := st; List.Iter.w_list := l2;
                   List.Iter.w_iter := List.Iter.make ids |})
    by (repeat split; assumption).
  pose proof (same_cursor_SeekToFirst _ _ H) as Hseek.
  cbv zeta. rewrite (same_cursor_steps_bound _ _ Hseek).
  f_equal. now apply same_cursor_collect_loop.
Qed.

Lemma store_extends_refl (st : Store.t) : store_extends st st.
Proof. unfold store_extends. split; [reflexivity |]. split; [lia | reflexivity]. Qed.

Lemma store_extends_trans (st1 st2 st3 : Store.t) :
  store_extends st1 st2 -> store_extends st2 st3 -> store_extends st1 st3.
Proof.
  intros (Hs1 & Hn1 & Hr1) (Hs2 & Hn2 & Hr2).
  split; [congruence |]. split; [lia |].
  intros id Hid. rewrite Hr2 by lia. now apply Hr1.
Qed.

Lemma well_formed_extends (st st' : Store.t) (l : List.t) (ids : list Z) :
  well_formed st l ids -> store_extends st st' ->
  well_formed st' l ids /\ content st' ids l = content st ids l.
Proof.
  intros Hwf (Hsize & Hnum & Hread).
  apply (well_formed_store_ext st st' l ids Hwf Hsize Hnum).
  intros id Hid. apply Hread.
  destruct (well_formed_ids_range st l ids Hwf) as [Hrange _].
  rewrite Forall_forall in Hrange. now apply Hrange.
Qed.

Lemma iterate_extends (st st' : Store.t) (l : List.t) (ids : list Z) :
  well_formed st l ids -> store_extends st st' ->
  List.iterate st' l = List.iterate st l.
Proof.
  intros Hwf Hext. destruct (well_formed_extends st st' l ids Hwf Hext) as [Hwf' Hc].
  now rewrite (iterate_spec st' l ids Hwf'), (iterate_spec st l ids Hwf), Hc.
Qed.

(** *** [Table::close] entry by entry *)

Lemma nonempty_list_has_entries (st : Store.t) (l : List.t) (ids : list Z) :
  well_formed st l ids -> List.empty l = false -> content st ids l <> [].
Proof.
  intros (_ & _ & _ & _ & Htotal & Hdel) Hempty Hnil.
  rewrite Hnil in Htotal, Hdel. cbn in Htotal, Hdel.
  unfold List.empty, List.size in Hempty. rewrite Htotal, Hdel in Hempty.
  discriminate.
Qed.

Lemma flushed_list_has_ids (st : Store.t) (l : List.t) (ids : list Z) :
  well_formed st l ids ->
  Block.has_data (List.block_ l) = false ->
  content st ids l <> [] ->
  ids <> [] /\ Block.entries (List.block_ l) = [].
Proof.
  intros (_ & _ & _ & Hblock & _) Hdata Hne. rewrite Hdata in Hblock.
  split; [| exact Hblock].
  intros ->. apply Hne. unfold content. cbn. exact Hblock.
Qed.

Lemma close_entry_persist (path : string) (c : Table.closing) (key : Bytes)
    (slot : Table.Slot) (ids : list Z) (f : File) :
  writable (key, slot) = true ->
  Bytes_size key <= 65535 ->
  well_formed (Table.c_store c) (Table.slot_list slot) ids ->
  Store.num_blocks (Table.c_store c) <= Varint.N4_MAX_UINT ->
  Table.c_fs c path = Some f ->
  exists c' rec h',
    Table.close_entry path c (key, slot) = Ok c'
    /\ Table.c_fs c' path = Some (f ++ rec)
    /\ (forall p, p <> path -> Table.c_fs c' p = Table.c_fs c p)
    /\ Table.c_written c' = u32 (Table.c_written c + 1)
    /\ store_extends (Table.c_store c) (Table.c_store c')
    /\ Store.num_blocks (Table.c_store c') <= Store.num_blocks (Table.c_store c) + 1
    /\ reads_back rec (key, h')
    /\ persisted (Table.c_store c) (Table.c_store c') (key, slot) (key, h').
Proof.
  intros Hw Hkey Hwf Hcap Hf.
  unfold writable in Hw. cbn [snd] in Hw. apply andb_true_iff in Hw.
  destruct Hw as [Hlock Hne]. apply negb_true_iff in Hne.
  destruct (Flush_well_formed _ _ _ Hwf Hcap)
    as (st' & l' & ids' & Hflush & Hwf' & Hc & Hsize & Hnum & Hread & _).
  pose proof (nonempty_list_has_entries _ _ _ Hwf Hne) as Hes.
  rewrite <- Hc in Hes.
  destruct (flushed_list_has_ids _ _ _ Hwf' (Flush_block _ _ _ _ Hflush) Hes)
    as [Hids' Hblock'].
  pose proof (proj1 Hwf') as Hrep.
  pose proof (writeEntryToFile_fields key (List.head_ l') Hkey
                (represents_not_empty _ _ Hrep Hids')) as Hwrite.
  unfold Table.close_entry. rewrite Hlock, Hne. cbn [negb].
  rewrite Hflush, Hwrite.
  eexists. eexists. eexists. split; [reflexivity |].
  cbn [Table.c_fs Table.c_store Table.c_written].
  split; [now apply fs_append_same |].
  split; [intros p Hp; now apply fs_append_other |].
  split; [reflexivity |].
  split; [split; [exact Hsize | split; [lia | exact Hread]] |].
  split; [lia |].
  split.
  { intros rest. cbn [app Table.readEntryFromFile].
    unfold Bytes_size at 1. rewrite Nat2Z.id, firstn_all. reflexivity. }
  split; [reflexivity |].
  intros st'' Hext. cbn [snd Table.slot_list].
  transitivity (List.iterate st'' l').
  - apply iterate_ext.
    + cbn [List.of_head List.head_ List.block_ids].
      rewrite (unpack_read_back _ ids' Hrep). symmetry.
      now apply unpack_represents.
    + cbn [List.of_head List.block_]. now rewrite Hblock'.
  - rewrite (iterate_extends st' st'' l' ids' Hwf' Hext).
    now rewrite (iterate_spec st' l' ids' Hwf'), (iterate_spec _ _ ids Hwf), Hc.
Qed.

Lemma Forall2_impl_In {A B} (P Q : A -> B -> Prop) (l1 : list A) (l2 : list B) :
  Forall2 P l1 l2 ->
  (forall x y, In x l1 -> P x y -> Q x y) ->
  Forall2 Q l1 l2.
Proof.
  induction 1 as [|x y l1 l2 Hxy _ IH]; intros Himp; constructor.
  - apply Himp; [now left | exact Hxy].
  - apply IH. intros a b Hin. apply Himp. now right.
Qed.

Lemma u32_add_l (a b : Z) : u32 (u32 a + b) = u32 (a + b).
Proof. unfold u32. apply Zplus_mod_idemp_l. Qed.

Lemma close_loop_persist (path : string) (entries : list (Bytes * Table.Slot)) :
  forall (c : Table.closing) (f : File) (n : Z),
    Table.c_fs c path = Some f ->
    Table.c_written c = u32 n ->
    (forall key slot, In (key, slot) entries ->
       Bytes_size key <= 65535
       /\ exists ids, well_formed (Table.c_store c) (Table.slot_list slot) ids) ->
    Store.num_blocks (Table.c_store c) + Z.of_nat (length entries)
    <= Varint.N4_MAX_UINT + 1 ->
    exists c' recs heads,
      Table.close_loop path entries c = Ok c'
      /\ Table.c_fs c' path = Some (f ++ concat recs)
      /\ (forall p, p <> path -> Table.c_fs c' p = Table.c_fs c p)
      /\ Table.c_written c' = u32 (n + Z.of_nat (length recs))
      /\ store_extends (Table.c_store c) (Table.c_store c')
      /\ Forall2 reads_back recs heads
      /\ Forall2 (persisted (Table.c_store c) (Table.c_store c'))
                 (filter writable entries) heads.
Proof.
  induction entries as [|[key slot] rest IH]; intros c f n Hf Hn Hall Hcap.
  - exists c, [], []. split; [reflexivity |].
    cbn [concat length]. rewrite app_nil_r, Z.add_0_r.
    split; [exact Hf |]. split; [reflexivity |]. split; [exact Hn |].
    split; [apply store_extends_refl |]. split; constructor.
  - cbn [length] in Hcap. cbn [Table.close_loop].
    destruct (Hall key slot (or_introl eq_refl)) as [Hkey [ids Hwf]].
    destruct (writable (key, slot)) eqn:Hw.
    + destruct (close_entry_persist path c key slot ids f Hw Hkey Hwf ltac:(lia) Hf)
        as (c1 & rec & h' & Hentry & Hf1 & Hother1 & Hn1 & Hext1 & Hnum1 & Hback & Hp).
      destruct (IH c1 (f ++ rec) (n + 1) Hf1) as
        (c' & recs & heads & Hloop & Hf' & Hother' & Hn' & Hext' & Hbacks & Hps).
      { rewrite Hn1, Hn. apply u32_add_l. }
      { intros k s Hin. destruct (Hall k s (or_intror Hin)) as [Hk [ids' Hwf']].
        split; [exact Hk |]. exists ids'.
        exact (proj1 (well_formed_extends _ _ _ _ Hwf' Hext1)). }
      { lia. }
      exists c', (rec :: recs), ((key, h') :: heads).
      rewrite Hentry. cbn [bind]. split; [exact Hloop |].
      cbn [concat length]. rewrite app_assoc.
      split; [exact Hf' |].
      split; [intros p Hne; rewrite Hother' by exact Hne; now apply Hother1 |].
      split; [rewrite Hn'; f_equal; lia |].
      split; [exact (store_extends_trans _ _ _ Hext1 Hext') |].
      split; [constructor; assumption |].
      cbn [filter]. rewrite Hw. constructor.
      * destruct Hp as [Hfst Hiter]. split; [exact Hfst |].
        intros st'' Hext''. apply Hiter.
        exact (store_extends_trans _ _ _ Hext' Hext'').
      * apply (Forall2_impl_In _ _ _ _ Hps).
        intros [k s] kh Hin [Hfst Hiter]. split; [exact Hfst |].
        intros st'' Hext''. rewrite (Hiter st'' Hext''). cbn [snd].
        apply filter_In in Hin. destruct Hin as [Hin _].
        destruct (Hall k s (or_intror Hin)) as [_ [ids' Hwf']].
        exact (iterate_extends _ _ _ ids' Hwf' Hext1).
    + rewrite (close_entry_not_writable path c (key, slot) Hw). cbn [bind].
      destruct (IH c f n Hf Hn) as
        (c' & recs & heads & Hloop & Hf' & Hother' & Hn' & Hext' & Hbacks & Hps).
      { intros k s Hin. exact (Hall k s (or_intror Hin)). }
      { lia. }
      exists c', recs, heads. split; [exact Hloop |].
      split; [exact Hf' |]. split; [exact Hother' |]. split; [exact Hn' |].
      split; [exact Hext' |]. split; [exact Hbacks |].
      cbn [filter]. rewrite Hw. exact Hps.
Qed.

Lemma persisted_keys (st st' : Store.t) (kept : list (Bytes * Table.Slot))
    (heads : list (Bytes * List.Head)) :
  Forall2 (persisted st st') kept heads -> map fst heads = map fst kept.
Proof.
  induction 1 as [|e kh kept heads [Hfst _] _ IH]; [reflexivity |].
  cbn [map]. now rewrite Hfst, IH.
Qed.

Lemma read_entries_heads (recs : list (list Field)) (heads : list (Bytes * List.Head)) :
  Forall2 reads_back recs heads ->
  forall m0,
    NoDup (map fst m0 ++ map fst heads) ->
    Table.read_entries (length recs) (concat recs) m0
    = Some (m0 ++ map slot_of_head heads).
Proof.
  induction 1 as [|rec [key head] recs heads Hback _ IH]; intros m0 Hnd.
  - cbn. now rewrite app_nil_r.
  - cbn [length concat Table.read_entries]. rewrite (Hback (concat recs)).
    cbn [map fst] in Hnd.
    assert (Hfresh : Table.find key m0 = None).
    { apply find_None_iff. intros Hin.
      apply NoDup_remove_2 in Hnd. apply Hnd. apply in_or_app. now left. }
    unfold Table.emplace. rewrite Hfresh.
    rewrite IH.
    + rewrite <- app_assoc. reflexivity.
    + rewrite map_app. cbn [map fst]. rewrite <- app_assoc. exact Hnd.
Qed.

Lemma find_slot_of_head (key : Bytes) (head : List.Head)
    (heads : list (Bytes * List.Head)) :
  NoDup (map fst heads) -> In (key, head) heads ->
  Table.find key (map slot_of_head heads)
  = Some {| Table.slot_list := List.of_head head;
            Table.slot_mutex := Table.Unlocked |}.
Proof.
  intros Hnd Hin.
  apply (find_In_NoDup key _ (map slot_of_head heads)).
  - rewrite map_map. cbn [slot_of_head fst]. exact Hnd.
  - apply in_map_iff. exists (key, head). split; [reflexivity | exact Hin].
Qed.

Lemma find_slot_of_head_None (key : Bytes) (heads : list (Bytes * List.Head)) :
  ~ In key (map fst heads) -> Table.find key (map slot_of_head heads) = None.
Proof.
  intros Hnot. apply find_None_iff. rewrite map_map. exact Hnot.
Qed.

Lemma Forall2_In_l {A B} (P : A -> B -> Prop) (l1 : list A) (l2 : list B) (x : A) :
  Forall2 P l1 l2 -> In x l1 -> exists y, In y l2 /\ P x y.
Proof.
  induction 1 as [|a b l1 l2 Hab _ IH]; intros Hin; [contradiction |].
  destruct Hin as [-> | Hin].
  - exists b. split; [now left | exact Hab].
  - destruct (IH Hin) as (y & Hy & Hxy). exists y. split; [now right | exact Hxy].
Qed.

(** *** The keys of a reachable shard *)

Lemma set_list_keys (key : Bytes) (l : List.t) (m : list (Bytes * Table.Slot)) :
  map fst (Table.set_list key l m) = map fst m.
Proof.
  induction m as [|[k s] m IH]; [reflexivity |].
  cbn [Table.set_list]. destruct (Bytes_eqb k key); cbn [map fst]; [reflexivity |].
  now rewrite IH.
Qed.

Lemma with_list_table_ok (key : Bytes) (tbl : Table.t) (w : Store.t * List.t) :
  table_ok tbl -> table_ok (Shard.table_ (Shard.with_list key tbl w)).
Proof.
  destruct w as [st l]. unfold table_ok, Shard.with_list.
  cbn [Shard.table_ Table.map_]. now rewrite set_list_keys.
Qed.

Lemma emplace_table_ok (key : Bytes) (l : List.t) (tbl : Table.t) :
  Bytes_size key <= Table.max_key_size ->
  table_ok tbl ->
  table_ok {| Table.map_ := Table.emplace key l (Table.map_ tbl);
              Table.path_ := Table.path_ tbl |}.
Proof.
  intros Hkey [Hnd Hall]. unfold table_ok, Table.emplace. cbn [Table.map_].
  destruct (Table.find key (Table.map_ tbl)) eqn:Hfind; [split; assumption |].
  rewrite map_app. cbn [map fst]. split.
  - apply find_None_iff in Hfind.
    apply NoDup_app; [exact Hnd | repeat constructor; intros [] | ].
    intros k Hin [<- | []]. contradiction.
  - apply Forall_app. split; [exact Hall | repeat constructor; exact Hkey].
Qed.

Lemma put_table_ok (key value : Bytes) (sh sh' : Shard.t) :
  Shard.put key value sh = Ok sh' ->
  table_ok (Shard.table_ sh) -> table_ok (Shard.table_ sh').
Proof.
  unfold Shard.put, Table.getUniqueOrCreate. intros Hput Hok.
  destruct (Z.leb_spec (Bytes_size key) Table.max_key_size) as [Hkey |];
    [| discriminate].
  cbn [bind] in Hput.
  destruct (List.Add value _) as [w | | |]; cbn [map_result bind] in Hput;
    try discriminate.
  injection Hput as <-. apply with_list_table_ok. now apply emplace_table_ok.
Qed.

Lemma remove_table_ok (key : Bytes) (predicate : Bytes -> bool) (apply_to_all : bool)
    (sh sh' : Shard.t) (n : Z) :
  Shard.remove key predicate apply_to_all sh = Ok (sh', n) ->
  table_ok (Shard.table_ sh) -> table_ok (Shard.table_ sh').
Proof.
  unfold Shard.remove. intros Hrun Hok.
  destruct (Table.getUnique key (Shard.table_ sh)) as [l |];
    [| injection Hrun as <- _; exact Hok].
  destruct (List.Iter.NewIterator (Shard.store_ sh) l) as [w |]; [| discriminate].
  cbv zeta in Hrun.
  destruct (Shard.remove_first _ predicate _) as [[w1 n1] | | |];
    cbn [bind] in Hrun; try discriminate.
  destruct apply_to_all.
  - destruct (Shard.remove_rest _ predicate w1 n1) as [[w2 n2] | | |];
      cbn [map_result bind] in Hrun; try discriminate.
    injection Hrun as <- _.
    exact (with_list_table_ok key (Shard.table_ sh) (List.Iter.release w2) Hok).
  - injection Hrun as <- _.
    exact (with_list_table_ok key (Shard.table_ sh) (List.Iter.release w1) Hok).
Qed.

Lemma replace_table_ok (key : Bytes) (function : Bytes -> Bytes) (apply_to_all : bool)
    (sh sh' : Shard.t) (n : Z) :
  Shard.replace key function apply_to_all sh = Ok (sh', n) ->
  table_ok (Shard.table_ sh) -> table_ok (Shard.table_ sh').
Proof.
  unfold Shard.replace. intros Hrun Hok.
  destruct (Table.getUnique key (Shard.table_ sh)) as [l |];
    [| injection Hrun as <- _; exact Hok].
  destruct (List.Iter.NewIterator (Shard.store_ sh) l) as [w |]; [| discriminate].
  cbv zeta in Hrun.
  destruct (Shard.replace_first _ function _) as [[w1 uv1] | | |];
    cbn [bind] in Hrun; try discriminate.
  destruct apply_to_all.
  - destruct (Shard.replace_rest _ function w1 uv1) as [[w2 uv2] | | |];
      cbn [bind] in Hrun; try discriminate.
    destruct (Shard.add_all uv2 _) as [w3 | | |];
      cbn [map_result bind] in Hrun; try discriminate.
    injection Hrun as <- _.
    exact (with_list_table_ok key (Shard.table_ sh) w3 Hok).
  - destruct (Shard.add_all uv1 _) as [w3 | | |];
      cbn [map_result bind] in Hrun; try discriminate.
    injection Hrun as <- _.
    exact (with_list_table_ok key (Shard.table_ sh) w3 Hok).
Qed.

Lemma run_table_ok (op : Op) (sh sh' : Shard.t) :
  run op sh = Ok sh' -> table_ok (Shard.table_ sh) -> table_ok (Shard.table_ sh').
Proof.
  destruct op as [key value | key p all | key f all | key]; cbn [run]; intros Hrun Hok.
  - exact (put_table_ok key value sh sh' Hrun Hok).
  - destruct (Shard.remove key p all sh) as [[sh1 n] | | |] eqn:Hr;
      cbn [map_result bind fst] in Hrun; try discriminate.
    injection Hrun as <-. exact (remove_table_ok _ _ _ _ _ _ Hr Hok).
  - destruct (Shard.replace key f all sh) as [[sh1 n] | | |] eqn:Hr;
      cbn [map_result bind fst] in Hrun; try discriminate.
    injection Hrun as <-. exact (replace_table_ok _ _ _ _ _ _ Hr Hok).
  - destruct (Table.getUnique key (Shard.table_ sh)) as [l |];
      [| injection Hrun as <-; exact Hok].
    destruct (List.Flush _) as [w | | |]; cbn [map_result bind] in Hrun;
      try discriminate.
    injection Hrun as <-.
    exact (with_list_table_ok key (Shard.table_ sh) w Hok).
Qed.

Lemma reachable_table_ok (sh : Shard.t) : reachable sh -> table_ok (Shard.table_ sh).
Proof.
  induction 1 as [block_size path | op sh sh' _ IH _ Hrun].
  - split; constructor.
  - exact (run_table_ok op sh sh' Hrun IH).
Qed.

(** *** The round trip *)

Lemma get_of_slot (key : Bytes) (sh : Shard.t) (slot : Table.Slot) :
  Table.find key (Table.map_ (Shard.table_ sh)) = Some slot ->
  Shard.get key sh = List.iterate (Shard.store_ sh) (Table.slot_list slot)
  /\ list_of key sh = Table.slot_list slot.
Proof.
  intros Hfind. unfold Shard.get, list_of, Table.getUnique. rewrite Hfind.
  split; reflexivity.
Qed.

Lemma get_of_absent (key : Bytes) (sh : Shard.t) :
  Table.find key (Table.map_ (Shard.table_ sh)) = None ->
  Shard.get key sh = Some [].
Proof.
  intros Hfind. unfold Shard.get, Table.getUnique. now rewrite Hfind.
Qed.

Lemma close_end_spec (tbl : Table.t) (c1 : Table.closing) (original : File)
    (recs : list (list Field)) :
  Table.c_fs c1 (Table.path_ tbl)
  = Some ([U32 (u32 (Z.of_nat (length (Table.map_ tbl))))] ++ concat recs) ->
  Table.c_fs c1 (Table.backup_path (Table.path_ tbl)) = Some original ->
  Table.c_written c1 = Z.of_nat (length recs) ->
  Z.of_nat (length (Table.map_ tbl)) < 2 ^ 32 ->
  exists c,
    Table.close_end tbl c1 = Ok c
    /\ Table.c_store c = Table.c_store c1
    /\ Table.c_fs c (Table.path_ tbl)
       = Some (U32 (Z.of_nat (length recs)) :: concat recs)
    /\ Table.c_fs c (Table.backup_path (Table.path_ tbl)) = None.
Proof.
  intros Hf1 Hb1 Hn1 Hlen. unfold Table.close_end.
  pose proof (backup_path_neq (Table.path_ tbl)) as Hne.
  assert (Hne' : Table.path_ tbl <> Table.backup_path (Table.path_ tbl)) by congruence.
  destruct (Z.eqb_spec (Table.c_written c1) (Z.of_nat (length (Table.map_ tbl))))
    as [Heq | Hneq].
  - unfold fs_remove. rewrite Hb1. eexists. split; [reflexivity |].
    cbn [Table.c_fs Table.c_store]. split; [reflexivity |].
    rewrite fs_set_same, fs_set_other by exact Hne'.
    split; [| reflexivity].
    rewrite Hf1. cbn [app]. rewrite u32_small by lia.
    rewrite <- Heq, Hn1. reflexivity.
  - unfold fs_remove, fs_rewrite_first. rewrite Hf1. cbn [app].
    rewrite fs_set_other by exact Hne. rewrite Hb1.
    eexists. split; [reflexivity |].
    cbn [Table.c_fs Table.c_store]. split; [reflexivity |].
    rewrite fs_set_same, fs_set_other by exact Hne'.
    rewrite fs_set_same, Hn1. split; reflexivity.
Qed.

(** X22.  Values survive [Table::close] and [Table::open].  Take a shard
    that satisfies the invariant, with distinct keys of at most
    [max_key_size] bytes, whose keys file exists, and whose store has room
    in the id range for one more block per list.  Then [close] returns,
    [open] of the keys file it wrote returns, and in the shard made of the
    store that [close] left and of the table that [open] built, every key
    whose list was not locked by another thread and has fewer than 2^32
    entries yields the values it yielded before the shard was closed, in
    the same order. *)
Theorem values_survive_close_and_open (sh : Shard.t) (ids_of : Bytes -> list Z)
    (fs : FS) (original : File) :
  shard_ok sh ids_of ->
  table_ok (Shard.table_ sh) ->
  Table.path_ (Shard.table_ sh) <> EmptyString ->
  fs (Table.path_ (Shard.table_ sh)) = Some original ->
  Store.num_blocks (Shard.store_ sh)
  + Z.of_nat (length (Table.map_ (Shard.table_ sh))) <= Varint.N4_MAX_UINT + 1 ->
  exists c tbl',
    Table.close (Shard.table_ sh) fs (Shard.store_ sh) = Ok c
    /\ Table.open (Table.path_ (Shard.table_ sh)) false (Table.c_fs c)
       = Ok (Table.c_fs c, tbl')
    /\ forall key,
         (forall slot,
            Table.find key (Table.map_ (Shard.table_ sh)) = Some slot ->
            Table.tryLockUnique (Table.slot_mutex slot) = true) ->
         Z.of_nat (length (entries_of key sh ids_of)) < 2 ^ 32 ->
         Shard.get key (reopened c tbl') = Shard.get key sh.
Proof.
  intros Hok [Hnd Hkeys] Hpath Hfs Hcap.
  set (tbl := Shard.table_ sh) in *. set (st := Shard.store_ sh) in *.
  assert (Hmax : Varint.N4_MAX_UINT = 2 ^ 28 - 1) by reflexivity.
  assert (Hblocks : 0 <= Store.num_blocks st) by (unfold Store.num_blocks; lia).
  destruct (close_begin_spec tbl fs st original Hfs)
    as (c0 & Hbegin & Hf0 & Hb0 & Hst0 & Hn0).
  destruct (close_loop_persist (Table.path_ tbl) (Table.map_ tbl) c0 _ 0 Hf0)
    as (c1 & recs & heads & Hloop & Hf1 & Hother1 & Hn1 & Hext1 & Hbacks & Hps).
  { rewrite Hn0. reflexivity. }
  { intros key slot Hin. split.
    - rewrite Forall_forall in Hkeys. apply (Hkeys key).
      apply (in_map fst) in Hin. exact Hin.
    - exists (ids_of key). rewrite Hst0.
      pose proof (proj1 Hok key) as Hwf.
      destruct (get_of_slot key sh slot (find_In_NoDup key slot _ Hnd Hin)) as [_ Hl].
      rewrite Hl in Hwf. exact Hwf. }
  { rewrite Hst0. exact Hcap. }
  rewrite Hst0 in Hps.
  pose proof (persisted_keys _ _ _ _ Hps) as Hheads.
  assert (Hrecs : (length recs <= length (Table.map_ tbl))%nat).
  { rewrite (Forall2_length_eq _ _ _ Hbacks), <- (Forall2_length_eq _ _ _ Hps).
    apply filter_length_le. }
  rewrite Z.add_0_l, u32_small in Hn1 by lia.
  destruct (close_end_spec tbl c1 original recs Hf1) as (c & Hend & Hstore & Hfile & _).
  { rewrite Hother1 by apply backup_path_neq. exact Hb0. }
  { exact Hn1. }
  { lia. }
  assert (Hnd' : NoDup (map fst heads))
    by (rewrite Hheads; now apply NoDup_keys_filter).
  set (tbl' := {| Table.map_ := map slot_of_head heads;
                  Table.path_ := Table.path_ tbl |}).
  exists c, tbl'.
  split.
  { unfold Table.close. apply String.eqb_neq in Hpath. rewrite Hpath.
    rewrite Hbegin. cbn [bind]. rewrite Hloop. cbn [bind]. exact Hend. }
  split.
  { unfold Table.open. rewrite Hfile, Nat2Z.id.
    rewrite (read_entries_heads recs heads Hbacks []) by exact Hnd'.
    reflexivity. }
  intros key Hlock Hlen.
  destruct (Table.find key (Table.map_ tbl)) as [slot |] eqn:Hfind.
  - destruct (get_of_slot key sh slot Hfind) as [Hget Hl]. fold st in Hget.
    destruct (List.empty (Table.slot_list slot)) eqn:Hempty.
    + (* the list is empty: the key is not written *)
      rewrite get_of_absent.
      * destruct (counters_exact key sh ids_of Hok Hlen) as (_ & _ & Hsize).
        rewrite Hl in Hsize. unfold List.empty in Hempty.
        apply Z.eqb_eq in Hempty. rewrite Hempty in Hsize.
        rewrite (get_spec key sh ids_of Hok).
        destruct (live (entries_of key sh ids_of)); [reflexivity | discriminate].
      * cbn [reopened Shard.table_ Table.map_]. apply find_slot_of_head_None.
        rewrite Hheads. intros Hin. apply in_map_iff in Hin.
        destruct Hin as ([k s] & Hk & Hin). cbn [fst] in Hk. subst k.
        apply filter_In in Hin. destruct Hin as [Hin Hw].
        apply find_Some_In in Hfind.
        pose proof (NoDup_keys_In_unique _ _ _ _ Hnd Hin Hfind) as ->.
        unfold writable in Hw. cbn [snd] in Hw. rewrite Hempty in Hw.
        now rewrite andb_false_r in Hw.
    + (* the list holds values: its record is read back *)
      assert (Hin : In (key, slot) (filter writable (Table.map_ tbl))).
      { apply filter_In. split; [now apply find_Some_In |].
        unfold writable. cbn [snd]. now rewrite (Hlock slot eq_refl), Hempty. }
      destruct (Forall2_In_l _ _ _ _ Hps Hin) as ([k h] & Hkh & Hfst & Hiter).
      cbn [fst snd] in Hfst, Hiter. subst k.
      pose proof (find_slot_of_head key h heads Hnd' Hkh) as Hfind'.
      change (map slot_of_head heads)
        with (Table.map_ (Shard.table_ (reopened c tbl'))) in Hfind'.
      destruct (get_of_slot key (reopened c tbl') _ Hfind') as [Hget' _].
      rewrite Hget', Hget. cbn [reopened Shard.store_ Table.slot_list].
      rewrite Hstore. apply Hiter. apply store_extends_refl.
  - rewrite (get_of_absent key sh Hfind). apply get_of_absent.
    cbn [reopened Shard.table_ Table.map_]. apply find_slot_of_head_None.
    rewrite Hheads. intros Hin. apply in_map_iff in Hin.
    destruct Hin as ([k s] & Hk & Hin). cbn [fst] in Hk. subst k.
    apply filter_In in Hin. destruct Hin as [Hin _].
    apply find_None_iff in Hfind. apply Hfind.
    apply (in_map fst) in Hin. exact Hin.
Qed.

Lemma values_survive_close_and_open_witness :
  exists ids_of c tbl',
    shard_ok Scenario.sh6 ids_of
    /\ Table.close (Shard.table_ Scenario.sh6) Examples.fs_new
                   (Shard.store_ Scenario.sh6) = Ok c
    /\ Table.open (Table.path_ (Shard.table_ Scenario.sh6)) false (Table.c_fs c)
       = Ok (Table.c_fs c, tbl')
    /\ forall key,
         (forall slot,
            Table.find key (Table.map_ (Shard.table_ Scenario.sh6)) = Some slot ->
            Table.tryLockUnique (Table.slot_mutex slot) = true) ->
         Z.of_nat (length (entries_of key Scenario.sh6 ids_of)) < 2 ^ 32 ->
         Shard.get key (reopened c tbl') = Shard.get key Scenario.sh6.
Proof.
  assert (Hreach : reachable Scenario.sh6) by scenario_reachable.
  destruct (reachable_ok _ Hreach) as [ids_of Hok].
  exists ids_of.
  destruct (values_survive_close_and_open Scenario.sh6 ids_of Examples.fs_new [U32 0]
              Hok (reachable_table_ok _ Hreach))
    as (c & tbl' & Hclose & Hopen & Hget).
  - vm_compute. discriminate.
  - vm_compute. reflexivity.
  - vm_compute. discriminate.
  - exists c, tbl'. split; [exact Hok |]. split; [exact Hclose |].
    split; [exact Hopen | exact Hget].
Defined.

(** ** The id vector: ids that are rejected, and a vector read back *)

Lemma add_reads_previous (v : UintVector.t) (pre : list byte) (prev id : Z) :
  length (UintVector.data_ v) = Z.to_nat (UintVector.size_ v) ->
  UintVector.offset_ v = Z.of_nat (length pre) + 4 ->
  UintVector.offset_ v <= UintVector.size_ v ->
  UintVector.offset_ v < 2 ^ 32 ->
  firstn (Z.to_nat (UintVector.offset_ v)) (UintVector.data_ v)
  = pre ++ writeUint32 prev ->
  0 <= prev < 2 ^ 32 ->
  let v2 := UintVector.advance (- 4) (UintVector.allocateMoreIfFull v) in
  UintVector.offset_ v2 = Z.of_nat (length pre)
  /\ UintVector.add id v
     = if prev <? id then
         if u32 (id - prev) <=? Varint.N4_MAX_UINT
         then UintVector.write_value (u32 (id - prev)) (UintVector.remaining v2) id v2
         else Ok (false, v2)
       else AssertionFailed (false, v2).
Proof.
  intros Hlen Hoffset Hle Hsmall Hdata Hprev v2.
  assert (Hoff : 0 <= UintVector.offset_ v <= UintVector.size_ v) by lia.
  destruct (allocateMoreIfFull_spec v Hlen Hoff) as (Ho1 & Hl1 & H81 & Hpre & _).
  assert (Hu : u32 (UintVector.offset_ (UintVector.allocateMoreIfFull v) + - 4)
               = Z.of_nat (length pre)).
  { rewrite Ho1, Hoffset.
    replace (Z.of_nat (length pre) + 4 + - 4) with (Z.of_nat (length pre)) by lia.
    apply u32_small. lia. }
  split; [exact Hu |].
  unfold UintVector.add. cbv zeta. fold v2.
  unfold UintVector.empty. rewrite Ho1.
  destruct (Z.eqb_spec (UintVector.offset_ v) 0) as [H0 | _]; [lia |].
  assert (Hcur : UintVector.current v2
                 = writeUint32 prev
                   ++ skipn (Z.to_nat (UintVector.offset_ v))
                        (UintVector.data_ (UintVector.allocateMoreIfFull v))).
  { unfold UintVector.current. subst v2.
    cbn [UintVector.advance UintVector.offset_ UintVector.data_].
    rewrite Hu.
    rewrite <- (firstn_skipn (Z.to_nat (UintVector.offset_ v))
                  (UintVector.data_ (UintVector.allocateMoreIfFull v))) at 1.
    rewrite Hpre, Hdata, <- app_assoc, Nat2Z.id.
    apply skipn_length_app. }
  rewrite Hcur, readUint32_writeUint32 by exact Hprev. reflexivity.
Qed.

Lemma represents_shape (v : UintVector.t) (ids : list Z) :
  represents v ids -> ids <> [] ->
  length (UintVector.data_ v) = Z.to_nat (UintVector.size_ v)
  /\ UintVector.offset_ v = Z.of_nat (length (deltas 0 ids)) + 4
  /\ UintVector.offset_ v <= UintVector.size_ v
  /\ UintVector.offset_ v < 2 ^ 32
  /\ firstn (Z.to_nat (UintVector.offset_ v)) (UintVector.data_ v)
     = deltas 0 ids ++ writeUint32 (last ids 0)
  /\ 0 <= last ids 0 <= Varint.N4_MAX_UINT.
Proof.
  intros Hrep Hne.
  pose proof (represents_ids_range v ids Hrep) as [Hrange Hindep].
  destruct (Hindep Hne) as [Hlast Hlast0].
  destruct Hrep as (Hlen & Hsz & Hgrow & Hinc & HlastN & Hshape).
  destruct ids as [|x0 ids0]; [contradiction |].
  destruct Hshape as (H8 & Hoffset & Hle & Hdata).
  pose proof (deltas_length_bound (x0 :: ids0) Hinc) as Hbound.
  assert (Hmax : Varint.N4_MAX_UINT = 2 ^ 28 - 1) by reflexivity.
  repeat split; try assumption; lia.
Qed.

(** X23.  Ids out of the range of the vector are rejected: after strictly
    increasing ids, none above [N4_MAX_UINT], have been added to a new
    vector, [add] of a 32-bit value that lies more than [N4_MAX_UINT]
    above the last id added (above 0 for the first id) returns [false]. *)
Theorem add_rejects_distant_id (ids : list Z) (id : Z) :
  increasing (-1) ids ->
  Forall (fun i => i <= Varint.N4_MAX_UINT) ids ->
  last ids 0 + Varint.N4_MAX_UINT < id < 2 ^ 32 ->
  exists v v',
    add_each ids UintVector.init = Some v
    /\ UintVector.add id v = Ok (false, v').
Proof.
  intros Hinc Hmax Hid.
  destruct (add_each_represents ids UintVector.init [] represents_init_nil Hinc Hmax)
    as (v & Heach & Hrep).
  cbn [app] in Hrep. exists v.
  assert (HN : Varint.N4_MAX_UINT = 2 ^ 28 - 1) by reflexivity.
  destruct ids as [|x ids0].
  - eexists. split; [exact Heach |]. cbn [last] in Hid.
    apply add_out_of_range; [| lia].
    destruct Hrep as (_ & _ & _ & _ & _ & Hshape). exact Hshape.
  - destruct (represents_shape v (x :: ids0) Hrep ltac:(discriminate))
      as (Hlen & Hoffset & Hle & Hsmall & Hdata & Hlast).
    destruct (add_reads_previous v _ (last (x :: ids0) 0) id
                Hlen Hoffset Hle Hsmall Hdata ltac:(lia)) as [_ Hadd].
    rewrite Hadd.
    destruct (Z.ltb_spec (last (x :: ids0) 0) id); [| lia].
    rewrite u32_small by lia.
    destruct (Z.leb_spec (id - last (x :: ids0) 0) Varint.N4_MAX_UINT); [lia |].
    eexists. split; [exact Heach | reflexivity].
Qed.

Lemma add_rejects_distant_id_witness :
  exists v v',
    add_each [3; 7; 300] UintVector.init = Some v
    /\ UintVector.add (300 + 2 ^ 28) v = Ok (false, v').
Proof.
  apply add_rejects_distant_id.
  - cbn. lia.
  - repeat constructor; vm_compute; discriminate.
  - vm_compute. split; reflexivity.
Defined.

Lemma bytes_of_length_4 (d : Z) :
  2 ^ 21 <= d <= Varint.N4_MAX_UINT -> length (Varint.bytes_of d) = 4%nat.
Proof.
  intros Hd. assert (HN : Varint.N4_MAX_UINT = 2 ^ 28 - 1) by reflexivity.
  assert (H1 : 2 ^ 14 <= d / 128 < 2 ^ 21).
  { split; [apply Z.div_le_lower_bound | apply Z.div_lt_upper_bound]; lia. }
  assert (H2 : 2 ^ 7 <= d / 128 / 128 < 2 ^ 14).
  { split; [apply Z.div_le_lower_bound | apply Z.div_lt_upper_bound]; lia. }
  assert (H3 : 1 <= d / 128 / 128 / 128 < 2 ^ 7).
  { split; [apply Z.div_le_lower_bound | apply Z.div_lt_upper_bound]; lia. }
  unfold Varint.bytes_of. cbn [Varint.encode].
  destruct (Z.ltb_spec d 128); [lia |].
  destruct (Z.ltb_spec (d / 128) 128); [lia |].
  destruct (Z.ltb_spec (d / 128 / 128) 128); [lia |].
  destruct (Z.ltb_spec (d / 128 / 128 / 128) 128); [reflexivity | lia].
Qed.

Lemma deltas_nonempty (prev : Z) (ids : list Z) :
  ids <> [] -> (1 <= length (deltas prev ids))%nat.
Proof.
  destruct ids as [|x rest]; [contradiction |]. intros _.
  cbn [deltas]. rewrite length_app.
  pose proof (encode_nonempty 4 (x - prev)) as Hne.
  unfold Varint.bytes_of. destruct (Varint.encode 5 (x - prev)); [contradiction |].
  cbn [length]. lia.
Qed.

(** X24.  A vector read back from the keys file is as large as its
    content, and [allocateMoreIfFull] grows a vector of fewer than eight
    bytes to eight, nine or ten bytes only.  The ids are read back
    correctly; but when such a vector (one to three bytes of deltas) then
    receives an id whose delta takes four bytes, the four bytes of the
    delta and the four bytes of the last id do not fit: [add] writes past
    the end of its buffer. *)
Theorem add_after_read_back_writes_past_buffer (v : UintVector.t) (ids : list Z)
    (id : Z) :
  represents v ids ->
  ids <> [] ->
  UintVector.offset_ v < 8 ->
  2 ^ 21 <= id - last ids 0 <= Varint.N4_MAX_UINT ->
  UintVector.unpack (read_back v) = Some ids
  /\ exists v', UintVector.add id (read_back v) = Undefined (false, v').
Proof.
  intros Hrep Hne Hshort Hid.
  split; [exact (unpack_read_back v ids Hrep) |].
  assert (HN : Varint.N4_MAX_UINT = 2 ^ 28 - 1) by reflexivity.
  destruct (represents_shape v ids Hrep Hne)
    as (Hlen & Hoffset & Hle & Hsmall & Hdata & Hlast).
  pose proof (deltas_nonempty 0 ids Hne) as Hdeltas.
  set (off := UintVector.offset_ v) in *.
  assert (Hdata' : UintVector.data_ (read_back v)
                   = deltas 0 ids ++ writeUint32 (last ids 0)).
  { unfold read_back, UintVector.contents. cbn [UintVector.data_].
    fold off. now rewrite firstn_firstn, Nat.min_id. }
  assert (Hlen' : length (UintVector.data_ (read_back v)) = Z.to_nat off).
  { rewrite Hdata', length_app, writeUint32_length. lia. }
  assert (Hfirst : firstn (Z.to_nat (UintVector.offset_ (read_back v)))
                     (UintVector.data_ (read_back v))
                   = deltas 0 ids ++ writeUint32 (last ids 0)).
  { cbn [read_back UintVector.offset_]. fold off.
    rewrite <- Hlen' at 1. rewrite firstn_all. exact Hdata'. }
  destruct (add_reads_previous (read_back v) (deltas 0 ids) (last ids 0) id
              Hlen' Hoffset (Z.le_refl off) Hsmall Hfirst ltac:(lia))
    as [Ho2 Hadd].
  rewrite Hadd. clear Hadd.
  destruct (Z.ltb_spec (last ids 0) id); [| lia].
  rewrite u32_small by lia.
  destruct (Z.leb_spec (id - last ids 0) Varint.N4_MAX_UINT); [| lia].
  set (v2 := UintVector.advance (- 4) (UintVector.allocateMoreIfFull (read_back v))) in *.
  assert (Hsize2 : UintVector.size_ v2 = Z.max (off + off / 2) 8).
  { subst v2. unfold UintVector.allocateMoreIfFull, read_back.
    cbn [UintVector.offset_ UintVector.size_]. fold off.
    destruct (Z.ltb_spec (off - off) 8); [| lia].
    reflexivity. }
  assert (Hhalf : 0 <= off / 2 < 4).
  { split; [apply Z.div_pos | apply Z.div_lt_upper_bound]; lia. }
  pose proof (bytes_of_length_4 _ Hid) as Hbs.
  unfold UintVector.write_value, Varint.writeUint. cbv zeta.
  rewrite Hbs. unfold UintVector.remaining. rewrite Hsize2, Ho2.
  destruct (Z.leb_spec (Z.of_nat 4) (Z.max (off + off / 2) 8 - Z.of_nat (length (deltas 0 ids))));
    [| lia].
  rewrite Hbs. unfold UintVector.has_room at 2.
  cbn [UintVector.advance UintVector.put UintVector.offset_ UintVector.size_].
  rewrite Ho2, Hsize2. rewrite u32_small by lia.
  destruct (Z.leb_spec (Z.of_nat (length (deltas 0 ids)) + Z.of_nat 4 + 4)
              (Z.max (off + off / 2) 8)); [lia |].
  rewrite andb_false_r. eexists. reflexivity.
Qed.

Lemma add_after_read_back_writes_past_buffer_witness :
  let v := snd (state_of (UintVector.add 0 UintVector.init)) in
  UintVector.unpack (read_back v) = Some [0]
  /\ exists v', UintVector.add (2 ^ 21) (read_back v) = Undefined (false, v').
Proof.
  apply (add_after_read_back_writes_past_buffer _ [0] (2 ^ 21)).
  - vm_compute. repeat split; try discriminate; reflexivity.
  - discriminate.
  - vm_compute. reflexivity.
  - vm_compute. split; discriminate.
Defined.

(** ** [Shard::replaceAllEqual] *)

Lemma replaced_equal_to_new (old_value new_value v : Bytes) :
  new_value <> [] ->
  replaced (equal_to_new old_value new_value) v = Bytes_eqb v old_value.
Proof.
  intros Hne. unfold replaced, equal_to_new.
  destruct (Bytes_eqb v old_value); [| reflexivity].
  destruct new_value; [contradiction | reflexivity].
Qed.

Lemma map_equal_to_new (old_value new_value : Bytes) (vs : list Bytes) :
  map (equal_to_new old_value new_value)
      (filter (fun v => Bytes_eqb v old_value) vs)
  = repeat new_value (count_occ Bytes_eq_dec vs old_value).
Proof.
  induction vs as [|v rest IH]; [reflexivity |].
  cbn [filter count_occ].
  destruct (Bytes_eq_dec v old_value) as [-> | Hne].
  - rewrite Bytes_eqb_refl. cbn [map repeat]. rewrite IH.
    unfold equal_to_new. now rewrite Bytes_eqb_refl.
  - rewrite (proj2 (Bytes_eqb_neq v old_value) Hne). exact IH.
Qed.

(** X25.  [replaceAllEqual] with a new value that is not empty: in a
    reachable shard, when the new value fits into a block and the store
    has room in the id range for one block per replaced value, the call
    returns the number of occurrences of the old value among the values
    of the key; afterwards the iterator of the key yields the other
    values in their order, followed by the new value once per
    occurrence that was replaced. *)
Theorem replaceAllEqual_moves_new_values_to_end (key old_value new_value : Bytes)
    (sh : Shard.t) (values : list Bytes) :
  reachable sh ->
  new_value <> [] ->
  fits_block sh new_value ->
  Shard.get key sh = Some values ->
  Store.num_blocks (Shard.store_ sh)
  + Z.of_nat (count_occ Bytes_eq_dec values old_value) <= Varint.N4_MAX_UINT + 1 ->
  exists sh',
    Shard.replaceAllEqual key old_value new_value sh
    = Ok (sh', Z.of_nat (count_occ Bytes_eq_dec values old_value))
    /\ Shard.get key sh'
       = Some (filter (fun v => if Bytes_eq_dec v old_value then false else true) values
               ++ repeat new_value (count_occ Bytes_eq_dec values old_value)).
Proof.
  intros Hreach Hnew Hfit Hget Hcap.
  destruct (reachable_ok sh Hreach) as [ids_of Hok].
  rewrite (get_spec key sh ids_of Hok) in Hget. injection Hget as Hvalues.
  set (f := equal_to_new old_value new_value).
  assert (Hold : chosen true (replaced f) (entries_of key sh ids_of)
                 = filter (fun v => Bytes_eqb v old_value) values).
  { cbn [chosen]. unfold selected_values. rewrite Hvalues.
    apply filter_ext. intros v. now apply replaced_equal_to_new. }
  destruct (replace_ok key f true sh ids_of Hok) as (sh' & ids' & Hrun & Hok' & He & _).
  { rewrite Hold. subst f. rewrite map_equal_to_new.
    apply Forall_forall. intros v Hin. apply repeat_spec in Hin. now subst v. }
  { rewrite Hold, filter_Bytes_eqb_count. exact Hcap. }
  exists sh'. split.
  - change (Shard.replaceAllEqual key old_value new_value sh)
      with (Shard.replace key f true sh).
    rewrite Hrun, Hold, filter_Bytes_eqb_count. reflexivity.
  - rewrite (get_spec key sh' ids' Hok'), He, live_app, live_fresh.
    cbn [marked]. rewrite live_mark_all, Hold, Hvalues. subst f.
    rewrite map_equal_to_new. f_equal. f_equal.
    apply filter_ext. intros v. rewrite (replaced_equal_to_new _ _ _ Hnew).
    destruct (Bytes_eq_dec v old_value) as [-> | Hne].
    + now rewrite Bytes_eqb_refl.
    + now rewrite (proj2 (Bytes_eqb_neq v old_value) Hne).
Qed.

Lemma replaceAllEqual_moves_new_values_to_end_witness :
  exists sh',
    Shard.replaceAllEqual Examples.key_a (Examples.raw 10 1) (Examples.raw 12 3)
      Scenario.sh6
    = Ok (sh', Z.of_nat (count_occ Bytes_eq_dec
                           [Examples.raw 10 2; Examples.raw 10 1] (Examples.raw 10 1)))
    /\ Shard.get Examples.key_a sh'
       = Some (filter (fun v => if Bytes_eq_dec v (Examples.raw 10 1)
                                then false else true)
                      [Examples.raw 10 2; Examples.raw 10 1]
               ++ repeat (Examples.raw 12 3)
                    (count_occ Bytes_eq_dec
                       [Examples.raw 10 2; Examples.raw 10 1] (Examples.raw 10 1))).
Proof.
  apply replaceAllEqual_moves_new_values_to_end.
  - scenario_reachable.
  - discriminate.
  - vm_compute. reflexivity.
  - vm_compute. reflexivity.
  - vm_compute. discriminate.
Defined.

(** ** Flushing every list of a table *)

Lemma flush_entry_spec (st : Store.t) (key : Bytes) (slot : Table.Slot)
    (ids : list Z) :
  well_formed st (Table.slot_list slot) ids ->
  Store.num_blocks st <= Varint.N4_MAX_UINT ->
  exists st' entry',
    Table.flush_entry st (key, slot) = Ok (st', entry')
    /\ store_extends st st'
    /\ Store.num_blocks st' <= Store.num_blocks st + 1
    /\ kept st st' (key, slot) entry'
    /\ Block.has_data (List.block_ (Table.slot_list (snd entry'))) = false.
Proof.
  intros Hwf Hcap.
  destruct (Flush_well_formed _ _ _ Hwf Hcap)
    as (st' & l' & ids' & Hflush & Hwf' & Hc & Hsize & Hnum & Hread & _).
  unfold Table.flush_entry. cbn [fst snd]. rewrite Hflush. cbn [map_result bind].
  eexists. eexists. split; [reflexivity |].
  split; [split; [exact Hsize | split; [lia | exact Hread]] |].
  split; [lia |].
  split.
  - split; [reflexivity |]. split; [reflexivity |].
    intros st'' Hext. cbn [snd Table.slot_list].
    rewrite (iterate_extends st' st'' l' ids' Hwf' Hext).
    now rewrite (iterate_spec st' l' ids' Hwf'), (iterate_spec st _ ids Hwf), Hc.
  - cbn [snd Table.slot_list]. exact (Flush_block _ _ _ _ Hflush).
Qed.

Lemma kept_same (st st' : Store.t) (entries : list (Bytes * Table.Slot)) :
  store_extends st st' ->
  (forall key slot, In (key, slot) entries ->
     exists ids, well_formed st (Table.slot_list slot) ids) ->
  Forall2 (kept st st') entries entries.
Proof.
  intros Hext. induction entries as [|[key slot] rest IH]; intros Hall; constructor.
  - split; [reflexivity |]. split; [reflexivity |].
    intros st'' Hext''. destruct (Hall key slot (or_introl eq_refl)) as [ids Hwf].
    exact (iterate_extends st st'' _ ids Hwf (store_extends_trans _ _ _ Hext Hext'')).
  - apply IH. intros k s Hin. exact (Hall k s (or_intror Hin)).
Qed.

Lemma kept_earlier (st st1 st' : Store.t) (entries entries' : list (Bytes * Table.Slot)) :
  store_extends st st1 ->
  (forall key slot, In (key, slot) entries ->
     exists ids, well_formed st (Table.slot_list slot) ids) ->
  Forall2 (kept st1 st') entries entries' ->
  Forall2 (kept st st') entries entries'.
Proof.
  intros Hext Hall Hkept. apply (Forall2_impl_In _ _ _ _ Hkept).
  intros [k s] e' Hin (Hfst & Hmutex & Hiter).
  split; [exact Hfst |]. split; [exact Hmutex |].
  intros st'' Hext''. rewrite (Hiter st'' Hext''). cbn [snd].
  destruct (Hall k s Hin) as [ids Hwf].
  exact (iterate_extends st st1 _ ids Hwf Hext).
Qed.

Lemma well_formed_rest (st st1 : Store.t) (entry : Bytes * Table.Slot)
    (rest : list (Bytes * Table.Slot)) :
  store_extends st st1 ->
  (forall key slot, In (key, slot) (entry :: rest) ->
     exists ids, well_formed st (Table.slot_list slot) ids) ->
  forall key slot, In (key, slot) rest ->
    exists ids, well_formed st1 (Table.slot_list slot) ids.
Proof.
  intros Hext Hall key slot Hin.
  destruct (Hall key slot (or_intror Hin)) as [ids Hwf].
  exists ids. exact (proj1 (well_formed_extends _ _ _ _ Hwf Hext)).
Qed.

Lemma flushAllUnlockedLists_loop_spec (entries : list (Bytes * Table.Slot)) :
  forall st,
    (forall key slot, In (key, slot) entries ->
       exists ids, well_formed st (Table.slot_list slot) ids) ->
    Store.num_blocks st + Z.of_nat (length entries) <= Varint.N4_MAX_UINT + 1 ->
    exists st' entries',
      Table.flushAllUnlockedLists_loop entries st = Ok (st', entries')
      /\ store_extends st st'
      /\ Forall2 (kept st st') entries entries'
      /\ Forall2 flushed_or_locked entries entries'.
Proof.
  induction entries as [|[key slot] rest IH]; intros st Hall Hcap.
  - exists st, []. split; [reflexivity |]. split; [apply store_extends_refl |].
    split; constructor.
  - cbn [length] in Hcap. cbn [Table.flushAllUnlockedLists_loop snd].
    destruct (Hall key slot (or_introl eq_refl)) as [ids Hwf].
    destruct (Table.tryLockUnique (Table.slot_mutex slot)) eqn:Hlock.
    + destruct (flush_entry_spec st key slot ids Hwf ltac:(lia))
        as (st1 & e1 & Hflush & Hext1 & Hnum1 & Hkept1 & Hdata1).
      destruct (IH st1 (well_formed_rest st st1 _ rest Hext1 Hall) ltac:(lia))
        as (st' & rest' & Hloop & Hext' & Hkept' & Hdone').
      exists st', (e1 :: rest'). rewrite Hflush. cbn [bind]. rewrite Hloop.
      split; [reflexivity |].
      split; [exact (store_extends_trans _ _ _ Hext1 Hext') |].
      split; constructor.
      * destruct Hkept1 as (Hfst & Hmutex & Hiter).
        split; [exact Hfst |]. split; [exact Hmutex |].
        intros st'' Hext''. apply Hiter.
        exact (store_extends_trans _ _ _ Hext' Hext'').
      * apply (kept_earlier st st1 st' rest rest' Hext1); [| exact Hkept'].
        intros k s Hin. exact (Hall k s (or_intror Hin)).
      * unfold flushed_or_locked. cbn [snd]. now rewrite Hlock.
      * exact Hdone'.
    + destruct (IH st (fun k s Hin => Hall k s (or_intror Hin)) ltac:(lia))
        as (st' & rest' & Hloop & Hext' & Hkept' & Hdone').
      exists st', ((key, slot) :: rest'). rewrite Hloop.
      split; [reflexivity |]. split; [exact Hext' |].
      split; constructor.
      * split; [reflexivity |]. split; [reflexivity |].
        intros st'' Hext''.
        exact (iterate_extends st st'' _ ids Hwf
                 (store_extends_trans _ _ _ Hext' Hext'')).
      * exact Hkept'.
      * unfold flushed_or_locked. cbn [snd]. now rewrite Hlock.
      * exact Hdone'.
Qed.

Lemma flushAllListsOrThrowIfLocked_loop_spec (entries : list (Bytes * Table.Slot)) :
  forall st,
    (forall key slot, In (key, slot) entries ->
       exists ids, well_formed st (Table.slot_list slot) ids) ->
    Store.num_blocks st + Z.of_nat (length entries) <= Varint.N4_MAX_UINT + 1 ->
    exists st' entries',
      ((Forall (fun entry =>
                  Table.tryLockUnique (Table.slot_mutex (snd entry)) = true) entries
        /\ Table.flushAllListsOrThrowIfLocked_loop entries st = Ok (st', entries')
        /\ Table.flushAllUnlockedLists_loop entries st = Ok (st', entries'))
       \/ (~ Forall (fun entry =>
                       Table.tryLockUnique (Table.slot_mutex (snd entry)) = true)
                    entries
           /\ Table.flushAllListsOrThrowIfLocked_loop entries st
              = Thrown (st', entries')
           /\ stopped_at_locked entries entries'))
      /\ store_extends st st'
      /\ Forall2 (kept st st') entries entries'.
Proof.
  induction entries as [|[key slot] rest IH]; intros st Hall Hcap.
  - exists st, []. split; [left; split; [constructor | split; reflexivity] |].
    split; [apply store_extends_refl | constructor].
  - cbn [length] in Hcap.
    cbn [Table.flushAllListsOrThrowIfLocked_loop Table.flushAllUnlockedLists_loop snd].
    destruct (Hall key slot (or_introl eq_refl)) as [ids Hwf].
    destruct (Table.tryLockUnique (Table.slot_mutex slot)) eqn:Hlock.
    + destruct (flush_entry_spec st key slot ids Hwf ltac:(lia))
        as (st1 & e1 & Hflush & Hext1 & Hnum1 & Hkept1 & Hdata1).
      destruct (IH st1 (well_formed_rest st st1 _ rest Hext1 Hall) ltac:(lia))
        as (st' & rest' & Hcases & Hext' & Hkept').
      exists st', (e1 :: rest'). rewrite Hflush. cbn [bind].
      split.
      { destruct Hcases as [(Hfree & HloopT & HloopU) | (Hheld & HloopT & Hstop)].
        - left. split; [constructor; [exact Hlock | exact Hfree] |].
          rewrite HloopT, HloopU. split; reflexivity.
        - right. split.
          + intros Hfree. apply Hheld. now inversion Hfree.
          + rewrite HloopT. split; [reflexivity |].
            destruct Hstop as (done & locked & rest0 & done' & Hsplit & Hfree
                               & Hlocked & Hsplit' & Hdone).
            exists ((key, slot) :: done), locked, rest0, (e1 :: done').
            split; [rewrite Hsplit; reflexivity |].
            split; [constructor; [exact Hlock | exact Hfree] |].
            split; [exact Hlocked |].
            split; [rewrite Hsplit'; reflexivity |].
            constructor; [| exact Hdone].
            destruct Hkept1 as (Hfst & Hmutex & _).
            split; [exact Hfst |]. split; [exact Hmutex | exact Hdata1]. }
      split; [exact (store_extends_trans _ _ _ Hext1 Hext') |].
      constructor.
      * destruct Hkept1 as (Hfst & Hmutex & Hiter).
        split; [exact Hfst |]. split; [exact Hmutex |].
        intros st'' Hext''. apply Hiter.
        exact (store_extends_trans _ _ _ Hext' Hext'').
      * apply (kept_earlier st st1 st' rest rest' Hext1); [| exact Hkept'].
        intros k s Hin. exact (Hall k s (or_intror Hin)).
    + exists st, ((key, slot) :: rest).
      split.
      { right. split; [| split; [reflexivity |]].
        - intros Hfree. inversion Hfree as [|? ? Hhead _]; subst.
          cbn [snd] in Hhead. congruence.
        - exists [], (key, slot), rest, [].
          split; [reflexivity |]. split; [constructor |].
          split; [exact Hlock |]. split; [reflexivity | constructor]. }
      split; [apply store_extends_refl |].
      apply kept_same; [apply store_extends_refl | exact Hall].
Qed.

Lemma find_kept (st st' : Store.t) (m m' : list (Bytes * Table.Slot)) (key : Bytes) :
  Forall2 (kept st st') m m' ->
  match Table.find key m, Table.find key m' with
  | Some s, Some s' =>
      forall st'', store_extends st' st'' ->
        List.iterate st'' (Table.slot_list s') = List.iterate st (Table.slot_list s)
  | None, None => True
  | _, _ => False
  end.
Proof.
  induction 1 as [|[k s] [k' s'] m m' (Hfst & _ & Hiter) _ IH]; [exact I |].
  cbn [fst snd] in Hfst, Hiter. subst k'. cbn [Table.find].
  destruct (Bytes_eqb k key); [exact Hiter | exact IH].
Qed.

Lemma get_kept (sh : Shard.t) (st' : Store.t) (m' : list (Bytes * Table.Slot))
    (path : string) (key : Bytes) :
  Forall2 (kept (Shard.store_ sh) st') (Table.map_ (Shard.table_ sh)) m' ->
  Shard.get key (shard_of (st', {| Table.map_ := m'; Table.path_ := path |}))
  = Shard.get key sh.
Proof.
  intros Hkept. pose proof (find_kept _ _ _ _ key Hkept) as Hfind.
  unfold Shard.get, Table.getUnique, shard_of.
  cbn [fst snd Shard.store_ Shard.table_ Table.map_].
  destruct (Table.find key (Table.map_ (Shard.table_ sh))) as [s |],
           (Table.find key m') as [s' |]; try contradiction; [| reflexivity].
  apply Hfind. apply store_extends_refl.
Qed.

Lemma shard_lists_well_formed (sh : Shard.t) (ids_of : Bytes -> list Z) :
  shard_ok sh ids_of ->
  table_ok (Shard.table_ sh) ->
  forall key slot, In (key, slot) (Table.map_ (Shard.table_ sh)) ->
    exists ids, well_formed (Shard.store_ sh) (Table.slot_list slot) ids.
Proof.
  intros Hok [Hnd _] key slot Hin. exists (ids_of key).
  pose proof (proj1 Hok key) as Hwf.
  destruct (get_of_slot key sh slot (find_In_NoDup key slot _ Hnd Hin)) as [_ Hl].
  now rewrite Hl in Hwf.
Qed.

(** X26.  [Table::flushAllUnlockedLists] is invisible to readers.  In a
    shard that satisfies the invariant, with distinct keys, whose store
    has room in the id range for one more block per list, the call
    returns; every list that could be locked is left without an in-memory
    block, a list locked by another thread is left as it was, and every
    key yields afterwards what it yielded before. *)
Theorem flushAllUnlockedLists_keeps_values (sh : Shard.t) (ids_of : Bytes -> list Z) :
  shard_ok sh ids_of ->
  table_ok (Shard.table_ sh) ->
  Store.num_blocks (Shard.store_ sh)
  + Z.of_nat (length (Table.map_ (Shard.table_ sh))) <= Varint.N4_MAX_UINT + 1 ->
  exists w,
    Table.flushAllUnlockedLists (Shard.table_ sh) (Shard.store_ sh) = Ok w
    /\ (forall key, Shard.get key (shard_of w) = Shard.get key sh)
    /\ Forall2 flushed_or_locked (Table.map_ (Shard.table_ sh)) (Table.map_ (snd w))
    /\ Table.path_ (snd w) = Table.path_ (Shard.table_ sh).
Proof.
  intros Hok Htable Hcap.
  destruct (flushAllUnlockedLists_loop_spec _ _
              (shard_lists_well_formed sh ids_of Hok Htable) Hcap)
    as (st' & m' & Hloop & _ & Hkept & Hdone).
  unfold Table.flushAllUnlockedLists. rewrite Hloop. cbn [map_result bind].
  eexists. split; [reflexivity |].
  unfold Table.with_map. cbn [fst snd Table.map_ Table.path_].
  split; [intros key; now apply get_kept |]. split; [exact Hdone | reflexivity].
Qed.

(** X27.  [Table::flushAllListsOrThrowIfLocked] loses nothing, whether it
    returns or throws.  Under the conditions of X26, when no list is
    locked by another thread the call returns what
    [flushAllUnlockedLists] returns.  When some list is locked it throws,
    after it has flushed the lists that precede the first locked one: each
    of them is left without an in-memory block, while the locked list and
    the lists behind it are as they were.  In both cases every key yields
    afterwards what it yielded before. *)
Theorem flushAllListsOrThrowIfLocked_keeps_values (sh : Shard.t)
    (ids_of : Bytes -> list Z) :
  shard_ok sh ids_of ->
  table_ok (Shard.table_ sh) ->
  Store.num_blocks (Shard.store_ sh)
  + Z.of_nat (length (Table.map_ (Shard.table_ sh))) <= Varint.N4_MAX_UINT + 1 ->
  exists w,
    ((all_unlocked (Shard.table_ sh)
      /\ Table.flushAllListsOrThrowIfLocked (Shard.table_ sh) (Shard.store_ sh) = Ok w
      /\ Table.flushAllUnlockedLists (Shard.table_ sh) (Shard.store_ sh) = Ok w)
     \/ (~ all_unlocked (Shard.table_ sh)
         /\ Table.flushAllListsOrThrowIfLocked (Shard.table_ sh) (Shard.store_ sh)
            = Thrown w
         /\ stopped_at_locked (Table.map_ (Shard.table_ sh)) (Table.map_ (snd w))
         /\ Table.path_ (snd w) = Table.path_ (Shard.table_ sh)))
    /\ forall key, Shard.get key (shard_of w) = Shard.get key sh.
Proof.
  intros Hok Htable Hcap.
  destruct (flushAllListsOrThrowIfLocked_loop_spec _ _
              (shard_lists_well_formed sh ids_of Hok Htable) Hcap)
    as (st' & m' & Hcases & _ & Hkept).
  exists (Table.with_map (Shard.table_ sh) (st', m')).
  unfold Table.flushAllListsOrThrowIfLocked, Table.flushAllUnlockedLists, all_unlocked.
  split.
  - destruct Hcases as [(Hfree & HloopT & HloopU) | (Hheld & HloopT & Hstop)].
    + left. split; [exact Hfree |]. rewrite HloopT, HloopU. split; reflexivity.
    + right. split; [exact Hheld |]. rewrite HloopT.
      split; [reflexivity |]. split; [exact Hstop | reflexivity].
  - intros key. unfold Table.with_map. cbn [fst snd]. now apply get_kept.
Qed.

Lemma find_lock_shared (key k : Bytes) (m : list (Bytes * Table.Slot)) :
  Table.find key (Examples.lock_shared k m)
  = match Table.find key m with
    | Some s =>
        Some (if Bytes_eqb key k
              then {| Table.slot_list := Table.slot_list s;
                      Table.slot_mutex := Table.LockedShared 1 |}
              else s)
    | None => None
    end.
Proof.
  induction m as [|[k0 s0] m IH]; [reflexivity |].
  cbn [Examples.lock_shared map Table.find].
  destruct (Bytes_eqb k0 k) eqn:Hk0; cbn [Table.find];
    destruct (Bytes_eqb k0 key) eqn:Hkey; try exact IH.
  - apply Bytes_eqb_eq in Hk0, Hkey. subst. now rewrite Bytes_eqb_refl.
  - apply Bytes_eqb_eq in Hkey. subst k0. now rewrite Hk0.
Qed.

Lemma lock_shared_keys (k : Bytes) (m : list (Bytes * Table.Slot)) :
  map fst (Examples.lock_shared k m) = map fst m.
Proof.
  induction m as [|[k0 s0] m IH]; [reflexivity |].
  cbn [Examples.lock_shared map]. destruct (Bytes_eqb k0 k); cbn [fst];
    f_equal; exact IH.
Qed.

Lemma lock_shared_shard_ok (k : Bytes) (sh : Shard.t) (ids_of : Bytes -> list Z) :
  shard_ok sh ids_of ->
  shard_ok {| Shard.store_ := Shard.store_ sh;
              Shard.table_ :=
                {| Table.map_ := Examples.lock_shared k (Table.map_ (Shard.table_ sh));
                   Table.path_ := Table.path_ (Shard.table_ sh) |} |} ids_of.
Proof.
  intros [Hwf Hdisj]. split; [| exact Hdisj].
  intros key. specialize (Hwf key).
  unfold list_of, Table.getUnique in *. cbn [Shard.store_ Shard.table_ Table.map_].
  rewrite find_lock_shared.
  destruct (Table.find key (Table.map_ (Shard.table_ sh))) as [s |]; [| exact Hwf].
  destruct (Bytes_eqb key k); exact Hwf.
Qed.

Ltac shard_abc_reachable :=
  apply (reachable_step (OpRemove Examples.key_b (fun _ => true) true)
           (state_of (Shard.put Examples.key_c (Examples.raw 4 3)
              (state_of (Shard.put Examples.key_b (Examples.raw 2 2)
                 (state_of (Shard.put Examples.key_a (Examples.raw 3 1)
                    Examples.shard16)))))));
    [ apply (reachable_step (OpPut Examples.key_c (Examples.raw 4 3))
               (state_of (Shard.put Examples.key_b (Examples.raw 2 2)
                  (state_of (Shard.put Examples.key_a (Examples.raw 3 1)
                     Examples.shard16)))));
      [ apply (reachable_step (OpPut Examples.key_b (Examples.raw 2 2))
                 (state_of (Shard.put Examples.key_a (Examples.raw 3 1)
                    Examples.shard16)));
        [ apply (reachable_step (OpPut Examples.key_a (Examples.raw 3 1))
                   Examples.shard16);
          [ apply reachable_new | put_in_range | vm_compute; reflexivity ]
        | put_in_range | vm_compute; reflexivity ]
      | put_in_range | vm_compute; reflexivity ]
    | exact I | vm_compute; reflexivity ].

Lemma shard_abc_reachable_ok : reachable Examples.shard_abc.
Proof. shard_abc_reachable. Qed.

Lemma shard_abc_c_locked_ok :
  exists ids_of,
    shard_ok shard_abc_c_locked ids_of /\ table_ok (Shard.table_ shard_abc_c_locked).
Proof.
  destruct (reachable_ok _ shard_abc_reachable_ok) as [ids_of Hok].
  exists ids_of. split.
  - exact (lock_shared_shard_ok Examples.key_c Examples.shard_abc ids_of Hok).
  - destruct (reachable_table_ok _ shard_abc_reachable_ok) as [Hnd Hkeys].
    unfold table_ok, shard_abc_c_locked, Examples.table_abc_c_locked.
    cbn [Shard.table_ Table.map_]. rewrite lock_shared_keys. split; assumption.
Qed.

Lemma flushAllUnlockedLists_keeps_values_witness :
  exists w,
    Table.flushAllUnlockedLists (Shard.table_ shard_abc_c_locked)
      (Shard.store_ shard_abc_c_locked) = Ok w
    /\ (forall key, Shard.get key (shard_of w) = Shard.get key shard_abc_c_locked)
    /\ Forall2 flushed_or_locked (Table.map_ (Shard.table_ shard_abc_c_locked))
               (Table.map_ (snd w))
    /\ Table.path_ (snd w) = Table.path_ (Shard.table_ shard_abc_c_locked).
Proof.
  destruct shard_abc_c_locked_ok as (ids_of & Hok & Htable).
  apply (flushAllUnlockedLists_keeps_values shard_abc_c_locked ids_of Hok Htable).
  vm_compute. discriminate.
Defined.

Lemma flushAllListsOrThrowIfLocked_keeps_values_witness :
  map (fun entry => Block.has_data (List.block_ (Table.slot_list (snd entry))))
      (Table.map_ (Shard.table_ shard_abc_c_locked)) = [true; true; true]
  /\ map (fun entry => Table.tryLockUnique (Table.slot_mutex (snd entry)))
         (Table.map_ (Shard.table_ shard_abc_c_locked)) = [true; true; false]
  /\ Store.num_blocks (Shard.store_ shard_abc_c_locked) = 0
  /\ exists w,
       Table.flushAllListsOrThrowIfLocked (Shard.table_ shard_abc_c_locked)
         (Shard.store_ shard_abc_c_locked) = Thrown w
       /\ stopped_at_locked (Table.map_ (Shard.table_ shard_abc_c_locked))
            (Table.map_ (snd w))
       /\ map (fun entry =>
                 Block.has_data (List.block_ (Table.slot_list (snd entry))))
              (Table.map_ (snd w)) = [false; false; true]
       /\ Store.num_blocks (fst w) = 2
       /\ forall key, Shard.get key (shard_of w) = Shard.get key shard_abc_c_locked.
Proof.
  split; [vm_compute; reflexivity |].
  split; [vm_compute; reflexivity |].
  split; [vm_compute; reflexivity |].
  destruct shard_abc_c_locked_ok as (ids_of & Hok & Htable).
  assert (Hcap : Store.num_blocks (Shard.store_ shard_abc_c_locked)
                 + Z.of_nat (length (Table.map_ (Shard.table_ shard_abc_c_locked)))
                 <= Varint.N4_MAX_UINT + 1) by (vm_compute; discriminate).
  destruct (flushAllListsOrThrowIfLocked_keeps_values shard_abc_c_locked ids_of
              Hok Htable Hcap) as (w & [(_ & Hrun & _) | (_ & Hrun & Hstop & _)] & Hget).
  - vm_compute in Hrun. discriminate Hrun.
  - exists w. split; [exact Hrun |]. split; [exact Hstop |].
    split; [| split; [| exact Hget]];
      vm_compute in Hrun; injection Hrun as Hrun; rewrite <- Hrun;
      vm_compute; reflexivity.
Defined.

(** ** The id vector: size of the encoding *)

Lemma deltas_length_le (prev : Z) (ids : list Z) :
  0 <= prev ->
  increasing prev ids ->
  Forall (fun id => id <= Varint.N4_MAX_UINT) ids ->
  (length ids <= length (deltas prev ids) <= 4 * length ids)%nat.
Proof.
  revert prev. induction ids as [|id rest IH]; intros prev Hprev Hinc Hmax.
  - cbn. lia.
  - destruct Hinc as [Hlt Hinc]. inversion Hmax as [|? ? Hid Hmax']; subst.
    cbn [deltas length]. rewrite length_app.
    pose proof (bytes_of_length_N4 (id - prev) ltac:(lia)) as Hbs.
    specialize (IH id ltac:(lia) Hinc Hmax'). lia.
Qed.

(** X28.  The id vector is compact: after [n] strictly increasing ids,
    none above [N4_MAX_UINT], have been added to a new vector, its content
    takes between [n + 4] and [4 n + 4] bytes (one to four bytes per id
    and four bytes for the last id), and its buffer is at most half as
    large again as the content, plus twelve bytes. *)
Theorem id_vector_is_compact (ids : list Z) :
  increasing (-1) ids ->
  Forall (fun id => id <= Varint.N4_MAX_UINT) ids ->
  ids <> [] ->
  exists v,
    add_each ids UintVector.init = Some v
    /\ Z.of_nat (length ids) + 4 <= UintVector.offset_ v
       <= 4 * Z.of_nat (length ids) + 4
    /\ UintVector.offset_ v <= UintVector.size_ v
    /\ 2 * UintVector.size_ v <= 3 * UintVector.offset_ v + 24
    /\ length (UintVector.data_ v) = Z.to_nat (UintVector.size_ v).
Proof.
  intros Hinc Hmax Hne.
  destruct (add_each_represents ids UintVector.init [] represents_init_nil Hinc Hmax)
    as (v & Heach & Hrep).
  cbn [app] in Hrep. exists v. split; [exact Heach |].
  destruct (represents_shape v ids Hrep Hne) as (Hlen & Hoffset & Hle & _).
  destruct Hrep as (_ & _ & Hgrow & _).
  assert (Hdeltas : (length ids <= length (deltas 0 ids) <= 4 * length ids)%nat).
  { destruct ids as [|x rest]; [contradiction |].
    destruct Hinc as [Hx Hinc]. inversion Hmax as [|? ? Hid Hmax']; subst.
    cbn [deltas length]. rewrite length_app.
    pose proof (bytes_of_length_N4 (x - 0) ltac:(lia)) as Hbs.
    pose proof (deltas_length_le x rest ltac:(lia) Hinc Hmax'). lia. }
  repeat split; try assumption; lia.
Qed.

Lemma id_vector_is_compact_witness :
  exists v,
    add_each [0; 1; 200; 20000; 2 ^ 28 - 1] UintVector.init = Some v
    /\ Z.of_nat (length [0; 1; 200; 20000; 2 ^ 28 - 1]) + 4 <= UintVector.offset_ v
       <= 4 * Z.of_nat (length [0; 1; 200; 20000; 2 ^ 28 - 1]) + 4
    /\ UintVector.offset_ v <= UintVector.size_ v
    /\ 2 * UintVector.size_ v <= 3 * UintVector.offset_ v + 24
    /\ length (UintVector.data_ v) = Z.to_nat (UintVector.size_ v).
Proof.
  apply id_vector_is_compact.
  - cbn. lia.
  - repeat constructor; vm_compute; discriminate.
  - discriminate.
Defined.

(** ** Lists share no block *)

(** X29.  In a reachable shard no block belongs to two lists: the id
    vectors of the lists of two different keys unpack to ids that are
    pairwise different; the ids of a list are distinct and name blocks of
    the store. *)
Theorem lists_share_no_block (key1 key2 : Bytes) (sh : Shard.t) :
  reachable sh ->
  key1 <> key2 ->
  exists ids1 ids2,
    UintVector.unpack (List.block_ids (List.head_ (list_of key1 sh))) = Some ids1
    /\ UintVector.unpack (List.block_ids (List.head_ (list_of key2 sh))) = Some ids2
    /\ (forall id, In id ids1 -> ~ In id ids2)
    /\ NoDup ids1
    /\ Forall (fun id => 0 <= id < Store.num_blocks (Shard.store_ sh)) ids1.
Proof.
  intros Hreach Hne. destruct (reachable_ok sh Hreach) as [ids_of [Hwf Hdisj]].
  exists (ids_of key1), (ids_of key2).
  split; [exact (unpack_represents _ _ (proj1 (Hwf key1))) |].
  split; [exact (unpack_represents _ _ (proj1 (Hwf key2))) |].
  split; [intros id; exact (Hdisj key1 key2 id Hne) |].
  destruct (well_formed_ids_range _ _ _ (Hwf key1)) as [Hrange Hnd].
  split; assumption.
Qed.

Lemma lists_share_no_block_witness :
  UintVector.unpack (List.block_ids (List.head_ (list_of Examples.key_a sh8)))
  = Some [0; 1; 3]
  /\ UintVector.unpack (List.block_ids (List.head_ (list_of Examples.key_b sh8)))
     = Some [2]
  /\ Store.num_blocks (Shard.store_ sh8) = 4
  /\ (forall id, In id [0; 1; 3] -> ~ In id [2])
  /\ NoDup [0; 1; 3]
  /\ Forall (fun id => 0 <= id < Store.num_blocks (Shard.store_ sh8)) [0; 1; 3].
Proof.
  assert (Hreach : reachable sh8).
  { apply (reachable_step (OpFlush Examples.key_a) sh7);
      [ apply (reachable_step (OpFlush Examples.key_b) Scenario.sh6);
        [ scenario_reachable | vm_compute; discriminate | vm_compute; reflexivity ]
      | vm_compute; discriminate | vm_compute; reflexivity ]. }
  assert (Hne : Examples.key_a <> Examples.key_b) by discriminate.
  destruct (lists_share_no_block Examples.key_a Examples.key_b sh8 Hreach Hne)
    as (ids1 & ids2 & H1 & H2 & Hdisjoint & Hnodup & Hrange).
  vm_compute in H1. injection H1 as H1. subst ids1.
  vm_compute in H2. injection H2 as H2. subst ids2.
  split; [vm_compute; reflexivity |].
  split; [vm_compute; reflexivity |].
  split; [vm_compute; reflexivity |].
  split; [exact Hdisjoint |]. split; [exact Hnodup | exact Hrange].
Defined.
